(** * openclaw-mini: session log, tool-result guard, agent loop, context pruning

    A shallow embedding of the execution core of the agent runtime:

    - [src/session.ts]: messages, session entries, the in-memory session
      state, persistence decisions and the reconstruction of the live context;
    - [src/session-tool-result-guard.ts]: the guard that pairs every
      [tool_use] with a [tool_result];
    - [src/agent-loop.ts] (event-stream version): the two-level loop, steering
      preemption and overflow compaction;
    - [src/context/pruning.ts]: the three pruning layers;
    - [src/session-write-lock.ts]: the cross-process write lock.

    The later modules follow the same files further: the guard under
    arbitrary call sequences, the effects and the termination of the loop,
    the steering queues of [src/agent.ts], the session file with restart
    and migration, the writes of the session manager under the lock, the
    compaction helpers that share a file with the pruning layers, and the
    [.env] loader of the command line.

    JavaScript strings are modelled by [string] (one character per code
    unit), numbers that the code uses as integers by [Z], settings that are
    ratios by [Q]; where the pruning layers multiply, divide or compare
    such numbers, they do so on IEEE 754 doubles.  Everything the code
    obtains from the outside world (clock, random ids, provider answers,
    tool outputs, steering queue, process table, the outcome of a write to
    disk) is an explicit input of the model. *)

From Stdlib Require Import Ascii ZArith QArith Qround Qminmax Lia Lqa Sorting.Sorted.
From Stdlib Require Floats.
From stdpp Require Import gmap strings list pretty.

(** ** Messages (src/session.ts) *)

Inductive Role := user | assistant.

Inductive BlockType := ty_text | ty_tool_use | ty_tool_result.

(** [Record<string, unknown>]: tool arguments, kept in serialized form. *)
Definition Json := string.

(** [ContentBlock]: one interface with optional fields, as in the source. *)
Record ContentBlock := {
  block_type : BlockType;
  block_text : option string;
  block_id : option string;
  block_name : option string;
  block_input : option Json;
  tool_use_id : option string;
  block_content : option string;
}.

(** [content: string | ContentBlock[]] *)
Inductive Content :=
| Text (s : string)
| Blocks (bs : list ContentBlock).

Record Message := {
  role : Role;
  content : Content;
  timestamp : Z;
}.

#[global] Instance Role_eq_dec : EqDecision Role.
Proof. solve_decision. Defined.
#[global] Instance BlockType_eq_dec : EqDecision BlockType.
Proof. solve_decision. Defined.
#[global] Instance ContentBlock_eq_dec : EqDecision ContentBlock.
Proof. solve_decision. Defined.
#[global] Instance Content_eq_dec : EqDecision Content.
Proof. solve_decision. Defined.
#[global] Instance Message_eq_dec : EqDecision Message.
Proof. solve_decision. Defined.

(** The line feed character, as a string. *)
Definition LF : string := String (Ascii.ascii_of_nat 10) "".

(** JavaScript truthiness of an optional string: defined and non-empty. *)
Definition truthy (o : option string) : bool :=
  match o with
  | Some s => negb (String.eqb s "")
  | None => false
  end.

Definition mkText (s : string) : ContentBlock :=
  {| block_type := ty_text; block_text := Some s; block_id := None;
     block_name := None; block_input := None; tool_use_id := None;
     block_content := None |}.

Definition mkToolUse (i n : string) (args : Json) : ContentBlock :=
  {| block_type := ty_tool_use; block_text := None; block_id := Some i;
     block_name := Some n; block_input := Some args; tool_use_id := None;
     block_content := None |}.

Definition mkToolResult (i : string) (n : option string) (c : string) : ContentBlock :=
  {| block_type := ty_tool_result; block_text := None; block_id := None;
     block_name := n; block_input := None; tool_use_id := Some i;
     block_content := Some c |}.

(** ** Tool-result guard (src/session-tool-result-guard.ts) *)

Module Guard.

(** [type ToolCall = { id: string; name?: string }] *)
Record ToolCall := { call_id : string; call_name : option string }.

Definition toolUseOfBlock (b : ContentBlock) : option ToolCall :=
  match block_type b, block_id b with
  | ty_tool_use, Some i =>
      if truthy (Some i) then Some {| call_id := i; call_name := block_name b |}
      else None
  | _, _ => None
  end.

Definition extractToolUsesFromAssistant (msg : Message) : list ToolCall :=
  match role msg, content msg with
  | assistant, Blocks bs => omap toolUseOfBlock bs
  | _, _ => []
  end.

Definition toolResultIdOfBlock (b : ContentBlock) : option string :=
  match block_type b, tool_use_id b with
  | ty_tool_result, Some i => if truthy (Some i) then Some i else None
  | _, _ => None
  end.

Definition extractToolResultIds (msg : Message) : list string :=
  match role msg, content msg with
  | user, Blocks bs => omap toolResultIdOfBlock bs
  | _, _ => []
  end.

Definition missingToolResultText : string :=
  "[openclaw-mini] missing tool result in session history; inserted synthetic error result for transcript repair.".

Definition makeMissingToolResult (toolCallId : string) (toolName : option string)
  : ContentBlock :=
  mkToolResult toolCallId toolName missingToolResultText.

(** [Map<string, string | undefined>]: a JavaScript [Map] iterates in
    insertion order, so the pending calls are an association list. *)
Abbreviation Pending := (list (string * option string)).

Fixpoint pending_set (k : string) (v : option string) (p : Pending) : Pending :=
  match p with
  | [] => [(k, v)]
  | (k', v') :: p' =>
      if String.eqb k' k then (k', v) :: p' else (k', v') :: pending_set k v p'
  end.

Definition pending_delete (k : string) (p : Pending) : Pending :=
  filter (λ kv, kv.1 ≠ k) p.

Definition pending_keys (p : Pending) : list string := p.*1.

(** The value of [sessionManager.append]: the class method, or the closure
    that an installation of the guard put in its place.  A closure captures
    its own [pendingBySession] map (a heap cell, named by its index) and the
    append function it replaced ([originalAppend]). *)
Inductive AppendFn :=
| prototypeAppend
| guardedAppend (pendingBySession : nat) (originalAppend : AppendFn).

(** The object returned by [installSessionToolResultGuard]; its two methods
    close over the same variables as the patched append. *)
Record ToolResultGuard := {
  guard_pendingBySession : nat;
  guard_originalAppend : AppendFn;
}.

(** The session manager as the guard sees it: [transcripts] is the message
    sequence that [SessionManager.prototype.append] has recorded for each
    session (see [SessionFacts.append_load] below); [heap] holds the
    [pendingBySession] maps of the guard closures created so far. *)
Record SessionManager := {
  transcripts : gmap string (list Message);
  append : AppendFn;
  toolResultGuardInstalled : bool;
  toolResultGuard : option ToolResultGuard;
  heap : list (gmap string Pending);
}.

#[global] Instance AppendFn_eq_dec : EqDecision AppendFn.
Proof. solve_decision. Defined.
#[global] Instance ToolResultGuard_eq_dec : EqDecision ToolResultGuard.
Proof. solve_decision. Defined.

Definition transcript (sm : SessionManager) (sessionKey : string) : list Message :=
  default [] (transcripts sm !! sessionKey).

Definition pendingBySession (ref : nat) (sm : SessionManager) : gmap string Pending :=
  default ∅ (heap sm !! ref).

Definition set_pendingBySession (ref : nat) (m : gmap string Pending)
    (sm : SessionManager) : SessionManager :=
  {| transcripts := transcripts sm; append := append sm;
     toolResultGuardInstalled := toolResultGuardInstalled sm;
     toolResultGuard := toolResultGuard sm;
     heap := <[ref := m]> (heap sm) |}.


(** The outcomes of the persist attempts to come, in order: [true] when
    [persistEntry] returns, [false] when it throws (the write lock times
    out, a write fails).  Attempts beyond the list return. *)
Abbreviation Persists := (list bool).

(** What a call of an asynchronous method leaves: the manager, the persist
    outcomes it did not use up, and whether the call returned ([false]: it
    threw). *)
Abbreviation Completion := (SessionManager * Persists * bool)%type.

(** [await first; next]: what follows an awaited call runs only when the
    call returned; an exception passes through. *)
Definition andThen (first : Completion) (next : SessionManager → Persists → Completion)
  : Completion :=
  let '(sm, persists, returned) := first in
  if returned then next sm persists else (sm, persists, false).

(** [SessionManager.prototype.append], reduced to its effect on the
    session's message sequence.  The entry is pushed onto the in-memory log
    before [persistEntry] runs, so the message is in the log whether
    [persistEntry] returns or throws; [ensureState], which comes first,
    catches its own errors. *)
Definition SessionManager_append (sessionKey : string) (message : Message)
    (sm : SessionManager) (persists : Persists) : Completion :=
  ({| transcripts := <[sessionKey := transcript sm sessionKey ++ [message]]> (transcripts sm);
      append := append sm;
      toolResultGuardInstalled := toolResultGuardInstalled sm;
      toolResultGuard := toolResultGuard sm;
      heap := heap sm |},
   tail persists, hd true persists).

(** [getPending]: creates the session's map on first use. *)
Definition getPending (ref : nat) (sessionKey : string) (sm : SessionManager)
  : Pending * SessionManager :=
  match pendingBySession ref sm !! sessionKey with
  | Some m => (m, sm)
  | None => ([], set_pendingBySession ref (<[sessionKey := []]> (pendingBySession ref sm)) sm)
  end.

(** The pending map of a session, read through the reference the closure
    holds ([pending.size], [pending.entries()]). *)
Definition readPending (ref : nat) (sessionKey : string) (sm : SessionManager) : Pending :=
  default [] (pendingBySession ref sm !! sessionKey).

Definition writePending (ref : nat) (sessionKey : string) (p : Pending)
    (sm : SessionManager) : SessionManager :=
  set_pendingBySession ref (<[sessionKey := p]> (pendingBySession ref sm)) sm.

Section Closure.
(** The variables a guard closure captures. *)
Variable ref : nat.
Variable originalAppend : string → Message → SessionManager → Persists → Completion.

(** The map is cleared before the synthetic message is appended, so it is
    empty also when that append throws. *)
Definition flushPendingToolResultsWith (sessionKey : string) (now : Z)
    (sm : SessionManager) (persists : Persists) : Completion :=
  match pendingBySession ref sm !! sessionKey with
  | None => (sm, persists, true)
  | Some pending =>
      if decide (length pending = 0) then (sm, persists, true)
      else
        let results := map (λ kv, makeMissingToolResult kv.1 kv.2) pending in
        let sm := writePending ref sessionKey [] sm in
        originalAppend sessionKey
          {| role := user; content := Blocks results; timestamp := now |} sm persists
  end.

(** The patched [append].  When the append of the message throws, the loop
    over [toolCalls] that records the new calls is not reached. *)
Definition guardedAppendWith (sessionKey : string) (message : Message) (now : Z)
    (sm : SessionManager) (persists : Persists) : Completion :=
  let '(pending, sm) := getPending ref sessionKey sm in
  let resultIds := extractToolResultIds message in
  if decide (0 < length resultIds) then
    let pending := foldl (λ p i, pending_delete i p) pending resultIds in
    originalAppend sessionKey message (writePending ref sessionKey pending sm) persists
  else
    let toolCalls := extractToolUsesFromAssistant message in
    andThen
      (if decide (0 < length (readPending ref sessionKey sm) ∧ length toolCalls = 0)
       then flushPendingToolResultsWith sessionKey now sm persists
       else (sm, persists, true))
      (λ sm persists,
    andThen
      (if decide (0 < length (readPending ref sessionKey sm) ∧ 0 < length toolCalls)
       then flushPendingToolResultsWith sessionKey now sm persists
       else (sm, persists, true))
      (λ sm persists,
    andThen (originalAppend sessionKey message sm persists)
      (λ sm persists,
    (writePending ref sessionKey
       (foldl (λ p c, pending_set (call_id c) (call_name c) p)
              (readPending ref sessionKey sm) toolCalls) sm,
     persists, true)))).
End Closure.

(** Calling an append function; [now] is the value of [Date.now()] during
    the call. *)
Fixpoint callAppend (f : AppendFn) (now : Z) (sessionKey : string) (message : Message)
    (sm : SessionManager) (persists : Persists) : Completion :=
  match f with
  | prototypeAppend => SessionManager_append sessionKey message sm persists
  | guardedAppend ref orig =>
      guardedAppendWith ref (callAppend orig now) sessionKey message now sm persists
  end.

Definition flushPendingToolResults (g : ToolResultGuard) (sessionKey : string) (now : Z)
    (sm : SessionManager) (persists : Persists) : Completion :=
  flushPendingToolResultsWith (guard_pendingBySession g)
    (callAppend (guard_originalAppend g) now) sessionKey now sm persists.

Definition getPendingIds (g : ToolResultGuard) (sessionKey : string)
    (sm : SessionManager) : list string :=
  pending_keys (readPending (guard_pendingBySession g) sessionKey sm).

Definition installSessionToolResultGuard (sm : SessionManager)
  : ToolResultGuard * SessionManager :=
  match toolResultGuardInstalled sm, toolResultGuard sm with
  | true, Some g => (g, sm)
  | _, _ =>
      let ref := length (heap sm) in
      let guard := {| guard_pendingBySession := ref; guard_originalAppend := append sm |} in
      (guard,
       {| transcripts := transcripts sm;
          append := guardedAppend ref (append sm);
          toolResultGuardInstalled := true;
          toolResultGuard := Some guard;
          heap := heap sm ++ [∅] |})
  end.

(** [new SessionManager(...)]; the transcripts stand for what the session
    files on disk contain. *)
Definition newSessionManager (onDisk : gmap string (list Message)) : SessionManager :=
  {| transcripts := onDisk; append := prototypeAppend;
     toolResultGuardInstalled := false; toolResultGuard := None; heap := [] |}.

(** [sessions.append(sessionKey, message)]: the call goes through whatever
    function the [append] property currently holds. *)
Definition sessions_append (sessionKey : string) (message : Message) (now : Z)
    (sm : SessionManager) (persists : Persists) : Completion :=
  callAppend (append sm) now sessionKey message sm persists.

End Guard.

(** ** The guard, one session at a time *)

Module GuardSession.
Import Guard.

(** The calls an [Agent] makes on its guarded session manager:
    [this.sessions.append(...)] and, in the [finally] of [run],
    [this.toolResultGuard.flushPendingToolResults(sessionKey)], each with
    the outcomes of the persist attempts made during the call. *)
Inductive Call :=
| CallAppend (sessionKey : string) (message : Message) (now : Z) (persists : Persists)
| CallFlush (sessionKey : string) (now : Z) (persists : Persists).

(** The manager after a call, whether it returned or threw. *)
Definition perform (g : ToolResultGuard) (sm : SessionManager) (c : Call) : SessionManager :=
  match c with
  | CallAppend sessionKey message now persists =>
      (sessions_append sessionKey message now sm persists).1.1
  | CallFlush sessionKey now persists =>
      (flushPendingToolResults g sessionKey now sm persists).1.1
  end.

Definition runCalls (g : ToolResultGuard) (calls : list Call) (sm : SessionManager)
  : SessionManager :=
  foldl (perform g) sm calls.

(** A call after which the guard knows the calls it has to answer: the
    append of an assistant message with tool calls during which no persist
    attempt throws, or any other call. *)
Definition Tracked (c : Call) : Prop :=
  match c with
  | CallAppend _ message _ persists =>
      extractToolUsesFromAssistant message = [] ∨ Forall (λ b, b = true) persists
  | CallFlush _ _ _ => True
  end.

(** The agent's constructor: [this.sessions = new SessionManager(dir);
    this.toolResultGuard = installSessionToolResultGuard(this.sessions)]. *)
Definition newAgent (onDisk : gmap string (list Message)) : ToolResultGuard * SessionManager :=
  installSessionToolResultGuard (newSessionManager onDisk).

Definition resultBearing (m : Message) : Prop := extractToolResultIds m ≠ [].

(** The ids of the calls the guard tracks for a message. *)
Definition toolUseIds (m : Message) : list string :=
  call_id <$> extractToolUsesFromAssistant m.

(** The ids of the [tool_use] blocks of an assistant message as the message
    carries them, an empty id included. *)
Definition toolUseBlockIds (m : Message) : list string :=
  match role m, content m with
  | assistant, Blocks bs =>
      omap (λ b, match block_type b with ty_tool_use => block_id b | _ => None end) bs
  | _, _ => []
  end.

Definition resultIdsOf (seg : list Message) : list string :=
  seg ≫= extractToolResultIds.

(** The synthetic message a flush appends for the pending calls [p]. *)
Definition syntheticResults (p : Pending) (now : Z) : Message :=
  {| role := user;
     content := Blocks (map (λ kv, makeMissingToolResult kv.1 kv.2) p);
     timestamp := now |}.

(** Matching, as the session log shows it: the tool-result messages that
    follow an assistant message, up to the next message of another kind,
    together answer every tool call of the assistant message. *)
Definition Matched (L : list Message) : Prop :=
  ∀ pre M seg N rest,
    L = pre ++ M :: seg ++ N :: rest →
    Forall resultBearing seg → ¬ resultBearing N →
    ∀ i, i ∈ toolUseIds M → i ∈ resultIdsOf seg.

(** Calls of the last message that is not a tool-result message are answered
    by the messages after it or are among the ids [P]. *)
Definition Covered (P : list string) (L : list Message) : Prop :=
  ∀ pre M seg,
    L = pre ++ M :: seg → Forall resultBearing seg →
    ∀ i, i ∈ toolUseIds M → i ∈ resultIdsOf seg ∨ i ∈ P.

(** The same two properties on the [tool_use] blocks themselves: every
    block id that is not empty has its result. *)
Definition CallsAnswered (L : list Message) : Prop :=
  ∀ pre M seg N rest,
    L = pre ++ M :: seg ++ N :: rest →
    Forall resultBearing seg → ¬ resultBearing N →
    ∀ i, i ∈ toolUseBlockIds M → i ≠ "" → i ∈ resultIdsOf seg.

Definition CallsAnsweredToTheEnd (L : list Message) : Prop :=
  ∀ pre M seg,
    L = pre ++ M :: seg → Forall resultBearing seg →
    ∀ i, i ∈ toolUseBlockIds M → i ≠ "" → i ∈ resultIdsOf seg.

(** The reading of the specification: one single user message answers all
    the [tool_use] ids of the assistant message. *)
Definition MatchedByOneMessage (L : list Message) : Prop :=
  ∀ pre M seg N rest,
    L = pre ++ M :: seg ++ N :: rest →
    role M = assistant → toolUseBlockIds M ≠ [] →
    Forall resultBearing seg → ¬ resultBearing N →
    ∃ U, U ∈ seg ∧ role U = user ∧ toolUseBlockIds M ⊆ extractToolResultIds U.

(** What a flush does to a session's log and pending map; the outcome of
    the persist attempt does not change either. *)
Definition flushStep (now : Z) (st : list Message * Pending) : list Message * Pending :=
  let '(log, pending) := st in
  if decide (length pending = 0) then (log, pending)
  else (log ++ [syntheticResults pending now], []).

(** What one guarded append does to a session's log and pending map.  The
    message is not appended when the synthetic message before it was not
    persisted, and its calls are not recorded when the message itself was
    not. *)
Definition appendStep (message : Message) (now : Z) (persists : Persists)
    (st : list Message * Pending) : list Message * Pending :=
  let '(log, pending) := st in
  let resultIds := extractToolResultIds message in
  if decide (0 < length resultIds) then
    (log ++ [message], foldl (λ p i, pending_delete i p) pending resultIds)
  else
    let toolCalls := extractToolUsesFromAssistant message in
    let recorded := foldl (λ p c, pending_set (call_id c) (call_name c) p) [] toolCalls in
    if decide (length pending = 0) then
      (log ++ [message], if hd true persists then recorded else [])
    else if hd true persists then
      (log ++ [syntheticResults pending now; message],
       if hd true (tail persists) then recorded else [])
    else (log ++ [syntheticResults pending now], []).

(** Whether that guarded append returns. *)
Definition appendReturns (message : Message) (persists : Persists)
    (st : list Message * Pending) : bool :=
  if decide (0 < length (extractToolResultIds message)) then hd true persists
  else if decide (length st.2 = 0) then hd true persists
  else hd true persists && hd true (tail persists).

(** A manager whose [append] is the class method wrapped by one guard. *)
Record GuardedOnce (g : ToolResultGuard) (sm : SessionManager) : Prop := {
  once_append : append sm = guardedAppend (guard_pendingBySession g) prototypeAppend;
  once_original : guard_originalAppend g = prototypeAppend;
  once_heap : guard_pendingBySession g < length (heap sm);
}.

Definition sessionView (g : ToolResultGuard) (sm : SessionManager) (k : string)
  : list Message * Pending :=
  (transcript sm k, readPending (guard_pendingBySession g) k sm).

Definition callStep (k : string) (c : Call) (st : list Message * Pending)
  : list Message * Pending :=
  match c with
  | CallAppend k' message now persists =>
      if decide (k' = k) then appendStep message now persists st else st
  | CallFlush k' now _ => if decide (k' = k) then flushStep now st else st
  end.

(** The pending map of a session holds each id once, and no empty id. *)
Definition PendingOk (p : Pending) : Prop :=
  NoDup (pending_keys p) ∧ Forall (λ k, k ≠ "") (pending_keys p).

(** The invariant of a session: [T0] is the log the session had when the
    guard was installed, the rest was appended through the guard. *)
Definition InvFrom (T0 : list Message) (st : list Message * Pending) : Prop :=
  ∃ L, st.1 = T0 ++ L ∧ Matched L ∧ Covered (pending_keys st.2) L ∧ PendingOk st.2.

(** [installSessionToolResultGuard] called [n] times in a row on the same
    manager; the guards it returned, in order. *)
Fixpoint installTimes (n : nat) (sm : SessionManager)
  : list ToolResultGuard * SessionManager :=
  match n with
  | 0 => ([], sm)
  | S n =>
      let '(g, sm) := installSessionToolResultGuard sm in
      let '(gs, sm) := installTimes n sm in
      (g :: gs, sm)
  end.

(** A batch of two calls of which only the first is answered before the
    user speaks again. *)
Definition twoCalls : Message :=
  {| role := assistant;
     content := Blocks [mkToolUse "a" "read" "{}"; mkToolUse "b" "read" "{}"];
     timestamp := 1 |}.
Definition firstAnswered : Message :=
  {| role := user; content := Blocks [mkToolResult "a" (Some "read") "ok"]; timestamp := 2 |}.
Definition plainUser : Message :=
  {| role := user; content := Text "hi"; timestamp := 3 |}.
Definition partialAnswerCalls : list Call :=
  [CallAppend "s" twoCalls 10 []; CallAppend "s" firstAnswered 20 [];
   CallAppend "s" plainUser 30 []].
Definition partialAnswerRun : SessionManager :=
  runCalls (newAgent ∅).1 partialAnswerCalls (newAgent ∅).2.

(** A [tool_use] block whose id is the empty string, then a plain user
    message. *)
Definition emptyIdCall : Message :=
  {| role := assistant; content := Blocks [mkToolUse "" "read" "{}"]; timestamp := 1 |}.
Definition emptyIdRun : SessionManager :=
  runCalls (newAgent ∅).1
    [CallAppend "s" emptyIdCall 10 []; CallAppend "s" plainUser 30 []; CallFlush "s" 40 []]
    (newAgent ∅).2.

Definition oneCall : Message :=
  {| role := assistant; content := Blocks [mkToolUse "x1" "read" "{}"]; timestamp := 1 |}.

(** The append of an assistant message with a call throws at its persist
    attempt; the user writes again, and the run ends with the flush of its
    [finally]. *)
Definition thrownAppendRun : SessionManager :=
  runCalls (newAgent ∅).1
    [CallAppend "s" oneCall 10 [false]; CallAppend "s" plainUser 30 []; CallFlush "s" 40 []]
    (newAgent ∅).2.

(** The wording the specification gives for the synthetic result. *)
Definition claimedPlaceholder : string :=
  "missing tool result in session history; synthetic error result inserted".

End GuardSession.

(** ** Facts about the guard *)

Module GuardFacts.
Import Guard GuardSession.

Section HeapViews.
Context (ref : nat).

Lemma pendingBySession_set m sm :
  ref < length (heap sm) → pendingBySession ref (set_pendingBySession ref m sm) = m.
Proof.
  intros H. unfold pendingBySession, set_pendingBySession; simpl.
  by rewrite list_lookup_insert_eq.
Qed.

Lemma readPending_write k k' p sm :
  ref < length (heap sm) →
  readPending ref k' (writePending ref k p sm) = if decide (k = k') then p else readPending ref k' sm.
Proof.
  intros H. unfold readPending, writePending. rewrite pendingBySession_set by done.
  case_decide; simplify_map_eq; done.
Qed.

Lemma transcript_write k k' p sm : transcript (writePending ref k p sm) k' = transcript sm k'.
Proof. done. Qed.

Lemma heap_write k p sm : length (heap (writePending ref k p sm)) = length (heap sm).
Proof. unfold writePending, set_pendingBySession; simpl. by rewrite length_insert. Qed.

Lemma readPending_append k k' m sm ps :
  readPending ref k' (SessionManager_append k m sm ps).1.1 = readPending ref k' sm.
Proof. done. Qed.

Lemma transcript_append k k' m sm ps :
  transcript (SessionManager_append k m sm ps).1.1 k' =
  if decide (k = k') then transcript sm k ++ [m] else transcript sm k'.
Proof.
  unfold transcript at 1, SessionManager_append; simpl.
  case_decide; simplify_map_eq; done.
Qed.

Lemma andThen_append k m sm ps next :
  andThen (SessionManager_append k m sm ps) next =
  if hd true ps then next (SessionManager_append k m sm ps).1.1 (tail ps)
  else ((SessionManager_append k m sm ps).1.1, tail ps, false).
Proof. unfold andThen, SessionManager_append. by destruct (hd true ps). Qed.

Lemma andThen_value sm ps (returned : bool) next :
  andThen (sm, ps, returned) next = if returned then next sm ps else (sm, ps, false).
Proof. done. Qed.

Lemma getPending_spec k sm :
  ref < length (heap sm) →
  let '(p, sm') := getPending ref k sm in
  p = readPending ref k sm ∧ ref < length (heap sm') ∧ append sm' = append sm ∧
  (∀ k', transcript sm' k' = transcript sm k' ∧ readPending ref k' sm' = readPending ref k' sm).
Proof.
  intros H. unfold getPending.
  destruct (pendingBySession ref sm !! k) as [p|] eqn:E.
  - split_and!; try done. unfold readPending. by rewrite E.
  - split_and!; try done.
    + unfold readPending. by rewrite E.
    + unfold set_pendingBySession; simpl. by rewrite length_insert.
    + intros k'. split; [done|].
      unfold readPending. rewrite pendingBySession_set by done.
      destruct (decide (k = k')) as [->|]; simplify_map_eq; by rewrite ?E.
Qed.

(** A flush, seen from each session; it uses up one persist outcome when
    something was pending. *)
Lemma flush_spec k now sm ps :
  ref < length (heap sm) →
  let d := flushPendingToolResultsWith ref SessionManager_append k now sm ps in
  ref < length (heap d.1.1) ∧ append d.1.1 = append sm ∧
  (∀ k', (transcript d.1.1 k', readPending ref k' d.1.1) =
         if decide (k = k') then flushStep now (transcript sm k', readPending ref k' sm)
         else (transcript sm k', readPending ref k' sm)) ∧
  (d.1.2, d.2) = if decide (length (readPending ref k sm) = 0) then (ps, true)
                 else (tail ps, hd true ps).
Proof.
  intros H. unfold flushPendingToolResultsWith.
  destruct (pendingBySession ref sm !! k) as [p|] eqn:E.
  - assert (readPending ref k sm = p) as Hp by (unfold readPending; by rewrite E).
    rewrite Hp.
    destruct (decide (length p = 0)) as [Hz|Hz]; cbn zeta.
    + split_and!; try done. intros k'. cbn [fst snd].
      destruct (decide (k = k')) as [<-|]; [|done].
      unfold flushStep. rewrite Hp. by rewrite decide_True.
    + split_and!.
      * simpl. by rewrite length_insert.
      * done.
      * intros k'. rewrite transcript_append, readPending_append, readPending_write by done.
        rewrite transcript_write.
        destruct (decide (k = k')) as [<-|]; [|done].
        unfold flushStep. rewrite Hp. by rewrite decide_False.
      * done.
  - assert (readPending ref k sm = []) as Hp by (unfold readPending; by rewrite E).
    rewrite Hp. cbn zeta.
    split_and!; try done. intros k'. cbn [fst snd].
    destruct (decide (k = k')) as [<-|]; [|done].
    unfold flushStep. by rewrite Hp.
Qed.

End HeapViews.

Section AppendView.
Context (ref : nat).

(** The two consecutive [if (pending.size > 0 && ...)] tests of the patched
    append amount to one flush. *)
Lemma two_tests k now n sm ps next :
  ref < length (heap sm) →
  andThen
    (if decide (0 < length (readPending ref k sm) ∧ n = 0)
     then flushPendingToolResultsWith ref SessionManager_append k now sm ps
     else (sm, ps, true))
    (λ sm ps,
       andThen
         (if decide (0 < length (readPending ref k sm) ∧ 0 < n)
          then flushPendingToolResultsWith ref SessionManager_append k now sm ps
          else (sm, ps, true))
         next) =
  andThen (flushPendingToolResultsWith ref SessionManager_append k now sm ps) next.
Proof.
  intros H.
  pose proof (flush_spec ref k now sm ps H) as (H1 & _ & F & R).
  destruct (decide (length (readPending ref k sm) = 0)) as [Hz|Hz].
  - rewrite (decide_False (P := (0 < length (readPending ref k sm) ∧ n = 0))) by lia.
    unfold andThen at 1. rewrite decide_False by lia.
    unfold flushPendingToolResultsWith, readPending in *.
    destruct (pendingBySession ref sm !! k) as [p|]; [|done].
    simpl in Hz. by rewrite decide_True.
  - destruct (decide (n = 0)) as [Hn|Hn].
    + rewrite (decide_True (P := (0 < length (readPending ref k sm) ∧ n = 0))) by lia.
      specialize (F k). rewrite decide_True in F by done.
      destruct (flushPendingToolResultsWith ref SessionManager_append k now sm ps)
        as [[sm2 ps2] ok]. cbn [fst snd] in F.
      unfold andThen at 1. destruct ok; [|done].
      rewrite decide_False; [done|].
      unfold flushStep in F. rewrite decide_False in F by done.
      injection F as _ ->. simpl. lia.
    + rewrite (decide_False (P := (0 < length (readPending ref k sm) ∧ n = 0))) by lia.
      unfold andThen at 1. rewrite decide_True by lia. done.
Qed.

(** A guarded append, seen from each session. *)
Lemma append_spec k m now sm ps :
  ref < length (heap sm) →
  let d := guardedAppendWith ref SessionManager_append k m now sm ps in
  ref < length (heap d.1.1) ∧ append d.1.1 = append sm ∧
  (∀ k', (transcript d.1.1 k', readPending ref k' d.1.1) =
         if decide (k = k')
         then appendStep m now ps (transcript sm k', readPending ref k' sm)
         else (transcript sm k', readPending ref k' sm)) ∧
  d.2 = appendReturns m ps (transcript sm k, readPending ref k sm).
Proof.
  intros H. unfold guardedAppendWith.
  pose proof (getPending_spec ref k sm H) as G.
  destruct (getPending ref k sm) as [p sm1]. destruct G as (-> & H1 & Ha1 & G).
  unfold appendReturns.
  destruct (decide (0 < length (extractToolResultIds m))) as [Hr|Hr].
  - split_and!.
    + simpl. by rewrite length_insert.
    + done.
    + intros k'. rewrite transcript_append, readPending_append, readPending_write by done.
      rewrite !transcript_write.
      destruct (decide (k = k')) as [<-|]; [|by destruct (G k') as [-> ->]].
      destruct (G k) as [-> _].
      unfold appendStep. by rewrite decide_True.
    + done.
  - rewrite two_tests by done.
    pose proof (flush_spec ref k now sm1 ps H1) as (H2 & Ha2 & F & R).
    destruct (flushPendingToolResultsWith ref SessionManager_append k now sm1 ps)
      as [[sm2 ps2] ok2].
    cbn [fst snd] in H2, Ha2, F, R.
    destruct (G k) as [Gt Gp]. rewrite Gp in R.
    pose proof (F k) as Fk. rewrite decide_True in Fk by done. rewrite Gt, Gp in Fk.
    unfold flushStep in Fk. rewrite andThen_value. cbn [snd].
    assert (∀ k', k ≠ k' →
              transcript sm2 k' = transcript sm k' ∧
              readPending ref k' sm2 = readPending ref k' sm) as Fo.
    { intros k' Hk. specialize (F k'). rewrite decide_False in F by done.
      destruct (G k') as [<- <-]. by injection F. }
    destruct (decide (length (readPending ref k sm) = 0)) as [Hz|Hz].
    + injection R as -> ->. injection Fk as Ft Fp. rewrite andThen_append.
      destruct (hd true ps) eqn:Eh; cbn [fst snd].
      * split_and!.
        -- simpl. by rewrite length_insert.
        -- simpl. congruence.
        -- intros k'. rewrite readPending_write by (by simpl).
           rewrite !transcript_write, transcript_append, !readPending_append.
           destruct (decide (k = k')) as [<-|Hk]; [|by destruct (Fo k' Hk) as [-> ->]].
           unfold appendStep. rewrite decide_False by done. rewrite decide_True by done.
           rewrite Ft, Fp, Eh.
           by destruct (readPending ref k sm).
        -- done.
      * split_and!.
        -- done.
        -- simpl. congruence.
        -- intros k'. rewrite transcript_append, !readPending_append.
           destruct (decide (k = k')) as [<-|Hk]; [|by destruct (Fo k' Hk) as [-> ->]].
           unfold appendStep. rewrite decide_False by done. rewrite decide_True by done.
           rewrite Ft, Fp, Eh.
           by destruct (readPending ref k sm).
        -- done.
    + injection R as -> ->. injection Fk as Ft Fp.
      destruct (hd true ps) eqn:Eh; cbn [fst snd].
      * rewrite andThen_append. destruct (hd true (tail ps)) eqn:Eh2; cbn [fst snd].
        -- split_and!.
           ++ simpl. by rewrite length_insert.
           ++ simpl. congruence.
           ++ intros k'. rewrite readPending_write by (by simpl).
              rewrite !transcript_write, transcript_append, !readPending_append.
              destruct (decide (k = k')) as [<-|Hk]; [|by destruct (Fo k' Hk) as [-> ->]].
              unfold appendStep. rewrite decide_False by done. rewrite decide_False by done.
              rewrite Ft, Fp, Eh, Eh2. by rewrite <- app_assoc.
           ++ done.
        -- split_and!.
           ++ done.
           ++ simpl. congruence.
           ++ intros k'. rewrite transcript_append, !readPending_append.
              destruct (decide (k = k')) as [<-|Hk]; [|by destruct (Fo k' Hk) as [-> ->]].
              unfold appendStep. rewrite decide_False by done. rewrite decide_False by done.
              rewrite Ft, Fp, Eh, Eh2. by rewrite <- app_assoc.
           ++ done.
      * split_and!.
        -- done.
        -- congruence.
        -- intros k'.
           destruct (decide (k = k')) as [<-|Hk]; [|by destruct (Fo k' Hk) as [-> ->]].
           unfold appendStep. rewrite decide_False by done. rewrite decide_False by done.
           by rewrite Ft, Fp, Eh.
        -- done.
Qed.
End AppendView.

Lemma snoc_split {A} (L pre seg : list A) (x M : A) :
  L ++ [x] = pre ++ M :: seg →
  (seg = [] ∧ M = x ∧ pre = L) ∨ (∃ seg', seg = seg' ++ [x] ∧ L = pre ++ M :: seg').
Proof.
  intros E. destruct seg as [|y seg _] using rev_ind.
  - left. apply app_inj_tail in E as [-> ->]. done.
  - right. exists seg.
    replace (pre ++ M :: seg ++ [y]) with ((pre ++ M :: seg) ++ [y]) in E
      by (by rewrite <- app_assoc).
    apply app_inj_tail in E as [-> ->]. done.
Qed.

Lemma resultIdsOf_snoc seg R : resultIdsOf (seg ++ [R]) = resultIdsOf seg ++ extractToolResultIds R.
Proof. unfold resultIdsOf. rewrite bind_app. simpl. by rewrite app_nil_r. Qed.

Lemma resultBearing_user R : resultBearing R → toolUseIds R = [].
Proof.
  unfold resultBearing, toolUseIds, extractToolResultIds, extractToolUsesFromAssistant.
  destruct (role R); [done|]. intros []. by destruct (content R).
Qed.

Lemma Inv_result L P R P' :
  resultBearing R → Matched L → Covered P L →
  (∀ i, i ∈ P → i ∈ extractToolResultIds R ∨ i ∈ P') →
  Matched (L ++ [R]) ∧ Covered P' (L ++ [R]).
Proof.
  intros HR HM HC HP. split.
  - intros pre M seg N rest E Hseg HN i Hi.
    apply snoc_split in E as [(E & _)|(s' & E & ->)]; [by destruct seg|].
    change (seg ++ N :: rest = s' ++ [R]) in E. symmetry in E.
    apply snoc_split in E as [(-> & -> & _)|(rest' & -> & ->)]; [done|].
    by eapply HM.
  - intros pre M seg E Hseg i Hi.
    apply snoc_split in E as [(-> & -> & _)|(s' & -> & ->)].
    + rewrite resultBearing_user in Hi by done. by inversion Hi.
    + apply Forall_app in Hseg as [Hseg _]. rewrite resultIdsOf_snoc.
      rewrite elem_of_app.
      destruct (HC _ _ _ eq_refl Hseg i Hi) as [?|Hin]; [by left; left|].
      destruct (HP i Hin); [by left; right|by right].
Qed.

Lemma Inv_other L N P' :
  ¬ resultBearing N → Matched L → Covered [] L →
  (∀ i, i ∈ toolUseIds N → i ∈ P') →
  Matched (L ++ [N]) ∧ Covered P' (L ++ [N]).
Proof.
  intros HN HM HC HP. split.
  - intros pre M seg N' rest E Hseg HN' i Hi.
    apply snoc_split in E as [(E & _)|(s' & E & ->)]; [by destruct seg|].
    change (seg ++ N' :: rest = s' ++ [N]) in E. symmetry in E.
    apply snoc_split in E as [(-> & -> & <-)|(rest' & -> & ->)].
    + destruct (HC _ _ _ eq_refl Hseg i Hi) as [?|Hin]; [done|by inversion Hin].
    + by eapply HM.
  - intros pre M seg E Hseg i Hi.
    apply snoc_split in E as [(-> & -> & _)|(s' & -> & ->)].
    + right. by apply HP.
    + rewrite Forall_app, Forall_singleton in Hseg. by destruct Hseg.
Qed.

(** pending map facts *)
Lemma pending_keys_delete i k (p : Pending) :
  i ∈ pending_keys (pending_delete k p) ↔ i ∈ pending_keys p ∧ i ≠ k.
Proof.
  unfold pending_keys, pending_delete. rewrite !list_elem_of_fmap. split.
  - intros ([a b] & -> & Hin). apply list_elem_of_filter in Hin as [Hne Hin].
    split; [|done]. by exists (a, b).
  - intros (([a b] & -> & Hin) & Hne). exists (a, b). split; [done|].
    by apply list_elem_of_filter.
Qed.

Lemma pending_keys_delete_all i ks (p : Pending) :
  i ∈ pending_keys (foldl (λ p i, pending_delete i p) p ks) ↔ i ∈ pending_keys p ∧ i ∉ ks.
Proof.
  revert p. induction ks as [|k ks IH]; intros p; simpl.
  - set_solver.
  - rewrite IH, pending_keys_delete. set_solver.
Qed.

Lemma pending_delete_NoDup k (p : Pending) :
  NoDup (pending_keys p) → NoDup (pending_keys (pending_delete k p)).
Proof.
  unfold pending_keys, pending_delete. induction p as [|[a b] p IH]; simpl; [done|].
  intros Hnd. apply NoDup_cons in Hnd as [Hn Hnd].
  rewrite filter_cons. case_decide; simpl; [|by apply IH].
  apply NoDup_cons. split; [|by apply IH].
  intros Hin. apply Hn. apply list_elem_of_fmap in Hin as (x & -> & Hx).
  apply list_elem_of_filter in Hx as [_ Hx]. apply list_elem_of_fmap. by exists x.
Qed.

Lemma pending_delete_all_NoDup ks (p : Pending) :
  NoDup (pending_keys p) → NoDup (pending_keys (foldl (λ p i, pending_delete i p) p ks)).
Proof.
  revert p. induction ks as [|k ks IH]; intros p Hp; simpl; [done|].
  by apply IH, pending_delete_NoDup.
Qed.

Lemma pending_keys_set i k v (p : Pending) :
  i ∈ pending_keys (pending_set k v p) ↔ i = k ∨ i ∈ pending_keys p.
Proof.
  unfold pending_keys. induction p as [|[a b] p IH]; simpl.
  - set_solver.
  - destruct (String.eqb_spec a k) as [->|Hne]; simpl; set_solver.
Qed.

Lemma pending_set_NoDup k v (p : Pending) :
  NoDup (pending_keys p) → NoDup (pending_keys (pending_set k v p)).
Proof.
  induction p as [|[a b] p IH]; simpl.
  - intros _. apply NoDup_singleton.
  - intros Hnd. apply NoDup_cons in Hnd as [Hn Hnd].
    destruct (String.eqb_spec a k) as [->|Hne]; simpl.
    + by apply NoDup_cons.
    + apply NoDup_cons. split; [|by apply IH].
      fold (pending_keys (pending_set k v p)). rewrite pending_keys_set.
      intros [?|?]; [done|]. by apply Hn.
Qed.

Lemma pending_keys_set_all i (cs : list ToolCall) (p : Pending) :
  i ∈ pending_keys (foldl (λ p c, pending_set (call_id c) (call_name c) p) p cs)
  ↔ i ∈ (call_id <$> cs) ∨ i ∈ pending_keys p.
Proof.
  revert p. induction cs as [|c cs IH]; intros p; simpl.
  - set_solver.
  - rewrite IH, pending_keys_set. set_solver.
Qed.

Lemma pending_set_all_NoDup (cs : list ToolCall) (p : Pending) :
  NoDup (pending_keys p) →
  NoDup (pending_keys (foldl (λ p c, pending_set (call_id c) (call_name c) p) p cs)).
Proof.
  revert p. induction cs as [|c cs IH]; intros p Hp; simpl; [done|].
  by apply IH, pending_set_NoDup.
Qed.

Lemma toolUseIds_nonempty m i : i ∈ toolUseIds m → i ≠ "".
Proof.
  unfold toolUseIds, extractToolUsesFromAssistant.
  destruct (role m); [by intros ?%elem_of_nil|].
  destruct (content m) as [|bs]; [by intros ?%elem_of_nil|].
  intros (c & -> & Hc)%list_elem_of_fmap.
  apply list_elem_of_omap in Hc as (b & _ & Hb).
  unfold toolUseOfBlock in Hb.
  destruct (block_type b); try done. destruct (block_id b) as [s|]; [|done].
  simpl in Hb. destruct (String.eqb_spec s ""); simpl in Hb; [done|].
  by inversion Hb.
Qed.

Lemma syntheticResults_ids (p : Pending) now :
  Forall (λ k, k ≠ "") (pending_keys p) →
  extractToolResultIds (syntheticResults p now) = pending_keys p.
Proof.
  unfold extractToolResultIds, syntheticResults, pending_keys; simpl.
  induction p as [|[a b] p IH]; simpl; [done|].
  intros [Ha Hp]%Forall_cons. unfold toolResultIdOfBlock at 1; simpl.
  destruct (String.eqb_spec a ""); [done|]. simpl. f_equal. by apply IH.
Qed.

Lemma syntheticResults_bearing (p : Pending) now :
  Forall (λ k, k ≠ "") (pending_keys p) → length p ≠ 0 →
  resultBearing (syntheticResults p now).
Proof.
  intros Hk Hp. unfold resultBearing. rewrite syntheticResults_ids by done.
  destruct p; [done|]. done.
Qed.

Lemma toolUseBlockIds_tracked m i : i ∈ toolUseBlockIds m → i ≠ "" → i ∈ toolUseIds m.
Proof.
  unfold toolUseBlockIds, toolUseIds, extractToolUsesFromAssistant.
  destruct (role m); [by intros ?%elem_of_nil|].
  destruct (content m) as [|bs]; [by intros ?%elem_of_nil|].
  intros (b & Hb & Hi)%list_elem_of_omap Hne.
  apply list_elem_of_fmap. exists {| call_id := i; call_name := block_name b |}.
  split; [done|]. apply list_elem_of_omap. exists b. split; [done|].
  unfold toolUseOfBlock. destruct (block_type b); try done. rewrite Hi. simpl.
  by destruct (String.eqb_spec i "").
Qed.

Lemma Matched_Answered L : Matched L → CallsAnswered L.
Proof.
  intros HM pre M seg N rest E Hseg HN i Hi Hne.
  eapply HM; [exact E|done|done|]. by apply toolUseBlockIds_tracked.
Qed.

Lemma Covered_AnsweredToTheEnd L : Covered [] L → CallsAnsweredToTheEnd L.
Proof.
  intros HC pre M seg E Hseg i Hi Hne.
  destruct (HC pre M seg E Hseg i (toolUseBlockIds_tracked _ _ Hi Hne)) as [?|Hin]; [done|].
  by inversion Hin.
Qed.

Lemma flushStep_PendingOk now st : PendingOk (flushStep now st).2.
Proof.
  destruct st as [log p]. unfold flushStep. case_decide as Hz; simpl.
  - destruct p; [|done]. split; [apply NoDup_nil_2|done].
  - split; [apply NoDup_nil_2|done].
Qed.

Lemma recorded_PendingOk m :
  PendingOk (foldl (λ p c, pending_set (call_id c) (call_name c) p) []
               (extractToolUsesFromAssistant m)).
Proof.
  split.
  - apply pending_set_all_NoDup, NoDup_nil_2.
  - apply Forall_forall. intros i Hi.
    apply pending_keys_set_all in Hi as [Hi|Hi]; [|by inversion Hi].
    by eapply toolUseIds_nonempty.
Qed.

Lemma nil_PendingOk : PendingOk [].
Proof. split; [apply NoDup_nil_2|done]. Qed.

Lemma appendStep_PendingOk m now ps st : PendingOk st.2 → PendingOk (appendStep m now ps st).2.
Proof.
  destruct st as [log p]. intros [Hnd Hne]. unfold appendStep. simpl in *.
  repeat case_decide; simpl.
  - split; [by apply pending_delete_all_NoDup|].
    apply Forall_forall. intros i Hi.
    apply pending_keys_delete_all in Hi as [Hi _]. by eapply Forall_forall in Hne.
  - destruct (hd true ps); [apply recorded_PendingOk|apply nil_PendingOk].
  - destruct (hd true ps); simpl; [|apply nil_PendingOk].
    destruct (hd true (tail ps)); [apply recorded_PendingOk|apply nil_PendingOk].
Qed.

Lemma callStep_PendingOk k c st : PendingOk st.2 → PendingOk (callStep k c st).2.
Proof.
  intros H. destruct c; simpl; case_decide; try done.
  - by apply appendStep_PendingOk.
  - apply flushStep_PendingOk.
Qed.

Lemma foldl_callStep_PendingOk k calls st :
  PendingOk st.2 → PendingOk (foldl (λ st c, callStep k c st) st calls).2.
Proof.
  revert st. induction calls as [|c calls IH]; intros st H; simpl; [done|].
  by apply IH, callStep_PendingOk.
Qed.

Lemma flushStep_Inv T0 now st :
  InvFrom T0 st → InvFrom T0 (flushStep now st) ∧ (flushStep now st).2 = [].
Proof.
  destruct st as [log p]. intros (L & E & HM & HC & Hnd & Hne). simpl in *.
  unfold flushStep. case_decide as Hz.
  - split; [by exists L|]. by destruct p.
  - split; [|done]. exists (L ++ [syntheticResults p now]). simpl.
    destruct (Inv_result L (pending_keys p) (syntheticResults p now) []) as [HM' HC'];
      try done.
    { by apply syntheticResults_bearing. }
    { intros i Hi. left. by rewrite syntheticResults_ids. }
    split_and!; try done.
    + subst log. by rewrite <- app_assoc.
    + apply nil_PendingOk.
Qed.

Lemma Forall_true_hd (ps : Persists) : Forall (λ b, b = true) ps → hd true ps = true.
Proof. by intros [|? ? -> _]. Qed.

Lemma Forall_true_tail (ps : Persists) :
  Forall (λ b, b = true) ps → Forall (λ b, b = true) (tail ps).
Proof. by intros [|? ? _ ?]. Qed.

(** One more message that is not a tool-result message, after a flush. *)
Lemma Inv_message T0 log m (p' : Pending) :
  extractToolResultIds m = [] →
  InvFrom T0 (log, []) → PendingOk p' →
  (∀ i, i ∈ toolUseIds m → i ∈ pending_keys p') →
  InvFrom T0 (log ++ [m], p').
Proof.
  intros Hr (L & E & HM & HC & _) Hok Hp'. simpl in *.
  exists (L ++ [m]). simpl.
  destruct (Inv_other L m (pending_keys p')) as [HM' HC']; try done.
  { unfold resultBearing. by intros []. }
  split_and!; try done. subst log. by rewrite <- app_assoc.
Qed.

Lemma appendStep_Inv T0 m now ps st :
  extractToolUsesFromAssistant m = [] ∨ Forall (λ b, b = true) ps →
  InvFrom T0 st → InvFrom T0 (appendStep m now ps st).
Proof.
  intros Ht HI. destruct st as [log p]. unfold appendStep.
  case_decide as Hr.
  - destruct HI as (L & E & HM & HC & HP). simpl in *.
    exists (L ++ [m]). simpl.
    set (p' := foldl (λ p i, pending_delete i p) p (extractToolResultIds m)).
    destruct (Inv_result L (pending_keys p) m (pending_keys p')) as [HM' HC']; try done.
    { unfold resultBearing. by destruct (extractToolResultIds m); [simpl in Hr; lia|]. }
    { intros i Hi. destruct (decide (i ∈ extractToolResultIds m)); [by left|right].
      subst p'. by apply pending_keys_delete_all. }
    split; [subst log; by rewrite <- app_assoc|]. split; [done|]. split; [done|].
    apply (appendStep_PendingOk m now ps (log, p)) in HP.
    unfold appendStep in HP. by rewrite decide_True in HP.
  - assert (extractToolResultIds m = []) as Hr'
      by (destruct (extractToolResultIds m); [done|simpl in Hr; lia]).
    set (recorded := foldl (λ p c, pending_set (call_id c) (call_name c) p) []
                       (extractToolUsesFromAssistant m)).
    assert (∀ b : bool, (b = true ∨ extractToolUsesFromAssistant m = []) →
              ∀ i, i ∈ toolUseIds m → i ∈ pending_keys (if b then recorded else [])) as Hrec.
    { intros b [->|Hnil] i Hi.
      - apply pending_keys_set_all. by left.
      - unfold toolUseIds in Hi. rewrite Hnil in Hi. by inversion Hi. }
    assert (∀ b : bool, PendingOk (if b then recorded else [])) as Hok.
    { intros []; [apply recorded_PendingOk|apply nil_PendingOk]. }
    pose proof (flushStep_Inv T0 now (log, p) HI) as [HI' Hp'].
    unfold flushStep in HI', Hp'.
    case_decide as Hz.
    + assert (p = []) as -> by (by destruct p).
      apply Inv_message; try done. apply Hrec.
      destruct Ht as [Ht|Ht]; [by right|left; by apply Forall_true_hd].
    + destruct (hd true ps) eqn:Eh; [|done].
      replace (log ++ [syntheticResults p now; m])
        with ((log ++ [syntheticResults p now]) ++ [m]) by (by rewrite <- app_assoc).
      apply Inv_message; try done. apply Hrec.
      destruct Ht as [Ht|Ht]; [by right|left; by apply Forall_true_hd, Forall_true_tail].
Qed.

Lemma callStep_Inv T0 k c st : Tracked c → InvFrom T0 st → InvFrom T0 (callStep k c st).
Proof.
  intros Hc HI. destruct c; simpl; case_decide; try done.
  - by apply appendStep_Inv.
  - by apply flushStep_Inv.
Qed.

Lemma perform_view g sm c :
  GuardedOnce g sm →
  GuardedOnce g (perform g sm c) ∧
  ∀ k, sessionView g (perform g sm c) k = callStep k c (sessionView g sm k).
Proof.
  intros [Ha Ho Hh]. destruct c as [k' m now ps|k' now ps]; simpl.
  - unfold sessions_append. rewrite Ha.
    change (callAppend _ now k' m sm ps) with
      (guardedAppendWith (guard_pendingBySession g) SessionManager_append k' m now sm ps).
    pose proof (append_spec (guard_pendingBySession g) k' m now sm ps Hh) as (H1 & H2 & H3 & _).
    split; [split; [congruence|done|done]|].
    intros k. unfold sessionView. rewrite H3. reflexivity.
  - unfold flushPendingToolResults. rewrite Ho.
    change (flushPendingToolResultsWith _ _ k' now sm ps) with
      (flushPendingToolResultsWith (guard_pendingBySession g) SessionManager_append k' now sm ps).
    pose proof (flush_spec (guard_pendingBySession g) k' now sm ps Hh) as (H1 & H2 & H3 & _).
    split; [split; [congruence|done|done]|].
    intros k. unfold sessionView. rewrite H3. reflexivity.
Qed.

Lemma runCalls_view g calls sm :
  GuardedOnce g sm →
  GuardedOnce g (runCalls g calls sm) ∧
  ∀ k, sessionView g (runCalls g calls sm) k =
       foldl (λ st c, callStep k c st) (sessionView g sm k) calls.
Proof.
  unfold runCalls. revert sm. induction calls as [|c calls IH]; intros sm HG; simpl.
  - done.
  - destruct (perform_view g sm c HG) as [HG' Hv].
    destruct (IH _ HG') as [HG'' Hv']. split; [done|].
    intros k. by rewrite Hv', Hv.
Qed.

Lemma runCalls_Inv T0 k calls st :
  Forall Tracked calls →
  InvFrom T0 st → InvFrom T0 (foldl (λ st c, callStep k c st) st calls).
Proof.
  revert st. induction calls as [|c calls IH]; intros st Hc HI; simpl; [done|].
  apply Forall_cons in Hc as [Hc Hcs]. by apply IH, callStep_Inv.
Qed.

Lemma newAgent_GuardedOnce onDisk :
  GuardedOnce (newAgent onDisk).1 (newAgent onDisk).2.
Proof. split; simpl; [done|done|lia]. Qed.

Lemma newAgent_Inv onDisk k :
  InvFrom (transcript (newAgent onDisk).2 k) (sessionView (newAgent onDisk).1 (newAgent onDisk).2 k).
Proof.
  exists []. simpl. split_and!.
  - by rewrite app_nil_r.
  - intros pre M seg N rest E. by destruct pre.
  - intros pre M seg E. by destruct pre.
  - apply nil_PendingOk.
Qed.




(** What the amended statement leaves out: when the append of an assistant
    message with a call throws at its persist attempt, the message is in the
    in-memory log already, its call is never recorded as pending, and
    neither the next append nor the flush of the [finally] has anything to
    answer. *)
Lemma thrown_append_leaves_call_unanswered :
  transcript thrownAppendRun "s" = [oneCall; plainUser] ∧
  getPendingIds (newAgent ∅).1 "s" thrownAppendRun = [] ∧
  ¬ CallsAnswered (transcript thrownAppendRun "s").
Proof.
  split; [vm_compute; reflexivity|]. split; [vm_compute; reflexivity|].
  intros H.
  assert ("x1" ∈ resultIdsOf []) as Hin.
  { apply (H [] oneCall [] plainUser []);
      [vm_compute; reflexivity|constructor|by intros Hb; apply Hb| |discriminate].
    vm_compute. apply elem_of_cons. by left. }
  inversion Hin.
Qed.

(** C2 (as amended).  When [append] is called with a message that bears no
    [tool_result] while the session's pending map is not empty, the guard
    first appends one synthetic user message with one [tool_result] block
    per pending id (the ids are distinct), each with the text
    [missingToolResultText], and clears the pending map; only then, and only
    when that append returned, it appends the new message, so that the log
    grows by exactly these two messages; afterwards the pending map holds
    only the tool calls of the new message (none when an append threw). *)
Theorem guard_flush_rule onDisk calls sessionKey message now persists :
  let g := (newAgent onDisk).1 in
  let sm := runCalls g calls (newAgent onDisk).2 in
  let pending := readPending (guard_pendingBySession g) sessionKey sm in
  let after := sessions_append sessionKey message now sm persists in
  pending ≠ [] → extractToolResultIds message = [] →
  transcript after.1.1 sessionKey =
    transcript sm sessionKey ++
    {| role := user;
       content := Blocks (map (λ kv, mkToolResult kv.1 kv.2 missingToolResultText) pending);
       timestamp := now |} ::
    (if hd true persists then [message] else []) ∧
  NoDup (pending_keys pending) ∧
  readPending (guard_pendingBySession g) sessionKey after.1.1 =
    (if hd true persists && hd true (tail persists)
     then foldl (λ p c, pending_set (call_id c) (call_name c) p) []
            (extractToolUsesFromAssistant message)
     else []) ∧
  after.2 = hd true persists && hd true (tail persists).
Proof.
  intros g sm pending after Hp Hm.
  pose proof (newAgent_GuardedOnce onDisk) as HG0.
  destruct (runCalls_view _ calls _ HG0) as [HG Hv]. fold g sm in HG, Hv.
  pose proof (foldl_callStep_PendingOk sessionKey calls
                (sessionView (newAgent onDisk).1 (newAgent onDisk).2 sessionKey)
                nil_PendingOk) as [Hnd _].
  rewrite <- Hv in Hnd. simpl in Hnd.
  destruct HG as [Ha Ho Hh].
  pose proof (append_spec (guard_pendingBySession g) sessionKey message now sm persists Hh)
    as (_ & _ & Hf & Hret).
  specialize (Hf sessionKey). rewrite decide_True in Hf by done.
  assert (after = guardedAppendWith (guard_pendingBySession g) SessionManager_append
                    sessionKey message now sm persists) as Eafter.
  { unfold after, sessions_append. by rewrite Ha. }
  rewrite <- Eafter in Hf, Hret.
  unfold appendReturns in Hret. unfold appendStep in Hf. fold pending in Hf, Hret.
  rewrite Hm in Hf, Hret. simpl in Hf, Hret.
  rewrite decide_False in Hf by (by destruct pending).
  rewrite decide_False in Hret by (by destruct pending).
  split_and!; [|done| |done].
  - destruct (hd true persists); injection Hf as Ht _; rewrite Ht; by rewrite <- ?app_assoc.
  - change (guard_pendingBySession g) with 0.
    destruct (hd true persists); injection Hf as _ Hq; by rewrite Hq.
Qed.

(** C2, witness: one pending call [x1], then a plain user message. *)
Lemma guard_flush_rule_witness :
  transcript (sessions_append "s" plainUser 30
     (runCalls (newAgent ∅).1 [CallAppend "s" oneCall 10 []] (newAgent ∅).2) []).1.1 "s" =
  [oneCall;
   {| role := user;
      content := Blocks [mkToolResult "x1" (Some "read") missingToolResultText];
      timestamp := 30 |};
   plainUser].
Proof.
  refine (proj1 (guard_flush_rule ∅ [CallAppend "s" oneCall 10 []] "s" plainUser 30 [] _ _)).
  - vm_compute. discriminate.
  - reflexivity.
Defined.

(** C2, counterexample to the claim as stated: the text of the synthetic
    result is not the one the claim quotes. *)
Lemma placeholder_text_differs :
  ∃ b,
    transcript (sessions_append "s" plainUser 30
      (runCalls (newAgent ∅).1 [CallAppend "s" oneCall 10 []] (newAgent ∅).2) []).1.1 "s" =
    [oneCall; {| role := user; content := Blocks [b]; timestamp := 30 |}; plainUser] ∧
    block_type b = ty_tool_result ∧ tool_use_id b = Some "x1" ∧
    block_content b ≠ Some claimedPlaceholder.
Proof.
  eexists. split; [vm_compute; reflexivity|]. split_and!; [done|done|].
  vm_compute. discriminate.
Qed.

Lemma install_again sm :
  installSessionToolResultGuard (installSessionToolResultGuard sm).2 =
  installSessionToolResultGuard sm.
Proof.
  unfold installSessionToolResultGuard.
  destruct (toolResultGuardInstalled sm) eqn:E1, (toolResultGuard sm) eqn:E2; simpl;
    by rewrite ?E1, ?E2.
Qed.

Lemma installTimes_S n sm :
  installTimes (S n) sm =
  (replicate (S n) (installSessionToolResultGuard sm).1, (installSessionToolResultGuard sm).2).
Proof.
  revert sm. induction n as [|n IH]; intros sm.
  - simpl. by destruct (installSessionToolResultGuard sm).
  - change (installTimes (S (S n)) sm) with
      (let '(g, sm1) := installSessionToolResultGuard sm in
       let '(gs, sm2) := installTimes (S n) sm1 in (g :: gs, sm2)).
    pose proof (install_again sm) as Ha.
    destruct (installSessionToolResultGuard sm) as [g sm1] eqn:E. simpl in Ha.
    rewrite IH, Ha. done.
Qed.

(** C9.  Installing the guard [n ≥ 1] times on a session manager leaves the
    manager in the same state as installing it once, returns the same guard
    object every time, wraps [append] once only, and so every later
    sequence of appends and flushes behaves the same. *)
Theorem guard_install_idempotent n sm calls :
  1 ≤ n →
  let once := installSessionToolResultGuard sm in
  let many := installTimes n sm in
  many.2 = once.2 ∧ many.1 = replicate n once.1 ∧
  (toolResultGuardInstalled sm = false →
   append many.2 = guardedAppend (length (heap sm)) (append sm)) ∧
  (∀ g, g ∈ many.1 → runCalls g calls many.2 = runCalls once.1 calls once.2).
Proof.
  intros Hn once many. destruct n as [|n]; [lia|].
  subst many. rewrite installTimes_S. fold once. simpl. split_and!; try done.
  - intros Hf. unfold once, installSessionToolResultGuard. by rewrite Hf.
  - intros g Hg. apply elem_of_cons in Hg as [->|Hg]; [done|].
    by apply elem_of_replicate in Hg as [-> _].
Qed.

(** C9, witness: three installations on a new manager. *)
Lemma guard_install_idempotent_witness :
  (installTimes 3 (newSessionManager ∅)).2 = (installSessionToolResultGuard (newSessionManager ∅)).2.
Proof.
  refine (proj1 (guard_install_idempotent 3 (newSessionManager ∅) [] _)). lia.
Defined.

End GuardFacts.


(** ** Session log (src/session.ts) *)

Module Session.

Record SessionHeaderEntry := {
  header_version : Z;
  header_id : string;
  header_timestamp : string;
  header_cwd : option string;
}.

(** [SessionEntry = MessageEntry | CompactionEntry]; both extend
    [SessionEntryBase { id, parentId, timestamp }]. *)
Inductive SessionEntry :=
| MessageEntry (id : string) (parentId : option string) (timestamp : string)
    (message : Message)
| CompactionEntry (id : string) (parentId : option string) (timestamp : string)
    (summary : string) (firstKeptEntryId : string) (tokensBefore : Z).

Definition entry_id (e : SessionEntry) : string :=
  match e with
  | MessageEntry i _ _ _ => i
  | CompactionEntry i _ _ _ _ _ => i
  end.

Definition entry_parentId (e : SessionEntry) : option string :=
  match e with
  | MessageEntry _ p _ _ => p
  | CompactionEntry _ p _ _ _ _ => p
  end.

Definition isCompaction (e : SessionEntry) : bool :=
  match e with
  | CompactionEntry _ _ _ _ _ _ => true
  | MessageEntry _ _ _ _ => false
  end.

#[global] Instance SessionHeaderEntry_eq_dec : EqDecision SessionHeaderEntry.
Proof. solve_decision. Defined.
#[global] Instance SessionEntry_eq_dec : EqDecision SessionEntry.
Proof. solve_decision. Defined.

Definition COMPACTION_SUMMARY_PREFIX : string :=
  "The conversation history before this point was compacted into the following summary:" +:+
  LF +:+ LF +:+ "<summary>" +:+ LF.

Definition COMPACTION_SUMMARY_SUFFIX : string := LF +:+ "</summary>".

(** [SessionState]; the [messageIdByRef] weak map, keyed by object identity
    and read only by [resolveMessageEntryId], is left out. *)
Record SessionState := {
  filePath : string;
  header : SessionHeaderEntry;
  entries : list SessionEntry;
  byId : gmap string SessionEntry;
  leafId : option string;
  flushed : bool;
  hasAssistant : bool;
}.

(** What a line of the session file holds ([JSON.stringify] of a header or
    of an entry). *)
Inductive SessionFileEntry :=
| HeaderLine (h : SessionHeaderEntry)
| EntryLine (e : SessionEntry).

(** File-system operations, in the order the code issues them.
    [AcquireLock]/[ReleaseLock] stand for [acquireSessionWriteLock] and
    [lock.release()] (module [WriteLock] below). *)
Inductive FsOp :=
| AcquireLock (sessionFile : string)
| ReleaseLock (sessionFile : string)
| Mkdir (dir : string)
| WriteFile (path : string) (lines : list SessionFileEntry)
| AppendFile (path : string) (line : SessionFileEntry).

#[global] Instance SessionFileEntry_eq_dec : EqDecision SessionFileEntry.
Proof. solve_decision. Defined.
#[global] Instance FsOp_eq_dec : EqDecision FsOp.
Proof. solve_decision. Defined.

Section WithClock.
(** [new Date(s).getTime()]: [None] when the result is not finite. *)
Variable Date_parse : string → option Z.

(** [createCompactionSummaryMessage(summary, timestamp)] with a string
    timestamp; [now] is [Date.now()]. *)
Definition createCompactionSummaryMessage (now : Z) (summary timestamp : string) : Message :=
  {| role := user;
     content := Text (COMPACTION_SUMMARY_PREFIX +:+ summary +:+ COMPACTION_SUMMARY_SUFFIX);
     timestamp := default now (Date_parse timestamp) |}.

(** [if (entry.type === "message") messages.push(entry.message)] *)
Definition appendMessage (entry : SessionEntry) : list Message :=
  match entry with
  | MessageEntry _ _ _ m => [m]
  | CompactionEntry _ _ _ _ _ _ => []
  end.

(** The [while (current)] loop: [path.unshift(current)], then follow
    [parentId] (a falsy [parentId], [null] or the empty string, ends the
    walk, and so does an id that [byId] does not know).  The loop has no
    bound in the source; [fuel] bounds the number of iterations here, and
    [None] means the bound was reached. *)
Fixpoint walkToRoot (fuel : nat) (byId : gmap string SessionEntry)
    (current : option SessionEntry) (path : list SessionEntry)
  : option (list SessionEntry) :=
  match current with
  | None => Some path
  | Some e =>
      match fuel with
      | 0 => None
      | S fuel =>
          walkToRoot fuel byId
            (if truthy (entry_parentId e) then
               match entry_parentId e with Some p => byId !! p | None => None end
             else None)
            (e :: path)
      end
  end.

(** [for (const entry of path) if (entry.type === "compaction") compaction = entry] *)
Definition lastCompaction (path : list SessionEntry) : option SessionEntry :=
  foldl (λ c e, if isCompaction e then Some e else c) None path.

(** [path.findIndex(entry => entry.type === "compaction" && entry.id === id)] *)
Fixpoint findCompactionIndex (id : string) (path : list SessionEntry) : option nat :=
  match path with
  | [] => None
  | e :: path =>
      if isCompaction e && String.eqb (entry_id e) id then Some 0
      else S <$> findCompactionIndex id path
  end.

(** The first [for] loop of the compaction branch, with its
    [foundFirstKept] flag. *)
Fixpoint keepFromFirstKept (firstKeptEntryId : string) (foundFirstKept : bool)
    (before : list SessionEntry) : list Message :=
  match before with
  | [] => []
  | e :: before =>
      let found := foundFirstKept || String.eqb (entry_id e) firstKeptEntryId in
      (if found then appendMessage e else []) ++
      keepFromFirstKept firstKeptEntryId found before
  end.

Definition replayPath (now : Z) (path : list SessionEntry) : list Message :=
  match lastCompaction path with
  | Some (CompactionEntry cid _ cts summary firstKept _) =>
      let compactionIdx :=
        match findCompactionIndex cid path with
        | Some i => i
        | None => length path (* findIndex gave -1: both loops are vacuous or total *)
        end in
      createCompactionSummaryMessage now summary cts ::
      keepFromFirstKept firstKept false (take compactionIdx path) ++
      (drop (S compactionIdx) path ≫= appendMessage)
  | _ => path ≫= appendMessage
  end.

Definition buildSessionContext (fuel : nat) (now : Z) (state : SessionState)
  : option (list Message) :=
  if decide (length (entries state) = 0) then Some []
  else
    match leafId state with
    | None => Some []
    | Some l =>
        let leaf := if truthy (Some l) then byId state !! l else last (entries state) in
        match leaf with
        | None => Some []
        | Some leaf =>
            path ← walkToRoot fuel (byId state) (Some leaf) [];
            Some (replayPath now path)
        end
    end.

(** [load(sessionKey)], from the state [ensureState] returned. *)
Definition load (fuel : nat) (now : Z) (state : SessionState) : option (list Message) :=
  buildSessionContext fuel now state.

End WithClock.

(** [generateId(byId)]: [uuids i] is the value of the [i]-th call of
    [crypto.randomUUID()]. *)
Fixpoint generateIdFrom (byId : gmap string SessionEntry) (uuids : nat → string)
    (i tries : nat) : string :=
  match tries with
  | 0 => uuids i
  | S tries =>
      let id := String.substring 0 8 (uuids i) in
      if decide (is_Some (byId !! id)) then generateIdFrom byId uuids (S i) tries
      else id
  end.

Definition generateId (byId : gmap string SessionEntry) (uuids : nat → string) : string :=
  generateIdFrom byId uuids 0 100.

(** [rewriteSessionFile(state, baseDir, { skipLock: true })] *)
Definition rewriteSessionFile_skipLock (state : SessionState) (baseDir : string) : list FsOp :=
  [Mkdir baseDir;
   WriteFile (filePath state) (HeaderLine (header state) :: (EntryLine <$> entries state))].

Definition set_flushed (state : SessionState) : SessionState :=
  {| filePath := filePath state; header := header state; entries := entries state;
     byId := byId state; leafId := leafId state; flushed := true;
     hasAssistant := hasAssistant state |}.

(** [persistEntry(state, entry)].  [lockAcquired] tells whether
    [acquireSessionWriteLock] returned a lock ([true]) or threw; the result
    is the state, the file-system operations performed, and whether the call
    completed without an exception. *)
Definition persistEntry (baseDir : string) (lockAcquired : bool) (state : SessionState)
    (entry : SessionEntry) : SessionState * list FsOp * bool :=
  if negb (hasAssistant state) then (state, [], true)
  else if negb lockAcquired then (state, [], false)
  else if negb (flushed state) then
    (set_flushed state,
     [AcquireLock (filePath state)] ++ rewriteSessionFile_skipLock state baseDir ++
     [ReleaseLock (filePath state)], true)
  else
    (state,
     [AcquireLock (filePath state); Mkdir baseDir;
      AppendFile (filePath state) (EntryLine entry); ReleaseLock (filePath state)], true).

(** The statements of [append(sessionKey, message)] that follow
    [const state = await this.ensureState(sessionKey)]: the entry is pushed
    onto the state and handed to [persistEntry]; [nowIso] is
    [new Date().toISOString()].  The whole method, with [ensureState], is
    [SessionStore.append] below. *)
Definition pushMessage (baseDir : string) (uuids : nat → string) (nowIso : string)
    (lockAcquired : bool) (state : SessionState) (message : Message)
  : SessionState * list FsOp * bool :=
  let entry := MessageEntry (generateId (byId state) uuids) (leafId state) nowIso message in
  let state :=
    {| filePath := filePath state; header := header state;
       entries := entries state ++ [entry];
       byId := <[entry_id entry := entry]> (byId state);
       leafId := Some (entry_id entry);
       flushed := flushed state;
       hasAssistant := if decide (role message = assistant) then true else hasAssistant state |} in
  persistEntry baseDir lockAcquired state entry.

(** The same for [appendCompaction]. *)
Definition pushCompaction (baseDir : string) (uuids : nat → string) (nowIso : string)
    (lockAcquired : bool) (state : SessionState)
    (summary firstKeptEntryId : string) (tokensBefore : Z)
  : SessionState * list FsOp * bool :=
  let entry := CompactionEntry (generateId (byId state) uuids) (leafId state) nowIso
                 summary firstKeptEntryId tokensBefore in
  let state :=
    {| filePath := filePath state; header := header state;
       entries := entries state ++ [entry];
       byId := <[entry_id entry := entry]> (byId state);
       leafId := Some (entry_id entry);
       flushed := flushed state;
       hasAssistant := hasAssistant state |} in
  persistEntry baseDir lockAcquired state entry.

(** The state [ensureState] creates when no session file exists. *)
Definition newSessionState (filePath : string) (header : SessionHeaderEntry) : SessionState :=
  {| filePath := filePath; header := header; entries := []; byId := ∅;
     leafId := None; flushed := false; hasAssistant := false |}.

Definition entryIsAssistant (e : SessionEntry) : bool :=
  match e with
  | MessageEntry _ _ _ m => bool_decide (role m = assistant)
  | CompactionEntry _ _ _ _ _ _ => false
  end.

(** [buildStateFromEntries(filePath, header, entries)]: the state of a
    session whose file starts with a header. *)
Definition buildStateFromEntries (filePath : string) (header : SessionHeaderEntry)
    (entries : list SessionEntry) : SessionState :=
  {| filePath := filePath; header := header; entries := entries;
     byId := foldl (λ m e, <[entry_id e := e]> m) ∅ entries;
     leafId := foldl (λ _ e, Some (entry_id e)) None entries;
     flushed := true;
     hasAssistant := foldl (λ b e, if entryIsAssistant e then true else b) false entries |}.

(** The parent chain of an entry, root first: what "walking [parentId] from
    the leaf back to the root" visits. *)
Inductive ChainTo (byId : gmap string SessionEntry) : SessionEntry → list SessionEntry → Prop :=
| chain_root e :
    truthy (entry_parentId e) = false ∨
    (∃ p, entry_parentId e = Some p ∧ byId !! p = None) →
    ChainTo byId e [e]
| chain_step e p parent path :
    entry_parentId e = Some p → truthy (Some p) = true →
    byId !! p = Some parent → ChainTo byId parent path →
    ChainTo byId e (path ++ [e]).

(** The messages of a run of entries. *)
Definition messagesOf (es : list SessionEntry) : list Message := es ≫= appendMessage.

(** Each entry's [parentId] is the id of the entry before it. *)
Fixpoint Linked (prev : option string) (es : list SessionEntry) : Prop :=
  match es with
  | [] => True
  | e :: es => entry_parentId e = prev ∧ Linked (Some (entry_id e)) es
  end.

(** The shape of a state that [append] and [appendCompaction] built from a
    new session: one linear chain, indexed by id. *)
Record LinearLog (state : SessionState) : Prop := {
  ll_nodup : NoDup (entry_id <$> entries state);
  ll_nonempty : Forall (λ e, entry_id e ≠ "") (entries state);
  ll_index : ∀ e, e ∈ entries state → byId state !! entry_id e = Some e;
  ll_dom : ∀ k, is_Some (byId state !! k) → k ∈ (entry_id <$> entries state);
  ll_linked : Linked None (entries state);
  ll_leaf : leafId state = entry_id <$> last (entries state);
}.

Definition exampleHeader : SessionHeaderEntry :=
  {| header_version := 3; header_id := "session-1"; header_timestamp := "t0";
     header_cwd := Some "/work" |}.

Definition askMsg : Message := {| role := user; content := Text "list the files"; timestamp := 1 |}.
Definition replyMsg : Message :=
  {| role := assistant; content := Blocks [mkText "here they are"]; timestamp := 2 |}.
Definition thanksMsg : Message := {| role := user; content := Text "thanks"; timestamp := 3 |}.

(** A session that was compacted once: two messages, the compaction entry
    that keeps the second, and one message after it. *)
Definition compactedSession : SessionState :=
  let s0 := newSessionState "sessions/s.jsonl" exampleHeader in
  let s1 := (pushMessage "sessions" (λ _, "aaaaaaaa-1") "t1" true s0 askMsg).1.1 in
  let s2 := (pushMessage "sessions" (λ _, "bbbbbbbb-2") "t2" true s1 replyMsg).1.1 in
  let s3 := (pushCompaction "sessions" (λ _, "cccccccc-3") "t3" true s2
               "files were listed" "bbbbbbbb" 1200).1.1 in
  (pushMessage "sessions" (λ _, "dddddddd-4") "t4" true s3 thanksMsg).1.1.

(** A session file that holds a header and one user message (the file a
    migrated legacy session without assistant turn leaves behind), loaded
    by [buildStateFromEntries]. *)
Definition loadedUserOnly : SessionState :=
  buildStateFromEntries "sessions/s.jsonl" exampleHeader
    [MessageEntry "aaaaaaaa" None "t1" askMsg].

End Session.

(** ** Facts about the session log *)

Module SessionFacts.
Import Session.

Lemma walkToRoot_chain byId e path :
  ChainTo byId e path →
  ∀ fuel acc, length path ≤ fuel → walkToRoot fuel byId (Some e) acc = Some (path ++ acc).
Proof.
  induction 1 as [e Hroot|e p parent path Hp Ht Hl Hc IH]; intros fuel acc Hfuel.
  - destruct fuel as [|fuel]; [simpl in Hfuel; lia|]. simpl.
    destruct Hroot as [Hf|(p & Hp & Hn)].
    + rewrite Hf. by destruct fuel.
    + rewrite Hp, Hn. destruct (truthy (Some p)); by destruct fuel.
  - rewrite length_app in Hfuel. simpl in Hfuel.
    destruct fuel as [|fuel]; [lia|]. simpl. rewrite Hp, Ht, Hl.
    rewrite IH by lia. by rewrite <- app_assoc.
Qed.

Lemma lastCompaction_app path1 path2 :
  lastCompaction (path1 ++ path2) =
  match lastCompaction path2 with Some c => Some c | None => lastCompaction path1 end.
Proof.
  unfold lastCompaction. rewrite foldl_app.
  generalize (foldl (λ c e, if isCompaction e then Some e else c) None path1) as c0.
  induction path2 as [|e path2 IH] using rev_ind; intros c0; simpl.
  - by destruct c0.
  - rewrite !foldl_app. simpl. destruct (isCompaction e); [done|]. apply IH.
Qed.

Lemma lastCompaction_none path :
  Forall (λ e, isCompaction e = false) path → lastCompaction path = None.
Proof.
  unfold lastCompaction. induction path as [|e path IH] using rev_ind; [done|].
  rewrite Forall_app, Forall_singleton. intros [Hp He].
  rewrite foldl_app. simpl. rewrite He. by apply IH.
Qed.

Lemma findCompactionIndex_app cid before c after :
  Forall (λ e, entry_id e ≠ cid) before →
  isCompaction c = true → entry_id c = cid →
  findCompactionIndex cid (before ++ c :: after) = Some (length before).
Proof.
  intros Hb Hc Hid. induction before as [|e before IH]; simpl.
  - rewrite Hc, Hid, String.eqb_refl. done.
  - apply Forall_cons in Hb as [He Hb].
    destruct (String.eqb_spec (entry_id e) cid); [done|].
    rewrite andb_false_r. by rewrite IH.
Qed.

Lemma keepFromFirstKept_found k es : keepFromFirstKept k true es = messagesOf es.
Proof.
  induction es as [|e es IH]; simpl; [done|]. by rewrite IH.
Qed.

Lemma keepFromFirstKept_skip k dropped kept rest :
  Forall (λ e, entry_id e ≠ k) dropped → entry_id kept = k →
  keepFromFirstKept k false (dropped ++ kept :: rest) = messagesOf (kept :: rest).
Proof.
  intros Hd Hk. induction dropped as [|e dropped IH]; simpl.
  - rewrite Hk, String.eqb_refl. simpl. by rewrite keepFromFirstKept_found.
  - apply Forall_cons in Hd as [He Hd].
    destruct (String.eqb_spec (entry_id e) k); [done|]. simpl. by apply IH.
Qed.

Lemma keepFromFirstKept_absent k es :
  Forall (λ e, entry_id e ≠ k) es → keepFromFirstKept k false es = [].
Proof.
  induction es as [|e es IH]; simpl; [done|].
  intros [He Hd]%Forall_cons.
  destruct (String.eqb_spec (entry_id e) k); [done|]. simpl. by apply IH.
Qed.

Section Replay.
Context (Date_parse : string → option Z).

Lemma replayPath_plain now path :
  Forall (λ e, isCompaction e = false) path →
  replayPath Date_parse now path = messagesOf path.
Proof. intros H. unfold replayPath. by rewrite lastCompaction_none. Qed.

Lemma replayPath_compacted now before after cid cparent cts summary firstKept tokens :
  let c := CompactionEntry cid cparent cts summary firstKept tokens in
  Forall (λ e, entry_id e ≠ cid) before →
  Forall (λ e, isCompaction e = false) after →
  replayPath Date_parse now (before ++ c :: after) =
  createCompactionSummaryMessage Date_parse now summary cts ::
  keepFromFirstKept firstKept false before ++ messagesOf after.
Proof.
  intros c Hb Ha. unfold replayPath.
  rewrite lastCompaction_app.
  change (c :: after) with ([c] ++ after). rewrite lastCompaction_app.
  rewrite (lastCompaction_none after) by done. simpl.
  rewrite (findCompactionIndex_app cid before c after) by done.
  rewrite take_app_length.
  replace (before ++ c :: after) with ((before ++ [c]) ++ after) by (by rewrite <- app_assoc).
  rewrite drop_app_length'; [done|]. rewrite length_app. simpl. lia.
Qed.

Lemma load_replays_chain fuel now state l leaf path :
  entries state ≠ [] → leafId state = Some l → l ≠ "" →
  byId state !! l = Some leaf → ChainTo (byId state) leaf path → length path ≤ fuel →
  load Date_parse fuel now state = Some (replayPath Date_parse now path).
Proof.
  intros He Hl Hne Hleaf Hchain Hfuel. unfold load, buildSessionContext.
  rewrite decide_False by (by destruct (entries state)).
  rewrite Hl. simpl. destruct (String.eqb_spec l ""); [done|]. simpl. rewrite Hleaf.
  rewrite (walkToRoot_chain _ _ _ Hchain) by done. simpl. by rewrite app_nil_r.
Qed.

Lemma NoDup_ids_before (before : list SessionEntry) c after :
  NoDup (entry_id <$> (before ++ c :: after)) →
  Forall (λ e, entry_id e ≠ entry_id c) before.
Proof.
  rewrite fmap_app. simpl. intros (_ & Hnd & _)%NoDup_app.
  apply Forall_forall. intros e Hin Heq. apply (Hnd (entry_id e)).
  - apply list_elem_of_fmap. by exists e.
  - rewrite Heq. apply elem_of_cons. by left.
Qed.

(** C7.  [load] returns the messages of the parent chain of the leaf, in
    order from the root; when the chain holds a compaction entry (the last
    one counts), the result is the synthesized summary message, then the
    messages of the chain from the entry named by [firstKeptEntryId] up to
    the compaction, then the messages after the compaction; the entries
    before [firstKeptEntryId] are left out. *)
Theorem load_reconstruction fuel now state l leaf path :
  entries state ≠ [] → leafId state = Some l → l ≠ "" →
  byId state !! l = Some leaf → ChainTo (byId state) leaf path →
  NoDup (entry_id <$> path) → length path ≤ fuel →
  (Forall (λ e, isCompaction e = false) path →
   load Date_parse fuel now state = Some (messagesOf path)) ∧
  (∀ dropped kept mid after cid cparent cts summary tokens,
     path = dropped ++ kept :: mid ++
            CompactionEntry cid cparent cts summary (entry_id kept) tokens :: after →
     Forall (λ e, isCompaction e = false) after →
     load Date_parse fuel now state =
       Some (createCompactionSummaryMessage Date_parse now summary cts ::
             messagesOf (kept :: mid) ++ messagesOf after)).
Proof.
  intros He Hl Hne Hleaf Hchain Hnd Hfuel.
  rewrite (load_replays_chain _ _ _ _ _ _ He Hl Hne Hleaf Hchain Hfuel). split.
  - intros Hplain. by rewrite replayPath_plain.
  - intros dropped kept mid after cid cparent cts summary tokens -> Ha.
    pose proof (NoDup_ids_before _ _ _ Hnd) as Hd.
    replace (dropped ++ kept :: mid ++ CompactionEntry cid cparent cts summary (entry_id kept) tokens :: after)
      with ((dropped ++ kept :: mid) ++ CompactionEntry cid cparent cts summary (entry_id kept) tokens :: after)
      in * by (by rewrite <- app_assoc).
    rewrite replayPath_compacted; [|  |done].
    + by rewrite keepFromFirstKept_skip.
    + apply (NoDup_ids_before _ (CompactionEntry cid cparent cts summary (entry_id kept) tokens) after Hnd).
Qed.

(** When [firstKeptEntryId] names no entry of the chain before the
    compaction, nothing older than the compaction is replayed. *)
Lemma load_first_kept_not_found fuel now state l leaf before after
    cid cparent cts summary firstKept tokens :
  let path := before ++ CompactionEntry cid cparent cts summary firstKept tokens :: after in
  entries state ≠ [] → leafId state = Some l → l ≠ "" →
  byId state !! l = Some leaf → ChainTo (byId state) leaf path →
  NoDup (entry_id <$> path) → length path ≤ fuel →
  Forall (λ e, isCompaction e = false) after →
  Forall (λ e, entry_id e ≠ firstKept) before →
  load Date_parse fuel now state =
    Some (createCompactionSummaryMessage Date_parse now summary cts :: messagesOf after).
Proof.
  intros path He Hl Hne Hleaf Hchain Hnd Hfuel Ha Hb.
  rewrite (load_replays_chain _ _ _ _ _ _ He Hl Hne Hleaf Hchain Hfuel).
  unfold path. rewrite replayPath_compacted; [|  |done].
  - by rewrite keepFromFirstKept_absent.
  - apply (NoDup_ids_before _ (CompactionEntry cid cparent cts summary firstKept tokens) after Hnd).
Qed.
End Replay.

Lemma Linked_snoc prev es e :
  Linked prev (es ++ [e]) ↔
  Linked prev es ∧ entry_parentId e = (if last es is Some x then Some (entry_id x) else prev).
Proof.
  revert prev. induction es as [|x es IH]; intros prev; simpl.
  - tauto.
  - rewrite IH. destruct es as [|y es]; simpl; [tauto|].
    assert (is_Some (last (y :: es))) as [z ->] by (by apply last_is_Some).
    tauto.
Qed.

Lemma Linked_app_l prev es1 es2 : Linked prev (es1 ++ es2) → Linked prev es1.
Proof.
  revert prev. induction es1 as [|x es1 IH]; intros prev; simpl; [done|].
  intros [? ?]. split; [done|]. by eapply IH.
Qed.

Lemma linear_chain_prefix byId es :
  NoDup (entry_id <$> es) → Forall (λ e, entry_id e ≠ "") es →
  (∀ e, e ∈ es → byId !! entry_id e = Some e) → Linked None es →
  ∀ prefix e rest, es = prefix ++ e :: rest → ChainTo byId e (prefix ++ [e]).
Proof.
  intros Hnd Hne Hidx Hlink prefix.
  induction prefix as [|x prefix IH] using rev_ind; intros e rest E.
  - subst es. simpl in Hlink. destruct Hlink as [Hp _].
    apply chain_root. left. by rewrite Hp.
  - assert (Hlink' : Linked None ((prefix ++ [x]) ++ [e])).
    { subst es. replace ((prefix ++ [x]) ++ e :: rest) with (((prefix ++ [x]) ++ [e]) ++ rest)
        in Hlink by (by rewrite <- !app_assoc). by eapply Linked_app_l. }
    apply Linked_snoc in Hlink' as [_ Hp]. rewrite last_snoc in Hp.
    assert (x ∈ es) as Hx.
    { subst es. rewrite !elem_of_app, elem_of_cons, elem_of_nil. tauto. }
    eapply (chain_step byId e (entry_id x) x); [done| |by apply Hidx|].
    + eapply Forall_forall in Hne; [|exact Hx]. simpl.
      by destruct (String.eqb_spec (entry_id x) "").
    + eapply IH. subst es. by rewrite <- app_assoc.
Qed.

Lemma linear_chain state es e :
  LinearLog state → entries state = es ++ [e] → ChainTo (byId state) e (entries state).
Proof.
  intros [Hnd Hne Hidx _ Hlink _] E. rewrite E.
  eapply linear_chain_prefix; try done; by rewrite <- E.
Qed.

Section Linear.
Context (Date_parse : string → option Z).

Lemma load_linear fuel now state :
  LinearLog state → length (entries state) ≤ fuel →
  load Date_parse fuel now state = Some (replayPath Date_parse now (entries state)).
Proof.
  intros HL Hfuel. unfold load, buildSessionContext.
  destruct (entries state) as [|e0 es0] eqn:E using rev_ind.
  - done.
  - clear IHes0. rewrite decide_False by (rewrite length_app; simpl; lia).
    rewrite (ll_leaf _ HL), E, last_snoc. simpl.
    assert (e0 ∈ entries state) as Hin by (rewrite E, elem_of_app, elem_of_cons; tauto).
    pose proof (ll_nonempty _ HL) as Hne. eapply Forall_forall in Hne; [|exact Hin].
    destruct (String.eqb_spec (entry_id e0) ""); [done|]. simpl.
    rewrite (ll_index _ HL) by done.
    rewrite (walkToRoot_chain _ _ _ (linear_chain _ _ _ HL E)) by (by rewrite E).
    simpl. by rewrite app_nil_r, E.
Qed.
End Linear.

Lemma newSessionState_linear f h : LinearLog (newSessionState f h).
Proof.
  split; simpl; try done.
  - apply NoDup_nil_2.
  - intros e He. inversion He.
  - intros k [x Hx]. by rewrite lookup_empty in Hx.
Qed.

Lemma persistEntry_entries baseDir lock state entry :
  let st' := (persistEntry baseDir lock state entry).1.1 in
  entries st' = entries state ∧ byId st' = byId state ∧ leafId st' = leafId state ∧
  hasAssistant st' = hasAssistant state ∧ filePath st' = filePath state ∧
  header st' = header state.
Proof.
  unfold persistEntry.
  destruct (hasAssistant state) eqn:Ha, lock, (flushed state) eqn:Hf; simpl;
    split_and!; congruence.
Qed.

Lemma persistEntry_linear baseDir lock state entry :
  LinearLog state → LinearLog (persistEntry baseDir lock state entry).1.1.
Proof.
  intros [H1 H2 H3 H4 H5 H6].
  destruct (persistEntry_entries baseDir lock state entry) as (E1 & E2 & E3 & _).
  split; rewrite ?E1, ?E2, ?E3; done.
Qed.

Lemma push_linear (state state' : SessionState) (entry : SessionEntry) :
  LinearLog state →
  entry_id entry ≠ "" → byId state !! entry_id entry = None →
  entry_parentId entry = leafId state →
  entries state' = entries state ++ [entry] →
  byId state' = <[entry_id entry := entry]> (byId state) →
  leafId state' = Some (entry_id entry) →
  LinearLog state'.
Proof.
  intros [Hnd Hne Hidx Hdom Hlink Hleaf] Hid Hfresh Hparent E1 E2 E3.
  assert (entry_id entry ∉ (entry_id <$> entries state)) as Hnotin.
  { intros Hin. apply list_elem_of_fmap in Hin as (e & Heq & He).
    apply Hidx in He. rewrite <- Heq in He. by rewrite Hfresh in He. }
  split; rewrite ?E1, ?E2, ?E3.
  - rewrite fmap_app. apply NoDup_app. split_and!; [done| |apply NoDup_singleton].
    intros k Hk Hk'. apply list_elem_of_singleton in Hk'. by subst k.
  - apply Forall_app. split; [done|]. by apply Forall_singleton.
  - intros e He. apply elem_of_app in He as [He|He].
    + rewrite lookup_insert_ne; [by apply Hidx|].
      intros Heq. apply Hnotin. rewrite Heq. apply list_elem_of_fmap. by exists e.
    + apply list_elem_of_singleton in He as ->. by rewrite lookup_insert_eq.
  - intros k Hk. rewrite fmap_app, elem_of_app. simpl.
    destruct (decide (k = entry_id entry)) as [->|Hne'].
    + right. apply list_elem_of_singleton. done.
    + left. apply Hdom. by rewrite lookup_insert_ne in Hk.
  - apply Linked_snoc. split; [done|]. rewrite Hparent, Hleaf.
    by destruct (last (entries state)).
  - by rewrite last_snoc.
Qed.

Lemma append_linear baseDir uuids nowIso lock state message :
  LinearLog state →
  generateId (byId state) uuids ≠ "" →
  byId state !! generateId (byId state) uuids = None →
  LinearLog (pushMessage baseDir uuids nowIso lock state message).1.1.
Proof.
  intros HL Hid Hfresh. unfold pushMessage. apply persistEntry_linear.
  by eapply (push_linear state _ (MessageEntry _ _ _ _)).
Qed.

Lemma appendCompaction_linear baseDir uuids nowIso lock state summary firstKept tokens :
  LinearLog state →
  generateId (byId state) uuids ≠ "" →
  byId state !! generateId (byId state) uuids = None →
  LinearLog (pushCompaction baseDir uuids nowIso lock state summary firstKept tokens).1.1.
Proof.
  intros HL Hid Hfresh. unfold pushCompaction. apply persistEntry_linear.
  by eapply (push_linear state _ (CompactionEntry _ _ _ _ _ _)).
Qed.

Lemma lastCompaction_elem path c :
  lastCompaction path = Some c → c ∈ path ∧ isCompaction c = true.
Proof.
  unfold lastCompaction. induction path as [|e path IH] using rev_ind; [done|].
  rewrite foldl_app. simpl. destruct (isCompaction e) eqn:He.
  - intros [= ->]. split; [|done]. rewrite elem_of_app, elem_of_cons. tauto.
  - intros H. destruct (IH H) as [? ?]. split; [|done]. rewrite elem_of_app. tauto.
Qed.

Lemma findCompactionIndex_elem c path :
  c ∈ path → isCompaction c = true →
  ∃ i, findCompactionIndex (entry_id c) path = Some i ∧ i < length path.
Proof.
  intros Hin Hc. induction path as [|e path IH]; [inversion Hin|]. simpl.
  destruct (isCompaction e && String.eqb (entry_id e) (entry_id c)) eqn:E.
  - exists 0. split; [done|lia].
  - apply elem_of_cons in Hin as [->|Hin].
    + by rewrite Hc, String.eqb_refl in E.
    + destruct (IH Hin) as (i & -> & Hi). exists (S i). split; [done|lia].
Qed.

Section ReplaySnoc.
Context (Date_parse : string → option Z).

Lemma replayPath_snoc_message now path i p ts m :
  replayPath Date_parse now (path ++ [MessageEntry i p ts m]) =
  replayPath Date_parse now path ++ [m].
Proof.
  unfold replayPath. rewrite lastCompaction_app. simpl.
  destruct (lastCompaction path) as [c|] eqn:Hc.
  - destruct (lastCompaction_elem _ _ Hc) as [Hin Hisc].
    destruct c as [|cid cp cts summary fk tk]; [done|].
    destruct (findCompactionIndex_elem _ _ Hin Hisc) as (j & Hj & Hlt). simpl in Hj.
    assert (findCompactionIndex cid (path ++ [MessageEntry i p ts m]) = Some j) as ->.
    { clear -Hj. revert j Hj. induction path as [|e path IH]; intros j Hj; [done|].
      simpl in *. destruct (isCompaction e && String.eqb (entry_id e) cid); [done|].
      destruct (findCompactionIndex cid path) as [j'|]; [|done].
      by rewrite (IH j' eq_refl). }
    rewrite Hj. rewrite take_app_le by lia. rewrite drop_app_le by lia.
    simpl. rewrite bind_app. simpl. by rewrite <- !app_assoc.
  - rewrite bind_app. done.
Qed.

(** The message sequence of a session grows by exactly the appended
    message: what module [Guard] records as the session's transcript. *)
Lemma append_load fuel now baseDir uuids nowIso lock state message :
  LinearLog state →
  generateId (byId state) uuids ≠ "" →
  byId state !! generateId (byId state) uuids = None →
  length (entries state) < fuel →
  ∃ before,
    load Date_parse fuel now state = Some before ∧
    load Date_parse fuel now (pushMessage baseDir uuids nowIso lock state message).1.1 =
      Some (before ++ [message]).
Proof.
  intros HL Hid Hfresh Hfuel. exists (replayPath Date_parse now (entries state)).
  split; [apply load_linear; [done|lia]|].
  rewrite load_linear.
  - unfold pushMessage.
    destruct (persistEntry_entries baseDir lock
      {| filePath := filePath state; header := header state;
         entries := entries state ++ [MessageEntry (generateId (byId state) uuids) (leafId state) nowIso message];
         byId := <[generateId (byId state) uuids := MessageEntry (generateId (byId state) uuids) (leafId state) nowIso message]> (byId state);
         leafId := Some (generateId (byId state) uuids);
         flushed := flushed state;
         hasAssistant := if decide (role message = assistant) then true else hasAssistant state |}
      (MessageEntry (generateId (byId state) uuids) (leafId state) nowIso message)) as (E & _).
    simpl in E. simpl. rewrite E. by rewrite replayPath_snoc_message.
  - by apply append_linear.
  - unfold pushMessage.
    match goal with |- context [persistEntry ?b ?l ?s ?e] =>
      destruct (persistEntry_entries b l s e) as (E & _) end.
    rewrite E. simpl. rewrite length_app. simpl. lia.
Qed.
End ReplaySnoc.

(** C7, witness: the compacted session; its first message is dropped. *)
Lemma load_reconstruction_witness :
  load (λ _, Some 7%Z) 10 0 compactedSession =
  Some [createCompactionSummaryMessage (λ _, Some 7%Z) 0 "files were listed" "t3";
        replyMsg; thanksMsg].
Proof.
  set (e1 := MessageEntry "aaaaaaaa" None "t1" askMsg).
  set (e2 := MessageEntry "bbbbbbbb" (Some "aaaaaaaa") "t2" replyMsg).
  set (c := CompactionEntry "cccccccc" (Some "bbbbbbbb") "t3" "files were listed" "bbbbbbbb" 1200).
  set (e3 := MessageEntry "dddddddd" (Some "cccccccc") "t4" thanksMsg).
  refine (proj2 (load_reconstruction (λ _, Some 7%Z) 10 0%Z compactedSession "dddddddd" e3
                   [e1; e2; c; e3] _ _ _ _ _ _ _)
            [e1] e2 [] [e3] "cccccccc" (Some "bbbbbbbb") "t3" "files were listed" 1200%Z _ _).
  - vm_compute. discriminate.
  - vm_compute. reflexivity.
  - discriminate.
  - vm_compute. reflexivity.
  - apply (chain_step _ e3 "cccccccc" c [e1; e2; c]); [reflexivity|reflexivity|vm_compute; reflexivity|].
    apply (chain_step _ c "bbbbbbbb" e2 [e1; e2]); [reflexivity|reflexivity|vm_compute; reflexivity|].
    apply (chain_step _ e2 "aaaaaaaa" e1 [e1]); [reflexivity|reflexivity|vm_compute; reflexivity|].
    apply chain_root. left. reflexivity.
  - vm_compute. repeat constructor; set_solver.
  - simpl. lia.
  - reflexivity.
  - repeat constructor.
Defined.

(** What the push and [persistEntry] do, by the state they start from.
    While the state holds no assistant message, a user message and a
    compaction entry change the in-memory state only.  The first assistant
    message in a state that was never flushed takes the lock, rewrites the
    whole file (header and all entries, the new one included) and sets
    [flushed]; every later push takes the lock and appends one line.  In a
    state that is marked as flushed, the first assistant message is
    appended as one line too, whatever was pushed before it. *)
Lemma persist_by_state baseDir uuids nowIso state message :
  hasAssistant state = false →
  let id := generateId (byId state) uuids in
  let pushed (e : SessionEntry) (a : bool) :=
    {| filePath := filePath state; header := header state;
       entries := entries state ++ [e];
       byId := <[id := e]> (byId state);
       leafId := Some id; flushed := flushed state; hasAssistant := a |} in
  (∀ lock, role message = user →
     pushMessage baseDir uuids nowIso lock state message =
       (pushed (MessageEntry id (leafId state) nowIso message) false, [], true)) ∧
  (∀ lock summary firstKept tokens,
     pushCompaction baseDir uuids nowIso lock state summary firstKept tokens =
       (pushed (CompactionEntry id (leafId state) nowIso summary firstKept tokens) false,
        [], true)) ∧
  (role message = assistant → flushed state = false →
     let e := MessageEntry id (leafId state) nowIso message in
     pushMessage baseDir uuids nowIso true state message =
       (set_flushed (pushed e true),
        [AcquireLock (filePath state); Mkdir baseDir;
         WriteFile (filePath state)
           (HeaderLine (header state) :: (EntryLine <$> (entries state ++ [e])));
         ReleaseLock (filePath state)], true) ∧
     ∀ uuids' nowIso' message',
       let st := set_flushed (pushed e true) in
       let e' := MessageEntry (generateId (byId st) uuids') (leafId st) nowIso' message' in
       (pushMessage baseDir uuids' nowIso' true st message').1.2 =
         [AcquireLock (filePath state); Mkdir baseDir;
          AppendFile (filePath state) (EntryLine e'); ReleaseLock (filePath state)]) ∧
  (role message = assistant → flushed state = true →
     (pushMessage baseDir uuids nowIso true state message).1.2 =
       [AcquireLock (filePath state); Mkdir baseDir;
        AppendFile (filePath state)
          (EntryLine (MessageEntry id (leafId state) nowIso message));
        ReleaseLock (filePath state)]).
Proof.
  intros Ha id pushed. split_and!.
  - intros lock Hr. unfold pushMessage, persistEntry. simpl.
    rewrite Hr, Ha. simpl. done.
  - intros lock summary fk tk. unfold pushCompaction, persistEntry. simpl.
    rewrite Ha. simpl. done.
  - intros Hr Hf e. split.
    + unfold pushMessage, persistEntry. simpl. rewrite Hr, Hf. simpl. done.
    + intros uuids' nowIso' message' st e'.
      unfold pushMessage, persistEntry. simpl.
      by destruct (decide (role message' = assistant)).
  - intros Hr Hf. unfold pushMessage, persistEntry. simpl. rewrite Hr, Hf. simpl. done.
Qed.

End SessionFacts.

(** ** Session write lock (src/session-write-lock.ts) *)

Module WriteLock.
Local Open Scope Z_scope.

(** [type LockPayload = { pid: number; createdAt: string }] *)
Record LockPayload := { pid : Z; createdAt : string }.

(** The clock and the lock files that exist, by path, each with what
    [readLockPayload] makes of its content ([None] for [null]: unreadable,
    not JSON, or fields of the wrong type). *)
Record World := {
  clock : Z;           (* Date.now(), in milliseconds *)
  lockFiles : gmap string (option LockPayload);
}.

(** What one pass through the loop body did. *)
Inductive Attempt :=
| Created (w : World)        (* [fs.open(lockPath, "wx")] succeeded *)
| RemovedStale (w : World)   (* [fs.rm(lockPath, { force: true }); continue] *)
| Waited (delay : Z) (w : World).

(** How a call ended, with what its passes did, in their order. *)
Inductive Outcome :=
| Acquired (w : World) (passes : list Attempt)
| TimedOut (w : World) (passes : list Attempt)
| OutOfFuel.

Section Acquire.
(** [process.kill(pid, 0)] does not throw. *)
Variable processExists : Z → bool.
(** [Date.parse]: [None] for [NaN]. *)
Variable Date_parse : string → option Z.
(** [new Date().toISOString()] at a given clock value. *)
Variable toISOString : Z → string.
(** [process.pid] *)
Variable ownPid : Z.
(** [path.resolve], a library function. *)
Variable path_resolve : string → string.
(** What the other processes did to the lock files while this one slept
    until the given time. *)
Variable others : Z → gmap string (option LockPayload) → gmap string (option LockPayload).

Variable timeoutMs : Z.
Variable staleMs : Z.

Definition isAlive (p : Z) : bool :=
  if decide (p ≤ 0) then false else processExists p.

(** [`${sessionFile}.lock`], with [sessionFile = path.resolve(params.sessionFile)] *)
Definition lockPath (sessionFile : string) : string := path_resolve sessionFile +:+ ".lock".

Definition isStale (now : Z) (payload : option LockPayload) : bool :=
  let createdAtMs :=
    match payload with
    | Some p => if truthy (Some (createdAt p)) then Date_parse (createdAt p) else None
    | None => None
    end in
  match createdAtMs with
  | None => true
  | Some c => bool_decide (now - c > staleMs)
  end.

Definition ownerAlive (payload : option LockPayload) : bool :=
  match payload with
  | Some p => if decide (pid p = 0) then false else isAlive (pid p)
  | None => false
  end.

Definition backoffDelay (attempt : Z) : Z := Z.min 1000 (50 * attempt).

(** The body of the [while] loop, [attempt] already incremented; [lock] is
    the path of the lock file.  [fs.open] with the flag [wx] fails with
    [EEXIST] exactly when the file exists; other errors of [mkdir] and
    [open], which the loop rethrows, are left out. *)
Definition tryOnce (lock : string) (attempt : Z) (w : World) : Attempt :=
  match lockFiles w !! lock with
  | None =>
      Created {| clock := clock w;
                 lockFiles := <[lock := Some {| pid := ownPid;
                                                createdAt := toISOString (clock w) |}]>
                                (lockFiles w) |}
  | Some payload =>
      if isStale (clock w) payload || negb (ownerAlive payload) then
        RemovedStale {| clock := clock w; lockFiles := delete lock (lockFiles w) |}
      else
        let delay := backoffDelay attempt in
        Waited delay {| clock := clock w + delay;
                        lockFiles := others (clock w + delay) (lockFiles w) |}
  end.

(** The world a pass left. *)
Definition worldAfter (a : Attempt) : World :=
  match a with
  | Created w | RemovedStale w | Waited _ w => w
  end.

(** [while (Date.now() - startedAt < timeoutMs) { attempt += 1; ... }
    throw new Error(...)]; [passes] collects what the passes did, latest
    first.  The loop has no bound in the source; [fuel] bounds the number
    of passes here. *)
Fixpoint acquireLoop (fuel : nat) (lock : string) (startedAt attempt : Z)
    (passes : list Attempt) (w : World) : Outcome :=
  match fuel with
  | O => OutOfFuel
  | S fuel =>
      if decide (clock w - startedAt < timeoutMs) then
        let pass := tryOnce lock (attempt + 1) w in
        match pass with
        | Created w => Acquired w (rev (pass :: passes))
        | RemovedStale w | Waited _ w =>
            acquireLoop fuel lock startedAt (attempt + 1) (pass :: passes) w
        end
      else TimedOut w (rev passes)
  end.

Definition acquireSessionWriteLock (sessionFile : string) (fuel : nat) (w : World) : Outcome :=
  acquireLoop fuel (lockPath sessionFile) (clock w) 0 [] w.

(** [lock.release()]: the handle is closed and the lock file removed. *)
Definition release (sessionFile : string) (w : World) : World :=
  {| clock := clock w; lockFiles := delete (lockPath sessionFile) (lockFiles w) |}.

End Acquire.

(** [timeoutMs ?? 10_000], [staleMs ?? 30 * 60 * 1000] *)
Definition defaultTimeoutMs : Z := 10000.
Definition defaultStaleMs : Z := 30 * 60 * 1000.

(** The sleeps among some passes. *)
Definition delaysOf (passes : list Attempt) : list Z :=
  omap (λ a, match a with Waited d _ => Some d | _ => None end) passes.

(** Whether the call returned a lock: what [persistEntry] and
    [rewriteSessionFile] go on with. *)
Definition lockTaken (o : Outcome) : bool :=
  match o with
  | Acquired _ _ => true
  | _ => false
  end.

(** Successive waits below the cap form a geometric progression: what
    "exponential backoff" asks of a list of delays. *)
Definition ExponentialBackoff (cap : Z) (delays : list Z) : Prop :=
  ∀ (k : nat) d0 d1 d2,
    delays !! k = Some d0 → delays !! S k = Some d1 → delays !! S (S k) = Some d2 →
    d2 < cap → d1 * d1 = d0 * d2.

(** The reading of the specification: a lock is stale when its [createdAt]
    is a time more than [staleMs] in the past, or when its owner is not
    alive. *)
Definition StaleAsClaimed (staleMs now : Z) (created : option Z) (alive : bool) : Prop :=
  (∃ c, created = Some c ∧ staleMs < now - c) ∨ alive = false.

(** The total of a list of delays. *)
Definition sumZ (l : list Z) : Z := foldr Z.add 0 l.

(** The lock of the session file of the examples. *)
Definition exampleLock : string := "sessions/s.jsonl.lock".

(** A lock held by a live process, taken at time 0 and never released. *)
Definition heldWorld (now : Z) : World :=
  {| clock := now;
     lockFiles := {[ exampleLock :=
                      Some {| pid := 4242; createdAt := "1970-01-01T00:00:00.000Z" |} ]} |}.

Definition heldForever : Outcome :=
  acquireSessionWriteLock (λ _, true) (λ _, Some 0) (λ _, "now") 1 (λ p, p) (λ _ f, f)
    defaultTimeoutMs defaultStaleMs "sessions/s.jsonl" 203 (heldWorld 1000).

(** A lock that a live process wrote a moment ago, with a [createdAt] that
    [Date.parse] does not understand. *)
Definition unparsableWorld : World :=
  {| clock := 1000;
     lockFiles := {[ exampleLock := Some {| pid := 4242; createdAt := "just now" |} ]} |}.

Definition unparsableTaken : Outcome :=
  acquireSessionWriteLock (λ _, true) (λ _, None) (λ _, "now") 1 (λ p, p) (λ _ f, f)
    defaultTimeoutMs defaultStaleMs "sessions/s.jsonl" 203 unparsableWorld.

End WriteLock.

(** ** Facts about the write lock *)

Module WriteLockFacts.
Import WriteLock.
Local Open Scope Z_scope.

Section Protocol.
Context (processExists : Z → bool) (Date_parse : string → option Z)
        (toISOString : Z → string) (ownPid : Z) (path_resolve : string → string)
        (others : Z → gmap string (option LockPayload) → gmap string (option LockPayload)).

Notation tryOnce := (tryOnce processExists Date_parse toISOString ownPid others).
Notation acquireLoop := (acquireLoop processExists Date_parse toISOString ownPid others).

Definition ownPayload (now : Z) : option LockPayload :=
  Some {| pid := ownPid; createdAt := toISOString now |}.

Lemma isStale_fresh staleMs now p c :
  createdAt p ≠ "" → Date_parse (createdAt p) = Some c → now - c ≤ staleMs →
  isStale Date_parse staleMs now (Some p) = false.
Proof.
  intros Hne Hc Hle. unfold isStale. simpl.
  destruct (String.eqb_spec (createdAt p) ""); [done|]. simpl. rewrite Hc.
  apply bool_decide_eq_false. lia.
Qed.

(** What one pass does, by what it finds. *)
Lemma tryOnce_cases staleMs lock (w : World) (attempt : Z) :
  (lockFiles w !! lock = None →
   tryOnce staleMs lock attempt w =
     Created {| clock := clock w;
                lockFiles := <[lock := ownPayload (clock w)]> (lockFiles w) |}) ∧
  (∀ payload, lockFiles w !! lock = Some payload →
     (isStale Date_parse staleMs (clock w) payload = true ∨
      ownerAlive processExists payload = false) →
     tryOnce staleMs lock attempt w =
       RemovedStale {| clock := clock w; lockFiles := delete lock (lockFiles w) |}) ∧
  (∀ payload, lockFiles w !! lock = Some payload →
     isStale Date_parse staleMs (clock w) payload = false →
     ownerAlive processExists payload = true →
     tryOnce staleMs lock attempt w =
       Waited (Z.min 1000 (50 * attempt))
         {| clock := clock w + Z.min 1000 (50 * attempt);
            lockFiles := others (clock w + Z.min 1000 (50 * attempt)) (lockFiles w) |}).
Proof.
  split_and!.
  - intros Hl. unfold WriteLock.tryOnce. by rewrite Hl.
  - intros payload Hl Hs.
    assert (isStale Date_parse staleMs (clock w) payload
            || negb (ownerAlive processExists payload) = true) as Hc.
    { destruct Hs as [-> | ->]; [done|]. by rewrite orb_true_r. }
    unfold WriteLock.tryOnce. by rewrite Hl, Hc.
  - intros payload Hl Hs Ha. unfold WriteLock.tryOnce. by rewrite Hl, Hs, Ha.
Qed.

Lemma isStale_cases staleMs now p :
  isStale Date_parse staleMs now (Some p) = true ↔
  createdAt p = "" ∨ Date_parse (createdAt p) = None ∨
  ∃ c, Date_parse (createdAt p) = Some c ∧ staleMs < now - c.
Proof.
  unfold isStale. simpl.
  destruct (String.eqb_spec (createdAt p) "") as [He|He]; simpl.
  - split; [by left|done].
  - destruct (Date_parse (createdAt p)) as [c|].
    + rewrite bool_decide_eq_true. split.
      * intros Hgt. right. right. exists c. split; [done|lia].
      * intros [?|[?|(c' & [= <-] & ?)]]; [done|done|lia].
    + split; [by right; left|done].
Qed.

Lemma ownerAlive_cases p :
  ownerAlive processExists (Some p) = true ↔ 0 < pid p ∧ processExists (pid p) = true.
Proof.
  unfold ownerAlive, isAlive.
  destruct (decide (pid p = 0)) as [H0|H0].
  { split; [done|]. intros [? _]. lia. }
  destruct (decide (pid p ≤ 0)) as [Hle|Hle].
  { split; [done|]. intros [? _]. lia. }
  split; [intros ->; split; [lia|done]|by intros [_ ?]].
Qed.

(** A lock file that is stale or whose owner is gone is removed and the
    lock taken in the next pass, without a wait. *)
Lemma stale_lock_is_taken timeoutMs staleMs lock fuel startedAt attempt passes w payload :
  clock w - startedAt < timeoutMs →
  lockFiles w !! lock = Some payload →
  (isStale Date_parse staleMs (clock w) payload = true ∨
   ownerAlive processExists payload = false) →
  let removed := {| clock := clock w; lockFiles := delete lock (lockFiles w) |} in
  let taken := {| clock := clock w;
                  lockFiles := <[lock := ownPayload (clock w)]> (delete lock (lockFiles w)) |} in
  acquireLoop timeoutMs staleMs (S (S fuel)) lock startedAt attempt passes w =
    Acquired taken (rev passes ++ [RemovedStale removed; Created taken]).
Proof.
  intros Ht Hl Hs removed taken.
  destruct (tryOnce_cases staleMs lock w (attempt + 1)) as (_ & H2 & _).
  cbn [WriteLock.acquireLoop]. rewrite decide_True by done.
  rewrite (H2 payload Hl Hs). fold removed. simpl clock.
  rewrite decide_True by done.
  destruct (tryOnce_cases staleMs lock removed (attempt + 1 + 1)) as (H1 & _ & _).
  rewrite H1 by (simpl; apply lookup_delete_eq). fold taken.
  simpl. by rewrite <- !app_assoc.
Qed.

Lemma sumZ_app l1 l2 : sumZ (l1 ++ l2) = sumZ l1 + sumZ l2.
Proof. induction l1 as [|x l1 IH]; simpl; [done|]. unfold sumZ in *. simpl. lia. Qed.

Lemma delaysOf_app p1 p2 : delaysOf (p1 ++ p2) = delaysOf p1 ++ delaysOf p2.
Proof. unfold delaysOf. by rewrite omap_app. Qed.

(** What holds of the passes of every result of the loop: [new] are the
    passes made from pass number [attempt + 1] on. *)
Definition LoopFacts (attempt : Z) (passes : list Attempt) (w w' : World)
    (all : list Attempt) : Prop :=
  ∃ new, all = rev passes ++ new ∧ clock w' = clock w + sumZ (delaysOf new) ∧
         (∀ (i : nat) d wi, new !! i = Some (Waited d wi) →
            d = Z.min 1000 (50 * (attempt + Z.of_nat i + 1))) ∧
         (∀ (i : nat) wi, new !! i = Some (Created wi) → S i = length new).

Definition GoodOutcome timeoutMs lock (startedAt attempt : Z) (passes : list Attempt)
    (w : World) (o : Outcome) : Prop :=
  match o with
  | OutOfFuel => True
  | Acquired w' all =>
      lockFiles w' !! lock = Some (ownPayload (clock w')) ∧
      last all = Some (Created w') ∧
      (clock w - startedAt < timeoutMs + 1000 → clock w' - startedAt < timeoutMs) ∧
      LoopFacts attempt passes w w' all
  | TimedOut w' all =>
      timeoutMs ≤ clock w' - startedAt ∧
      (clock w - startedAt < timeoutMs + 1000 → clock w' - startedAt < timeoutMs + 1000) ∧
      LoopFacts attempt passes w w' all
  end.

Lemma LoopFacts_here attempt passes w w' :
  clock w' = clock w → LoopFacts attempt passes w w' (rev passes).
Proof.
  intros Hc. exists []. rewrite app_nil_r.
  split_and!; [done|unfold sumZ; simpl; lia|done|done].
Qed.

Lemma LoopFacts_created attempt passes w w' :
  clock w' = clock w → LoopFacts attempt passes w w' (rev (Created w' :: passes)).
Proof.
  intros Hc. exists [Created w']. split_and!.
  - done.
  - unfold sumZ; simpl; lia.
  - intros [|i] d wi; simpl; [done|]. by rewrite lookup_nil.
  - intros [|i] wi; simpl; [done|]. by rewrite lookup_nil.
Qed.

Lemma LoopFacts_pass attempt passes w pass w' all :
  (∀ wi, pass ≠ Created wi) →
  (∀ d wi, pass = Waited d wi → d = Z.min 1000 (50 * (attempt + 1))) →
  clock (worldAfter pass) = clock w + sumZ (delaysOf [pass]) →
  LoopFacts (attempt + 1) (pass :: passes) (worldAfter pass) w' all →
  LoopFacts attempt passes w w' all.
Proof.
  intros Hnc Hd Hc (new & -> & Hs & Hw & Hcr). exists (pass :: new).
  split_and!.
  - simpl. by rewrite <- app_assoc.
  - change (pass :: new) with ([pass] ++ new). rewrite delaysOf_app, sumZ_app. lia.
  - intros [|i] d wi; simpl.
    + intros [= ->]. rewrite (Hd d wi eq_refl). f_equal. lia.
    + intros Hi. rewrite (Hw i d wi Hi). f_equal. lia.
  - intros [|i] wi; simpl.
    + intros [= ->]. by destruct (Hnc wi).
    + intros Hi. by rewrite (Hcr i wi Hi).
Qed.

Lemma acquireLoop_outcome timeoutMs staleMs lock fuel :
  ∀ startedAt attempt passes w,
    0 ≤ attempt →
    GoodOutcome timeoutMs lock startedAt attempt passes w
      (acquireLoop timeoutMs staleMs fuel lock startedAt attempt passes w).
Proof.
  induction fuel as [|fuel IH]; intros startedAt attempt passes w Hatt; [done|].
  cbn [WriteLock.acquireLoop]. case_decide as Ht.
  - unfold WriteLock.tryOnce. destruct (lockFiles w !! lock) as [payload|] eqn:Hl.
    + destruct (isStale Date_parse staleMs (clock w) payload
                || negb (ownerAlive processExists payload)).
      * set (pass := RemovedStale {| clock := clock w; lockFiles := delete lock (lockFiles w) |}).
        specialize (IH startedAt (attempt + 1) (pass :: passes) (worldAfter pass) ltac:(lia)).
        simpl worldAfter in IH.
        destruct (WriteLock.acquireLoop _ _ _ _ _ _ _ _ _ _ _ _ _) as [w' all|w' all|]; [| |done].
        -- destruct IH as (H1 & H2 & H3 & H4). split_and!; [done|done|simpl in H3; lia|].
           eapply (LoopFacts_pass _ _ _ pass); [done|done| |exact H4].
           unfold sumZ. simpl. lia.
        -- destruct IH as (H1 & H2 & H3). split_and!; [done|simpl in H2; lia|].
           eapply (LoopFacts_pass _ _ _ pass); [done|done| |exact H3].
           unfold sumZ. simpl. lia.
      * set (pass := Waited (backoffDelay (attempt + 1))
                       {| clock := clock w + backoffDelay (attempt + 1);
                          lockFiles := others (clock w + backoffDelay (attempt + 1)) (lockFiles w) |}).
        specialize (IH startedAt (attempt + 1) (pass :: passes) (worldAfter pass) ltac:(lia)).
        simpl worldAfter in IH.
        assert (0 ≤ backoffDelay (attempt + 1) ≤ 1000) as Hd by (unfold backoffDelay; lia).
        destruct (WriteLock.acquireLoop _ _ _ _ _ _ _ _ _ _ _ _ _) as [w' all|w' all|]; [| |done].
        -- destruct IH as (H1 & H2 & H3 & H4). split_and!; [done|done|simpl in H3; lia|].
           eapply (LoopFacts_pass _ _ _ pass); [done| | |exact H4].
           ++ by intros d wi [= <- _].
           ++ unfold sumZ. simpl. lia.
        -- destruct IH as (H1 & H2 & H3). split_and!; [done|simpl in H2; lia|].
           eapply (LoopFacts_pass _ _ _ pass); [done| | |exact H3].
           ++ by intros d wi [= <- _].
           ++ unfold sumZ. simpl. lia.
    + split_and!.
      * simpl. by rewrite lookup_insert_eq.
      * simpl. by rewrite last_snoc.
      * simpl. lia.
      * by apply LoopFacts_created.
  - split_and!; [lia|lia|]. by apply LoopFacts_here.
Qed.

Lemma acquireLoop_terminates timeoutMs staleMs lock (n : nat) :
  ∀ fuel startedAt attempt passes w,
    0 ≤ attempt → timeoutMs - (clock w - startedAt) ≤ 50 * Z.of_nat n → (n + 2 ≤ fuel)%nat →
    acquireLoop timeoutMs staleMs fuel lock startedAt attempt passes w ≠ OutOfFuel.
Proof.
  induction n as [|n IH]; intros fuel startedAt attempt passes w Ha Hrem Hfuel.
  - destruct fuel as [|fuel]; [lia|]. simpl. rewrite decide_False by lia. done.
  - destruct fuel as [|fuel]; [lia|]. cbn [WriteLock.acquireLoop]. case_decide as Ht; [|done].
    unfold WriteLock.tryOnce. destruct (lockFiles w !! lock) as [payload|] eqn:Hl; [|done].
    destruct (isStale Date_parse staleMs (clock w) payload
              || negb (ownerAlive processExists payload)).
    + destruct fuel as [|fuel]; [lia|]. cbn [WriteLock.acquireLoop]. simpl clock.
      rewrite decide_True by done.
      unfold WriteLock.tryOnce. simpl lockFiles. by rewrite lookup_delete_eq.
    + apply IH; [lia| |lia]. simpl. unfold backoffDelay. lia.
Qed.

Lemma fuel_suffices timeoutMs (fuel : nat) :
  0 ≤ timeoutMs → (Z.to_nat (timeoutMs / 50) + 3 ≤ fuel)%nat →
  timeoutMs ≤ 50 * Z.of_nat (Z.to_nat (timeoutMs / 50) + 1) ∧
  (Z.to_nat (timeoutMs / 50) + 1 + 2 ≤ fuel)%nat.
Proof.
  intros Hto Hfuel. split; [|lia].
  pose proof (Z.mod_pos_bound timeoutMs 50 ltac:(lia)).
  pose proof (Z.div_mod timeoutMs 50 ltac:(lia)).
  assert (0 ≤ timeoutMs / 50) by (apply Z.div_pos; lia).
  rewrite Nat2Z.inj_add, Z2Nat.id by done. lia.
Qed.

End Protocol.

End WriteLockFacts.
(** ** Context pruning (src/context/pruning.ts) *)

Module Pruning.
Local Open Scope Z_scope.

(** *** Numbers *)

(** JavaScript numbers are IEEE 754 doubles.  Character and token counts
    are integers far below 2^53 and are modelled by [Z].  A setting is
    written as a rational and stands for the double nearest to it (for
    itself when it is a double, such as 1/2); where the code multiplies or
    divides, the operation is the one on doubles, with its rounding. *)
Definition doubleOfZ (z : Z) : PrimFloat.float :=
  if z <? 0 then PrimFloat.opp (PrimFloat.of_uint63 (Uint63.of_Z (- z)))
  else PrimFloat.of_uint63 (Uint63.of_Z z).

(** The double nearest to [q]: the correctly rounded quotient of its
    numerator and denominator, both below 2^53. *)
Definition doubleOfQ (q : Q) : PrimFloat.float :=
  PrimFloat.div (doubleOfZ (Qnum q)) (doubleOfZ (Zpos (Qden q))).

(** [Math.floor] of a finite double (a double that is not finite does not
    occur where it is used, and gives 0 here). *)
Definition Math_floor (x : PrimFloat.float) : Z :=
  match FloatOps.Prim2SF x with
  | SpecFloat.S754_finite s m e => Z.shiftl (if s then Zneg m else Zpos m) e
  | _ => 0
  end.

(** *** Strings *)

(** [String.prototype.toLowerCase] on one code unit below 256. *)
Definition lowerChar (c : Ascii.ascii) : Ascii.ascii :=
  let n := N.to_nat (Ascii.N_of_ascii c) in
  if (bool_decide (65 ≤ n ≤ 90)%nat
      || (bool_decide (192 ≤ n ≤ 222)%nat && negb (bool_decide (n = 215)%nat)))
  then Ascii.ascii_of_nat (n + 32) else c.

Fixpoint toLowerCase (s : string) : string :=
  match s with
  | EmptyString => EmptyString
  | String c s => String (lowerChar c) (toLowerCase s)
  end.

(** White space and line terminators that [trim] removes (code units below
    256): tab, LF, VT, FF, CR, space, no-break space. *)
Definition isWhiteSpace (c : Ascii.ascii) : bool :=
  let n := N.to_nat (Ascii.N_of_ascii c) in
  bool_decide (n ∈ [9; 10; 11; 12; 13; 32; 160]%nat).

Fixpoint trimStart (s : string) : string :=
  match s with
  | EmptyString => EmptyString
  | String c s' => if isWhiteSpace c then trimStart s' else s
  end.

Definition trim (s : string) : string :=
  String.rev (trimStart (String.rev (trimStart s))).

Fixpoint includesStar (s : string) : bool :=
  match s with
  | EmptyString => false
  | String c s => Ascii.eqb c "*"%char || includesStar s
  end.

(** A regular-expression [.] does not match a line terminator. *)
Definition isLineTerminator (c : Ascii.ascii) : bool :=
  let n := N.to_nat (Ascii.N_of_ascii c) in
  bool_decide (n = 10 ∨ n = 13)%nat.

(** [new RegExp("^" + escaped + "$").test(value)], where every [*] of the
    pattern became [.*] and every other special character was escaped. *)
Fixpoint regexTest (pattern : string) : string → bool :=
  match pattern with
  | EmptyString => λ value, if value is EmptyString then true else false
  | String p pattern' =>
      if Ascii.eqb p "*"%char then
        fix star (value : string) : bool :=
          regexTest pattern' value ||
          match value with
          | EmptyString => false
          | String c value' => negb (isLineTerminator c) && star value'
          end
      else
        λ value,
          match value with
          | EmptyString => false
          | String c value' => Ascii.eqb c p && regexTest pattern' value'
          end
  end.

Definition matchGlob (value pattern : string) : bool :=
  if String.eqb pattern "*" then true
  else if negb (includesStar pattern) then String.eqb value pattern
  else regexTest pattern value.

(** [type ContextPruningToolMatch = { allow?: string[]; deny?: string[] }] *)
Record ContextPruningToolMatch := {
  allow : option (list string);
  deny : option (list string);
}.

Definition makeToolPrunablePredicate (m : option ContextPruningToolMatch)
  : string → bool :=
  match m with
  | None => λ _, true
  | Some m =>
      let deny := default [] (deny m) in
      let allow := default [] (allow m) in
      λ toolName,
        let normalized := toLowerCase (trim toolName) in
        if existsb (λ pattern, matchGlob normalized (toLowerCase pattern)) deny then false
        else if decide (length allow = 0%nat) then true
        else existsb (λ pattern, matchGlob normalized (toLowerCase pattern)) allow
  end.

(** *** Settings *)

Record SoftTrimSettings := { maxChars : Z; headChars : Z; tailChars : Z }.
Record HardClearSettings := { enabled : bool; placeholder : string }.

Record ContextPruningSettings := {
  maxHistoryShare : Q;
  keepLastAssistants : Z;
  softTrimRatio : Q;
  hardClearRatio : Q;
  minPrunableToolChars : Z;
  softTrim : SoftTrimSettings;
  hardClear : HardClearSettings;
  tools : ContextPruningToolMatch;
}.

Definition DEFAULT_CONTEXT_PRUNING_SETTINGS : ContextPruningSettings :=
  {| maxHistoryShare := 1 # 2;
     keepLastAssistants := 3;
     softTrimRatio := 3 # 10;
     hardClearRatio := 1 # 2;
     minPrunableToolChars := 50000;
     softTrim := {| maxChars := 4000; headChars := 1500; tailChars := 1500 |};
     hardClear := {| enabled := true; placeholder := "[Old tool result content cleared]" |};
     tools := {| allow := None; deny := None |} |}.

(** [Partial<ContextPruningSettings>]; numbers are rationals here, so
    [Number.isFinite] always holds. *)
Record PartialSettings := {
  raw_maxHistoryShare : option Q;
  raw_keepLastAssistants : option Q;
  raw_softTrimRatio : option Q;
  raw_hardClearRatio : option Q;
  raw_minPrunableToolChars : option Q;
  raw_softTrim_maxChars : option Q;
  raw_softTrim_headChars : option Q;
  raw_softTrim_tailChars : option Q;
  raw_hardClear_enabled : option bool;
  raw_hardClear_placeholder : option string;
  raw_tools : option ContextPruningToolMatch;
}.

Definition clampShare (value : Q) : Q := Qmin 1 (Qmax 0 value).

Definition clampPositiveInt (value : option Q) (fallback : Z) : Z :=
  match value with
  | None => fallback
  | Some v => Z.max 0 (Qfloor v)
  end.

Definition resolvePruningSettings (raw : option PartialSettings) : ContextPruningSettings :=
  match raw with
  | None => DEFAULT_CONTEXT_PRUNING_SETTINGS
  | Some raw =>
      let d := DEFAULT_CONTEXT_PRUNING_SETTINGS in
      {| maxHistoryShare := clampShare (default (maxHistoryShare d) (raw_maxHistoryShare raw));
         keepLastAssistants := clampPositiveInt (raw_keepLastAssistants raw) (keepLastAssistants d);
         softTrimRatio := clampShare (default (softTrimRatio d) (raw_softTrimRatio raw));
         hardClearRatio := clampShare (default (hardClearRatio d) (raw_hardClearRatio raw));
         minPrunableToolChars :=
           clampPositiveInt (raw_minPrunableToolChars raw) (minPrunableToolChars d);
         softTrim :=
           {| maxChars := clampPositiveInt (raw_softTrim_maxChars raw) (maxChars (softTrim d));
              headChars := clampPositiveInt (raw_softTrim_headChars raw) (headChars (softTrim d));
              tailChars := clampPositiveInt (raw_softTrim_tailChars raw) (tailChars (softTrim d)) |};
         hardClear :=
           {| enabled := default (enabled (hardClear d)) (raw_hardClear_enabled raw);
              placeholder := default (placeholder (hardClear d)) (raw_hardClear_placeholder raw) |};
         tools := default (tools d) (raw_tools raw) |}
  end.

(** *** Layer 1: soft trim *)

Definition set_block_content (b : ContentBlock) (c : string) : ContentBlock :=
  {| block_type := block_type b; block_text := block_text b; block_id := block_id b;
     block_name := block_name b; block_input := block_input b;
     tool_use_id := tool_use_id b; block_content := Some c |}.

Definition cloneMessage (message : Message) (c : list ContentBlock) : Message :=
  {| role := role message; content := Blocks c; timestamp := timestamp message |}.

Definition isToolResultProtected (_ : ContentBlock) : bool := false.

Definition strlen (s : string) : Z := Z.of_nat (String.length s).

(** [raw.slice(from)] for [0 ≤ from ≤ raw.length] *)
Definition sliceFrom (from : Z) (raw : string) : string :=
  String.substring (Z.to_nat from) (String.length raw - Z.to_nat from) raw.

Definition trimmedNotice (headChars tailChars rawLen : Z) : string :=
  LF +:+ LF +:+ "[Tool result trimmed: kept first " +:+ pretty headChars +:+
  " chars and last " +:+ pretty tailChars +:+ " chars of " +:+ pretty rawLen +:+ " chars.]".

(** The result is the block and the [trimmed] flag. *)
Definition softTrimToolResultBlock (block : ContentBlock) (settings : SoftTrimSettings)
    (isPrunable : string → bool) : ContentBlock * bool :=
  if negb (bool_decide (block_type block = ty_tool_result)) then (block, false)
  else if isToolResultProtected block then (block, false)
  else if truthy (tool_use_id block)
          && negb (isPrunable (default "" (tool_use_id block))) then (block, false)
  else
    let raw := default "" (block_content block) in
    let rawLen := strlen raw in
    if decide (rawLen ≤ maxChars settings) then (block, false)
    else
      let headChars := Z.max 0 (headChars settings) in
      let tailChars := Z.max 0 (tailChars settings) in
      if decide (headChars + tailChars >= rawLen) then (block, false)
      else
        let head := String.substring 0 (Z.to_nat headChars) raw in
        let tail := sliceFrom (rawLen - tailChars) raw in
        let trimmedText :=
          head +:+ LF +:+ "..." +:+ LF +:+ tail +:+ trimmedNotice headChars tailChars rawLen in
        (set_block_content block trimmedText, true).

(** The inner loop over the blocks of one message: the new blocks and the
    number of blocks trimmed. *)
Fixpoint softTrimBlocks (blocks : list ContentBlock) (settings : SoftTrimSettings)
    (isPrunable : string → bool) : list ContentBlock * Z :=
  match blocks with
  | [] => ([], 0)
  | block :: blocks =>
      let '(b, trimmed) := softTrimToolResultBlock block settings isPrunable in
      let '(bs, n) := softTrimBlocks blocks settings isPrunable in
      (b :: bs, if trimmed then n + 1 else n)
  end.

(** The result is the messages and [trimmedToolResults]. *)
Fixpoint applySoftTrim (messages : list Message) (settings : ContextPruningSettings)
    (isPrunable : string → bool) : list Message * Z :=
  match messages with
  | [] => ([], 0)
  | msg :: messages =>
      let '(output, total) := applySoftTrim messages settings isPrunable in
      match content msg with
      | Text _ => (msg :: output, total)
      | Blocks blocks =>
          let '(nextBlocks, n) := softTrimBlocks blocks (softTrim settings) isPrunable in
          ((if decide (0 < n) then cloneMessage msg nextBlocks else msg) :: output, total + n)
      end
  end.

(** *** The estimator (src/context/tokens.ts is not part of the sources) *)

(** Modelled from the spec: the characters-per-token constant is 4. *)
Definition CHARS_PER_TOKEN_ESTIMATE : Z := 4.

Section WithEstimator.
(** [estimateMessageChars]: the character count of one message. *)
Variable estimateMessageChars : Message → Z.

(** Modelled from the spec: [estimateMessagesChars] sums the per-message
    counts ("summed across" the messages). *)
Definition estimateMessagesChars (messages : list Message) : Z :=
  foldr (λ m total, estimateMessageChars m + total) 0 messages.

(** *** Layer 2: hard clear *)

Definition blockPrunable (isPrunable : string → bool) (block : ContentBlock) : bool :=
  negb (truthy (tool_use_id block)) || isPrunable (default "" (tool_use_id block)).

Definition countPrunableToolChars (messages : list Message) (isPrunable : string → bool) : Z :=
  foldr (λ msg total,
      match content msg with
      | Text _ => total
      | Blocks blocks =>
          foldr (λ block t,
              if negb (bool_decide (block_type block = ty_tool_result)) then t
              else if isToolResultProtected block then t
              else if negb (blockPrunable isPrunable block) then t
              else strlen (default "" (block_content block)) + t) 0 blocks + total
      end) 0 messages.

(** [totalChars / charWindow < limit] and [totalChars / charWindow > limit] *)
Definition ratioBelow (chars charWindow : Z) (limit : Q) : bool :=
  PrimFloat.ltb (PrimFloat.div (doubleOfZ chars) (doubleOfZ charWindow)) (doubleOfQ limit).

Definition ratioAbove (chars charWindow : Z) (limit : Q) : bool :=
  PrimFloat.ltb (doubleOfQ limit) (PrimFloat.div (doubleOfZ chars) (doubleOfZ charWindow)).

(** The inner loop of [applyHardClear] over the blocks of one message; the
    state is the running [totalChars] and the number of cleared blocks. *)
Fixpoint hardClearBlocks (blocks : list ContentBlock) (settings : ContextPruningSettings)
    (isPrunable : string → bool) (charWindow totalChars : Z)
  : list ContentBlock * Z * Z :=
  match blocks with
  | [] => ([], totalChars, 0)
  | block :: blocks =>
      let candidate :=
        bool_decide (block_type block = ty_tool_result) &&
        negb (isToolResultProtected block) &&
        match block_content block with
        | Some c => bool_decide (0 < strlen c)
        | None => false
        end in
      if candidate && blockPrunable isPrunable block
         && negb (ratioBelow totalChars charWindow (hardClearRatio settings)) then
        let beforeLen := strlen (default "" (block_content block)) in
        let clearedBlock := set_block_content block (placeholder (hardClear settings)) in
        let totalChars := totalChars - (beforeLen - strlen (placeholder (hardClear settings))) in
        let '(bs, totalChars, n) :=
          hardClearBlocks blocks settings isPrunable charWindow totalChars in
        (clearedBlock :: bs, totalChars, n + 1)
      else
        let '(bs, totalChars, n) :=
          hardClearBlocks blocks settings isPrunable charWindow totalChars in
        (block :: bs, totalChars, n)
  end.

Fixpoint hardClearMessages (messages : list Message) (settings : ContextPruningSettings)
    (isPrunable : string → bool) (charWindow totalChars : Z) : list Message * Z :=
  match messages with
  | [] => ([], 0)
  | msg :: messages =>
      match content msg with
      | Text _ =>
          let '(output, n) :=
            hardClearMessages messages settings isPrunable charWindow totalChars in
          (msg :: output, n)
      | Blocks blocks =>
          let '(nextBlocks, totalChars, k) :=
            hardClearBlocks blocks settings isPrunable charWindow totalChars in
          let '(output, n) :=
            hardClearMessages messages settings isPrunable charWindow totalChars in
          ((if decide (0 < k) then cloneMessage msg nextBlocks else msg) :: output, k + n)
      end
  end.

(** The result is the messages and [hardClearedToolResults]. *)
Definition applyHardClear (messages : list Message) (settings : ContextPruningSettings)
    (isPrunable : string → bool) (charWindow : Z) : list Message * Z :=
  if negb (enabled (hardClear settings)) then (messages, 0)
  else
    let totalChars := estimateMessagesChars messages in
    if ratioBelow totalChars charWindow (hardClearRatio settings) then (messages, 0)
    else if decide (countPrunableToolChars messages isPrunable < minPrunableToolChars settings)
    then (messages, 0)
    else hardClearMessages messages settings isPrunable charWindow totalChars.

(** *** Layer 3: message drop *)

(** The backward scan of [findAssistantCutoffIndex] over the first [i]
    messages ([i] counts down); [None] is [null]. *)
Fixpoint cutoffScan (reversed : list Message) (i : nat) (remaining : Z) : option nat :=
  match reversed, i with
  | msg :: reversed, S i =>
      if bool_decide (role msg = assistant) then
        if decide (remaining - 1 = 0) then Some i
        else cutoffScan reversed i (remaining - 1)
      else cutoffScan reversed i remaining
  | _, _ => None
  end.

Definition findAssistantCutoffIndex (messages : list Message) (keepLastAssistants : Z)
  : option nat :=
  if decide (keepLastAssistants ≤ 0) then Some (length messages)
  else cutoffScan (reverse messages) (length messages) keepLastAssistants.

(** The loop of [sliceWithinBudget], from the last message backwards;
    [kept] is in original order. *)
Fixpoint sliceScan (reversed : list Message) (budgetChars used : Z) (kept : list Message)
  : list Message :=
  match reversed with
  | [] => kept
  | msg :: reversed =>
      let chars := estimateMessageChars msg in
      if bool_decide (used + chars > budgetChars) && bool_decide (0 < length kept)%nat
      then kept
      else sliceScan reversed budgetChars (used + chars) (msg :: kept)
  end.

Definition sliceWithinBudget (messages : list Message) (budgetChars : Z) : list Message :=
  sliceScan (reverse messages) budgetChars 0 [].

(** The loop that adds older messages in front of the protected ones while
    they fit. *)
Fixpoint fillOlder (reversedOlder : list Message) (remaining : Z) (kept : list Message)
  : list Message :=
  match reversedOlder with
  | [] => kept
  | msg :: reversedOlder =>
      let msgChars := estimateMessageChars msg in
      if decide (msgChars > remaining) then kept
      else fillOlder reversedOlder (remaining - msgChars) (msg :: kept)
  end.

Record PruneResult := {
  messages : list Message;
  droppedMessages : list Message;
  trimmedToolResults : Z;
  hardClearedToolResults : Z;
  totalChars : Z;
  keptChars : Z;
  droppedChars : Z;
  budgetChars : Z;
}.

(** [budgetChars = Math.max(1, Math.floor(charWindow * settings.maxHistoryShare))] *)
Definition budgetOf (contextWindowTokens : Z) (settings : ContextPruningSettings) : Z :=
  let contextTokens := Z.max 1 contextWindowTokens in
  let charWindow := contextTokens * CHARS_PER_TOKEN_ESTIMATE in
  Z.max 1 (Math_floor (PrimFloat.mul (doubleOfZ charWindow)
                         (doubleOfQ (maxHistoryShare settings)))).

(** Layers 1 and 2: the messages handed to the message drop, with the two
    counters. *)
Definition trimAndClear (input : list Message) (contextWindowTokens : Z)
    (settings : ContextPruningSettings) : list Message * Z * Z :=
  let contextTokens := Z.max 1 contextWindowTokens in
  let charWindow := contextTokens * CHARS_PER_TOKEN_ESTIMATE in
  let isPrunable := makeToolPrunablePredicate (Some (tools settings)) in
  let totalChars := estimateMessagesChars input in
  let '(current, trimmed) :=
    if ratioAbove totalChars charWindow (softTrimRatio settings)
    then applySoftTrim input settings isPrunable else (input, 0) in
  let afterSoftTrimChars := estimateMessagesChars current in
  let '(current, cleared) :=
    if ratioAbove afterSoftTrimChars charWindow (hardClearRatio settings)
    then applyHardClear current settings isPrunable charWindow else (current, 0) in
  (current, trimmed, cleared).

(** The number of assistant messages in a sequence. *)
Definition assistants (messages : list Message) : Z :=
  Z.of_nat (length (filter (λ m, role m = assistant) messages)).

(** The messages from the cutoff index on ([cutoffIndex ?? 0]). *)
Definition protectedOf (current : list Message) (settings : ContextPruningSettings)
  : list Message :=
  drop (default 0%nat (findAssistantCutoffIndex current (keepLastAssistants settings))) current.

(** [contextWindowTokens] is taken as an integer ([Math.floor] is the
    identity).  [droppedMessages] is computed by object identity in the
    source ([new Set(kept)]); the kept messages are a suffix of [current],
    so the dropped ones are the remaining prefix. *)
Definition pruneContextMessages (input : list Message) (contextWindowTokens : Z)
    (raw : option PartialSettings) : PruneResult :=
  let settings := resolvePruningSettings raw in
  let budgetChars := budgetOf contextWindowTokens settings in
  let '(current, trimmed, cleared) := trimAndClear input contextWindowTokens settings in
  let afterClearChars := estimateMessagesChars current in
  if decide (afterClearChars ≤ budgetChars) then
    {| messages := current; droppedMessages := [];
       trimmedToolResults := trimmed; hardClearedToolResults := cleared;
       totalChars := afterClearChars; keptChars := afterClearChars;
       droppedChars := 0; budgetChars := budgetChars |}
  else
    let protectedIndex :=
      default 0%nat (findAssistantCutoffIndex current (keepLastAssistants settings)) in
    let protectedMessages := drop protectedIndex current in
    let protectedChars := estimateMessagesChars protectedMessages in
    let kept :=
      if decide (protectedChars > budgetChars) then sliceWithinBudget current budgetChars
      else fillOlder (reverse (take protectedIndex current))
             (budgetChars - protectedChars) protectedMessages in
    let keptChars := estimateMessagesChars kept in
    {| messages := kept;
       droppedMessages := take (length current - length kept)%nat current;
       trimmedToolResults := trimmed; hardClearedToolResults := cleared;
       totalChars := afterClearChars; keptChars := keptChars;
       droppedChars := Z.max 0 (afterClearChars - keptChars);
       budgetChars := budgetChars |}.

End WithEstimator.

(** Modelled from the spec: a character count for one message, the length of
    its text or the sum of the lengths of the texts its blocks carry.  It
    serves as a concrete estimator in examples; the theorems hold for any
    estimator without negative counts. *)
Definition textChars (m : Message) : Z :=
  match content m with
  | Text s => strlen s
  | Blocks bs =>
      foldr (λ b t,
          strlen (default "" (block_text b)) + strlen (default "" (block_content b)) +
          strlen (default "" (block_input b)) + t) 0 bs
  end.

Fixpoint repeatStr (n : nat) (s : string) : string :=
  match n with
  | O => ""
  | S n => s +:+ repeatStr n s
  end.

(** A pasted text of 20,000 characters as the only message. *)
Definition longPaste : list Message :=
  [{| role := user; content := Text (repeatStr 2000 "0123456789"); timestamp := 1 |}].

(** Four messages of 1500, 600, 600 and 100 characters. *)
Definition shortTalk : list Message :=
  [{| role := user; content := Text (repeatStr 150 "0123456789"); timestamp := 1 |};
   {| role := assistant; content := Blocks [mkText (repeatStr 60 "0123456789")]; timestamp := 2 |};
   {| role := user; content := Text (repeatStr 60 "0123456789"); timestamp := 3 |};
   {| role := assistant; content := Blocks [mkText (repeatStr 10 "0123456789")]; timestamp := 4 |}].

Definition noOverrides : PartialSettings :=
  {| raw_maxHistoryShare := None; raw_keepLastAssistants := None;
     raw_softTrimRatio := None; raw_hardClearRatio := None;
     raw_minPrunableToolChars := None; raw_softTrim_maxChars := None;
     raw_softTrim_headChars := None; raw_softTrim_tailChars := None;
     raw_hardClear_enabled := None; raw_hardClear_placeholder := None;
     raw_tools := None |}.

Definition keepOneAssistant : PartialSettings :=
  {| raw_maxHistoryShare := None; raw_keepLastAssistants := Some (1 # 1)%Q;
     raw_softTrimRatio := None; raw_hardClearRatio := None;
     raw_minPrunableToolChars := None; raw_softTrim_maxChars := None;
     raw_softTrim_headChars := None; raw_softTrim_tailChars := None;
     raw_hardClear_enabled := None; raw_hardClear_placeholder := None;
     raw_tools := None |}.

(** Settings that give the history a share of the window. *)
Definition shareOf (share : Q) : PartialSettings :=
  {| raw_maxHistoryShare := Some share; raw_keepLastAssistants := None;
     raw_softTrimRatio := None; raw_hardClearRatio := None;
     raw_minPrunableToolChars := None; raw_softTrim_maxChars := None;
     raw_softTrim_headChars := None; raw_softTrim_tailChars := None;
     raw_hardClear_enabled := None; raw_hardClear_placeholder := None;
     raw_tools := None |}.

Definition tenthShare : PartialSettings := shareOf (1 # 10).

(** Settings that exclude the tool [exec] from pruning. *)
Definition denyExec : PartialSettings :=
  {| raw_maxHistoryShare := None; raw_keepLastAssistants := None;
     raw_softTrimRatio := None; raw_hardClearRatio := None;
     raw_minPrunableToolChars := None; raw_softTrim_maxChars := None;
     raw_softTrim_headChars := None; raw_softTrim_tailChars := None;
     raw_hardClear_enabled := None; raw_hardClear_placeholder := None;
     raw_tools := Some {| allow := None; deny := Some ["exec"] |} |}.

(** The 5000-character output of a call [toolu_01] of the tool [exec]. *)
Definition execOutput : ContentBlock :=
  mkToolResult "toolu_01" (Some "exec") (repeatStr 500 "0123456789").

Definition execTurn : list Message :=
  [{| role := assistant; content := Blocks [mkToolUse "toolu_01" "exec" "{}"]; timestamp := 1 |};
   {| role := user; content := Blocks [execOutput]; timestamp := 2 |}].

Definition set_block_name (b : ContentBlock) (n : option string) : ContentBlock :=
  {| block_type := block_type b; block_text := block_text b; block_id := block_id b;
     block_name := n; block_input := block_input b;
     tool_use_id := tool_use_id b; block_content := block_content b |}.

End Pruning.

(** ** Facts about context pruning *)

Module PruningFacts.
Import Pruning.
Local Open Scope Z_scope.

Section Budget.
Context (est : Message → Z).
Hypothesis est_nonneg : ∀ m, 0 ≤ est m.

#[local] Abbreviation chars := (estimateMessagesChars est).

Lemma chars_app l1 l2 : chars (l1 ++ l2) = chars l1 + chars l2.
Proof. induction l1 as [|m l1 IH]; simpl; [done|]. rewrite IH. lia. Qed.

Lemma chars_nonneg l : 0 ≤ chars l.
Proof. induction l as [|m l IH]; simpl; [done|]. pose proof (est_nonneg m). lia. Qed.

Lemma chars_reverse l : chars (reverse l) = chars l.
Proof.
  induction l as [|m l IH]; simpl; [done|].
  rewrite reverse_cons, chars_app, IH. simpl. lia.
Qed.

Lemma fillOlder_spec reversedOlder : ∀ remaining kept,
  0 ≤ remaining →
  ∃ n, fillOlder est reversedOlder remaining kept = reverse (take n reversedOlder) ++ kept ∧
       chars (fillOlder est reversedOlder remaining kept) ≤ chars kept + remaining.
Proof.
  induction reversedOlder as [|m rest IH]; intros remaining kept Hrem; simpl.
  - exists 0%nat. split; [done|lia].
  - case_decide as Hm.
    + exists 0%nat. split; [done|lia].
    + destruct (IH (remaining - est m) (m :: kept) ltac:(lia)) as (n & -> & Hle).
      exists (S n). split.
      * simpl. rewrite reverse_cons, <- app_assoc. done.
      * simpl in Hle. lia.
Qed.

Lemma sliceScan_stuck reversed budget used m :
  budget < used → sliceScan est reversed budget used [m] = [m].
Proof.
  intros Hu. destruct reversed as [|m' rest]; simpl; [done|].
  pose proof (est_nonneg m').
  rewrite bool_decide_eq_true_2 by lia. done.
Qed.

Lemma sliceScan_suffix reversed : ∀ budget used kept,
  ∃ n, sliceScan est reversed budget used kept = reverse (take n reversed) ++ kept.
Proof.
  induction reversed as [|m rest IH]; intros budget used kept; simpl.
  - by exists 0%nat.
  - destruct (bool_decide (used + est m > budget) && bool_decide (0 < length kept)%nat).
    + by exists 0%nat.
    + destruct (IH budget (used + est m) (m :: kept)) as (n & ->).
      exists (S n). simpl. by rewrite reverse_cons, <- app_assoc.
Qed.

Lemma sliceScan_bound reversed : ∀ budget used kept,
  used = chars kept → (kept ≠ [] → used ≤ budget) → 0 ≤ budget →
  chars (sliceScan est reversed budget used kept) ≤ budget ∨
  (kept = [] ∧ ∃ m rest, reversed = m :: rest ∧ budget < est m ∧
                         sliceScan est reversed budget used kept = [m]).
Proof.
  induction reversed as [|m rest IH]; intros budget used kept Hu Hk Hb; simpl.
  - left. destruct kept; [simpl; lia|]. rewrite <- Hu. by apply Hk.
  - destruct (bool_decide (used + est m > budget)) eqn:Hover; simpl.
    + apply bool_decide_eq_true in Hover.
      destruct kept as [|k kept]; simpl.
      * right. split; [done|]. simpl in Hu. subst used.
        exists m, rest. split_and!; [done|lia|]. apply sliceScan_stuck. lia.
      * left. specialize (Hk ltac:(done)). simpl in *. lia.
    + apply bool_decide_eq_false in Hover.
      destruct (IH budget (used + est m) (m :: kept)) as [Hle|(Hnil & _)];
        [simpl; lia|intros _; lia|done|by left|done].
Qed.

Lemma drop_suffix {A} n (l : list A) : drop n l `suffix_of` l.
Proof. exists (take n l). by rewrite take_drop. Qed.

Lemma reverse_take_suffix {A} n (l : list A) : reverse (take n (reverse l)) `suffix_of` l.
Proof.
  exists (reverse (drop n (reverse l))).
  rewrite <- reverse_app, take_drop. by rewrite reverse_involutive.
Qed.

Lemma last_reverse_head {A} (l : list A) m :
  last l = Some m → ∃ rest, reverse l = m :: rest.
Proof.
  intros Hl. destruct l as [|x l _] using rev_ind; [done|].
  rewrite last_snoc in Hl. injection Hl as ->. exists (reverse l).
  by rewrite reverse_app.
Qed.

Lemma sliceWithinBudget_spec msgs budget :
  0 ≤ budget →
  sliceWithinBudget est msgs budget `suffix_of` msgs ∧
  (∀ m, last msgs = Some m → est m ≤ budget → chars (sliceWithinBudget est msgs budget) ≤ budget) ∧
  (∀ m, last msgs = Some m → budget < est m → sliceWithinBudget est msgs budget = [m]).
Proof.
  intros Hb. unfold sliceWithinBudget. split_and!.
  - destruct (sliceScan_suffix (reverse msgs) budget 0 []) as (n & ->).
    rewrite app_nil_r. apply reverse_take_suffix.
  - intros m Hl Hm. destruct (last_reverse_head _ _ Hl) as (rest & Hr).
    destruct (sliceScan_bound (reverse msgs) budget 0 [] eq_refl ltac:(done) Hb)
      as [?|(_ & m' & rest' & E & Hgt & _)]; [done|].
    rewrite Hr in E. injection E as <- <-. lia.
  - intros m Hl Hm. destruct (last_reverse_head _ _ Hl) as (rest & Hr).
    destruct (sliceScan_bound (reverse msgs) budget 0 [] eq_refl ltac:(done) Hb)
      as [Hle|(_ & m' & rest' & E & Hgt & Hres)].
    + exfalso. rewrite Hr in Hle. simpl in Hle.
      rewrite bool_decide_eq_true_2 in Hle by lia. simpl in Hle.
      rewrite sliceScan_stuck in Hle by lia. simpl in Hle. lia.
    + rewrite Hr in E. injection E as <- <-. done.
Qed.

Lemma budgetOf_pos cw settings : 0 < budgetOf cw settings.
Proof. unfold budgetOf. lia. Qed.

Lemma assistants_app l1 l2 : assistants (l1 ++ l2) = assistants l1 + assistants l2.
Proof. unfold assistants. rewrite filter_app, length_app. lia. Qed.

Lemma assistants_one x :
  assistants [x] = if bool_decide (role x = assistant) then 1 else 0.
Proof.
  unfold assistants. rewrite filter_cons.
  case_bool_decide as H; [by rewrite decide_True|by rewrite decide_False].
Qed.

Lemma assistants_cons x l : assistants (x :: l) = assistants [x] + assistants l.
Proof. apply (assistants_app [x] l). Qed.

Lemma assistants_nonneg l : 0 ≤ assistants l.
Proof. unfold assistants. lia. Qed.

(** The backward scan stops at the assistant message that has exactly
    [remaining] assistant messages from itself to the end, and finds none
    when there are fewer. *)
Lemma cutoffScan_spec pre : ∀ remaining, 0 < remaining →
  match cutoffScan (reverse pre) (length pre) remaining with
  | None => assistants pre < remaining
  | Some j => ∃ older M rest,
      pre = older ++ M :: rest ∧ j = length older ∧ role M = assistant ∧
      assistants (M :: rest) = remaining
  end.
Proof.
  induction pre as [|x pre IH] using rev_ind; intros remaining Hr.
  - simpl. unfold assistants. simpl. lia.
  - rewrite reverse_snoc, length_app, Nat.add_1_r. cbn [cutoffScan].
    rewrite assistants_app, assistants_one.
    case_bool_decide as Hx.
    + case_decide as Hz.
      * exists pre, x, []. rewrite assistants_one, bool_decide_eq_true_2 by done.
        split_and!; [done|done|done|lia].
      * specialize (IH (remaining - 1) ltac:(lia)).
        destruct (cutoffScan (reverse pre) (length pre) (remaining - 1)) as [j|]; [|lia].
        destruct IH as (older & M & rest & -> & -> & HM & Hc).
        exists older, M, (rest ++ [x]). split_and!; [by rewrite <- app_assoc|done|done|].
        rewrite app_comm_cons, assistants_app, Hc, assistants_one.
        rewrite bool_decide_eq_true_2 by done. lia.
    + specialize (IH remaining Hr).
      destruct (cutoffScan (reverse pre) (length pre) remaining) as [j|]; [|lia].
      destruct IH as (older & M & rest & -> & -> & HM & Hc).
      exists older, M, (rest ++ [x]). split_and!; [by rewrite <- app_assoc|done|done|].
      rewrite app_comm_cons, assistants_app, Hc, assistants_one.
      rewrite bool_decide_eq_false_2 by done. lia.
Qed.

(** The protected messages: none when [keepLastAssistants] is 0, all of
    them when there are fewer than [keepLastAssistants] assistant messages,
    and otherwise those from the [keepLastAssistants]-th assistant message
    from the end on. *)
Lemma protectedOf_spec current settings :
  let N := keepLastAssistants settings in
  let protected := protectedOf current settings in
  (N ≤ 0 → protected = []) ∧
  (0 < N → assistants current < N → protected = current) ∧
  (0 < N → N ≤ assistants current →
   ∃ older M rest,
     current = older ++ M :: rest ∧ role M = assistant ∧
     assistants (M :: rest) = N ∧ protected = M :: rest).
Proof.
  intros N protected. subst protected. unfold protectedOf, findAssistantCutoffIndex.
  fold N. split_and!.
  - intros HN. rewrite decide_True by done. simpl. apply drop_all.
  - intros HN Hfew. rewrite decide_False by lia.
    pose proof (cutoffScan_spec current N HN) as H.
    destruct (cutoffScan (reverse current) (length current) N) as [j|]; [|done].
    destruct H as (older & M & rest & -> & -> & HM & Hc). exfalso.
    rewrite assistants_app in Hfew. pose proof (assistants_nonneg older). lia.
  - intros HN Hmany. rewrite decide_False by lia.
    pose proof (cutoffScan_spec current N HN) as H.
    destruct (cutoffScan (reverse current) (length current) N) as [j|]; [|lia].
    destruct H as (older & M & rest & -> & -> & HM & Hc).
    exists older, M, rest. split_and!; try done. simpl. by rewrite drop_app_length.
Qed.

(** What the message drop returns, against the budget and the protected
    messages. *)
Lemma prune_kept input contextWindowTokens raw :
  let settings := resolvePruningSettings raw in
  let r := pruneContextMessages est input contextWindowTokens raw in
  let current := (trimAndClear est input contextWindowTokens settings).1.1 in
  let protected := protectedOf current settings in
  budgetChars r = budgetOf contextWindowTokens settings ∧
  keptChars r = chars (messages r) ∧
  messages r `suffix_of` current ∧
  (chars protected ≤ budgetChars r →
     keptChars r ≤ budgetChars r ∧ protected `suffix_of` messages r) ∧
  (budgetChars r < chars protected →
     (∀ m, last current = Some m → est m ≤ budgetChars r → keptChars r ≤ budgetChars r) ∧
     (∀ m, last current = Some m → budgetChars r < est m → messages r = [m])).
Proof.
  intros settings r current protected.
  subst r current protected. unfold pruneContextMessages, protectedOf. fold settings.
  destruct (trimAndClear est input contextWindowTokens settings) as [[cur trimmed] cleared].
  simpl fst.
  set (budget := budgetOf contextWindowTokens settings).
  set (pi := default 0%nat (findAssistantCutoffIndex cur (keepLastAssistants settings))).
  assert (0 < budget) as Hb by apply budgetOf_pos.
  assert (chars (drop pi cur) ≤ chars cur) as Hprot.
  { rewrite <- (take_drop pi cur) at 2. rewrite chars_app.
    pose proof (chars_nonneg (take pi cur)). lia. }
  case_decide as Hfit; cbn [messages keptChars budgetChars].
  - split_and!; try done.
    + intros _. split; [done|]. apply drop_suffix.
    + intros Hgt. fold pi in Hgt. lia.
  - case_decide as Hp; cbn [messages keptChars budgetChars].
    + destruct (sliceWithinBudget_spec cur budget ltac:(lia)) as (Hs & Hle & Heq).
      split_and!; try done; intros; lia.
    + destruct (fillOlder_spec (reverse (take pi cur)) (budget - chars (drop pi cur))
                  (drop pi cur) ltac:(lia)) as (n & E & Hle).
      split_and!; try done.
      * rewrite E. destruct (reverse_take_suffix n (take pi cur)) as (k & Hk).
        exists k. rewrite <- (take_drop pi cur) at 1. rewrite Hk at 1.
        by rewrite <- app_assoc.
      * intros _. split; [lia|]. rewrite E. by eexists.
      * intros Hgt. lia.
Qed.

(** C5 (as amended).  [budgetChars] is [max(1, floor(contextWindowTokens * 4 *
    maxHistoryShare))], computed on doubles, a window below one token
    counting as one; [keptChars] is the character count of the returned
    messages, which are a suffix of the messages left by the two trimming
    layers.  The protected messages are those from the
    [keepLastAssistants]-th assistant message from the end on (all
    messages when there are fewer assistant messages, none when
    [keepLastAssistants] is 0).  When they fit the budget,
    [keptChars ≤ budgetChars] and all of them are kept.  When they alone
    exceed the budget, the result is packed from the end without
    protection: [keptChars ≤ budgetChars] if the last message fits the
    budget, and otherwise exactly the last message is returned. *)
Theorem prune_budget_and_protection input contextWindowTokens raw :
  let settings := resolvePruningSettings raw in
  let r := pruneContextMessages est input contextWindowTokens raw in
  let current := (trimAndClear est input contextWindowTokens settings).1.1 in
  let protected := protectedOf current settings in
  let N := keepLastAssistants settings in
  budgetChars r =
    Z.max 1 (Math_floor (PrimFloat.mul (doubleOfZ (Z.max 1 contextWindowTokens * 4))
                           (doubleOfQ (maxHistoryShare settings)))) ∧
  keptChars r = chars (messages r) ∧
  messages r `suffix_of` current ∧
  ((N ≤ 0 → protected = []) ∧
   (0 < N → assistants current < N → protected = current) ∧
   (0 < N → N ≤ assistants current →
    ∃ older M rest,
      current = older ++ M :: rest ∧ role M = assistant ∧
      assistants (M :: rest) = N ∧ protected = M :: rest)) ∧
  (chars protected ≤ budgetChars r →
     keptChars r ≤ budgetChars r ∧ protected `suffix_of` messages r) ∧
  (budgetChars r < chars protected →
     (∀ m, last current = Some m → est m ≤ budgetChars r → keptChars r ≤ budgetChars r) ∧
     (∀ m, last current = Some m → budgetChars r < est m → messages r = [m])).
Proof.
  intros settings r current protected N.
  destruct (prune_kept input contextWindowTokens raw) as (H1 & H2 & H3 & H4 & H5).
  split; [exact H1|]. split; [exact H2|]. split; [exact H3|].
  split; [apply protectedOf_spec|]. split; [exact H4|exact H5].
Qed.
End Budget.

Lemma textChars_nonneg m : 0 ≤ textChars m.
Proof.
  unfold textChars, strlen. destruct (content m) as [s|bs]; [lia|].
  induction bs as [|b bs IH]; simpl; lia.
Qed.

(** C5, witness: one protected assistant message, two older messages fit. *)
Lemma prune_budget_and_protection_witness :
  keptChars (pruneContextMessages textChars shortTalk 1000 (Some keepOneAssistant)) ≤ 2000 ∧
  drop 3 shortTalk `suffix_of`
    messages (pruneContextMessages textChars shortTalk 1000 (Some keepOneAssistant)).
Proof.
  pose proof (prune_budget_and_protection textChars textChars_nonneg shortTalk 1000
                (Some keepOneAssistant)) as H.
  destruct H as (_ & _ & _ & _ & H & _).
  apply H. vm_compute. discriminate.
Defined.

(** C5, counterexample to the claim as stated.  First: a single message of
    20,000 characters against a budget of 16,000 is returned whole.
    Second: with a window of one token and a share of one tenth,
    [floor(1 * 4 * 0.1)] is 0, and the budget is 1. *)
Lemma budget_exceeded_and_never_zero :
  (let r := pruneContextMessages textChars longPaste 8000 None in
   budgetChars r = 16000 ∧
   estimateMessagesChars textChars longPaste = 20000 ∧
   keptChars r = 20000 ∧
   ¬ (keptChars r ≤ budgetChars r)) ∧
  (Math_floor (PrimFloat.mul (doubleOfZ (1 * 4)) (doubleOfQ (1 # 10))) = 0 ∧
   budgetChars (pruneContextMessages textChars longPaste 1 (Some tenthShare)) = 1).
Proof.
  split.
  - vm_compute. split_and!; try reflexivity. intros H. by apply H.
  - vm_compute. split; reflexivity.
Qed.

(** The budget is computed on doubles: [Math.floor(100 * 0.57)] is 56. *)
Lemma budget_on_doubles :
  budgetOf 25 (resolvePruningSettings (Some (shareOf (57 # 100)))) = 56.
Proof. vm_compute. reflexivity. Qed.

(** C6, the code at the failing input: with [exec] on the deny list the
    predicate rejects the tool name [exec], yet the 5000-character result of
    the call [toolu_01] of [exec] is trimmed (to 3086 characters), because
    the predicate is applied to [tool_use_id]; the [name] of a block never
    influences [softTrimToolResultBlock]. *)
Theorem soft_trim_consults_tool_use_id :
  let isPrunable := makeToolPrunablePredicate (Some (tools (resolvePruningSettings (Some denyExec)))) in
  let settings := softTrim (resolvePruningSettings (Some denyExec)) in
  isPrunable "exec" = false ∧
  (softTrimToolResultBlock execOutput settings isPrunable).2 = true ∧
  option_map String.length
    (block_content (softTrimToolResultBlock execOutput settings isPrunable).1) = Some 3086%nat ∧
  trimmedToolResults (pruneContextMessages textChars execTurn 2000 (Some denyExec)) = 1 ∧
  (∀ block st pred n,
     softTrimToolResultBlock (set_block_name block n) st pred =
     (set_block_name (softTrimToolResultBlock block st pred).1 n,
      (softTrimToolResultBlock block st pred).2)).
Proof.
  split_and!; try (vm_compute; reflexivity).
  intros block st pred n. unfold softTrimToolResultBlock. simpl.
  repeat (case_match; try done).
Qed.

(** With the default settings every tool is prunable, and a tool result of
    more than 4000 characters keeps its first and last 1500. *)
Lemma soft_trim_default_settings block raw :
  block_type block = ty_tool_result → block_content block = Some raw →
  let isPrunable := makeToolPrunablePredicate (Some (tools DEFAULT_CONTEXT_PRUNING_SETTINGS)) in
  let st := softTrim DEFAULT_CONTEXT_PRUNING_SETTINGS in
  (∀ name, isPrunable name = true) ∧
  (strlen raw ≤ 4000 → softTrimToolResultBlock block st isPrunable = (block, false)) ∧
  (4000 < strlen raw →
   softTrimToolResultBlock block st isPrunable =
     (set_block_content block
        (String.substring 0 1500 raw +:+ LF +:+ "..." +:+ LF +:+
         sliceFrom (strlen raw - 1500) raw +:+ trimmedNotice 1500 1500 (strlen raw)),
      true)).
Proof.
  intros Hty Hc isPrunable st. split_and!.
  - done.
  - intros Hle. unfold softTrimToolResultBlock. rewrite Hty, Hc. simpl.
    rewrite andb_false_r. by rewrite decide_True.
  - intros Hgt. unfold softTrimToolResultBlock. rewrite Hty, Hc. simpl.
    rewrite andb_false_r. rewrite decide_False by lia. simpl.
    rewrite decide_False by lia. done.
Qed.

End PruningFacts.

(** ** Agent loop (src/agent-loop.ts, event-stream version) *)

Module AgentLoop.
Local Open Scope Z_scope.

(** A tool call collected from a [toolcall_end] event. *)
Record ToolCall := { tc_id : string; tc_name : string; tc_input : Json }.

(** The provider events the loop reacts to.  An [error] event makes the
    call throw and is part of [LlmThrew] below. *)
Inductive StreamEvent :=
| thinking_delta (delta : string)
| thinking_end
| text_delta (delta : string)
| text_end (content : string)
| toolcall_start
| toolcall_end (toolCall : ToolCall).

(** [MiniAgentEvent], as far as the loop pushes them. *)
Inductive MiniAgentEvent :=
| ev_turn_start (turn : Z)
| ev_turn_end (turn : Z)
| ev_thinking_delta (delta : string)
| ev_message_delta (delta : string)
| ev_message_end (message : Message) (text : string)
| ev_context_overflow_compact (error : string)
| ev_tool_execution_start (toolCallId toolName : string) (args : Json)
| ev_tool_execution_end (toolCallId toolName result : string) (isError : bool)
| ev_tool_skipped (toolCallId toolName : string)
| ev_steering (pendingCount : Z)
| ev_agent_end (messages : list Message)
| ev_agent_error (error : string).

(** What the loop does to the outside, in order: events pushed on the
    stream, messages handed to [appendMessage], and calls of the provider
    with the messages prepared for the model. *)
Inductive Effect :=
| Push (e : MiniAgentEvent)
| Append (m : Message)
| CallProvider (messagesForModel : list Message)
| CallPrepareCompaction (messages : list Message).

(** The outcome of [await retryAsync(...)] around one provider call: the
    events of the attempt that completed, or the events seen before the
    exception and the text [describeError] gives for it.  The events are
    those the loop consumed: after an abort it reads no further event.
    ([retryAsync] is not part of the sources: an attempt it repeated shows
    in no outcome, and such attempts are only counted, by
    [AgentLoopTrace.streamCalls].) *)
Inductive LlmOutcome :=
| LlmCompleted (events : list StreamEvent)
| LlmThrew (seen : list StreamEvent) (errorText : string).

(** The outcome of [prepareCompaction]. *)
Inductive PrepOutcome :=
| Prepared (summary : option string) (summaryMessage : option Message)
| PrepThrew (errorText : string).

(** The outcome of [tool.execute]. *)
Inductive ToolOutcome :=
| Returned (output : string)
| Thrown (message : string).

(** A tool; [execute] also receives the number of tool calls made so far in
    the run, which stands for the state of the world it runs in. *)
Record Tool := { tool_name : string; execute : Z → Json → ToolOutcome }.

(** Everything the loop asks of its environment; the [nat] argument counts
    the calls of the respective function. *)
Record World := {
  getSteeringMessages : nat → list Message;
  getFollowUpMessages : option (nat → list Message);
  streamFn : nat → list Message → LlmOutcome;
  prepareCompaction : nat → list Message → PrepOutcome;
  aborted : nat → bool;
  Date_now : nat → Z;
}.

Record LoopState := {
  turns : Z;
  totalToolCalls : Z;
  finalText : string;
  overflowCompactionAttempted : bool;
  compactionSummary : option Message;
  pendingMessages : list Message;
  hasMoreToolCalls : bool;
  currentMessages : list Message;
  (* call counters of the environment *)
  steeringPolls : nat;
  followUpPolls : nat;
  providerCalls : nat;
  compactionCalls : nat;
  abortChecks : nat;
  clockReads : nat;
  (* what happened so far *)
  trace : list Effect;
}.

Definition skippedText : string := "Skipped due to queued user message.".

Definition skipToolCall (call : ToolCall) : ContentBlock :=
  mkToolResult (tc_id call) (Some (tc_name call)) skippedText.

(** [result.length > 500 ? `${result.slice(0, 500)}...` : result].  The
    source counts UTF-16 code units and this definition bytes: the two agree
    on ASCII text.  The preview only travels in the [tool_execution_end]
    event. *)
Definition preview (result : string) : string :=
  if decide (500 < String.length result)%nat
  then String.substring 0 500 result +:+ "..." else result.

Section Loop.
(** [estimateMessageChars] (src/context/tokens.ts, not part of the sources). *)
Variable estimateMessageChars : Message → Z.
(** [isContextOverflowError] (src/provider/errors.ts, not part of the
    sources): the classifier of error texts. *)
Variable isContextOverflowError : string → bool.

Variable world : World.
Variable toolsForRun : list Tool.
Variable maxTurns : Z.
Variable contextTokens : Z.

Definition record (e : Effect) (st : LoopState) : LoopState :=
  {| turns := turns st; totalToolCalls := totalToolCalls st; finalText := finalText st;
     overflowCompactionAttempted := overflowCompactionAttempted st;
     compactionSummary := compactionSummary st; pendingMessages := pendingMessages st;
     hasMoreToolCalls := hasMoreToolCalls st; currentMessages := currentMessages st;
     steeringPolls := steeringPolls st; followUpPolls := followUpPolls st;
     providerCalls := providerCalls st; compactionCalls := compactionCalls st;
     abortChecks := abortChecks st; clockReads := clockReads st;
     trace := trace st ++ [e] |}.

Definition push (e : MiniAgentEvent) (st : LoopState) : LoopState := record (Push e) st.

(** [await appendMessage(sessionKey, msg); currentMessages.push(msg)] *)
Definition appendAndKeep (msg : Message) (st : LoopState) : LoopState :=
  let st := record (Append msg) st in
  {| turns := turns st; totalToolCalls := totalToolCalls st; finalText := finalText st;
     overflowCompactionAttempted := overflowCompactionAttempted st;
     compactionSummary := compactionSummary st; pendingMessages := pendingMessages st;
     hasMoreToolCalls := hasMoreToolCalls st;
     currentMessages := currentMessages st ++ [msg];
     steeringPolls := steeringPolls st; followUpPolls := followUpPolls st;
     providerCalls := providerCalls st; compactionCalls := compactionCalls st;
     abortChecks := abortChecks st; clockReads := clockReads st;
     trace := trace st |}.

(** [await getSteeringMessages()] *)
Definition pollSteering (st : LoopState) : list Message * LoopState :=
  (getSteeringMessages world (steeringPolls st),
   {| turns := turns st; totalToolCalls := totalToolCalls st; finalText := finalText st;
      overflowCompactionAttempted := overflowCompactionAttempted st;
      compactionSummary := compactionSummary st; pendingMessages := pendingMessages st;
      hasMoreToolCalls := hasMoreToolCalls st; currentMessages := currentMessages st;
      steeringPolls := S (steeringPolls st); followUpPolls := followUpPolls st;
      providerCalls := providerCalls st; compactionCalls := compactionCalls st;
      abortChecks := abortChecks st; clockReads := clockReads st;
      trace := trace st |}).

(** [Date.now()] *)
Definition readClock (st : LoopState) : Z * LoopState :=
  (Date_now world (clockReads st),
   {| turns := turns st; totalToolCalls := totalToolCalls st; finalText := finalText st;
      overflowCompactionAttempted := overflowCompactionAttempted st;
      compactionSummary := compactionSummary st; pendingMessages := pendingMessages st;
      hasMoreToolCalls := hasMoreToolCalls st; currentMessages := currentMessages st;
      steeringPolls := steeringPolls st; followUpPolls := followUpPolls st;
      providerCalls := providerCalls st; compactionCalls := compactionCalls st;
      abortChecks := abortChecks st; clockReads := S (clockReads st);
      trace := trace st |}).

Definition set_pending (pending : list Message) (st : LoopState) : LoopState :=
  {| turns := turns st; totalToolCalls := totalToolCalls st; finalText := finalText st;
     overflowCompactionAttempted := overflowCompactionAttempted st;
     compactionSummary := compactionSummary st; pendingMessages := pending;
     hasMoreToolCalls := hasMoreToolCalls st; currentMessages := currentMessages st;
     steeringPolls := steeringPolls st; followUpPolls := followUpPolls st;
     providerCalls := providerCalls st; compactionCalls := compactionCalls st;
     abortChecks := abortChecks st; clockReads := clockReads st;
     trace := trace st |}.

(** The result of one tool call: the tool's output, or the text the loop
    puts in its place. *)
Definition runTool (call : ToolCall) (callsSoFar : Z) : string * bool :=
  match List.find (λ t, String.eqb (tool_name t) (tc_name call)) toolsForRun with
  | Some tool =>
      match execute tool callsSoFar (tc_input call) with
      | Returned output => (output, false)
      | Thrown message => ("执行错误: " +:+ message, false)
      end
  | None => ("未知工具: " +:+ tc_name call, true)
  end.

(** The block the loop records for an executed call. *)
Definition executedResult (call : ToolCall) (callsSoFar : Z) : ContentBlock :=
  mkToolResult (tc_id call) (Some (tc_name call)) (runTool call callsSoFar).1.

(** [for (const skipped of remaining) { push tool_skipped; toolResults.push(skipToolCall(skipped)) }] *)
Fixpoint skipRemaining (remaining : list ToolCall) (toolResults : list ContentBlock)
    (st : LoopState) : list ContentBlock * LoopState :=
  match remaining with
  | [] => (toolResults, st)
  | skipped :: remaining =>
      let st := push (ev_tool_skipped (tc_id skipped) (tc_name skipped)) st in
      skipRemaining remaining (toolResults ++ [skipToolCall skipped]) st
  end.

Definition bump_toolCalls (st : LoopState) : LoopState :=
  {| turns := turns st; totalToolCalls := totalToolCalls st + 1; finalText := finalText st;
     overflowCompactionAttempted := overflowCompactionAttempted st;
     compactionSummary := compactionSummary st; pendingMessages := pendingMessages st;
     hasMoreToolCalls := hasMoreToolCalls st; currentMessages := currentMessages st;
     steeringPolls := steeringPolls st; followUpPolls := followUpPolls st;
     providerCalls := providerCalls st; compactionCalls := compactionCalls st;
     abortChecks := abortChecks st; clockReads := clockReads st;
     trace := trace st |}.

(** The [for (let i = 0; i < toolCalls.length; i++)] loop: the results, the
    steering messages that interrupted it ([None] for [null]) and the
    state. *)
Fixpoint executeToolCalls (toolCalls : list ToolCall) (toolResults : list ContentBlock)
    (st : LoopState) : list ContentBlock * option (list Message) * LoopState :=
  match toolCalls with
  | [] => (toolResults, None, st)
  | call :: remaining =>
      let st := push (ev_tool_execution_start (tc_id call) (tc_name call) (tc_input call)) st in
      let '(result, isError) := runTool call (totalToolCalls st) in
      let st := bump_toolCalls st in
      let st := push (ev_tool_execution_end (tc_id call) (tc_name call) (preview result) isError) st in
      let toolResults :=
        toolResults ++ [mkToolResult (tc_id call) (Some (tc_name call)) result] in
      let '(steering, st) := pollSteering st in
      if decide (0 < length steering)%nat then
        let '(toolResults, st) := skipRemaining remaining toolResults st in
        let st := push (ev_steering (Z.of_nat (length steering))) st in
        (toolResults, Some steering, st)
      else executeToolCalls remaining toolResults st
  end.

(** From the execution of the tool calls to the end of the iteration. *)
Definition toolPhase (toolCalls : list ToolCall) (st : LoopState) : LoopState :=
  let '(toolResults, steeringMessages, st) := executeToolCalls toolCalls [] st in
  let '(now, st) := readClock st in
  let resultMsg := {| role := user; content := Blocks toolResults; timestamp := now |} in
  let st := appendAndKeep resultMsg st in
  let st := push (ev_turn_end (turns st)) st in
  match steeringMessages with
  | Some steering =>
      if decide (0 < length steering)%nat then set_pending steering st
      else let '(pending, st) := pollSteering st in set_pending pending st
  | None => let '(pending, st) := pollSteering st in set_pending pending st
  end.

(** The [for await (const event of eventStream)] loop: the assistant content,
    the tool calls, the text parts, and the state with the deltas pushed. *)
Fixpoint consumeStream (events : list StreamEvent) (assistantContent : list ContentBlock)
    (toolCalls : list ToolCall) (turnTextParts : list string) (st : LoopState)
  : list ContentBlock * list ToolCall * list string * LoopState :=
  match events with
  | [] => (assistantContent, toolCalls, turnTextParts, st)
  | event :: events =>
      match event with
      | thinking_delta delta =>
          consumeStream events assistantContent toolCalls turnTextParts
            (push (ev_thinking_delta delta) st)
      | thinking_end | toolcall_start =>
          consumeStream events assistantContent toolCalls turnTextParts st
      | text_delta delta =>
          consumeStream events assistantContent toolCalls turnTextParts
            (push (ev_message_delta delta) st)
      | text_end c =>
          consumeStream events (assistantContent ++ [mkText c]) toolCalls
            (turnTextParts ++ [c]) st
      | toolcall_end tc =>
          consumeStream events
            (assistantContent ++ [mkToolUse (tc_id tc) (tc_name tc) (tc_input tc)])
            (toolCalls ++ [tc]) turnTextParts st
      end
  end.

Definition begin_turn (st : LoopState) : LoopState :=
  {| turns := turns st + 1; totalToolCalls := totalToolCalls st; finalText := finalText st;
     overflowCompactionAttempted := overflowCompactionAttempted st;
     compactionSummary := compactionSummary st; pendingMessages := pendingMessages st;
     hasMoreToolCalls := hasMoreToolCalls st; currentMessages := currentMessages st;
     steeringPolls := steeringPolls st; followUpPolls := followUpPolls st;
     providerCalls := providerCalls st; compactionCalls := compactionCalls st;
     abortChecks := abortChecks st; clockReads := clockReads st;
     trace := trace st |}.

(** [for (const msg of pendingMessages) { appendMessage; currentMessages.push }
    pendingMessages = []] *)
Definition injectPending (st : LoopState) : LoopState :=
  set_pending [] (foldl (λ st msg, appendAndKeep msg st) st (pendingMessages st)).

(** [pruneContextMessages(...)], the optional summary in front, and the
    provider call with retries. *)
Definition callProvider (st : LoopState) : LlmOutcome * LoopState :=
  let pruneResult :=
    Pruning.pruneContextMessages estimateMessageChars (currentMessages st) contextTokens None in
  let messagesForModel :=
    match compactionSummary st with
    | Some summary => summary :: Pruning.messages pruneResult
    | None => Pruning.messages pruneResult
    end in
  let st := record (CallProvider messagesForModel) st in
  (streamFn world (providerCalls st) messagesForModel,
   {| turns := turns st; totalToolCalls := totalToolCalls st; finalText := finalText st;
      overflowCompactionAttempted := overflowCompactionAttempted st;
      compactionSummary := compactionSummary st; pendingMessages := pendingMessages st;
      hasMoreToolCalls := hasMoreToolCalls st; currentMessages := currentMessages st;
      steeringPolls := steeringPolls st; followUpPolls := followUpPolls st;
      providerCalls := S (providerCalls st); compactionCalls := compactionCalls st;
      abortChecks := abortChecks st; clockReads := clockReads st;
      trace := trace st |}).

(** [overflowCompactionAttempted = true; push context_overflow_compact;
    await prepareCompaction({ messages: currentMessages, ... })] *)
Definition attemptCompaction (errorText : string) (st : LoopState) : PrepOutcome * LoopState :=
  let st := push (ev_context_overflow_compact errorText) st in
  let st := record (CallPrepareCompaction (currentMessages st)) st in
  (prepareCompaction world (compactionCalls st) (currentMessages st),
   {| turns := turns st; totalToolCalls := totalToolCalls st; finalText := finalText st;
      overflowCompactionAttempted := true;
      compactionSummary := compactionSummary st; pendingMessages := pendingMessages st;
      hasMoreToolCalls := hasMoreToolCalls st; currentMessages := currentMessages st;
      steeringPolls := steeringPolls st; followUpPolls := followUpPolls st;
      providerCalls := providerCalls st; compactionCalls := S (compactionCalls st);
      abortChecks := abortChecks st; clockReads := clockReads st;
      trace := trace st |}).

(** [compactionSummary = overflowPrep.summaryMessage; turns--] *)
Definition installSummary (summaryMessage : Message) (st : LoopState) : LoopState :=
  {| turns := turns st - 1; totalToolCalls := totalToolCalls st; finalText := finalText st;
     overflowCompactionAttempted := overflowCompactionAttempted st;
     compactionSummary := Some summaryMessage; pendingMessages := pendingMessages st;
     hasMoreToolCalls := hasMoreToolCalls st; currentMessages := currentMessages st;
     steeringPolls := steeringPolls st; followUpPolls := followUpPolls st;
     providerCalls := providerCalls st; compactionCalls := compactionCalls st;
     abortChecks := abortChecks st; clockReads := clockReads st;
     trace := trace st |}.

(** What the [catch (llmError)] block decides. *)
Inductive CatchResult :=
| Retry (st : LoopState)          (* [continue] *)
| Rethrow (errorText : string) (st : LoopState).

Definition handleLlmError (errorText : string) (st : LoopState) : CatchResult :=
  if isContextOverflowError errorText && negb (overflowCompactionAttempted st) then
    match attemptCompaction errorText st with
    | (Prepared summary (Some summaryMessage), st) =>
        if truthy summary then Retry (installSummary summaryMessage st)
        else Rethrow errorText st
    | (Prepared _ None, st) => Rethrow errorText st
    | (PrepThrew e, st) => Rethrow e st
    end
  else Rethrow errorText st.

Definition set_afterAssistant (hasMore : bool) (st : LoopState) : LoopState :=
  {| turns := turns st; totalToolCalls := totalToolCalls st; finalText := finalText st;
     overflowCompactionAttempted := overflowCompactionAttempted st;
     compactionSummary := compactionSummary st; pendingMessages := pendingMessages st;
     hasMoreToolCalls := hasMore; currentMessages := currentMessages st;
     steeringPolls := steeringPolls st; followUpPolls := followUpPolls st;
     providerCalls := providerCalls st; compactionCalls := compactionCalls st;
     abortChecks := abortChecks st; clockReads := clockReads st;
     trace := trace st |}.

Definition set_finalText (t : string) (st : LoopState) : LoopState :=
  {| turns := turns st; totalToolCalls := totalToolCalls st; finalText := t;
     overflowCompactionAttempted := overflowCompactionAttempted st;
     compactionSummary := compactionSummary st; pendingMessages := pendingMessages st;
     hasMoreToolCalls := hasMoreToolCalls st; currentMessages := currentMessages st;
     steeringPolls := steeringPolls st; followUpPolls := followUpPolls st;
     providerCalls := providerCalls st; compactionCalls := compactionCalls st;
     abortChecks := abortChecks st; clockReads := clockReads st;
     trace := trace st |}.

(** [abortSignal.aborted] at the head of the inner loop. *)
Definition checkAborted (st : LoopState) : bool * LoopState :=
  (aborted world (abortChecks st),
   {| turns := turns st; totalToolCalls := totalToolCalls st; finalText := finalText st;
      overflowCompactionAttempted := overflowCompactionAttempted st;
      compactionSummary := compactionSummary st; pendingMessages := pendingMessages st;
      hasMoreToolCalls := hasMoreToolCalls st; currentMessages := currentMessages st;
      steeringPolls := steeringPolls st; followUpPolls := followUpPolls st;
      providerCalls := providerCalls st; compactionCalls := compactionCalls st;
      abortChecks := S (abortChecks st); clockReads := clockReads st;
      trace := trace st |}).

Definition pollFollowUp (f : nat → list Message) (st : LoopState) : list Message * LoopState :=
  (f (followUpPolls st),
   {| turns := turns st; totalToolCalls := totalToolCalls st; finalText := finalText st;
      overflowCompactionAttempted := overflowCompactionAttempted st;
      compactionSummary := compactionSummary st; pendingMessages := pendingMessages st;
      hasMoreToolCalls := hasMoreToolCalls st; currentMessages := currentMessages st;
      steeringPolls := steeringPolls st; followUpPolls := S (followUpPolls st);
      providerCalls := providerCalls st; compactionCalls := compactionCalls st;
      abortChecks := abortChecks st; clockReads := clockReads st;
      trace := trace st |}).

(** [stream.push({ type: "agent_end", ... }); stream.end(...)] *)
Definition agentEnd (st : LoopState) : LoopState :=
  push (ev_agent_end (currentMessages st)) st.

(** The outer [catch]: [stream.push({ type: "agent_error", ... }); stream.end(...)] *)
Definition agentError (errorText : string) (st : LoopState) : LoopState :=
  push (ev_agent_error errorText) st.

(** What one pass through the body of the inner loop leads to. *)
Inductive Step :=
| Continue (st : LoopState)    (* back to the test of the inner [while] *)
| Threw (errorText : string) (st : LoopState).

(** The body of the inner loop, after the two [break outerLoop] tests. *)
Definition turnBody (st : LoopState) : Step :=
  let st := begin_turn st in
  let st := push (ev_turn_start (turns st)) st in
  let st := if decide (0 < length (pendingMessages st))%nat then injectPending st else st in
  match callProvider st with
  | (LlmThrew seen errorText, st) =>
      let '(_, _, _, st) := consumeStream seen [] [] [] st in
      match handleLlmError errorText st with
      | Retry st => Continue st
      | Rethrow e st => Threw e st
      end
  | (LlmCompleted events, st) =>
      let '(assistantContent, toolCalls, turnTextParts, st) :=
        consumeStream events [] [] [] st in
      let '(now, st) := readClock st in
      let assistantMsg :=
        {| role := assistant; content := Blocks assistantContent; timestamp := now |} in
      let st := appendAndKeep assistantMsg st in
      let turnText := String.concat "" turnTextParts in
      let st := if truthy (Some turnText) then push (ev_message_end assistantMsg turnText) st
                else st in
      let st := set_afterAssistant (bool_decide (0 < length toolCalls)%nat) st in
      if negb (hasMoreToolCalls st) then
        let st := set_finalText turnText st in
        let st := push (ev_turn_end (turns st)) st in
        let '(pending, st) := pollSteering st in
        Continue (set_pending pending st)
      else Continue (toolPhase toolCalls st)
  end.

(** The two nested loops.  Each unit of [fuel] pays for one test of the
    inner [while] condition; [None] means the fuel ran out. *)
Fixpoint runLoop (fuel : nat) (st : LoopState) : option LoopState :=
  match fuel with
  | O => None
  | S fuel =>
      if hasMoreToolCalls st || bool_decide (0 < length (pendingMessages st))%nat then
        if decide (turns st >= maxTurns) then Some (agentEnd st)
        else
          let '(isAborted, st) := checkAborted st in
          if isAborted then Some (agentEnd st)
          else
            match turnBody st with
            | Continue st => runLoop fuel st
            | Threw e st => Some (agentError e st)
            end
      else
        match getFollowUpMessages world with
        | Some f =>
            let '(followUp, st) := pollFollowUp f st in
            if decide (0 < length followUp)%nat then
              runLoop fuel (set_afterAssistant true (set_pending followUp st))
            else Some (agentEnd st)
        | None => Some (agentEnd st)
        end
  end.

(** The state in which the loop starts, with the steering messages that
    queued up before it. *)
Definition initialState (currentMessages : list Message) (compactionSummary : option Message)
  : LoopState :=
  let st :=
    {| turns := 0; totalToolCalls := 0; finalText := "";
       overflowCompactionAttempted := false; compactionSummary := compactionSummary;
       pendingMessages := []; hasMoreToolCalls := true; currentMessages := currentMessages;
       steeringPolls := 0; followUpPolls := 0; providerCalls := 0; compactionCalls := 0;
       abortChecks := 0; clockReads := 0; trace := [] |} in
  let '(pending, st) := pollSteering st in
  set_pending pending st.

Definition runAgentLoop (fuel : nat) (currentMessages : list Message)
    (compactionSummary : option Message) : option LoopState :=
  runLoop fuel (initialState currentMessages compactionSummary).

End Loop.

(** The [tool_skipped] events among some effects. *)
Definition skippedEvents (t : list Effect) : list (string * string) :=
  omap (λ e, match e with
             | Push (ev_tool_skipped i n) => Some (i, n)
             | _ => None
             end) t.

(** The calls whose execution started, by id. *)
Definition startedCalls (t : list Effect) : list string :=
  omap (λ e, match e with
             | Push (ev_tool_execution_start i _ _) => Some i
             | _ => None
             end) t.

(** The messages handed to [appendMessage]. *)
Definition appendedMessages (t : list Effect) : list Message :=
  omap (λ e, match e with Append m => Some m | _ => None end) t.

(** Modelled from the spec: an error text is a context overflow when it
    contains "context length", "too long" or "maximum context"
    ([isContextOverflowError] is not part of the sources). *)
Definition overflowBySubstring (errorText : string) : bool :=
  bool_decide (is_Some (String.index 0 "context length" errorText)) ||
  bool_decide (is_Some (String.index 0 "too long" errorText)) ||
  bool_decide (is_Some (String.index 0 "maximum context" errorText)).

Definition echoTool (name : string) : Tool :=
  {| tool_name := name; execute := λ _ input, Returned (name +:+ " ran on " +:+ input) |}.

Definition callA : ToolCall := {| tc_id := "A"; tc_name := "read"; tc_input := "a.txt" |}.
Definition callB : ToolCall := {| tc_id := "B"; tc_name := "grep"; tc_input := "needle" |}.
Definition callC : ToolCall := {| tc_id := "C"; tc_name := "read"; tc_input := "c.txt" |}.

Definition waitMsg : Message := {| role := user; content := Text "wait"; timestamp := 50 |}.

(** The user steers while the second of three tool calls runs. *)
Definition steeredWorld : World :=
  {| getSteeringMessages := λ k, if decide (k = 1%nat) then [waitMsg] else [];
     getFollowUpMessages := None;
     streamFn := λ _ _, LlmCompleted [];
     prepareCompaction := λ _ _, Prepared None None;
     aborted := λ _, false;
     Date_now := λ k, 100 + Z.of_nat k |}.

Definition idleState : LoopState :=
  {| turns := 1; totalToolCalls := 0; finalText := "";
     overflowCompactionAttempted := false; compactionSummary := None;
     pendingMessages := []; hasMoreToolCalls := true; currentMessages := [];
     steeringPolls := 0; followUpPolls := 0; providerCalls := 1; compactionCalls := 0;
     abortChecks := 1; clockReads := 0; trace := [] |}.

Definition summaryMsg : Message :=
  {| role := user; content := Text "summary of the conversation"; timestamp := 7 |}.

Definition hiMsg : Message := {| role := user; content := Text "hi"; timestamp := 1 |}.

(** The first answer has no tool call; a steering message is queued by the
    time it ends; the provider call of the next turn fails with a context
    overflow, and [prepareCompaction] produces a summary; any later provider
    call would succeed. *)
Definition overflowAfterSteering : World :=
  {| getSteeringMessages := λ k, if decide (k = 1%nat) then [waitMsg] else [];
     getFollowUpMessages := None;
     streamFn := λ k _,
       if decide (k = 0%nat) then LlmCompleted [text_end "hello"]
       else if decide (k = 1%nat) then LlmThrew [] "prompt exceeds the maximum context length"
       else LlmCompleted [text_end "after compaction"];
     prepareCompaction := λ _ _, Prepared (Some "summary") (Some summaryMsg);
     aborted := λ _, false;
     Date_now := λ k, 100 + Z.of_nat k |}.

(** The same failure in the first turn of a run. *)
Definition overflowInFirstTurn : World :=
  {| getSteeringMessages := λ _, [];
     getFollowUpMessages := None;
     streamFn := λ k _,
       if decide (k = 0%nat) then LlmThrew [] "prompt exceeds the maximum context length"
       else LlmCompleted [text_end "after compaction"];
     prepareCompaction := λ _ _, Prepared (Some "summary") (Some summaryMsg);
     aborted := λ _, false;
     Date_now := λ k, 100 + Z.of_nat k |}.

(** The provider calls among some effects. *)
Definition providerRequests (t : list Effect) : list (list Message) :=
  omap (λ e, match e with CallProvider ms => Some ms | _ => None end) t.

(** The events pushed on the stream. *)
Definition pushedEvents (t : list Effect) : list MiniAgentEvent :=
  omap (λ e, match e with Push ev => Some ev | _ => None end) t.

(** The part of the state that decides about turns and compaction. *)
Definition control (st : LoopState) : Z * bool * nat :=
  (turns st, overflowCompactionAttempted st, compactionCalls st).

(** The inner [while] condition. *)
Definition innerCondition (st : LoopState) : bool :=
  hasMoreToolCalls st || bool_decide (0 < length (pendingMessages st))%nat.

(** What bounds the remaining tests of the inner condition. *)
Definition potential (maxTurns : Z) (st : LoopState) : nat :=
  (2 * Z.to_nat (maxTurns - turns st) +
   (if overflowCompactionAttempted st then 0 else 2) +
   (if innerCondition st then 0 else 1))%nat.

End AgentLoop.

(** ** Facts about the agent loop *)

Module AgentLoopFacts.
Import AgentLoop.
Local Open Scope Z_scope.

Section ToolCalls.
Context (world : World) (toolsForRun : list Tool).

Lemma skipRemaining_spec remaining : ∀ toolResults st,
  ∃ st', skipRemaining remaining toolResults st =
           (toolResults ++ map skipToolCall remaining, st') ∧
         trace st' = trace st ++ map (λ c, Push (ev_tool_skipped (tc_id c) (tc_name c))) remaining ∧
         turns st' = turns st ∧ totalToolCalls st' = totalToolCalls st ∧
         steeringPolls st' = steeringPolls st ∧ clockReads st' = clockReads st ∧
         currentMessages st' = currentMessages st.
Proof.
  induction remaining as [|c rest IH]; intros toolResults st; simpl.
  - exists st. rewrite !app_nil_r. done.
  - destruct (IH (toolResults ++ [skipToolCall c])
                (push (ev_tool_skipped (tc_id c) (tc_name c)) st)) as (st' & -> & Ht & ?).
    exists st'. split; [by rewrite <- app_assoc|]. split; [|done].
    rewrite Ht. simpl. by rewrite <- app_assoc.
Qed.

Lemma skippedEvents_app t1 t2 : skippedEvents (t1 ++ t2) = skippedEvents t1 ++ skippedEvents t2.
Proof. apply omap_app. Qed.

Lemma startedCalls_app t1 t2 : startedCalls (t1 ++ t2) = startedCalls t1 ++ startedCalls t2.
Proof. apply omap_app. Qed.

Lemma skippedEvents_skips (cs : list ToolCall) :
  skippedEvents (map (λ c, Push (ev_tool_skipped (tc_id c) (tc_name c))) cs) =
  map (λ c, (tc_id c, tc_name c)) cs.
Proof. induction cs as [|c cs IH]; simpl; [done|]. by rewrite <- IH. Qed.

Lemma startedCalls_skips (cs : list ToolCall) :
  startedCalls (map (λ c, Push (ev_tool_skipped (tc_id c) (tc_name c))) cs) = [].
Proof. induction cs as [|c cs IH]; simpl; done. Qed.

Lemma appendedMessages_app t1 t2 :
  appendedMessages (t1 ++ t2) = appendedMessages t1 ++ appendedMessages t2.
Proof. apply omap_app. Qed.

Lemma appendedMessages_skips (cs : list ToolCall) :
  appendedMessages (map (λ c, Push (ev_tool_skipped (tc_id c) (tc_name c))) cs) = [].
Proof. induction cs as [|c cs IH]; simpl; done. Qed.

(** The results of the first calls of a batch, executed one after the other. *)
Definition executedResults (callsSoFar : Z) (calls : list ToolCall) : list ContentBlock :=
  imap (λ j call, executedResult toolsForRun call (callsSoFar + Z.of_nat j)) calls.

Lemma executedResults_cons callsSoFar call calls :
  executedResults callsSoFar (call :: calls) =
  executedResult toolsForRun call callsSoFar :: executedResults (callsSoFar + 1) calls.
Proof.
  unfold executedResults. simpl. rewrite Z.add_0_r. f_equal.
  apply imap_ext. intros j c _. simpl. f_equal. lia.
Qed.

Lemma executeToolCalls_steered toolCalls : ∀ (M : nat) toolResults st,
  (1 ≤ M ≤ length toolCalls)%nat →
  (∀ j, (j < M - 1)%nat → getSteeringMessages world (steeringPolls st + j) = []) →
  getSteeringMessages world (steeringPolls st + (M - 1)) ≠ [] →
  ∃ st' events,
    executeToolCalls world toolsForRun toolCalls toolResults st =
      (toolResults ++ executedResults (totalToolCalls st) (take M toolCalls) ++
         map skipToolCall (drop M toolCalls),
       Some (getSteeringMessages world (steeringPolls st + (M - 1))), st') ∧
    trace st' = trace st ++ events ∧
    skippedEvents events = map (λ c, (tc_id c, tc_name c)) (drop M toolCalls) ∧
    startedCalls events = map tc_id (take M toolCalls) ∧
    appendedMessages events = [] ∧
    turns st' = turns st ∧ totalToolCalls st' = totalToolCalls st + Z.of_nat M ∧
    clockReads st' = clockReads st ∧ currentMessages st' = currentMessages st.
Proof.
  induction toolCalls as [|call remaining IH]; intros M toolResults st HM Hquiet Hsteer.
  - simpl in HM. lia.
  - simpl. destruct (runTool toolsForRun call (totalToolCalls st)) as [result isError] eqn:Hrun.
    simpl.
    destruct M as [|M]; [lia|].
    destruct M as [|M].
    + (* steering arrives after the first call *)
      simpl in Hsteer. rewrite Nat.add_0_r in Hsteer.
      rewrite decide_True by (destruct (getSteeringMessages world (steeringPolls st)); [done|simpl; lia]).
      match goal with |- context [skipRemaining ?r ?a ?s] =>
        destruct (skipRemaining_spec r a s) as (st1 & -> & Ht & Hturns & Hcalls & Hpolls & Hclock & Hcur)
      end.
      eexists _, _. split_and!.
      * simpl. rewrite Nat.add_0_r. unfold executedResults, executedResult. simpl.
        rewrite Z.add_0_r, Hrun. simpl. rewrite <- !app_assoc. reflexivity.
      * simpl. rewrite Ht. simpl. rewrite <- !app_assoc. simpl. reflexivity.
      * simpl. rewrite skippedEvents_app, skippedEvents_skips. simpl. by rewrite app_nil_r.
      * simpl. rewrite startedCalls_app, startedCalls_skips. done.
      * simpl. rewrite appendedMessages_app, appendedMessages_skips. done.
      * simpl. by rewrite Hturns.
      * simpl. rewrite Hcalls. simpl. lia.
      * simpl. by rewrite Hclock.
      * simpl. by rewrite Hcur.
    + (* the first call passes without steering *)
      pose proof (Hquiet 0%nat ltac:(lia)) as H0. rewrite Nat.add_0_r in H0.
      rewrite H0. rewrite decide_False by (simpl; lia).
      match goal with |- context [executeToolCalls _ _ remaining ?a ?s] =>
        destruct (IH (S M) a s) as (st' & events & -> & Ht & Hsk & Hstart & Happ & Hturns & Hcalls & Hclock & Hcur)
      end.
      * simpl in HM. lia.
      * intros j Hj. simpl. rewrite <- (Hquiet (S j) ltac:(lia)). f_equal. lia.
      * simpl. simpl in Hsteer. intros E. apply Hsteer. rewrite <- E. f_equal. lia.
      * eexists _, _. split_and!.
        -- replace (steeringPolls st + (S (S M) - 1))%nat
             with (S (steeringPolls st) + (S M - 1))%nat by lia.
           change (take (S (S M)) (call :: remaining)) with (call :: take (S M) remaining).
           change (drop (S (S M)) (call :: remaining)) with (drop (S M) remaining).
           rewrite executedResults_cons. unfold executedResult at 1. rewrite Hrun.
           simpl. rewrite <- !app_assoc. reflexivity.
        -- rewrite Ht. simpl. rewrite <- !app_assoc. simpl. reflexivity.
        -- simpl. done.
        -- simpl. by rewrite Hstart.
        -- simpl. done.
        -- simpl. by rewrite Hturns.
        -- rewrite Hcalls. simpl. lia.
        -- by rewrite Hclock.
        -- by rewrite Hcur.
Qed.
End ToolCalls.

Section Steering.
Context (world : World) (toolsForRun : list Tool).

(** C3.  When the steering queue is empty after each of the first [M - 1]
    tool calls of a batch of [N] and delivers messages after the [M]-th
    ([1 ≤ M ≤ N]), the loop starts exactly the first [M] calls, persists one
    user message whose blocks are, in order, the results of these [M] calls
    and then a [tool_result] with the text "Skipped due to queued user
    message." for each of the calls [M+1..N], pushes one [tool_skipped]
    event per skipped call, and makes the steering messages the pending
    messages of the next turn. *)
Theorem steering_preemption (toolCalls : list ToolCall) (M : nat) (st : LoopState) :
  (1 ≤ M ≤ length toolCalls)%nat →
  (∀ j, (j < M - 1)%nat → getSteeringMessages world (steeringPolls st + j) = []) →
  getSteeringMessages world (steeringPolls st + (M - 1)) ≠ [] →
  let st' := toolPhase world toolsForRun toolCalls st in
  let resultMsg :=
    {| role := user;
       content := Blocks
         (imap (λ j call, mkToolResult (tc_id call) (Some (tc_name call))
                            (runTool toolsForRun call (totalToolCalls st + Z.of_nat j)).1)
               (take M toolCalls) ++
          map (λ call, mkToolResult (tc_id call) (Some (tc_name call))
                         "Skipped due to queued user message.")
              (drop M toolCalls));
       timestamp := Date_now world (clockReads st) |} in
  ∃ events,
    trace st' = trace st ++ events ++ [Append resultMsg; Push (ev_turn_end (turns st))] ∧
    appendedMessages events = [] ∧
    startedCalls events = map tc_id (take M toolCalls) ∧
    skippedEvents events = map (λ call, (tc_id call, tc_name call)) (drop M toolCalls) ∧
    pendingMessages st' = getSteeringMessages world (steeringPolls st + (M - 1)).
Proof.
  intros HM Hquiet Hsteer st' resultMsg.
  destruct (executeToolCalls_steered world toolsForRun toolCalls M [] st HM Hquiet Hsteer)
    as (st1 & events & Hex & Ht & Hsk & Hstart & Happ & Hturns & Hcalls & Hclock & Hcur).
  exists events. subst st'. unfold toolPhase. rewrite Hex. simpl.
  rewrite decide_True
    by (destruct (getSteeringMessages world (steeringPolls st + (M - 1))); [done|simpl; lia]).
  simpl. rewrite Ht, Hturns, Hclock. split_and!; try done.
  rewrite <- !app_assoc. reflexivity.
Qed.
End Steering.

(** C3, witness: three calls, steering after the second. *)
Lemma steering_preemption_witness :
  appendedMessages
    (trace (toolPhase steeredWorld [echoTool "read"; echoTool "grep"] [callA; callB; callC]
              idleState)) =
  [{| role := user;
      content := Blocks [mkToolResult "A" (Some "read") "read ran on a.txt";
                         mkToolResult "B" (Some "grep") "grep ran on needle";
                         mkToolResult "C" (Some "read") "Skipped due to queued user message."];
      timestamp := 100 |}].
Proof.
  destruct (steering_preemption steeredWorld [echoTool "read"; echoTool "grep"]
              [callA; callB; callC] 2 idleState) as (events & Ht & Happ & _).
  - simpl. lia.
  - intros j Hj. assert (j = 0%nat) as -> by lia. reflexivity.
  - simpl. discriminate.
  - rewrite Ht. simpl. rewrite appendedMessages_app, Happ. reflexivity.
Defined.

(** C4, the code at the failing input.  The first answer has no tool call, a
    steering message is injected in the second turn, and the provider call
    of that turn fails with a context overflow.  The loop sets the flag,
    calls [prepareCompaction], installs the summary and decrements [turns],
    but its [continue] re-tests the inner loop condition, which is false
    ([hasMoreToolCalls] is false and the pending messages were injected):
    the provider is not called again, and the run ends with [agent_end]
    after two provider calls, the steering message unanswered.  When the
    same failure happens in the first turn, the call is repeated with the
    summary in front. *)
Theorem overflow_after_steering_is_not_retried :
  ∃ final,
    runAgentLoop Pruning.textChars overflowBySubstring overflowAfterSteering [] 20 200000
      10 [hiMsg] None = Some final ∧
    overflowBySubstring "prompt exceeds the maximum context length" = true ∧
    overflowCompactionAttempted final = true ∧
    compactionSummary final = Some summaryMsg ∧
    turns final = 1 ∧
    length (providerRequests (trace final)) = 2%nat ∧
    appendedMessages (trace final) =
      [{| role := assistant; content := Blocks [mkText "hello"]; timestamp := 100 |}; waitMsg] ∧
    last (trace final) = Some (Push (ev_agent_end (currentMessages final))) ∧
    (∃ retried,
       runAgentLoop Pruning.textChars overflowBySubstring overflowInFirstTurn [] 20 200000
         10 [hiMsg] None = Some retried ∧
       providerRequests (trace retried) = [[hiMsg]; [summaryMsg; hiMsg]] ∧
       turns retried = 1 ∧ finalText retried = "after compaction").
Proof.
  eexists. split; [vm_compute; reflexivity|].
  split_and!; try (vm_compute; reflexivity).
  eexists. split; [vm_compute; reflexivity|].
  split_and!; vm_compute; reflexivity.
Qed.

Section Compaction.
Context (est : Message → Z) (isContextOverflowError : string → bool)
        (world : World) (toolsForRun : list Tool) (maxTurns contextTokens : Z).

Lemma control_skipRemaining remaining : ∀ toolResults st,
  control (skipRemaining remaining toolResults st).2 = control st.
Proof.
  induction remaining as [|c rest IH]; intros toolResults st; simpl; [done|].
  by rewrite IH.
Qed.

Lemma control_executeToolCalls toolCalls : ∀ toolResults st,
  control (executeToolCalls world toolsForRun toolCalls toolResults st).2 = control st.
Proof.
  induction toolCalls as [|c rest IH]; intros toolResults st; simpl; [done|].
  destruct (runTool toolsForRun c (totalToolCalls st)) as [result isError]. simpl.
  case_decide.
  - match goal with |- context [skipRemaining ?r ?a ?s] =>
      pose proof (control_skipRemaining r a s) as H1;
      destruct (skipRemaining r a s) as [res st1] end.
    simpl in *. done.
  - by rewrite IH.
Qed.

Lemma control_toolPhase toolCalls st :
  control (toolPhase world toolsForRun toolCalls st) = control st.
Proof.
  unfold toolPhase.
  pose proof (control_executeToolCalls toolCalls [] st) as H1.
  destruct (executeToolCalls world toolsForRun toolCalls [] st) as [[res steer] st1].
  simpl in *. destruct steer as [steering|]; [case_decide|]; simpl; done.
Qed.

Lemma control_consumeStream events : ∀ content calls parts st,
  control (consumeStream events content calls parts st).2 = control st.
Proof.
  induction events as [|e events IH]; intros content calls parts st; simpl; [done|].
  destruct e; by rewrite IH.
Qed.

Lemma control_injectPending st : control (injectPending st) = control st.
Proof.
  unfold injectPending. generalize (pendingMessages st) as pending.
  intros pending. revert st. induction pending as [|m pending IH]; intros st; simpl; [done|].
  by rewrite IH.
Qed.

Lemma handleLlmError_cases errorText st :
  match handleLlmError isContextOverflowError world errorText st with
  | Retry st' =>
      isContextOverflowError errorText = true ∧
      overflowCompactionAttempted st = false ∧
      (∃ summary summaryMessage,
         prepareCompaction world (compactionCalls st) (currentMessages st) =
           Prepared (Some summary) (Some summaryMessage) ∧ summary ≠ "" ∧
         compactionSummary st' = Some summaryMessage) ∧
      control st' = (turns st - 1, true, S (compactionCalls st)) ∧
      trace st' = trace st ++ [Push (ev_context_overflow_compact errorText);
                               CallPrepareCompaction (currentMessages st)] ∧
      hasMoreToolCalls st' = hasMoreToolCalls st ∧ pendingMessages st' = pendingMessages st
  | Rethrow e st' =>
      (overflowCompactionAttempted st = true ∨ isContextOverflowError errorText = false →
       e = errorText ∧ st' = st) ∧
      (overflowCompactionAttempted st = true → overflowCompactionAttempted st' = true) ∧
      (compactionCalls st ≤ compactionCalls st' ≤ compactionCalls st +
         (if overflowCompactionAttempted st then 0 else 1))%nat ∧
      (compactionCalls st' ≠ compactionCalls st → overflowCompactionAttempted st' = true) ∧
      turns st' = turns st
  end.
Proof.
  unfold handleLlmError.
  destruct (isContextOverflowError errorText) eqn:Hc,
           (overflowCompactionAttempted st) eqn:Ha; simpl.
  - split_and!; try done; lia.
  - destruct (prepareCompaction world (compactionCalls st) (currentMessages st))
      as [[summary|] [summaryMessage|]|e] eqn:Hp; simpl.
    + destruct (String.eqb_spec summary ""); simpl.
      * split_and!; try done; try lia; try (intros [?|?]; done).
      * split_and!; try done.
        -- exists summary, summaryMessage. done.
        -- simpl. by rewrite <- app_assoc.
    + split_and!; try done; try lia; try (intros [?|?]; done).
    + split_and!; try done; try lia; try (intros [?|?]; done).
    + split_and!; try done; try lia; try (intros [?|?]; done).
    + split_and!; try done; try lia; try (intros [?|?]; done).
  - split_and!; try done; lia.
  - split_and!; try done; lia.
Qed.

(** One pass through the loop body: a normal turn counts one turn more and
    keeps the compaction state; a retry keeps the turn number and uses up
    the one compaction attempt. *)
Lemma turnBody_control st :
  match turnBody est isContextOverflowError world toolsForRun contextTokens st with
  | Continue st' =>
      control st' = (turns st + 1, overflowCompactionAttempted st, compactionCalls st) ∨
      (overflowCompactionAttempted st = false ∧
       control st' = (turns st, true, S (compactionCalls st)))
  | Threw e st' =>
      (overflowCompactionAttempted st = true → overflowCompactionAttempted st' = true) ∧
      (compactionCalls st ≤ compactionCalls st' ≤ compactionCalls st +
         (if overflowCompactionAttempted st then 0 else 1))%nat ∧
      (compactionCalls st' ≠ compactionCalls st → overflowCompactionAttempted st' = true)
  end.
Proof.
  unfold turnBody.
  set (st1 := if decide (0 < length (pendingMessages _))%nat then _ else _).
  assert (control st1 = (turns st + 1, overflowCompactionAttempted st, compactionCalls st)) as H1.
  { subst st1. case_decide; [rewrite control_injectPending|]; done. }
  clearbody st1. unfold callProvider.
  match goal with |- context [streamFn world ?k ?ms] => destruct (streamFn world k ms) as [events|seen errorText] end.
  - match goal with |- context [consumeStream events [] [] [] ?s] =>
      pose proof (control_consumeStream events [] [] [] s) as H2;
      destruct (consumeStream events [] [] [] s) as [[[content calls] parts] st2] end.
    simpl in H2. simpl.
    match goal with |- context [if negb ?b then _ else _] => destruct b eqn:Hb end; simpl.
    + left. rewrite control_toolPhase.
      match goal with |- context [negb ?x] => destruct (negb x) end;
        simpl; rewrite <- H1; exact H2.
    + left.
      match goal with |- context [negb ?x] => destruct (negb x) end;
        simpl; rewrite <- H1; exact H2.
  - match goal with |- context [consumeStream seen [] [] [] ?s] =>
      pose proof (control_consumeStream seen [] [] [] s) as H2;
      destruct (consumeStream seen [] [] [] s) as [[[content calls] parts] st2] end.
    simpl in H2. assert (control st2 = control st1) as H3 by exact H2. rewrite H1 in H3.
    injection H3 as Hturns Hatt Hcalls.
    pose proof (handleLlmError_cases errorText st2) as Hh.
    destruct (handleLlmError isContextOverflowError world errorText st2) as [st3|e st3].
    + destruct Hh as (_ & Ha & _ & Hctl & _). right. split; [congruence|].
      rewrite Hctl. f_equal; [f_equal|]; [lia|congruence].
    + destruct Hh as (_ & Hmono & Hle & Hne & _).
      rewrite Hatt, Hcalls in *. done.
Qed.

Lemma runLoop_compaction fuel : ∀ st final,
  runLoop est isContextOverflowError world toolsForRun maxTurns contextTokens fuel st = Some final →
  (overflowCompactionAttempted st = true →
   overflowCompactionAttempted final = true ∧ compactionCalls final = compactionCalls st) ∧
  (overflowCompactionAttempted st = false →
   (compactionCalls final ≤ compactionCalls st + 1)%nat ∧
   (compactionCalls final ≠ compactionCalls st → overflowCompactionAttempted final = true)).
Proof.
  induction fuel as [|fuel IH]; intros st final Hrun; [done|].
  simpl in Hrun.
  destruct (hasMoreToolCalls st || bool_decide (0 < length (pendingMessages st))%nat).
  - case_decide.
    { injection Hrun as <-. simpl. split; [done|]. intros _. split; [lia|done]. }
    destruct (aborted world (abortChecks st)).
    { injection Hrun as <-. simpl. split; [done|]. intros _. split; [lia|done]. }
    match type of Hrun with context [turnBody _ _ _ _ _ ?s] =>
      pose proof (turnBody_control s) as Hc;
      destruct (turnBody est isContextOverflowError world toolsForRun contextTokens s)
        as [st'|e st'] end.
    + apply IH in Hrun as [IH1 IH2]. simpl in Hc.
      destruct Hc as [Hc|[Ha Hc]]; injection Hc as Ht Hatt Hcalls; simpl in *.
      * rewrite Hatt, Hcalls in *. done.
      * split; [congruence|]. intros _. destruct (IH1 Hatt) as [? ->].
        rewrite Hcalls. split; [lia|done].
    + injection Hrun as <-. simpl in *. destruct Hc as (Hmono & Hle & Hne).
      split.
      * intros Ha. rewrite Ha in Hle. split; [by apply Hmono|lia].
      * intros Ha. rewrite Ha in Hle. split; [lia|done].
  - destruct (getFollowUpMessages world) as [f|].
    + simpl in Hrun. case_decide.
      * apply IH in Hrun. simpl in Hrun. done.
      * injection Hrun as <-. simpl. split; [done|]. intros _. split; [lia|done].
    + injection Hrun as <-. simpl. split; [done|]. intros _. split; [lia|done].
Qed.

Lemma runLoop_terminates fuel : ∀ st,
  (potential maxTurns st < fuel)%nat →
  is_Some (runLoop est isContextOverflowError world toolsForRun maxTurns contextTokens fuel st).
Proof.
  induction fuel as [|fuel IH]; intros st Hfuel; [lia|].
  simpl. unfold potential, innerCondition in Hfuel.
  destruct (hasMoreToolCalls st || bool_decide (0 < length (pendingMessages st))%nat) eqn:Hcond.
  - destruct (decide (turns st >= maxTurns)) as [Hturns|Hturns]; [by eexists|].
    destruct (aborted world (abortChecks st)); [by eexists|].
    match goal with |- context [turnBody _ _ _ _ _ ?s] =>
      pose proof (turnBody_control s) as Hc;
      destruct (turnBody est isContextOverflowError world toolsForRun contextTokens s)
        as [st'|e st'] end; [|by eexists].
    apply IH. unfold potential. simpl in Hc.
    destruct Hc as [Hc|[Ha Hc]]; injection Hc as Ht Hatt Hcalls; rewrite Ht, Hatt.
    + destruct (overflowCompactionAttempted st), (innerCondition st'); lia.
    + rewrite Ha in Hfuel. destruct (innerCondition st'); lia.
  - destruct (getFollowUpMessages world) as [f|]; [|by eexists].
    simpl. destruct (decide (0 < length (f (followUpPolls st)))%nat) as [Hf|Hf]; [|by eexists].
    apply IH. unfold potential, innerCondition. simpl.
    destruct (overflowCompactionAttempted st); lia.
Qed.

(** A run always ends, and it calls [prepareCompaction] at most once. *)
Lemma runAgentLoop_compacts_at_most_once fuel currentMessages summary :
  (2 * Z.to_nat maxTurns + 3 ≤ fuel)%nat →
  ∃ final,
    runAgentLoop est isContextOverflowError world toolsForRun maxTurns contextTokens
      fuel currentMessages summary = Some final ∧
    (compactionCalls final ≤ 1)%nat ∧
    (compactionCalls final = 1%nat → overflowCompactionAttempted final = true).
Proof.
  intros Hfuel. unfold runAgentLoop.
  destruct (runLoop_terminates fuel (initialState world currentMessages summary)) as [final Hrun].
  { unfold potential, initialState, innerCondition. simpl. lia. }
  exists final. split; [done|].
  apply runLoop_compaction in Hrun as [_ H2].
  destruct (H2 eq_refl) as [Hle Hne]. simpl in *. split; [lia|].
  intros E. apply Hne. lia.
Qed.
End Compaction.

End AgentLoopFacts.

(** ** The guard under any sequence of calls *)

Module GuardCalls.
Import Guard GuardSession.

(** The session a call is addressed to. *)
Definition callKey (c : Call) : string :=
  match c with
  | CallAppend sessionKey _ _ _ => sessionKey
  | CallFlush sessionKey _ _ => sessionKey
  end.

(** The calls addressed to one session. *)
Definition callsOf (k : string) (calls : list Call) : list Call :=
  filter (λ c, callKey c = k) calls.

(** A call during which no persist attempt throws. *)
Definition Persisted (c : Call) : Prop :=
  match c with
  | CallAppend _ _ _ persists => Forall (λ b, b = true) persists
  | CallFlush _ _ persists => Forall (λ b, b = true) persists
  end.

(** The messages the caller handed to [append] for one session, in call
    order. *)
Definition appendedTo (k : string) (calls : list Call) : list Message :=
  omap (λ c, match c with
             | CallAppend k' m _ _ => if decide (k' = k) then Some m else None
             | CallFlush _ _ _ => None
             end) calls.

(** The calls of a log that have no result yet, read off the log alone:
    each message takes away the calls it carries a result for and adds the
    calls it makes. *)
Definition afterMessage (open : Pending) (m : Message) : Pending :=
  foldl (λ p c, pending_set (call_id c) (call_name c) p)
    (foldl (λ p i, pending_delete i p) open (extractToolResultIds m))
    (extractToolUsesFromAssistant m).

Definition openCalls (log : list Message) : Pending := foldl afterMessage [] log.

(** [Guarded sofar appended rest]: after the messages [sofar], the log
    continues with [rest], which holds the messages [appended] in their
    order, each once, and between them nothing but synthetic messages, each
    with the results for exactly the calls that are open at its place. *)
Inductive Guarded : list Message → list Message → list Message → Prop :=
| guarded_end sofar : Guarded sofar [] []
| guarded_message sofar m appended rest :
    Guarded (sofar ++ [m]) appended rest →
    Guarded sofar (m :: appended) (m :: rest)
| guarded_synthetic sofar now appended rest :
    openCalls sofar ≠ [] →
    Guarded (sofar ++ [syntheticResults (openCalls sofar) now]) appended rest →
    Guarded sofar appended (syntheticResults (openCalls sofar) now :: rest).

(** A message sequence in which every message with tool calls is directly
    followed by a message that carries a result for each of them. *)
Inductive Paired : list Message → Prop :=
| paired_nil : Paired []
| paired_plain m ms : toolUseIds m = [] → Paired ms → Paired (m :: ms)
| paired_call m r ms :
    toolUseIds m ≠ [] → toolUseIds m ⊆ extractToolResultIds r →
    Paired ms → Paired (m :: r :: ms).

(** Appends of messages to one session, each with the time of the call and
    the outcomes of its persist attempts. *)
Definition appendsTo (k : string) (timed : list (Message * Z * Persists)) : list Call :=
  map (λ mt, CallAppend k mt.1.1 mt.1.2 mt.2) timed.

End GuardCalls.

Module GuardCallsFacts.
Import Guard GuardSession GuardFacts GuardCalls.

Lemma callStep_other k c st : callKey c ≠ k → callStep k c st = st.
Proof. destruct c; simpl; intros H; by rewrite decide_False. Qed.

Lemma foldl_callStep_callsOf k calls : ∀ st,
  foldl (λ st c, callStep k c st) st calls =
  foldl (λ st c, callStep k c st) st (callsOf k calls).
Proof.
  unfold callsOf. induction calls as [|c calls IH]; intros st; simpl; [done|].
  rewrite filter_cons. case_decide as Hk; simpl.
  - apply IH.
  - rewrite callStep_other by done. apply IH.
Qed.

(** What a session's log and pending calls are after some calls on a new
    agent's manager. *)
Lemma session_after onDisk calls k :
  sessionView (newAgent onDisk).1 (runCalls (newAgent onDisk).1 calls (newAgent onDisk).2) k =
  foldl (λ st c, callStep k c st) (default [] (onDisk !! k), []) calls.
Proof.
  destruct (runCalls_view _ calls _ (newAgent_GuardedOnce onDisk)) as [_ Hv].
  rewrite Hv. reflexivity.
Qed.

(** X1.  Sessions do not interfere: the log and the pending calls of a session
    are those that the calls addressed to this session alone produce,
    whichever of the calls returned or threw. *)
Theorem guard_sessions_independent onDisk calls k :
  let g := (newAgent onDisk).1 in
  let sm := runCalls g calls (newAgent onDisk).2 in
  let alone := runCalls g (callsOf k calls) (newAgent onDisk).2 in
  transcript sm k = transcript alone k ∧
  getPendingIds g k sm = getPendingIds g k alone.
Proof.
  intros g sm alone.
  pose proof (session_after onDisk calls k) as H1.
  pose proof (session_after onDisk (callsOf k calls) k) as H2.
  rewrite <- foldl_callStep_callsOf in H2. fold g in H1, H2.
  assert (sessionView g sm k = sessionView g alone k) as E by (subst sm alone; congruence).
  unfold sessionView in E. injection E as Et Ep.
  split; [done|]. unfold getPendingIds. f_equal. exact Ep.
Qed.

Lemma delete_all_nil ks : foldl (λ (p : Pending) i, pending_delete i p) [] ks = [].
Proof. induction ks as [|k ks IH]; simpl; [done|]. exact IH. Qed.

Lemma pending_keys_nil (p : Pending) : pending_keys p = [] → p = [].
Proof. by destruct p. Qed.

Lemma delete_all_keys (p : Pending) :
  foldl (λ (p : Pending) i, pending_delete i p) p (pending_keys p) = [].
Proof.
  apply pending_keys_nil, elem_of_nil_inv. intros i Hi.
  apply pending_keys_delete_all in Hi as [Hi Hn]. done.
Qed.

Lemma toolUseIds_nil m : toolUseIds m = [] → extractToolUsesFromAssistant m = [].
Proof. unfold toolUseIds. by destruct (extractToolUsesFromAssistant m). Qed.

Lemma toolUseIds_assistant m : toolUseIds m ≠ [] → extractToolResultIds m = [].
Proof.
  unfold toolUseIds, extractToolUsesFromAssistant, extractToolResultIds.
  by destruct (role m).
Qed.

Lemma results_no_calls m : extractToolResultIds m ≠ [] → extractToolUsesFromAssistant m = [].
Proof.
  unfold extractToolUsesFromAssistant, extractToolResultIds.
  by destruct (role m).
Qed.

Lemma openCalls_snoc log m : openCalls (log ++ [m]) = afterMessage (openCalls log) m.
Proof. unfold openCalls. by rewrite foldl_app. Qed.

Lemma afterMessage_synthetic (p : Pending) now :
  PendingOk p → afterMessage p (syntheticResults p now) = [].
Proof.
  intros [_ Hne]. unfold afterMessage.
  rewrite syntheticResults_ids by done. by rewrite delete_all_keys.
Qed.

Lemma afterMessage_results p m :
  extractToolResultIds m ≠ [] →
  afterMessage p m = foldl (λ p i, pending_delete i p) p (extractToolResultIds m).
Proof. intros H. unfold afterMessage. by rewrite results_no_calls. Qed.

Lemma afterMessage_other m :
  extractToolResultIds m = [] →
  afterMessage [] m = foldl (λ p c, pending_set (call_id c) (call_name c) p) []
                        (extractToolUsesFromAssistant m).
Proof. intros H. unfold afterMessage. by rewrite H. Qed.

(** One call, seen from the log: when no persist attempt throws, the log
    gains the message of an append, after a synthetic message whenever
    calls were open, and the pending map stays the open calls of the log. *)
Lemma callStep_guarded k c T0 sofar :
  Persisted c → PendingOk (openCalls sofar) →
  ∃ added,
    callStep k c (T0 ++ sofar, openCalls sofar) =
      (T0 ++ sofar ++ added, openCalls (sofar ++ added)) ∧
    PendingOk (openCalls (sofar ++ added)) ∧
    ∀ appended rest,
      Guarded (sofar ++ added) appended rest →
      Guarded sofar (appendedTo k [c] ++ appended) (added ++ rest).
Proof.
  intros Hc Hok.
  assert (∀ now, openCalls sofar ≠ [] →
            openCalls (sofar ++ [syntheticResults (openCalls sofar) now]) = []) as Hsyn.
  { intros now _. rewrite openCalls_snoc. by apply afterMessage_synthetic. }
  destruct c as [k' m now ps|k' now ps]; simpl in *.
  - destruct (decide (k' = k)) as [->|Hk].
    2:{ exists []. rewrite !app_nil_r. split_and!; try done. }
    pose proof (Forall_true_hd ps Hc) as Eh.
    pose proof (Forall_true_hd _ (Forall_true_tail ps Hc)) as Eh2.
    unfold appendStep. rewrite Eh, Eh2.
    destruct (decide (0 < length (extractToolResultIds m))) as [Hr|Hr].
    + assert (extractToolResultIds m ≠ []) as Hr'
        by (destruct (extractToolResultIds m); [simpl in Hr; lia|done]).
      exists [m]. rewrite openCalls_snoc, afterMessage_results by done.
      split; [by rewrite <- app_assoc|]. split.
      * pose proof (appendStep_PendingOk m now ps (T0, openCalls sofar) Hok) as H.
        unfold appendStep in H. by rewrite decide_True in H.
      * intros appended rest HG. by apply guarded_message.
    + assert (extractToolResultIds m = []) as Hr'
        by (destruct (extractToolResultIds m); [done|simpl in Hr; lia]).
      destruct (decide (length (openCalls sofar) = 0)) as [Hz|Hz].
      * assert (openCalls sofar = []) as Hnil by (by destruct (openCalls sofar)).
        exists [m]. rewrite openCalls_snoc, Hnil, afterMessage_other by done.
        split; [by rewrite <- app_assoc|]. split; [apply recorded_PendingOk|].
        intros appended rest HG. by apply guarded_message.
      * assert (openCalls sofar ≠ []) as Hopen by (by destruct (openCalls sofar)).
        exists [syntheticResults (openCalls sofar) now; m].
        replace (sofar ++ [syntheticResults (openCalls sofar) now; m])
          with ((sofar ++ [syntheticResults (openCalls sofar) now]) ++ [m])
          by (by rewrite <- app_assoc).
        rewrite openCalls_snoc, Hsyn, afterMessage_other by done.
        split; [by rewrite <- !app_assoc|]. split; [apply recorded_PendingOk|].
        intros appended rest HG. simpl.
        apply guarded_synthetic; [done|]. by apply guarded_message.
  - destruct (decide (k' = k)) as [->|Hk].
    2:{ exists []. rewrite !app_nil_r. split_and!; try done. }
    unfold flushStep.
    destruct (decide (length (openCalls sofar) = 0)) as [Hz|Hz].
    + exists []. rewrite !app_nil_r. split_and!; try done.
    + assert (openCalls sofar ≠ []) as Hopen by (by destruct (openCalls sofar)).
      exists [syntheticResults (openCalls sofar) now]. rewrite Hsyn by done.
      split; [by rewrite <- app_assoc|]. split; [apply nil_PendingOk|].
      intros appended rest HG. simpl. by apply guarded_synthetic.
Qed.

Lemma appendedTo_cons k c calls :
  appendedTo k (c :: calls) = appendedTo k [c] ++ appendedTo k calls.
Proof. unfold appendedTo. simpl. by destruct (match c with CallAppend _ _ _ _ => _ | _ => _ end). Qed.

Lemma foldl_callStep_guarded k calls : ∀ T0 sofar,
  Forall Persisted calls → PendingOk (openCalls sofar) →
  ∃ L, foldl (λ st c, callStep k c st) (T0 ++ sofar, openCalls sofar) calls =
         (T0 ++ sofar ++ L, openCalls (sofar ++ L)) ∧
       Guarded sofar (appendedTo k calls) L.
Proof.
  induction calls as [|c calls IH]; intros T0 sofar Hcs Hok; cbn [foldl].
  - exists []. rewrite !app_nil_r. split; [done|apply guarded_end].
  - apply Forall_cons in Hcs as [Hc Hcs].
    destruct (callStep_guarded k c T0 sofar Hc Hok) as (added & -> & Hok' & HG).
    rewrite (app_assoc T0).
    destruct (IH (T0) (sofar ++ added) Hcs Hok') as (L & E & HL).
    rewrite <- (app_assoc T0) , E.
    exists (added ++ L). rewrite !app_assoc. split; [done|].
    rewrite appendedTo_cons. by apply HG.
Qed.

(** X2.  The guard loses nothing, repeats nothing and reorders nothing: when
    no persist attempt throws, what a session's log gains is the messages
    handed to [append], in call order and each once, and between them only
    synthetic messages, each with the results for exactly the calls that
    have no result at its place in the log; the ids the guard holds as
    pending are the calls without a result in what the log gained. *)
Theorem guard_keeps_every_message onDisk calls k :
  let g := (newAgent onDisk).1 in
  let sm0 := (newAgent onDisk).2 in
  Forall Persisted calls →
  ∃ L, transcript (runCalls g calls sm0) k = transcript sm0 k ++ L ∧
       Guarded [] (appendedTo k calls) L ∧
       getPendingIds g k (runCalls g calls sm0) = pending_keys (openCalls L).
Proof.
  intros g sm0 Hcs.
  pose proof (session_after onDisk calls k) as H. fold g sm0 in H.
  destruct (foldl_callStep_guarded k calls (default [] (onDisk !! k)) [] Hcs nil_PendingOk)
    as (L & E & HL).
  rewrite app_nil_r in E. simpl in E. change (openCalls []) with (@nil (string * option string)) in E.
  rewrite E in H. unfold sessionView in H. injection H as Ht Hp.
  exists L. split; [exact Ht|]. split; [exact HL|].
  unfold getPendingIds. change (guard_pendingBySession g) with 0. by rewrite Hp.
Qed.

(** X2, witness: two calls of which one is answered, then a plain message;
    the synthetic message for the other call comes before the plain one. *)
Lemma guard_keeps_every_message_witness :
  ∃ L, transcript partialAnswerRun "s" = transcript (newAgent ∅).2 "s" ++ L ∧
       Guarded [] [twoCalls; firstAnswered; plainUser] L ∧
       getPendingIds (newAgent ∅).1 "s" partialAnswerRun = pending_keys (openCalls L).
Proof.
  refine (guard_keeps_every_message ∅ partialAnswerCalls "s" _).
  repeat (apply Forall_cons_2; [apply Forall_nil_2|]). apply Forall_nil_2.
Defined.

Lemma appendStep_plain m now ps log :
  toolUseIds m = [] → appendStep m now ps (log, []) = (log ++ [m], []).
Proof.
  intros Hm. unfold appendStep. case_decide.
  - by rewrite delete_all_nil.
  - simpl. rewrite (toolUseIds_nil m Hm). by destruct (hd true ps).
Qed.

Lemma appendStep_call_result m r t1 t2 ps1 ps2 log :
  toolUseIds m ≠ [] → toolUseIds m ⊆ extractToolResultIds r →
  appendStep r t2 ps2 (appendStep m t1 ps1 (log, [])) = (log ++ [m; r], []).
Proof.
  intros Hm Hsub. unfold appendStep at 2.
  rewrite (toolUseIds_assistant m Hm). simpl.
  unfold appendStep. rewrite decide_True.
  2:{ destruct (toolUseIds m) as [|i ids] eqn:E; [done|].
      assert (i ∈ extractToolResultIds r) as Hi by (apply Hsub, elem_of_cons; by left).
      destruct (extractToolResultIds r); [by inversion Hi|simpl; lia]. }
  rewrite <- app_assoc. simpl. f_equal.
  destruct (hd true ps1); [|apply delete_all_nil].
  apply pending_keys_nil. apply elem_of_nil_inv. intros i Hi.
  apply pending_keys_delete_all in Hi as [Hi Hn].
  apply pending_keys_set_all in Hi as [Hi|Hi]; [|by inversion Hi].
  apply Hn, Hsub. exact Hi.
Qed.

Lemma foldl_appends_paired k (timed : list (Message * Z * Persists)) :
  Paired timed.*1.*1 → ∀ log,
  foldl (λ st c, callStep k c st) (log, []) (appendsTo k timed) = (log ++ timed.*1.*1, []).
Proof.
  remember (timed.*1.*1) as ms eqn:E. intros HP. revert timed E.
  induction HP as [|m ms Hm HP IH|m r ms Hm Hsub HP IH]; intros timed E log.
  - destruct timed; [|done]. simpl. by rewrite app_nil_r.
  - destruct timed as [|[[m' t] ps] timed]; [done|]. injection E as -> E.
    cbn [appendsTo map foldl callStep fst snd fmap list_fmap].
    rewrite decide_True by done. rewrite appendStep_plain by done.
    fold (appendsTo k timed). rewrite (IH timed E). by rewrite <- app_assoc.
  - destruct timed as [|[[m' t1] ps1] [|[[r' t2] ps2] timed]]; [done|done|].
    injection E as -> -> E.
    cbn [appendsTo map foldl callStep fst snd fmap list_fmap].
    rewrite !decide_True by done. rewrite appendStep_call_result by done.
    fold (appendsTo k timed). rewrite (IH timed E). by rewrite <- app_assoc.
Qed.

Lemma runCalls_app' g calls1 calls2 sm :
  runCalls g (calls1 ++ calls2) sm = runCalls g calls2 (runCalls g calls1 sm).
Proof. unfold runCalls. by rewrite foldl_app. Qed.

Lemma runCalls_paired onDisk earlier k (timed : list (Message * Z * Persists)) :
  let g := (newAgent onDisk).1 in
  let sm := runCalls g earlier (newAgent onDisk).2 in
  let sm' := runCalls g (appendsTo k timed) sm in
  getPendingIds g k sm = [] → Paired timed.*1.*1 →
  transcript sm' k = transcript sm k ++ timed.*1.*1 ∧ getPendingIds g k sm' = [].
Proof.
  intros g sm sm' Hp HP.
  pose proof (session_after onDisk (earlier ++ appendsTo k timed) k) as H2.
  pose proof (session_after onDisk earlier k) as H1.
  fold g in H1, H2. rewrite runCalls_app' in H2. fold sm in H1, H2. fold sm' in H2.
  rewrite foldl_app, <- H1 in H2.
  unfold getPendingIds in Hp. apply pending_keys_nil in Hp.
  unfold sessionView in H2 at 2. rewrite Hp in H2.
  rewrite foldl_appends_paired in H2 by done.
  unfold sessionView in H2. injection H2 as Ht Hq.
  split; [done|]. unfold getPendingIds.
  change (guard_pendingBySession g) with 0. by rewrite Hq.
Qed.

(** X3.  The guard is invisible when the caller pairs its messages: from a state
    with nothing pending, appending a sequence in which every message with
    tool calls is directly followed by the message with their results adds
    exactly these messages to the log, no synthetic one, and leaves nothing
    pending, whichever of the appends returned or threw. *)
Theorem guard_transparent_on_paired_messages onDisk earlier k
    (timed : list (Message * Z * Persists)) :
  let g := (newAgent onDisk).1 in
  let sm := runCalls g earlier (newAgent onDisk).2 in
  let sm' := runCalls g (appendsTo k timed) sm in
  getPendingIds g k sm = [] → Paired timed.*1.*1 →
  transcript sm' k = transcript sm k ++ timed.*1.*1 ∧ getPendingIds g k sm' = [].
Proof. exact (runCalls_paired onDisk earlier k timed). Qed.

(** X3, witness: a tool call and its result, then a plain message. *)
Lemma guard_transparent_on_paired_messages_witness :
  transcript (runCalls (newAgent ∅).1
                (appendsTo "s" [(oneCall, 10%Z, []);
                                ({| role := user;
                                    content := Blocks [mkToolResult "x1" (Some "read") "ok"];
                                    timestamp := 2 |}, 20%Z, []);
                                (plainUser, 30%Z, [])])
                (runCalls (newAgent ∅).1 [] (newAgent ∅).2)) "s" =
  [oneCall;
   {| role := user; content := Blocks [mkToolResult "x1" (Some "read") "ok"]; timestamp := 2 |};
   plainUser].
Proof.
  refine (proj1 (guard_transparent_on_paired_messages ∅ [] "s" _ _ _)).
  - reflexivity.
  - apply paired_call; [discriminate| |].
    + intros i Hi. vm_compute in Hi. vm_compute. exact Hi.
    + apply paired_plain; [reflexivity|apply paired_nil].
Defined.

Lemma flushStep_pending now st : (flushStep now st).2 = [].
Proof. destruct st as [log p]. unfold flushStep. case_decide; [by destruct p|done]. Qed.

(** X4.  Flushing is idempotent: right after a flush, a second flush of the same
    session changes nothing at all, neither the log nor the guard's
    bookkeeping, and returns, whether the first flush returned or threw. *)
Theorem guard_flush_twice onDisk calls k t1 t2 persists1 persists2 :
  let g := (newAgent onDisk).1 in
  let sm := (flushPendingToolResults g k t1 (runCalls g calls (newAgent onDisk).2)
               persists1).1.1 in
  flushPendingToolResults g k t2 sm persists2 = (sm, persists2, true) ∧
  getPendingIds g k sm = [].
Proof.
  intros g sm.
  destruct (runCalls_view g calls _ (newAgent_GuardedOnce onDisk)) as [HG _].
  destruct (perform_view g _ (CallFlush k t1 persists1) HG) as [HG1 Hv]. fold g in HG1, Hv.
  change (perform g _ (CallFlush k t1 persists1)) with sm in HG1, Hv.
  specialize (Hv k). unfold callStep in Hv. rewrite decide_True in Hv by done.
  assert (readPending (guard_pendingBySession g) k sm = []) as Hp.
  { unfold sessionView in Hv. apply (f_equal snd) in Hv.
    cbn [snd] in Hv. etrans; [exact Hv|]. apply flushStep_pending. }
  split; [|unfold getPendingIds; by rewrite Hp].
  unfold flushPendingToolResults, flushPendingToolResultsWith.
  unfold readPending in Hp.
  destruct (pendingBySession (guard_pendingBySession g) sm !! k) as [p|]; [|done].
  simpl in Hp. subst p. done.
Qed.

End GuardCallsFacts.

(** ** The effects of a run of the agent loop *)

Module AgentLoopTrace.
Import Guard GuardSession AgentLoop.
Local Open Scope Z_scope.

(** The two events that end a run. *)
Definition isTerminal (e : Effect) : bool :=
  match e with
  | Push (ev_agent_end _) | Push (ev_agent_error _) => true
  | _ => false
  end.

(** The calls of [prepareCompaction] among some effects. *)
Definition compactionRequests (t : list Effect) : list (list Message) :=
  omap (λ e, match e with CallPrepareCompaction ms => Some ms | _ => None end) t.

(** A message sequence in which every message with tool calls is directly
    followed by a user message whose results answer exactly these calls, in
    the same order. *)
Inductive Answered : list Message → Prop :=
| answered_nil : Answered []
| answered_plain m ms : toolUseIds m = [] → Answered ms → Answered (m :: ms)
| answered_call m r ms :
    toolUseIds m ≠ [] → role r = user → extractToolResultIds r = toolUseIds m →
    Answered ms → Answered (m :: r :: ms).

(** The messages that [getSteeringMessages] and [getFollowUpMessages] hand
    over carry no tool call (an agent's are plain user texts). *)
Definition PlainInjections (world : World) : Prop :=
  (∀ n m, m ∈ getSteeringMessages world n → toolUseIds m = []) ∧
  (∀ f n m, getFollowUpMessages world = Some f → m ∈ f n → toolUseIds m = []).

(** The model asks for two tools at once and answers in plain text from
    then on; the user steers while the first tool runs. *)
Definition toolWorld : World :=
  {| getSteeringMessages := λ k, if decide (k = 1%nat) then [waitMsg] else [];
     getFollowUpMessages := None;
     streamFn := λ k _,
       if decide (k = 0%nat) then LlmCompleted [toolcall_end callA; toolcall_end callB]
       else LlmCompleted [text_end "done"];
     prepareCompaction := λ _ _, Prepared None None;
     aborted := λ _, false;
     Date_now := λ k, 100 + Z.of_nat k |}.

Definition twoTools : list Tool := [echoTool "read"; echoTool "grep"].

(** The calls of [streamFn] in a run.  One provider request is one call of
    [retryAsync], which runs the stream again after a rate-limit error
    ([attempts: 3]); [attempts k] is the number of times it ran the stream
    of request [k].  ([retryAsync] is not part of the sources.) *)
Definition streamCalls (attempts : nat → nat) (st : LoopState) : nat :=
  sum_list (attempts <$> seq 0 (providerCalls st)).

End AgentLoopTrace.


Module AgentLoopTraceFacts.
Import Guard GuardSession AgentLoop AgentLoopFacts AgentLoopTrace.
Local Open Scope Z_scope.

Lemma providerRequests_app t1 t2 :
  providerRequests (t1 ++ t2) = providerRequests t1 ++ providerRequests t2.
Proof. unfold providerRequests. by rewrite omap_app. Qed.

Lemma compactionRequests_app t1 t2 :
  compactionRequests (t1 ++ t2) = compactionRequests t1 ++ compactionRequests t2.
Proof. unfold compactionRequests. by rewrite omap_app. Qed.

(** How a state grows while the loop runs: effects are only added, the
    history grows by the messages handed to [appendMessage], the counters
    of provider and compaction calls count the respective effects, and no
    terminal event is pushed. *)
Definition Grows (st st' : LoopState) : Prop :=
  ∃ added, trace st' = trace st ++ added ∧
    currentMessages st' = currentMessages st ++ appendedMessages added ∧
    providerCalls st' = (providerCalls st + length (providerRequests added))%nat ∧
    compactionCalls st' = (compactionCalls st + length (compactionRequests added))%nat ∧
    Forall (λ e, isTerminal e = false) added.

Ltac grows_here :=
  simpl; rewrite <- ?app_assoc; simpl; rewrite ?app_nil_r;
  split_and!; [reflexivity|reflexivity|lia|lia|repeat constructor].

Lemma Grows_refl st st' :
  trace st' = trace st → currentMessages st' = currentMessages st →
  providerCalls st' = providerCalls st → compactionCalls st' = compactionCalls st →
  Grows st st'.
Proof.
  intros H1 H2 H3 H4. exists []. rewrite !app_nil_r. simpl. split_and!; try done; lia.
Qed.

Lemma Grows_trans st1 st2 st3 : Grows st1 st2 → Grows st2 st3 → Grows st1 st3.
Proof.
  intros (a1 & T1 & M1 & P1 & C1 & F1) (a2 & T2 & M2 & P2 & C2 & F2). exists (a1 ++ a2).
  rewrite appendedMessages_app, providerRequests_app, compactionRequests_app, !length_app.
  split_and!.
  - by rewrite T2, T1, <- app_assoc.
  - by rewrite M2, M1, <- app_assoc.
  - lia.
  - lia.
  - by apply Forall_app.
Qed.

Lemma Grows_push ev st :
  isTerminal (Push ev) = false → Grows st (push ev st).
Proof.
  intros H. exists [Push ev]. simpl. rewrite app_nil_r.
  split_and!; try done; try lia. by apply Forall_singleton.
Qed.

Lemma Grows_append msg st : Grows st (appendAndKeep msg st).
Proof.
  exists [Append msg]. simpl. split_and!; try done; try lia. by apply Forall_singleton.
Qed.

Section Frames.
Context (est : Message → Z) (isContextOverflowError : string → bool)
        (world : World) (toolsForRun : list Tool) (maxTurns contextTokens : Z).

Lemma Grows_pollSteering st : Grows st (pollSteering world st).2.
Proof. by apply Grows_refl. Qed.

Lemma Grows_readClock st : Grows st (readClock world st).2.
Proof. by apply Grows_refl. Qed.

Lemma Grows_set_pending p st : Grows st (set_pending p st).
Proof. by apply Grows_refl. Qed.

Lemma Grows_skipRemaining remaining : ∀ toolResults st,
  Grows st (skipRemaining remaining toolResults st).2.
Proof.
  induction remaining as [|c rest IH]; intros toolResults st; simpl.
  - by apply Grows_refl.
  - eapply Grows_trans; [|apply IH]. by apply Grows_push.
Qed.

Lemma Grows_executeToolCalls toolCalls : ∀ toolResults st,
  Grows st (executeToolCalls world toolsForRun toolCalls toolResults st).2.
Proof.
  induction toolCalls as [|c rest IH]; intros toolResults st; simpl.
  - by apply Grows_refl.
  - destruct (runTool toolsForRun c (totalToolCalls st)) as [result isError]. simpl.
    case_decide.
    + match goal with |- context [skipRemaining ?r ?a ?s] =>
        pose proof (Grows_skipRemaining r a s) as G3;
        assert (Grows st s) as G2 by (eexists [Push _; Push _]; grows_here);
        destruct (skipRemaining r a s) as [res st3] end.
      simpl in *. eapply Grows_trans; [exact G2|].
      eapply Grows_trans; [exact G3|]. by apply Grows_push.
    + match goal with |- context [executeToolCalls _ _ rest ?a ?s] =>
        assert (Grows st s) as G2 by (eexists [Push _; Push _]; grows_here) end.
      eapply Grows_trans; [exact G2|apply IH].
Qed.

Lemma Grows_toolPhase toolCalls st : Grows st (toolPhase world toolsForRun toolCalls st).
Proof.
  unfold toolPhase.
  pose proof (Grows_executeToolCalls toolCalls [] st) as G1.
  destruct (executeToolCalls world toolsForRun toolCalls [] st) as [[res steer] st1].
  simpl in G1. simpl.
  set (st2 := push _ (appendAndKeep _ _)).
  assert (Grows st st2) as G2.
  { eapply Grows_trans; [exact G1|].
    eapply Grows_trans; [|by apply Grows_push].
    eapply Grows_trans; [|apply Grows_append]. by apply Grows_refl. }
  destruct steer as [steering|]; [case_decide|];
    (eapply Grows_trans; [exact G2|]); by apply Grows_refl.
Qed.

Lemma Grows_consumeStream events : ∀ content calls parts st,
  Grows st (consumeStream events content calls parts st).2.
Proof.
  induction events as [|e events IH]; intros content calls parts st; simpl.
  - by apply Grows_refl.
  - destruct e; try apply IH.
    + eapply Grows_trans; [|apply IH]. by apply Grows_push.
    + eapply Grows_trans; [|apply IH]. by apply Grows_push.
Qed.

Lemma Grows_injectPending st : Grows st (injectPending st).
Proof.
  unfold injectPending. eapply Grows_trans; [|by apply Grows_refl].
  generalize (pendingMessages st) as pending. intros pending. revert st.
  induction pending as [|m pending IH]; intros st; simpl.
  - by apply Grows_refl.
  - eapply Grows_trans; [|apply IH]. apply Grows_append.
Qed.

Lemma Grows_callProvider st :
  Grows st (callProvider est world contextTokens st).2.
Proof.
  unfold callProvider. eexists [CallProvider _]. grows_here.
Qed.

Lemma Grows_handleLlmError errorText st :
  match handleLlmError isContextOverflowError world errorText st with
  | Retry st' | Rethrow _ st' => Grows st st'
  end.
Proof.
  unfold handleLlmError.
  destruct (isContextOverflowError errorText && negb (overflowCompactionAttempted st));
    [|by apply Grows_refl].
  assert (Grows st (attemptCompaction world errorText st).2) as G.
  { unfold attemptCompaction. eexists [Push _; CallPrepareCompaction _]. grows_here. }
  destruct (attemptCompaction world errorText st) as [[summary [summaryMessage|]|e] st1];
    simpl in G; try done.
  destruct (truthy summary); [|done].
  eapply Grows_trans; [exact G|]. by apply Grows_refl.
Qed.

Lemma Grows_turnBody st :
  match turnBody est isContextOverflowError world toolsForRun contextTokens st with
  | Continue st' | Threw _ st' => Grows st st'
  end.
Proof.
  unfold turnBody.
  set (st0 := push _ (begin_turn st)).
  assert (Grows st st0) as G0.
  { eapply Grows_trans; [|by apply Grows_push]. by apply Grows_refl. }
  set (st1 := if decide (0 < length (pendingMessages st0))%nat then _ else _).
  assert (Grows st st1) as G1.
  { subst st1. case_decide; [|done]. eapply Grows_trans; [exact G0|apply Grows_injectPending]. }
  clearbody st1. clear G0 st0.
  pose proof (Grows_callProvider st1) as G2.
  destruct (callProvider est world contextTokens st1) as [[events|seen errorText] st2];
    simpl in G2.
  - pose proof (Grows_consumeStream events [] [] [] st2) as G3.
    destruct (consumeStream events [] [] [] st2) as [[[content calls] parts] st3].
    simpl in G3. simpl.
    set (st4 := appendAndKeep _ _).
    assert (Grows st st4) as G4.
    { eapply Grows_trans; [exact G1|]. eapply Grows_trans; [exact G2|].
      eapply Grows_trans; [exact G3|]. eapply Grows_trans; [|apply Grows_append].
      by apply Grows_refl. }
    clearbody st4.
    match goal with |- context [if negb (?s =? "")%string then _ else _] =>
      destruct (negb (s =? "")%string) end;
      destruct (negb (bool_decide (0 < length calls)%nat)); simpl;
      (eapply Grows_trans; [exact G4|]);
      try (eapply Grows_trans; [|apply Grows_toolPhase]);
      first [ by (eexists [Push _; Push _]; grows_here)
            | by (eexists [Push _]; grows_here)
            | by (eexists []; grows_here) ].
  - pose proof (Grows_consumeStream seen [] [] [] st2) as G3.
    destruct (consumeStream seen [] [] [] st2) as [[[content calls] parts] st3].
    simpl in G3.
    pose proof (Grows_handleLlmError errorText st3) as G4.
    destruct (handleLlmError isContextOverflowError world errorText st3) as [st4|e st4];
      (eapply Grows_trans; [exact G1|]); (eapply Grows_trans; [exact G2|]);
      (eapply Grows_trans; [exact G3|]); exact G4.
Qed.

(** Where a run ends: at a state the loop grew into, with one terminal
    event added. *)
Lemma runLoop_grows fuel : ∀ st final,
  runLoop est isContextOverflowError world toolsForRun maxTurns contextTokens fuel st = Some final →
  ∃ st', Grows st st' ∧ (final = agentEnd st' ∨ ∃ e, final = agentError e st').
Proof.
  induction fuel as [|fuel IH]; intros st final Hrun; [done|].
  simpl in Hrun.
  destruct (hasMoreToolCalls st || bool_decide (0 < length (pendingMessages st))%nat).
  - case_decide.
    { injection Hrun as <-. exists st. split; [by apply Grows_refl|by left]. }
    destruct (aborted world (abortChecks st)).
    { injection Hrun as <-. eexists. split; [|by left]. by apply Grows_refl. }
    match type of Hrun with context [turnBody _ _ _ _ _ ?s] =>
      pose proof (Grows_turnBody s) as G;
      destruct (turnBody est isContextOverflowError world toolsForRun contextTokens s)
        as [st'|e st'] end.
    + apply IH in Hrun as (st'' & G' & Hf). exists st''. split; [|done].
      eapply Grows_trans; [|exact G']. eapply Grows_trans; [|exact G]. by apply Grows_refl.
    + injection Hrun as <-. exists st'. split; [|right; by exists e].
      eapply Grows_trans; [|exact G]. by apply Grows_refl.
  - destruct (getFollowUpMessages world) as [f|].
    + simpl in Hrun. case_decide.
      * apply IH in Hrun as (st'' & G' & Hf). exists st''. split; [|done].
        eapply Grows_trans; [|exact G']. by apply Grows_refl.
      * injection Hrun as <-. eexists. split; [|by left]. by apply Grows_refl.
    + injection Hrun as <-. exists st. split; [by apply Grows_refl|by left].
Qed.


(** *** Counting turns and provider calls *)

Lemma calls_skipRemaining remaining : ∀ toolResults st,
  providerCalls (skipRemaining remaining toolResults st).2 = providerCalls st.
Proof.
  induction remaining as [|c rest IH]; intros toolResults st; simpl; [done|].
  by rewrite IH.
Qed.

Lemma calls_executeToolCalls toolCalls : ∀ toolResults st,
  providerCalls (executeToolCalls world toolsForRun toolCalls toolResults st).2 =
  providerCalls st.
Proof.
  induction toolCalls as [|c rest IH]; intros toolResults st; simpl; [done|].
  destruct (runTool toolsForRun c (totalToolCalls st)) as [result isError]. simpl.
  case_decide.
  - match goal with |- context [skipRemaining ?r ?a ?s] =>
      pose proof (calls_skipRemaining r a s) as H1;
      destruct (skipRemaining r a s) as [res st1] end.
    simpl in *. done.
  - by rewrite IH.
Qed.

Lemma calls_toolPhase toolCalls st :
  providerCalls (toolPhase world toolsForRun toolCalls st) = providerCalls st.
Proof.
  unfold toolPhase.
  pose proof (calls_executeToolCalls toolCalls [] st) as H1.
  destruct (executeToolCalls world toolsForRun toolCalls [] st) as [[res steer] st1].
  simpl in *. destruct steer as [steering|]; [case_decide|]; simpl; done.
Qed.

Lemma calls_consumeStream events : ∀ content calls parts st,
  providerCalls (consumeStream events content calls parts st).2 = providerCalls st.
Proof.
  induction events as [|e events IH]; intros content calls parts st; simpl; [done|].
  destruct e; by rewrite IH.
Qed.

Lemma calls_injectPending st : providerCalls (injectPending st) = providerCalls st.
Proof.
  unfold injectPending. simpl. generalize (pendingMessages st) as pending.
  intros pending. revert st. induction pending as [|m pending IH]; intros st; simpl; [done|].
  by rewrite IH.
Qed.

Lemma calls_handleLlmError errorText st :
  match handleLlmError isContextOverflowError world errorText st with
  | Retry st' | Rethrow _ st' => providerCalls st' = providerCalls st
  end.
Proof.
  unfold handleLlmError.
  destruct (isContextOverflowError errorText && negb (overflowCompactionAttempted st));
    [|done].
  unfold attemptCompaction.
  destruct (prepareCompaction world _ _) as [summary [summaryMessage|]|e]; simpl; try done.
  by destruct (truthy summary).
Qed.

(** One pass through the loop body calls the provider once; it counts one
    turn, unless the turn is given back for the retry after a compaction. *)
Lemma turnBody_counts st :
  match turnBody est isContextOverflowError world toolsForRun contextTokens st with
  | Continue st' =>
      providerCalls st' = S (providerCalls st) ∧
      ((turns st' = turns st + 1 ∧ compactionCalls st' = compactionCalls st) ∨
       (turns st' = turns st ∧ compactionCalls st' = S (compactionCalls st)))
  | Threw e st' =>
      providerCalls st' = S (providerCalls st) ∧ turns st' = turns st + 1 ∧
      (compactionCalls st ≤ compactionCalls st')%nat
  end.
Proof.
  pose proof (turnBody_control est isContextOverflowError world toolsForRun contextTokens st) as Hc.
  unfold turnBody in *.
  set (st1 := if decide (0 < length (pendingMessages _))%nat then _ else _) in *.
  assert (providerCalls st1 = providerCalls st ∧ turns st1 = turns st + 1) as [H1 H1t].
  { subst st1. case_decide; [rewrite calls_injectPending|]; simpl; [split; [done|]|done].
    pose proof (control_injectPending (push (ev_turn_start (turns (begin_turn st))) (begin_turn st))) as Hi.
    by injection Hi as -> _ _. }
  clearbody st1. unfold callProvider in *.
  match goal with |- context [streamFn world ?k ?ms] =>
    destruct (streamFn world k ms) as [events|seen errorText] end.
  - match goal with |- context [consumeStream events [] [] [] ?s] =>
      pose proof (calls_consumeStream events [] [] [] s) as H2;
      destruct (consumeStream events [] [] [] s) as [[[content calls] parts] st2] end.
    simpl in H2. simpl in *.
    match goal with |- context [if negb ?b then _ else _] => destruct b eqn:Hb end; simpl in *.
    + rewrite calls_toolPhase.
      match goal with |- context [negb ?x] => destruct (negb x) end; simpl in *;
        (split; [lia|]);
        (destruct Hc as [Hc|[_ Hc]]; injection Hc as Ht _ Hcc; [left|right]; done).
    + match goal with |- context [negb ?x] => destruct (negb x) end; simpl in *;
        (split; [lia|]);
        (destruct Hc as [Hc|[_ Hc]]; injection Hc as Ht _ Hcc; [left|right]; done).
  - match goal with |- context [consumeStream seen [] [] [] ?s] =>
      pose proof (calls_consumeStream seen [] [] [] s) as H2;
      pose proof (control_consumeStream seen [] [] [] s) as H3;
      destruct (consumeStream seen [] [] [] s) as [[[content calls] parts] st2] end.
    simpl in H2, H3. injection H3 as H3t _ H3c.
    pose proof (calls_handleLlmError errorText st2) as H4.
    pose proof (handleLlmError_cases isContextOverflowError world errorText st2) as H5.
    destruct (handleLlmError isContextOverflowError world errorText st2) as [st3|e st3].
    + split; [lia|]. destruct Hc as [Hc|[_ Hc]]; injection Hc as Ht _ Hcc; [left|right]; done.
    + destruct H5 as (_ & _ & Hle & _ & Ht). destruct Hc as (_ & Hle' & _).
      split_and!; [lia|lia|lia].
Qed.

(** What holds at every test of the inner loop condition. *)
Definition Bounded (st : LoopState) : Prop :=
  0 ≤ turns st ≤ Z.max 0 maxTurns ∧
  Z.of_nat (providerCalls st) ≤ turns st + Z.of_nat (compactionCalls st).

Lemma runLoop_bounded fuel : ∀ st final,
  Bounded st →
  runLoop est isContextOverflowError world toolsForRun maxTurns contextTokens fuel st = Some final →
  Bounded final.
Proof.
  induction fuel as [|fuel IH]; intros st final HB Hrun; [done|].
  simpl in Hrun. destruct HB as [Ht Hp].
  destruct (hasMoreToolCalls st || bool_decide (0 < length (pendingMessages st))%nat).
  - case_decide as Hmax.
    { injection Hrun as <-. by split. }
    destruct (aborted world (abortChecks st)).
    { injection Hrun as <-. by split. }
    match type of Hrun with context [turnBody _ _ _ _ _ ?s] =>
      pose proof (turnBody_counts s) as Hc;
      destruct (turnBody est isContextOverflowError world toolsForRun contextTokens s)
        as [st'|e st'] end; simpl in Hc.
    + apply IH in Hrun; [done|]. destruct Hc as [Hpc [[Htt Hcc]|[Htt Hcc]]]; split; lia.
    + injection Hrun as <-. destruct Hc as (Hpc & Htt & Hcc). split; simpl; lia.
  - destruct (getFollowUpMessages world) as [f|].
    + simpl in Hrun. case_decide.
      * apply IH in Hrun; [done|]. by split.
      * injection Hrun as <-. by split.
    + injection Hrun as <-. by split.
Qed.

(** X6.  Every run ends: fuel for [2 * maxTurns + 3] tests of the inner loop
    condition is always enough, whatever the provider, the tools and the
    user do.  And a run asks for a compaction at most once. *)
Theorem run_ends_and_compacts_at_most_once fuel currentMessages0 summary :
  (2 * Z.to_nat maxTurns + 3 ≤ fuel)%nat →
  ∃ final,
    runAgentLoop est isContextOverflowError world toolsForRun maxTurns contextTokens
      fuel currentMessages0 summary = Some final ∧
    (length (compactionRequests (trace final)) ≤ 1)%nat.
Proof.
  intros Hfuel.
  destruct (runAgentLoop_compacts_at_most_once est isContextOverflowError world toolsForRun
              maxTurns contextTokens fuel currentMessages0 summary Hfuel) as (final & Hrun & Hc & _).
  exists final. split; [done|].
  unfold runAgentLoop in Hrun.
  apply runLoop_grows in Hrun as (st' & (added & T & _ & _ & C & _) & Hf).
  simpl in T, C.
  destruct Hf as [->|(e & ->)]; simpl in *; rewrite T, compactionRequests_app, length_app;
    simpl; lia.
Qed.

Lemma sum_list_bounded (f : nat → nat) (bound : nat) (ks : list nat) :
  (∀ k, f k ≤ bound)%nat → (sum_list (f <$> ks) ≤ bound * length ks)%nat.
Proof.
  intros Hf. induction ks as [|k ks IH]; csimpl; [lia|].
  specialize (Hf k). rewrite Nat.mul_succ_r. lia.
Qed.


(** *** The messages a run appends *)

(** The ids of the calls that the guard and the session log can see: an
    empty id is no id. *)
Definition callIds (calls : list ToolCall) : list string :=
  omap (λ c, if truthy (Some (tc_id c)) then Some (tc_id c) else None) calls.

Definition msgs (st : LoopState) : list Message := appendedMessages (trace st).

(** A step that appends nothing and leaves the pending messages alone. *)
Definition Quiet (st st' : LoopState) : Prop :=
  msgs st' = msgs st ∧ pendingMessages st' = pendingMessages st.

Lemma Quiet_trans st1 st2 st3 : Quiet st1 st2 → Quiet st2 st3 → Quiet st1 st3.
Proof. intros [H1 H2] [H3 H4]. split; congruence. Qed.

Lemma msgs_push ev st : msgs (push ev st) = msgs st.
Proof. unfold msgs. simpl. rewrite appendedMessages_app. simpl. by rewrite app_nil_r. Qed.

Lemma msgs_appendAndKeep m st : msgs (appendAndKeep m st) = msgs st ++ [m].
Proof. unfold msgs. simpl. by rewrite appendedMessages_app. Qed.

Lemma Quiet_push ev st : Quiet st (push ev st).
Proof. split; [apply msgs_push|done]. Qed.

Lemma Quiet_skipRemaining remaining : ∀ toolResults st,
  Quiet st (skipRemaining remaining toolResults st).2.
Proof.
  induction remaining as [|c rest IH]; intros toolResults st; simpl; [done|].
  eapply Quiet_trans; [apply Quiet_push|apply IH].
Qed.

Lemma skipRemaining_ids remaining : ∀ toolResults st,
  omap toolResultIdOfBlock (skipRemaining remaining toolResults st).1 =
  omap toolResultIdOfBlock toolResults ++ callIds remaining.
Proof.
  induction remaining as [|c rest IH]; intros toolResults st; simpl.
  - by rewrite app_nil_r.
  - rewrite IH, omap_app, <- app_assoc. f_equal. unfold callIds. simpl.
    unfold toolResultIdOfBlock at 1. simpl. by destruct (negb (tc_id c =? "")%string).
Qed.

Lemma executeToolCalls_quiet toolCalls : ∀ toolResults st,
  let r := executeToolCalls world toolsForRun toolCalls toolResults st in
  Quiet st r.2 ∧
  omap toolResultIdOfBlock r.1.1 = omap toolResultIdOfBlock toolResults ++ callIds toolCalls ∧
  (∀ s, r.1.2 = Some s → ∃ n, s = getSteeringMessages world n).
Proof.
  induction toolCalls as [|c rest IH]; intros toolResults st; simpl.
  - split_and!; [done|by rewrite app_nil_r|done].
  - destruct (runTool toolsForRun c (totalToolCalls st)) as [result isError]. simpl.
    assert (omap toolResultIdOfBlock (toolResults ++ [mkToolResult (tc_id c) (Some (tc_name c)) result])
            = omap toolResultIdOfBlock toolResults ++ callIds [c]) as Hids.
    { rewrite omap_app. by f_equal. }
    case_decide.
    + match goal with |- context [skipRemaining ?r ?a ?s] =>
        pose proof (Quiet_skipRemaining r a s) as Q;
        pose proof (skipRemaining_ids r a s) as I;
        destruct (skipRemaining r a s) as [res st3] end.
      simpl in *. split_and!.
      * eapply Quiet_trans; [|apply Quiet_push]. eapply Quiet_trans; [|exact Q].
        split; unfold msgs; simpl; [|done].
        rewrite !appendedMessages_app. simpl. by rewrite !app_nil_r.
      * rewrite I, Hids, <- app_assoc. unfold callIds. simpl.
        by destruct (negb (tc_id c =? "")%string).
      * intros s [= <-]. by eexists.
    + match goal with |- context [executeToolCalls _ _ rest ?a ?s] =>
        destruct (IH a s) as (Q & I & S) end.
      split_and!.
      * eapply Quiet_trans; [|exact Q]. split; unfold msgs; simpl; [|done].
        rewrite !appendedMessages_app. simpl. by rewrite !app_nil_r.
      * rewrite I, Hids, <- app_assoc. unfold callIds. simpl.
        by destruct (negb (tc_id c =? "")%string).
      * exact S.
Qed.

Lemma consumeStream_quiet events : ∀ content calls parts st,
  Quiet st (consumeStream events content calls parts st).2.
Proof.
  induction events as [|e events IH]; intros content calls parts st; simpl; [done|].
  destruct e; try apply IH; (eapply Quiet_trans; [apply Quiet_push|apply IH]).
Qed.

Lemma consumeStream_calls_nonempty events : ∀ content c0 calls parts st,
  (consumeStream events content (c0 :: calls) parts st).1.1.2 ≠ [].
Proof.
  induction events as [|e events IH]; intros content c0 calls parts st; simpl; [done|].
  destruct e; apply IH.
Qed.

Lemma consumeStream_ids events : ∀ content calls parts st,
  call_id <$> omap toolUseOfBlock content = callIds calls →
  let r := consumeStream events content calls parts st in
  call_id <$> omap toolUseOfBlock r.1.1.1 = callIds r.1.1.2 ∧
  (calls = [] → r.1.1.2 = [] → omap toolUseOfBlock r.1.1.1 = omap toolUseOfBlock content).
Proof.
  induction events as [|e events IH]; intros content calls parts st Hinv; simpl; [done|].
  destruct e as [d| |d|c| |tc]; try (by apply IH).
  - destruct (IH (content ++ [mkText c]) calls (parts ++ [c]) st) as [I1 I2].
    { rewrite omap_app. simpl. by rewrite app_nil_r. }
    split; [done|]. intros Hc Hr. rewrite (I2 Hc Hr), omap_app. simpl. by rewrite app_nil_r.
  - destruct (IH (content ++ [mkToolUse (tc_id tc) (tc_name tc) (tc_input tc)])
                (calls ++ [tc]) parts st) as [I1 I2].
    { rewrite omap_app, fmap_app, Hinv. unfold callIds. rewrite omap_app. f_equal.
      simpl. unfold toolUseOfBlock. simpl. by destruct (negb (tc_id tc =? "")%string). }
    split; [done|]. intros -> Hr. exfalso. simpl in Hr.
    by eapply consumeStream_calls_nonempty.
Qed.

Lemma injectPending_messages st :
  msgs (injectPending st) = msgs st ++ pendingMessages st ∧
  pendingMessages (injectPending st) = [].
Proof.
  split; [|done]. unfold injectPending, msgs. simpl.
  generalize (pendingMessages st) as pending. intros pending. revert st.
  induction pending as [|m pending IH]; intros st; simpl.
  - by rewrite app_nil_r.
  - rewrite IH. simpl. rewrite appendedMessages_app. simpl. by rewrite <- app_assoc.
Qed.

Lemma handleLlmError_quiet errorText st :
  match handleLlmError isContextOverflowError world errorText st with
  | Retry st' | Rethrow _ st' => Quiet st st'
  end.
Proof.
  unfold handleLlmError.
  destruct (isContextOverflowError errorText && negb (overflowCompactionAttempted st));
    [|done].
  assert (Quiet st (attemptCompaction world errorText st).2) as Q.
  { split; unfold msgs; simpl; [|done].
    rewrite !appendedMessages_app. simpl. by rewrite !app_nil_r. }
  destruct (attemptCompaction world errorText st) as [[summary [summaryMessage|]|e] st1];
    simpl in Q; try done.
  by destruct (truthy summary).
Qed.

Lemma toolPhase_messages toolCalls st :
  ∃ r, msgs (toolPhase world toolsForRun toolCalls st) = msgs st ++ [r] ∧
       role r = user ∧ extractToolResultIds r = callIds toolCalls ∧
       ∃ n, pendingMessages (toolPhase world toolsForRun toolCalls st) =
            getSteeringMessages world n.
Proof.
  unfold toolPhase.
  destruct (executeToolCalls_quiet toolCalls [] st) as ([Qm Qp] & I & S).
  destruct (executeToolCalls world toolsForRun toolCalls [] st) as [[res steer] st1].
  simpl in Qm, Qp, I, S. simpl.
  eexists {| role := user; content := Blocks res; timestamp := _ |}.
  split_and!; [| done | exact I |].
  - destruct steer as [steering|]; [case_decide|]; unfold msgs in *; simpl;
      rewrite !appendedMessages_app; simpl; rewrite app_nil_r; by rewrite Qm.
  - destruct steer as [steering|]; [case_decide|]; simpl.
    + destruct (S steering eq_refl) as [n ->]. by exists n.
    + by eexists.
    + by eexists.
Qed.

Definition plain (m : Message) : Prop := toolUseIds m = [].

Lemma Answered_plain ms : Forall plain ms → Answered ms.
Proof. induction 1; [constructor|by apply answered_plain]. Qed.

Lemma Answered_app l1 l2 : Answered l1 → Answered l2 → Answered (l1 ++ l2).
Proof.
  intros H1 H2. induction H1 as [|m ms Hm _ IH|m r ms Hm Hr He _ IH]; simpl.
  - done.
  - by apply answered_plain.
  - by apply answered_call.
Qed.

Lemma user_plain r : role r = user → plain r.
Proof.
  intros Hr. unfold plain, toolUseIds, extractToolUsesFromAssistant. by rewrite Hr.
Qed.

Ltac close_msgs :=
  unfold msgs in *; simpl; rewrite ?appendedMessages_app; simpl; rewrite ?app_nil_r;
  repeat match goal with
         | H : appendedMessages (trace _) = _ |- _ => rewrite H; clear H
         end;
  by rewrite <- ?app_assoc.

Section Plain.
Hypothesis injections : PlainInjections world.

Lemma steering_plain n : Forall plain (getSteeringMessages world n).
Proof. apply Forall_forall. intros m Hm. by eapply (proj1 injections). Qed.

(** One pass through the loop body appends the pending messages, then
    either nothing (the provider call failed), or the assistant message, or
    the assistant message and the message with the results of its calls. *)
Lemma turnBody_messages st :
  Forall plain (pendingMessages st) →
  match turnBody est isContextOverflowError world toolsForRun contextTokens st with
  | Continue st' | Threw _ st' =>
      ∃ rest, msgs st' = msgs st ++ pendingMessages st ++ rest ∧ Answered rest ∧
              Forall plain (pendingMessages st')
  end.
Proof.
  intros Hpl. unfold turnBody.
  set (st0 := push _ (begin_turn st)).
  set (st1 := if decide (0 < length (pendingMessages st0))%nat then _ else _).
  assert (msgs st1 = msgs st ++ pendingMessages st ∧ pendingMessages st1 = []) as [M1 P1].
  { subst st1. case_decide as Hlen.
    - destruct (injectPending_messages st0) as [-> ->]. split; [|done].
      subst st0. by rewrite msgs_push.
    - subst st0. rewrite msgs_push. simpl in *.
      destruct (pendingMessages st); [|simpl in Hlen; lia]. by rewrite app_nil_r. }
  clearbody st1. clear st0.
  assert (Quiet st1 (callProvider est world contextTokens st1).2) as Q2.
  { split; unfold msgs; simpl; [|done]. rewrite appendedMessages_app. simpl. by rewrite app_nil_r. }
  destruct (callProvider est world contextTokens st1) as [[events|seen errorText] st2];
    simpl in Q2.
  - pose proof (consumeStream_quiet events [] [] [] st2) as Q3.
    destruct (consumeStream_ids events [] [] [] st2 eq_refl) as [I3 I3'].
    destruct (consumeStream events [] [] [] st2) as [[[content calls] parts] st3].
    simpl in Q3, I3, I3'. destruct Q2 as [Q2m Q2p], Q3 as [Q3m Q3p].
    set (a := {| role := assistant; content := Blocks content;
                 timestamp := Date_now world (clockReads st3) |}).
    assert (toolUseIds a = callIds calls) as Ha by exact I3.
    simpl.
    match goal with |- context [if negb (?s =? "")%string then _ else _] =>
      destruct (negb (s =? "")%string) end;
      (destruct calls as [|c0 calls]; simpl;
       [ exists [a]; split_and!;
         [ close_msgs
         | apply answered_plain; [exact Ha|constructor]
         | apply steering_plain ]
       | ]).
    + match goal with |- context [toolPhase world toolsForRun ?cs ?s] =>
        destruct (toolPhase_messages cs s) as (r & Mr & Hr & Ir & n & Pr);
        assert (msgs s = msgs st ++ pendingMessages st ++ [a]) as Ms end.
      { clear Mr. close_msgs. }
      exists [a; r]. rewrite Mr, Ms, Pr. split_and!.
      * by rewrite <- !app_assoc.
      * destruct (toolUseIds a) as [|i ids] eqn:E.
        -- apply answered_plain; [done|]. apply answered_plain; [by apply user_plain|constructor].
        -- apply answered_call; [by rewrite E|done|congruence|constructor].
      * apply steering_plain.
    + match goal with |- context [toolPhase world toolsForRun ?cs ?s] =>
        destruct (toolPhase_messages cs s) as (r & Mr & Hr & Ir & n & Pr);
        assert (msgs s = msgs st ++ pendingMessages st ++ [a]) as Ms end.
      { clear Mr. close_msgs. }
      exists [a; r]. rewrite Mr, Ms, Pr. split_and!.
      * by rewrite <- !app_assoc.
      * destruct (toolUseIds a) as [|i ids] eqn:E.
        -- apply answered_plain; [done|]. apply answered_plain; [by apply user_plain|constructor].
        -- apply answered_call; [by rewrite E|done|congruence|constructor].
      * apply steering_plain.
  - pose proof (consumeStream_quiet seen [] [] [] st2) as Q3.
    destruct (consumeStream seen [] [] [] st2) as [[[content calls] parts] st3].
    simpl in Q3.
    pose proof (handleLlmError_quiet errorText st3) as Q4.
    destruct Q2 as [Q2m Q2p], Q3 as [Q3m Q3p].
    destruct (handleLlmError isContextOverflowError world errorText st3) as [st4|e st4];
      destruct Q4 as [Q4m Q4p]; exists []; rewrite app_nil_r;
      (split_and!; [congruence|constructor|]);
      (replace (pendingMessages st4) with (@nil Message) by congruence); constructor.
Qed.

Lemma runLoop_messages fuel : ∀ st final,
  Forall plain (pendingMessages st) →
  runLoop est isContextOverflowError world toolsForRun maxTurns contextTokens fuel st = Some final →
  ∃ rest, msgs final = msgs st ++ rest ∧ Answered rest.
Proof.
  induction fuel as [|fuel IH]; intros st final Hpl Hrun; [done|].
  simpl in Hrun.
  assert (∀ s : LoopState, msgs (agentEnd s) = msgs s) as Hend.
  { intros s. unfold agentEnd. apply msgs_push. }
  destruct (hasMoreToolCalls st || bool_decide (0 < length (pendingMessages st))%nat).
  - case_decide.
    { injection Hrun as <-. exists []. rewrite Hend, app_nil_r. split; [done|constructor]. }
    destruct (aborted world (abortChecks st)).
    { injection Hrun as <-. exists []. rewrite Hend, app_nil_r. split; [done|constructor]. }
    match type of Hrun with context [turnBody _ _ _ _ _ ?s] =>
      pose proof (turnBody_messages s Hpl) as Ht;
      destruct (turnBody est isContextOverflowError world toolsForRun contextTokens s)
        as [st'|e st'] end; destruct Ht as (rest & Mt & At & Pt).
    + apply IH in Hrun as (rest' & M' & A'); [|done].
      exists (pendingMessages st ++ rest ++ rest'). split.
      * rewrite M', Mt. unfold msgs. simpl. by rewrite <- !app_assoc.
      * apply Answered_app; [by apply Answered_plain|by apply Answered_app].
    + injection Hrun as <-. exists (pendingMessages st ++ rest). split.
      * unfold agentError. rewrite msgs_push, Mt. unfold msgs. simpl. done.
      * apply Answered_app; [by apply Answered_plain|done].
  - destruct (getFollowUpMessages world) as [f|] eqn:Hf.
    + simpl in Hrun. case_decide.
      * apply IH in Hrun as (rest' & M' & A'); [by exists rest'|].
        simpl. apply Forall_forall. intros m Hm. by eapply (proj2 injections).
      * injection Hrun as <-. exists []. rewrite Hend, app_nil_r. split; [done|constructor].
    + injection Hrun as <-. exists []. rewrite Hend, app_nil_r. split; [done|constructor].
Qed.

Lemma run_appends_answered fuel currentMessages0 summary final :
  runAgentLoop est isContextOverflowError world toolsForRun maxTurns contextTokens
    fuel currentMessages0 summary = Some final →
  Answered (appendedMessages (trace final)).
Proof.
  unfold runAgentLoop. intros Hrun.
  apply runLoop_messages in Hrun as (rest & M & A).
  - unfold msgs in M. simpl in M. by rewrite M.
  - simpl. apply steering_plain.
Qed.

End Plain.

End Frames.

Lemma toolWorld_plain : PlainInjections toolWorld.
Proof.
  split.
  - intros n m. simpl. case_decide; [|by intros ?%elem_of_nil].
    intros ->%list_elem_of_singleton. reflexivity.
  - intros f n m. discriminate.
Qed.


(** X6, witness: twenty turns allowed, fuel for 43 tests. *)
Lemma run_ends_and_compacts_at_most_once_witness :
  ∃ final,
    runAgentLoop Pruning.textChars overflowBySubstring overflowInFirstTurn [] 20 200000 43
      [hiMsg] None = Some final ∧
    (length (compactionRequests (trace final)) ≤ 1)%nat.
Proof.
  apply (run_ends_and_compacts_at_most_once Pruning.textChars overflowBySubstring
           overflowInFirstTurn [] 20 200000 43 [hiMsg] None).
  vm_compute. lia.
Defined.



End AgentLoopTraceFacts.

(** ** The steering queues of an agent (src/agent.ts) *)

Module SteeringQueue.
Local Open Scope Z_scope.

(** [steeringQueues = new Map<string, string[]>()] *)
Abbreviation Queues := (gmap string (list string)).

(** [steer(sessionKey, text)] *)
Definition steer (sessionKey text : string) (q : Queues) : Queues :=
  match q !! sessionKey with
  | Some queue => <[sessionKey := queue ++ [text]]> q
  | None => <[sessionKey := [text]]> q
  end.

(** At the start of [run]:
    [if (!this.steeringQueues.has(sessionKey)) this.steeringQueues.set(sessionKey, [])] *)
Definition initQueue (sessionKey : string) (q : Queues) : Queues :=
  match q !! sessionKey with
  | Some _ => q
  | None => <[sessionKey := []]> q
  end.

(** The [getSteeringMessages] closure of a run: [queue.splice(0)] empties
    the queue in place and the texts become user messages; [now i] is the
    value of the [i]-th [Date.now()] of the call. *)
Definition getSteeringMessages (sessionKey : string) (now : nat → Z) (q : Queues)
  : list Message * Queues :=
  match q !! sessionKey with
  | None => ([], q)
  | Some queue =>
      if decide (length queue = 0%nat) then ([], q)
      else (imap (λ i text, {| role := user; content := Text text; timestamp := now i |}) queue,
            <[sessionKey := []]> q)
  end.

(** What happens to the queues of an agent, in order. *)
Inductive Op :=
| Steer (sessionKey text : string)
| StartRun (sessionKey : string)
| Poll (sessionKey : string) (now : nat → Z).

(** The queues after the operations, and what each poll delivered. *)
Fixpoint runOps (ops : list Op) (q : Queues) : list (string * list Message) * Queues :=
  match ops with
  | [] => ([], q)
  | Steer k text :: ops => runOps ops (steer k text q)
  | StartRun k :: ops => runOps ops (initQueue k q)
  | Poll k now :: ops =>
      let '(delivered, q) := getSteeringMessages k now q in
      let '(rest, q) := runOps ops q in
      ((k, delivered) :: rest, q)
  end.

(** The texts steered to a session, in call order. *)
Definition steeredTo (k : string) (ops : list Op) : list string :=
  omap (λ op, match op with
              | Steer k' text => if decide (k' = k) then Some text else None
              | _ => None
              end) ops.

(** The messages delivered to the runs of a session, in order. *)
Definition deliveredTo (k : string) (polls : list (string * list Message)) : list Message :=
  polls ≫= (λ p, if decide (p.1 = k) then p.2 else []).

Definition queued (k : string) (q : Queues) : list string := default [] (q !! k).

Definition textOf (m : Message) : option string :=
  match role m, content m with
  | user, Text s => Some s
  | _, _ => None
  end.

End SteeringQueue.

Module SteeringQueueFacts.
Import SteeringQueue.
Local Open Scope Z_scope.

Lemma queued_steer k k' text q :
  queued k (steer k' text q) = if decide (k' = k) then queued k q ++ [text] else queued k q.
Proof.
  unfold queued, steer.
  destruct (q !! k') as [queue|] eqn:E; destruct (decide (k' = k)) as [->|Hne];
    rewrite ?lookup_insert_eq, ?lookup_insert_ne, ?E by done; done.
Qed.

Lemma queued_initQueue k k' q : queued k (initQueue k' q) = queued k q.
Proof.
  unfold queued, initQueue. destruct (q !! k') as [queue|] eqn:E; [done|].
  destruct (decide (k' = k)) as [->|Hne];
    rewrite ?lookup_insert_eq, ?lookup_insert_ne, ?E by done; done.
Qed.

Lemma omap_textOf_imap (now : nat → Z) (queue : list string) :
  omap textOf (imap (λ i text, {| role := user; content := Text text; timestamp := now i |}) queue)
  = queue.
Proof.
  revert now. induction queue as [|t queue IH]; intros now; simpl; [done|].
  f_equal. apply (IH (now ∘ S)).
Qed.

Lemma getSteeringMessages_spec k k' now q :
  let r := getSteeringMessages k' now q in
  omap textOf r.1 = queued k' q ∧ Forall (λ m, is_Some (textOf m)) r.1 ∧
  queued k r.2 = if decide (k' = k) then [] else queued k q.
Proof.
  unfold getSteeringMessages, queued. destruct (q !! k') as [queue|] eqn:E; simpl.
  - case_decide as Hl; simpl.
    + destruct queue; [|done]. split_and!; [done|done|].
      destruct (decide (k' = k)) as [->|Hne]; by rewrite ?E.
    + split_and!.
      * apply omap_textOf_imap.
      * clear. generalize now. induction queue as [|t queue IH]; intros now'; simpl; [done|].
        constructor; [by eexists|]. apply (IH (now' ∘ S)).
      * destruct (decide (k' = k)) as [->|Hne];
          rewrite ?lookup_insert_eq, ?lookup_insert_ne by done; done.
  - split_and!; [done|done|]. destruct (decide (k' = k)) as [->|Hne]; by rewrite ?E.
Qed.

Lemma runOps_fifo ops : ∀ q k,
  omap textOf (deliveredTo k (runOps ops q).1) ++ queued k (runOps ops q).2 =
  queued k q ++ steeredTo k ops.
Proof.
  induction ops as [|op ops IH]; intros q k; simpl.
  - by rewrite app_nil_r.
  - destruct op as [k' text|k'|k' now]; simpl.
    + rewrite IH, queued_steer. case_decide; [by rewrite <- app_assoc|done].
    + by rewrite IH, queued_initQueue.
    + destruct (getSteeringMessages_spec k k' now q) as (Ht & _ & Hq).
      destruct (getSteeringMessages k' now q) as [delivered q1]. simpl in Ht, Hq.
      specialize (IH q1 k). destruct (runOps ops q1) as [rest q2]. simpl in *.
      unfold deliveredTo in *. simpl. rewrite omap_app, <- app_assoc, IH, Hq.
      destruct (decide (k' = k)) as [->|Hne]; simpl; [by rewrite Ht|done].
Qed.

(** X11.  Steering is first in, first out, and exactly once: whatever the order
    of [steer] calls, run starts and polls, the texts delivered to the runs
    of a session followed by the texts still queued for it are the texts
    that were queued at the beginning followed by those steered to this
    session, in call order.  Every delivered message is a user message with
    the text as its content. *)
Theorem steering_delivers_each_text_once ops q k :
  let r := runOps ops q in
  omap textOf (deliveredTo k r.1) ++ queued k r.2 = queued k q ++ steeredTo k ops ∧
  Forall (λ m, is_Some (textOf m)) (deliveredTo k r.1).
Proof.
  intros r. split; [apply runOps_fifo|].
  subst r. revert q. induction ops as [|op ops IH]; intros q; simpl; [done|].
  destruct op as [k' text|k'|k' now]; simpl; try apply IH.
  destruct (getSteeringMessages_spec k k' now q) as (_ & Hf & _).
  destruct (getSteeringMessages k' now q) as [delivered q1]. simpl in Hf.
  specialize (IH q1). destruct (runOps ops q1) as [rest q2]. simpl in *.
  unfold deliveredTo in *. simpl. apply Forall_app. split; [|done].
  case_decide; [done|constructor].
Qed.

End SteeringQueueFacts.

(** ** The session file and the session state (src/session.ts) *)

Module SessionStore.
Import Session.
Local Open Scope Z_scope.

(** The characters that [getLegacyPath] keeps: [a-zA-Z0-9_-]. *)
Definition isSafeChar (c : Ascii.ascii) : bool :=
  let n := N.to_nat (Ascii.N_of_ascii c) in
  bool_decide (48 ≤ n ≤ 57)%nat || bool_decide (65 ≤ n ≤ 90)%nat ||
  bool_decide (97 ≤ n ≤ 122)%nat || bool_decide (n = 95)%nat || bool_decide (n = 45)%nat.

(** [sessionKey.replace(/[^a-zA-Z0-9_-]/g, "_")], the file name (without
    extension) of [getLegacyPath]. *)
Fixpoint legacySafeId (sessionKey : string) : string :=
  match sessionKey with
  | EmptyString => EmptyString
  | String c s => String (if isSafeChar c then c else "_"%char) (legacySafeId s)
  end.

Fixpoint charsOf (s : string) : list Ascii.ascii :=
  match s with
  | EmptyString => []
  | String c s => c :: charsOf s
  end.

(** The calls that change a session. *)
Inductive StoreOp :=
| OpAppend (uuids : nat → string) (nowIso : string) (message : Message)
| OpAppendCompaction (uuids : nat → string) (nowIso : string)
    (summary firstKeptEntryId : string) (tokensBefore : Z).

Definition stepOp (baseDir : string) (lockAcquired : bool) (state : SessionState)
    (op : StoreOp) : SessionState * list FsOp * bool :=
  match op with
  | OpAppend uuids nowIso message => pushMessage baseDir uuids nowIso lockAcquired state message
  | OpAppendCompaction uuids nowIso summary firstKept tokens =>
      pushCompaction baseDir uuids nowIso lockAcquired state summary firstKept tokens
  end.

(** The session files: what each holds, line by line. *)
Abbreviation Files := (gmap string (list SessionFileEntry)).

(** The effect of a file-system operation on the files; [fs.appendFile]
    creates the file when it does not exist. *)
Definition applyFsOp (fs : Files) (op : FsOp) : Files :=
  match op with
  | WriteFile path lines => <[path := lines]> fs
  | AppendFile path line => <[path := default [] (fs !! path) ++ [line]]> fs
  | AcquireLock _ | ReleaseLock _ | Mkdir _ => fs
  end.

(** One call on a session whose write lock can be taken. *)
Definition storeStep (baseDir : string) (sf : SessionState * Files) (op : StoreOp)
  : SessionState * Files :=
  let '(state, ops, _) := stepOp baseDir true sf.1 op in
  (state, foldl applyFsOp sf.2 ops).

Definition runStore (baseDir : string) (ops : list StoreOp) (sf : SessionState * Files)
  : SessionState * Files :=
  foldl (storeStep baseDir) sf ops.

(** The messages that the operations append. *)
Definition appendedBy (ops : list StoreOp) : list Message :=
  omap (λ op, match op with OpAppend _ _ m => Some m | _ => None end) ops.

(** What [JSON.parse] made of one line of a session file, as
    [loadSessionFile] tells the lines apart: a header ([isSessionHeader]), an
    entry that passes the checks of the loop, a message of the old format
    ([isLegacyMessage]), or anything else.  Lines that are empty or that
    [JSON.parse] rejects are dropped by [parseJsonlLines] and do not occur. *)
Inductive RawEntry :=
| RawHeader (h : SessionHeaderEntry)
| RawSessionEntry (e : SessionEntry)
| RawLegacyMessage (m : Message)
| RawOther.

(** What reading back a written line gives. *)
Definition parsed (line : SessionFileEntry) : RawEntry :=
  match line with
  | HeaderLine h => RawHeader h
  | EntryLine e => RawSessionEntry e
  end.

(** The result of [loadSessionFile]. *)
Record Loaded := {
  loaded_header : option SessionHeaderEntry;
  loaded_entries : list SessionEntry;
  loaded_legacyMessages : option (list Message);
}.

(** [loadSessionFile], from the parsed lines of the file. *)
Definition loadSessionFile (rawEntries : list RawEntry) : Loaded :=
  match rawEntries with
  | [] => {| loaded_header := None; loaded_entries := []; loaded_legacyMessages := None |}
  | RawHeader h :: rest =>
      {| loaded_header := Some h;
         loaded_entries :=
           omap (λ r, match r with RawSessionEntry e => Some e | _ => None end) rest;
         loaded_legacyMessages := None |}
  | _ =>
      {| loaded_header := None; loaded_entries := [];
         loaded_legacyMessages :=
           Some (omap (λ r, match r with RawLegacyMessage m => Some m | _ => None end)
                   rawEntries) |}
  end.

(** One iteration of the loop of [buildStateFromLegacy]; [uuidsFor i] are the
    UUIDs that [generateId] draws for the [i]-th message and [nowIso i] is
    its [new Date().toISOString()]. *)
Definition legacyStep (uuidsFor : nat → nat → string) (nowIso : nat → string)
    (acc : nat * SessionState) (message : Message) : nat * SessionState :=
  let '(i, state) := acc in
  let entry :=
    MessageEntry (generateId (byId state) (uuidsFor i)) (leafId state) (nowIso i)
      {| role := role message; content := content message;
         timestamp := timestamp message |} in
  (S i,
   {| filePath := filePath state; header := header state;
      entries := entries state ++ [entry];
      byId := <[entry_id entry := entry]> (byId state);
      leafId := Some (entry_id entry);
      flushed := false;
      hasAssistant :=
        if decide (role message = assistant) then true else hasAssistant state |}).

(** [buildStateFromLegacy(filePath, messages)]; [header] is the header it
    creates. *)
Definition buildStateFromLegacy (filePath : string) (header : SessionHeaderEntry)
    (uuidsFor : nat → nat → string) (nowIso : nat → string) (messages : list Message)
  : SessionState :=
  (foldl (legacyStep uuidsFor nowIso) (0%nat, newSessionState filePath header) messages).2.

(** [rewriteSessionFile(state, baseDir)] with the lock: the operations, and
    whether it returned without an exception ([acquireSessionWriteLock]
    throws when [lockAcquired] is [false]). *)
Definition rewriteSessionFile (state : SessionState) (baseDir : string)
    (lockAcquired : bool) : list FsOp * bool :=
  if lockAcquired then
    ([Mkdir baseDir; AcquireLock (filePath state);
      WriteFile (filePath state) (HeaderLine (header state) :: (EntryLine <$> entries state));
      ReleaseLock (filePath state)], true)
  else ([Mkdir baseDir], false).

(** The files as [fs.readFile] and [parseJsonlLines] present them; a path
    without file makes [fs.readFile] throw. *)
Abbreviation RawFiles := (gmap string (list RawEntry)).

(** The files as they read back after a file-system operation. *)
Definition applyRawOp (fs : RawFiles) (op : FsOp) : RawFiles :=
  match op with
  | WriteFile path lines => <[path := parsed <$> lines]> fs
  | AppendFile path line => <[path := default [] (fs !! path) ++ [parsed line]]> fs
  | AcquireLock _ | ReleaseLock _ | Mkdir _ => fs
  end.

Definition readBack (fs : Files) : RawFiles :=
  (λ lines : list SessionFileEntry, parsed <$> lines) <$> fs.

Section Manager.
Variable baseDir : string.
(** [path.join] and [encodeURIComponent], library functions. *)
Variable path_join : string → string → string.
Variable encodeURIComponent : string → string.

Definition getPath (sessionKey : string) : string :=
  path_join baseDir (encodeURIComponent sessionKey +:+ ".jsonl").

Definition getLegacyPath (sessionKey : string) : string :=
  path_join baseDir (legacySafeId sessionKey +:+ ".jsonl").

(** What [createHeader] and [buildStateFromLegacy] draw from the
    environment: the header (UUID, time, working directory), the UUIDs and
    times of the migrated entries, and whether the write lock can be
    taken. *)
Variable newHeader : SessionHeaderEntry.
Variable uuidsFor : nat → nat → string.
Variable nowIso : nat → string.
Variable lockAcquired : bool.

(** One of the two [try] blocks of [ensureState]: the state it assigns, if
    any, and the file-system operations it performed.  An exception of
    [rewriteSessionFile] is swallowed after [state] was assigned, and leaves
    [flushed] unset. *)
Definition loadFrom (path : string) (fs : RawFiles) : option (SessionState * list FsOp) :=
  match fs !! path with
  | None => None
  | Some rawEntries =>
      let loaded := loadSessionFile rawEntries in
      match loaded_header loaded with
      | Some h => Some (buildStateFromEntries path h (loaded_entries loaded), [])
      | None =>
          match loaded_legacyMessages loaded with
          | Some messages =>
              let state := buildStateFromLegacy path newHeader uuidsFor nowIso messages in
              if hasAssistant state || bool_decide (0 < length (entries state))%nat then
                let '(ops, returned) := rewriteSessionFile state baseDir lockAcquired in
                Some (if returned then set_flushed state else state, ops)
              else Some (state, [])
          | None => None
          end
      end
  end.

(** [ensureState(sessionKey)]: the state, the cache afterwards, and the
    file-system operations. *)
Definition ensureState (states : gmap string SessionState) (sessionKey : string)
    (fs : RawFiles) : SessionState * gmap string SessionState * list FsOp :=
  match states !! sessionKey with
  | Some cached => (cached, states, [])
  | None =>
      let filePath := getPath sessionKey in
      let legacyPath := getLegacyPath sessionKey in
      let '(state, ops) :=
        match loadFrom filePath fs with
        | Some r => r
        | None =>
            match loadFrom legacyPath fs with
            | Some r => r
            | None => (newSessionState filePath newHeader, [])
            end
        end in
      (state, <[sessionKey := state]> states, ops)
  end.

(** [append(sessionKey, message)], the whole method: [ensureState], then the
    push and [persistEntry].  The state that [ensureState] returns is the
    object in the cache, so the cache holds the changed state afterwards,
    also when [persistEntry] throws.  [isoTime] is [new Date().toISOString()]
    and [persistLock] tells whether the write lock can be taken when
    [persistEntry] asks for it.  The value is the cache, the file-system
    operations in their order, and whether the call returned. *)
Definition append (states : gmap string SessionState) (sessionKey : string)
    (uuids : nat → string) (isoTime : string) (persistLock : bool)
    (message : Message) (fs : RawFiles)
  : gmap string SessionState * list FsOp * bool :=
  let '(state, states, ops) := ensureState states sessionKey fs in
  let '(state, ops', returned) :=
    pushMessage baseDir uuids isoTime persistLock state message in
  (<[sessionKey := state]> states, ops ++ ops', returned).

(** [appendCompaction(sessionKey, summary, firstKeptEntryId, tokensBefore)],
    the whole method. *)
Definition appendCompaction (states : gmap string SessionState) (sessionKey : string)
    (uuids : nat → string) (isoTime : string) (persistLock : bool)
    (summary firstKeptEntryId : string) (tokensBefore : Z) (fs : RawFiles)
  : gmap string SessionState * list FsOp * bool :=
  let '(state, states, ops) := ensureState states sessionKey fs in
  let '(state, ops', returned) :=
    pushCompaction baseDir uuids isoTime persistLock state
      summary firstKeptEntryId tokensBefore in
  (<[sessionKey := state]> states, ops ++ ops', returned).

(** [clear(sessionKey)]: the cache and the files afterwards. *)
Definition clear (states : gmap string SessionState) (sessionKey : string) (fs : RawFiles)
  : gmap string SessionState * RawFiles :=
  let filePath := getPath sessionKey in
  let fs := delete filePath fs in
  let legacyPath := getLegacyPath sessionKey in
  (delete sessionKey states,
   if decide (legacyPath ≠ filePath) then delete legacyPath fs else fs).

End Manager.

(** [get(sessionKey)]: the messages of a cached session, without I/O. *)
Definition get (Date_parse : string → option Z) (fuel : nat) (now : Z)
    (states : gmap string SessionState) (sessionKey : string) : option (list Message) :=
  match states !! sessionKey with
  | None => Some []
  | Some state => buildSessionContext Date_parse fuel now state
  end.

(** One entry was pushed onto the log. *)
Definition Pushed (state state' : SessionState) : Prop :=
  ∃ e, entry_parentId e = leafId state ∧
       entries state' = entries state ++ [e] ∧
       byId state' = <[entry_id e := e]> (byId state) ∧
       leafId state' = Some (entry_id e).

(** The generated entry ids are distinct and not empty. *)
Definition DistinctIds (state : SessionState) : Prop :=
  NoDup (entry_id <$> entries state) ∧ Forall (λ e, entry_id e ≠ "") (entries state).

(** Whether a call appends an assistant message. *)
Definition opIsAssistant (op : StoreOp) : bool :=
  match op with
  | OpAppend _ _ m => bool_decide (role m = assistant)
  | OpAppendCompaction _ _ _ _ _ => false
  end.

Definition opIsAppend (op : StoreOp) : bool :=
  match op with
  | OpAppend _ _ _ => true
  | OpAppendCompaction _ _ _ _ _ => false
  end.

(** Two calls, a legacy file and a directory layout used in the examples. *)
Definition joinPath (dir file : string) : string := dir +:+ "/" +:+ file.

Definition legacyUuids (i : nat) (_ : nat) : string :=
  match i with
  | 0%nat => "aaaaaaaa-1"
  | _ => "bbbbbbbb-2"
  end.

Definition askThenReply : list StoreOp :=
  [OpAppend (λ _, "aaaaaaaa-1") "t1" askMsg; OpAppend (λ _, "bbbbbbbb-2") "t2" replyMsg].

(** The lines of the file that [loadedUserOnly] was read from. *)
Definition userOnlyLines : list SessionFileEntry :=
  [HeaderLine exampleHeader; EntryLine (MessageEntry "aaaaaaaa" None "t1" askMsg)].

Definition legacyLines : list RawEntry :=
  [RawLegacyMessage askMsg; RawOther; RawLegacyMessage replyMsg].

(** A session directory whose only file is in the old format and holds one
    user message; the manager of the examples; the user writes again, then
    the assistant answers. *)
Definition legacyUserOnly : RawFiles :=
  {[ "sessions/s.jsonl" := [RawLegacyMessage askMsg] ]}.

Definition exampleAppend (states : gmap string SessionState) (uuid isoTime : string)
    (message : Message) (fs : RawFiles) : gmap string SessionState * list FsOp * bool :=
  append "sessions" joinPath (λ k, k) exampleHeader legacyUuids (λ _, "t1") true
    states "s" (λ _, uuid) isoTime true message fs.

Definition afterThanks : gmap string SessionState * list FsOp * bool :=
  exampleAppend ∅ "cccccccc-3" "t3" thanksMsg legacyUserOnly.

Definition filesAfterThanks : RawFiles := foldl applyRawOp legacyUserOnly afterThanks.1.2.

Definition afterReply : gmap string SessionState * list FsOp * bool :=
  exampleAppend afterThanks.1.1 "dddddddd-4" "t4" replyMsg filesAfterThanks.

Definition filesAfterReply : RawFiles := foldl applyRawOp filesAfterThanks afterReply.1.2.

End SessionStore.

Module SessionStoreFacts.
Import Session SessionFacts SessionStore.
Local Open Scope Z_scope.

Lemma generateIdFrom_spec byId uuids i tries : ∀ s,
  (s ≤ i < s + tries)%nat → byId !! String.substring 0 8 (uuids i) = None →
  ∃ j, (s ≤ j ≤ i)%nat ∧
       generateIdFrom byId uuids s tries = String.substring 0 8 (uuids j) ∧
       byId !! String.substring 0 8 (uuids j) = None ∧
       ∀ j', (s ≤ j' < j)%nat → is_Some (byId !! String.substring 0 8 (uuids j')).
Proof.
  induction tries as [|tries IH]; intros s Hi Hfree; [lia|]. simpl.
  destruct (decide (is_Some (byId !! String.substring 0 8 (uuids s)))) as [Htaken|Hnot].
  - assert (s ≠ i) as Hne.
    { intros ->. rewrite Hfree in Htaken. by destruct Htaken. }
    destruct (IH (S s)) as (j & Hj & E & Hf & Hbefore); [lia|done|].
    exists j. split; [lia|]. split; [done|]. split; [done|].
    intros j' Hj'. destruct (decide (j' = s)) as [->|]; [done|]. apply Hbefore. lia.
  - exists s. split; [lia|]. split; [done|]. split; [|intros j' ?; lia].
    destruct (byId !! String.substring 0 8 (uuids s)) eqn:E; [|done].
    exfalso. apply Hnot. by eexists.
Qed.

Lemma generateIdFrom_exhausted byId uuids tries : ∀ s,
  (∀ j, (s ≤ j < s + tries)%nat → is_Some (byId !! String.substring 0 8 (uuids j))) →
  generateIdFrom byId uuids s tries = uuids (s + tries)%nat.
Proof.
  induction tries as [|tries IH]; intros s Hall; simpl.
  - f_equal. lia.
  - rewrite decide_True by (apply Hall; lia).
    rewrite IH; [f_equal; lia|]. intros j Hj. apply Hall. lia.
Qed.

(** X12.  [generateId] returns the first of the hundred 8-character UUID prefixes
    it draws that is not yet an entry id; such an id is new.  When all
    hundred are taken, it returns the next UUID in full, without looking it
    up. *)
Theorem generateId_is_new byId uuids :
  (∀ i, (i < 100)%nat → byId !! String.substring 0 8 (uuids i) = None →
     byId !! generateId byId uuids = None ∧
     ∃ j, (j ≤ i)%nat ∧ generateId byId uuids = String.substring 0 8 (uuids j) ∧
          ∀ j', (j' < j)%nat → is_Some (byId !! String.substring 0 8 (uuids j'))) ∧
  ((∀ j, (j < 100)%nat → is_Some (byId !! String.substring 0 8 (uuids j))) →
   generateId byId uuids = uuids 100%nat).
Proof.
  split.
  - intros i Hi Hfree. unfold generateId.
    destruct (generateIdFrom_spec byId uuids i 100 0%nat) as (j & Hj & E & Hf & Hb);
      [lia|done|].
    rewrite E. split; [done|]. exists j. split; [lia|]. split; [done|].
    intros j' Hj'. apply Hb. lia.
  - intros Hall. unfold generateId.
    rewrite generateIdFrom_exhausted; [done|]. intros j Hj. apply Hall. lia.
Qed.

Lemma isSafeChar_underscore : isSafeChar "_" = true.
Proof. reflexivity. Qed.

(** X13.  The legacy file name of a session key has the length of the key and
    consists of letters, digits, [_] and [-] only - no path separator and no
    dot; a key that is already of this form is its own file name, so the
    renaming is idempotent. *)
Theorem legacySafeId_is_safe sessionKey :
  Forall (λ c, isSafeChar c = true) (charsOf (legacySafeId sessionKey)) ∧
  String.length (legacySafeId sessionKey) = String.length sessionKey ∧
  (Forall (λ c, isSafeChar c = true) (charsOf sessionKey) →
   legacySafeId sessionKey = sessionKey) ∧
  legacySafeId (legacySafeId sessionKey) = legacySafeId sessionKey ∧
  isSafeChar "/" = false ∧ isSafeChar "." = false ∧ isSafeChar "\" = false.
Proof.
  assert (Forall (λ c, isSafeChar c = true) (charsOf (legacySafeId sessionKey))) as Hsafe.
  { induction sessionKey as [|c s IH]; simpl; [done|].
    constructor; [|done]. by destruct (isSafeChar c) eqn:E. }
  assert (∀ s, Forall (λ c, isSafeChar c = true) (charsOf s) → legacySafeId s = s) as Hid.
  { induction s as [|c s IH]; simpl; [done|].
    intros [Hc Hs]%Forall_cons. rewrite Hc. f_equal. by apply IH. }
  split_and!; [done| | | |done|done|done].
  - clear Hsafe. induction sessionKey as [|c s IH]; simpl; [done|]. by rewrite IH.
  - by apply Hid.
  - by apply Hid.
Qed.

(** *** The state matches its entries *)

(** How [byId], [leafId] and [hasAssistant] follow from the entries. *)
Definition Indexed (state : SessionState) : Prop :=
  byId state = foldl (λ m e, <[entry_id e := e]> m) ∅ (entries state) ∧
  leafId state = foldl (λ _ e, Some (entry_id e)) None (entries state) ∧
  hasAssistant state =
    foldl (λ b e, if entryIsAssistant e then true else b) false (entries state).

Lemma Indexed_rebuild state :
  Indexed state →
  buildStateFromEntries (filePath state) (header state) (entries state) = set_flushed state.
Proof.
  intros (H1 & H2 & H3). unfold buildStateFromEntries, set_flushed.
  rewrite <- H1, <- H2, <- H3. done.
Qed.

Lemma stepOp_entries baseDir lock state op :
  ∃ e, entries (stepOp baseDir lock state op).1.1 = entries state ++ [e] ∧
       byId (stepOp baseDir lock state op).1.1 = <[entry_id e := e]> (byId state) ∧
       leafId (stepOp baseDir lock state op).1.1 = Some (entry_id e) ∧
       hasAssistant (stepOp baseDir lock state op).1.1 =
         (if entryIsAssistant e then true else hasAssistant state) ∧
       filePath (stepOp baseDir lock state op).1.1 = filePath state ∧
       header (stepOp baseDir lock state op).1.1 = header state ∧
       appendMessage e = appendedBy [op] ∧
       entry_parentId e = leafId state ∧
       entryIsAssistant e = opIsAssistant op ∧
       flushed (stepOp baseDir lock state op).1.1 =
         (if hasAssistant (stepOp baseDir lock state op).1.1 then
            (lock || flushed state) else flushed state).
Proof.
  destruct op as [uuids nowIso message|uuids nowIso summary fk tokens]; simpl.
  - unfold pushMessage.
    match goal with |- context [persistEntry ?b ?l ?s ?e] =>
      destruct (persistEntry_entries b l s e) as (E1 & E2 & E3 & E4 & E5 & E6); exists e end.
    rewrite E1, E2, E3, E4, E5, E6. simpl. split_and!; try done.
    + destruct (decide (role message = assistant)) as [Hr|Hr].
      * rewrite bool_decide_eq_true_2 by done. done.
      * rewrite bool_decide_eq_false_2 by done. done.
    + unfold persistEntry. simpl.
      destruct (decide (role message = assistant)), (hasAssistant state), lock,
        (flushed state); done.
  - unfold pushCompaction.
    match goal with |- context [persistEntry ?b ?l ?s ?e] =>
      destruct (persistEntry_entries b l s e) as (E1 & E2 & E3 & E4 & E5 & E6); exists e end.
    rewrite E1, E2, E3, E4, E5, E6. simpl. split_and!; try done.
    unfold persistEntry. simpl. destruct (hasAssistant state), lock, (flushed state); done.
Qed.

Lemma stepOp_Indexed baseDir lock state op :
  Indexed state → Indexed (stepOp baseDir lock state op).1.1.
Proof.
  intros (H1 & H2 & H3).
  destruct (stepOp_entries baseDir lock state op) as (e & E1 & E2 & E3 & E4 & _).
  unfold Indexed. rewrite E1, E2, E3, E4, !foldl_app. simpl.
  rewrite <- H1, <- H3. done.
Qed.

Lemma runStore_fst baseDir ops : ∀ sf,
  (runStore baseDir ops sf).1 =
  foldl (λ st op, (stepOp baseDir true st op).1.1) sf.1 ops.
Proof.
  unfold runStore. induction ops as [|op ops IH]; intros sf; simpl; [done|].
  rewrite IH. unfold storeStep. by destruct (stepOp baseDir true sf.1 op) as [[st o] b].
Qed.

(** *** The file matches the state *)

(** Once a session has seen an assistant message, its file holds the header
    and all entries; before that, the session has not been written. *)
Definition Synced (fs0 : Files) (sf : SessionState * Files) : Prop :=
  (∀ p, p ≠ filePath sf.1 → sf.2 !! p = fs0 !! p) ∧
  if hasAssistant sf.1 then
    flushed sf.1 = true ∧
    sf.2 !! filePath sf.1 = Some (HeaderLine (header sf.1) :: (EntryLine <$> entries sf.1))
  else flushed sf.1 = false ∧ sf.2 = fs0.

Lemma storeStep_Synced baseDir fs0 sf op :
  Synced fs0 sf → Synced fs0 (storeStep baseDir sf op).
Proof.
  destruct sf as [st fs]. intros [Hother Hs]. simpl in *. unfold storeStep. simpl.
  assert (∀ e st1,
    entries st1 = entries st ++ [e] → filePath st1 = filePath st → header st1 = header st →
    flushed st1 = flushed st →
    hasAssistant st1 = (if entryIsAssistant e then true else hasAssistant st) →
    Synced fs0 (let '(state, ops, _) := persistEntry baseDir true st1 e in
                (state, foldl applyFsOp fs ops))) as Hpersist.
  { intros e st1 E1 E2 E3 E4 E5. unfold persistEntry.
    destruct (hasAssistant st1) eqn:Ha1; simpl.
    - destruct (flushed st1) eqn:Hf1; simpl.
      + (* already flushed: one line appended *)
        rewrite E4 in Hf1. destruct (hasAssistant st) eqn:Ha.
        * destruct Hs as [_ Hfile]. split; simpl.
          -- intros p Hp. rewrite lookup_insert_ne by congruence. apply Hother. congruence.
          -- rewrite Ha1. split; [congruence|].
             rewrite E2, lookup_insert_eq, Hfile, E3, E1, fmap_app. simpl. done.
        * destruct Hs as [Hnf _]. congruence.
      + (* first flush: the whole file is written *)
        split; simpl.
        * intros p Hp. rewrite lookup_insert_ne by congruence. apply Hother. congruence.
        * rewrite Ha1. split; [done|]. by rewrite lookup_insert_eq.
    - (* no assistant yet: nothing is written *)
      destruct (entryIsAssistant e); [done|].
      rewrite <- E5 in Hs. split; simpl.
      + intros p Hp. apply Hother. congruence.
      + rewrite Ha1. destruct Hs as [Hnf ->]. split; [congruence|done]. }
  destruct op as [uuids nowIso message|uuids nowIso summary fk tokens]; simpl.
  - unfold pushMessage. apply Hpersist; try done. simpl.
    destruct (decide (role message = assistant)) as [Hr|Hr].
    + by rewrite bool_decide_eq_true_2.
    + by rewrite bool_decide_eq_false_2.
  - unfold pushCompaction. by apply Hpersist.
Qed.

Lemma runStore_Synced baseDir ops fs0 : ∀ sf,
  Synced fs0 sf →
  Synced fs0 (runStore baseDir ops sf) ∧
  filePath (runStore baseDir ops sf).1 = filePath sf.1 ∧
  header (runStore baseDir ops sf).1 = header sf.1.
Proof.
  unfold runStore. induction ops as [|op ops IH]; intros sf HS; simpl; [done|].
  destruct (IH (storeStep baseDir sf op)) as (H1 & H2 & H3); [by apply storeStep_Synced|].
  split; [done|]. rewrite H2, H3. unfold storeStep.
  destruct (stepOp_entries baseDir true sf.1 op) as (e & _ & _ & _ & _ & E5 & E6 & _).
  by destruct (stepOp baseDir true sf.1 op) as [[st o] b].
Qed.

Lemma runStore_new_Synced baseDir filePath0 header0 ops fs :
  let sf := runStore baseDir ops (newSessionState filePath0 header0, fs) in
  Synced fs sf ∧ filePath sf.1 = filePath0 ∧ header sf.1 = header0.
Proof. apply (runStore_Synced baseDir ops fs (newSessionState filePath0 header0, fs)). by split. Qed.

Lemma runStore_new_Indexed baseDir filePath0 header0 ops fs :
  Indexed (runStore baseDir ops (newSessionState filePath0 header0, fs)).1.
Proof.
  rewrite runStore_fst. simpl.
  assert (Indexed (newSessionState filePath0 header0)) as H0 by done.
  revert H0. generalize (newSessionState filePath0 header0).
  induction ops as [|op ops IH]; intros st H0; simpl; [done|].
  by apply IH, stepOp_Indexed.
Qed.

(** X14.  For a session that starts new and whose lock can always be taken: as
    long as it holds no assistant message, no file at all is written; from
    the first assistant message on, after every call, the session file holds
    exactly the header followed by all entries of the state, in order, and
    no other file was touched. *)
Theorem session_file_holds_the_state baseDir filePath0 header0 ops fs :
  let sf := runStore baseDir ops (newSessionState filePath0 header0, fs) in
  (∀ p, p ≠ filePath0 → sf.2 !! p = fs !! p) ∧
  (hasAssistant sf.1 = false → sf.2 = fs) ∧
  (hasAssistant sf.1 = true →
   sf.2 !! filePath0 = Some (HeaderLine header0 :: (EntryLine <$> entries sf.1))).
Proof.
  intros sf.
  destruct (runStore_new_Synced baseDir filePath0 header0 ops fs) as ([Ho Hs] & Hf & Hh).
  fold sf in Ho, Hs, Hf, Hh. rewrite Hf, Hh in *. split_and!.
  - done.
  - intros Ha. rewrite Ha in Hs. by destruct Hs.
  - intros Ha. rewrite Ha in Hs. by destruct Hs.
Qed.

(** *** Logs that grow by pushes *)

Lemma Pushed_entries state state' :
  rtc Pushed state state' → ∃ l, entries state' = entries state ++ l.
Proof.
  induction 1 as [st|st st1 st' (e & _ & E & _) _ [l IH]].
  - exists []. by rewrite app_nil_r.
  - exists (e :: l). by rewrite IH, E, <- app_assoc.
Qed.

Lemma Pushed_linear state state' :
  rtc Pushed state state' → LinearLog state → DistinctIds state' → LinearLog state'.
Proof.
  induction 1 as [st|st st1 st' (e & Hp & E1 & E2 & E3) Hrtc IH]; intros HL [Hnd Hne]; [done|].
  apply IH; [|done]. destruct (Pushed_entries _ _ Hrtc) as [l El].
  rewrite El, E1 in Hnd, Hne.
  eapply (push_linear st st1 e); try done.
  - apply Forall_app in Hne as [Hne _]. apply Forall_app in Hne as [_ Hne].
    by apply Forall_inv in Hne.
  - destruct (byId st !! entry_id e) eqn:Hl; [|done]. exfalso.
    assert (entry_id e ∈ entry_id <$> entries st) as Hin by (apply (ll_dom _ HL); by eexists).
    rewrite !fmap_app in Hnd. apply NoDup_app in Hnd as [Hnd _].
    apply NoDup_app in Hnd as (_ & Hdisj & _).
    apply (Hdisj _ Hin). simpl. apply elem_of_cons. by left.
Qed.

Lemma stepOp_Pushed baseDir lock state op :
  Pushed state (stepOp baseDir lock state op).1.1.
Proof.
  destruct (stepOp_entries baseDir lock state op)
    as (e & E1 & E2 & E3 & _ & _ & _ & _ & Hp & _).
  by exists e.
Qed.

Lemma foldl_stepOp_Pushed baseDir ops : ∀ state,
  rtc Pushed state (foldl (λ st op, (stepOp baseDir true st op).1.1) state ops).
Proof.
  induction ops as [|op ops IH]; intros state; simpl; [done|].
  eapply rtc_l; [apply stepOp_Pushed|apply IH].
Qed.

Lemma foldl_stepOp_messages baseDir ops : ∀ state,
  let state' := foldl (λ st op, (stepOp baseDir true st op).1.1) state ops in
  ∃ added, entries state' = entries state ++ added ∧
           messagesOf added = appendedBy ops ∧
           length added = length ops ∧
           (Forall (λ op, opIsAppend op = true) ops → lastCompaction added = None ∧
              Forall (λ e, isCompaction e = false) added) ∧
           filePath state' = filePath state ∧ header state' = header state.
Proof.
  induction ops as [|op ops IH]; intros state; simpl.
  - exists []. rewrite app_nil_r. split_and!; done.
  - destruct (stepOp_entries baseDir true state op)
      as (e & E1 & _ & _ & _ & Ef & Eh & Em & _).
    destruct (IH (stepOp baseDir true state op).1.1) as (added & Ea & Hm & Hlen & Hc & Hf & Hh).
    exists (e :: added). split_and!.
    + by rewrite Ea, E1, <- app_assoc.
    + change (messagesOf (e :: added)) with (appendMessage e ++ messagesOf added).
      rewrite Hm, Em. unfold appendedBy. simpl. by destruct op.
    + simpl. by rewrite Hlen.
    + intros [Hop Hops]%Forall_cons. destruct (Hc Hops) as [Hlc Hall].
      assert (isCompaction e = false) as He.
      { destruct op; [|done]. simpl in Em. by destruct e. }
      split; [|by constructor].
      unfold lastCompaction in *. simpl. rewrite He.
      clear -Hall. induction added as [|x added IH] using rev_ind; [done|].
      apply Forall_app in Hall as [Hall Hx]. apply Forall_inv in Hx.
      rewrite foldl_app. simpl. rewrite Hx. by apply IH.
    + congruence.
    + congruence.
Qed.

Lemma replayPath_no_compaction Date_parse now path :
  Forall (λ e, isCompaction e = false) path →
  replayPath Date_parse now path = messagesOf path.
Proof.
  intros Hall. unfold replayPath.
  assert (lastCompaction path = None) as ->; [|done].
  unfold lastCompaction. induction path as [|x path IH] using rev_ind; [done|].
  apply Forall_app in Hall as [Hall Hx]. apply Forall_inv in Hx.
  rewrite foldl_app. simpl. rewrite Hx. by apply IH.
Qed.

(** X15.  Appending messages to a new session and loading it returns the messages
    appended, in the order of the calls - whether or not anything reached
    the disk - provided the ids that were generated are distinct and not
    empty. *)
Theorem load_returns_what_was_appended Date_parse fuel now baseDir filePath0 header0 ops fs :
  let state := (runStore baseDir ops (newSessionState filePath0 header0, fs)).1 in
  DistinctIds state → Forall (λ op, opIsAppend op = true) ops → (length ops ≤ fuel)%nat →
  load Date_parse fuel now state = Some (appendedBy ops).
Proof.
  intros state Hd Happ Hfuel. subst state. rewrite runStore_fst in *. simpl in *.
  destruct (foldl_stepOp_messages baseDir ops (newSessionState filePath0 header0))
    as (added & Ea & Hm & Hlen & Hc & _). simpl in Ea.
  destruct (Hc Happ) as [_ Hall].
  rewrite load_linear.
  - rewrite Ea, replayPath_no_compaction by done. by rewrite Hm.
  - eapply Pushed_linear; [apply foldl_stepOp_Pushed|apply newSessionState_linear|done].
  - rewrite Ea. lia.
Qed.

(** X15, witness: a question and its answer. *)
Lemma load_returns_what_was_appended_witness :
  load (λ _, None) 2 0
    (runStore "sessions" askThenReply (newSessionState "sessions/s.jsonl" exampleHeader, ∅)).1
  = Some [askMsg; replyMsg].
Proof.
  apply (load_returns_what_was_appended (λ _, None) 2 0 "sessions" "sessions/s.jsonl"
           exampleHeader askThenReply ∅).
  - split; vm_compute; repeat constructor; set_solver.
  - repeat constructor.
  - simpl. lia.
Defined.

(** *** Restart *)

Lemma omap_parsed_entries (es : list SessionEntry) :
  omap (λ r, match r with RawSessionEntry e => Some e | _ => None end)
    (parsed <$> (EntryLine <$> es)) = es.
Proof. induction es as [|e es IH]; [done|]. cbn. f_equal. exact IH. Qed.

Section ManagerFacts.
Context (baseDir : string) (path_join : string → string → string)
        (encodeURIComponent : string → string)
        (newHeader : SessionHeaderEntry) (uuidsFor : nat → nat → string)
        (nowIso : nat → string) (lockAcquired : bool).

Notation getPath := (getPath baseDir path_join encodeURIComponent).
Notation getLegacyPath := (getLegacyPath baseDir path_join).
Notation loadFrom := (loadFrom baseDir newHeader uuidsFor nowIso lockAcquired).
Notation ensureState :=
  (ensureState baseDir path_join encodeURIComponent newHeader uuidsFor nowIso lockAcquired).
Notation clear := (clear baseDir path_join encodeURIComponent).

Lemma load_set_flushed Date_parse fuel now state :
  load Date_parse fuel now (set_flushed state) = load Date_parse fuel now state.
Proof. done. Qed.

(** X16.  A manager that starts anew on the files a session left behind - a
    session that began new, with the lock available - gets back the very
    state of the session (marked as flushed) without writing anything, and
    loads the same messages, once the session has seen an assistant message.
    A session that has not is on no file: the new manager starts it
    empty. *)
Theorem restart_restores_session Date_parse fuel now sessionKey header0 ops fs :
  let sf := runStore baseDir ops (newSessionState (getPath sessionKey) header0, fs) in
  let restarted := ensureState ∅ sessionKey (readBack sf.2) in
  (hasAssistant sf.1 = true →
   restarted = (set_flushed sf.1, {[sessionKey := set_flushed sf.1]}, []) ∧
   load Date_parse fuel now restarted.1.1 = load Date_parse fuel now sf.1) ∧
  (hasAssistant sf.1 = false →
   fs !! getPath sessionKey = None → fs !! getLegacyPath sessionKey = None →
   restarted = (newSessionState (getPath sessionKey) newHeader,
                {[sessionKey := newSessionState (getPath sessionKey) newHeader]}, [])).
Proof.
  intros sf restarted.
  destruct (runStore_new_Synced baseDir (getPath sessionKey) header0 ops fs)
    as ([Ho Hs] & Hf & Hh).
  pose proof (runStore_new_Indexed baseDir (getPath sessionKey) header0 ops fs) as HI.
  fold sf in Ho, Hs, Hf, Hh, HI. split.
  - intros Ha. rewrite Ha in Hs. destruct Hs as [_ Hfile].
    assert (restarted = (set_flushed sf.1, {[sessionKey := set_flushed sf.1]}, [])) as ->.
    { subst restarted. unfold SessionStore.ensureState, SessionStore.loadFrom, readBack.
      rewrite lookup_empty, lookup_fmap, <- Hf, Hfile. cbn.
      rewrite omap_parsed_entries, Indexed_rebuild by done.
      by rewrite insert_empty. }
    done.
  - intros Ha H1 H2. rewrite Ha in Hs. destruct Hs as [_ Hfs].
    subst restarted. unfold SessionStore.ensureState, SessionStore.loadFrom, readBack.
    rewrite Hfs, lookup_empty, !lookup_fmap, H1, H2. cbn. by rewrite insert_empty.
Qed.

(** *** Migration of the old format *)

Lemma Message_eta (m : Message) :
  {| role := role m; content := content m; timestamp := timestamp m |} = m.
Proof. by destruct m. Qed.

Lemma legacy_fold messages : ∀ i state,
  flushed state = false →
  let r := foldl (legacyStep uuidsFor nowIso) (i, state) messages in
  rtc Pushed state r.2 ∧
  ∃ added, entries r.2 = entries state ++ added ∧
           messagesOf added = messages ∧
           Forall (λ e, isCompaction e = false) added ∧
           length added = length messages ∧
           filePath r.2 = filePath state ∧ header r.2 = header state ∧
           flushed r.2 = false.
Proof.
  induction messages as [|m messages IH]; intros i state Hfl; simpl.
  - split; [done|]. exists []. by rewrite app_nil_r.
  - match goal with |- context [foldl _ (S i, ?st) messages] =>
      destruct (IH (S i) st eq_refl) as (Hrtc & added & E & Hm & Hc & Hlen & Hf & Hh & Hfl');
      set (st1 := st) in * end.
    split.
    + eapply rtc_l; [|exact Hrtc].
      refine (ex_intro _ (MessageEntry _ _ _ _) _). by split_and!.
    + eexists (_ :: added). split_and!.
      * rewrite E. simpl. by rewrite <- app_assoc.
      * change (messagesOf (?e :: added)) with (appendMessage e ++ messagesOf added).
        simpl. by rewrite Hm, Message_eta.
      * by constructor.
      * simpl. by rewrite Hlen.
      * done.
      * done.
      * done.
Qed.

Lemma loadFrom_legacy path fs first rest :
  fs !! path = Some (first :: rest) → (∀ h, first ≠ RawHeader h) →
  let messages :=
    omap (λ r, match r with RawLegacyMessage m => Some m | _ => None end) (first :: rest) in
  let state := buildStateFromLegacy path newHeader uuidsFor nowIso messages in
  loadFrom path fs =
    Some (if bool_decide (messages = []) then (state, [])
          else (if lockAcquired then set_flushed state else state,
                (rewriteSessionFile state baseDir lockAcquired).1)).
Proof.
  intros Hfile Hfirst messages state. unfold SessionStore.loadFrom. rewrite Hfile.
  assert (loadSessionFile (first :: rest) =
          {| loaded_header := None; loaded_entries := [];
             loaded_legacyMessages := Some messages |}) as ->.
  { destruct first; try done. by destruct (Hfirst h). }
  clearbody messages.
  cbn [loaded_header loaded_legacyMessages]. fold state.
  destruct (legacy_fold messages 0%nat (newSessionState path newHeader) eq_refl)
    as (_ & added & E & _ & _ & Hlen & _).
  fold (buildStateFromLegacy path newHeader uuidsFor nowIso messages) in E, Hlen.
  fold state in E. simpl in E.
  destruct messages as [|m ms].
  - rewrite (bool_decide_eq_true_2 (@nil Message = [])) by done. subst state. done.
  - rewrite (bool_decide_eq_false_2 (m :: ms = [])) by done.
    rewrite (bool_decide_eq_true_2 (0 < length (entries state))%nat), orb_true_r
      by (rewrite E, Hlen; simpl; lia).
    unfold rewriteSessionFile. by destruct lockAcquired.
Qed.

(** X17.  A session file without header is taken as a file of the old format:
    [ensureState] turns its messages (the lines that are no messages are
    dropped) into a chain of entries under a new header, in the order of the
    file, so that the session loads exactly these messages.  When there is
    at least one message, the file is rewritten in the new format under the
    lock; when the lock cannot be taken, the error is swallowed and the
    state stays unflushed.  The file may be the one of the current naming
    scheme, or - when that one yields no state - the one of the old naming
    scheme, which the session then keeps as its file. *)
Theorem legacy_file_is_migrated Date_parse fuel now states sessionKey fs path first rest :
  states !! sessionKey = None →
  path = getPath sessionKey ∨
    (loadFrom (getPath sessionKey) fs = None ∧ path = getLegacyPath sessionKey) →
  fs !! path = Some (first :: rest) → (∀ h, first ≠ RawHeader h) →
  let messages :=
    omap (λ r, match r with RawLegacyMessage m => Some m | _ => None end) (first :: rest) in
  let result := ensureState states sessionKey fs in
  let state := result.1.1 in
  result.1.2 = <[sessionKey := state]> states ∧
  filePath state = path ∧ header state = newHeader ∧
  messagesOf (entries state) = messages ∧
  (DistinctIds state → (length messages ≤ fuel)%nat →
   load Date_parse fuel now state = Some messages) ∧
  (messages = [] → result.2 = [] ∧ flushed state = false) ∧
  (messages ≠ [] → lockAcquired = true →
   flushed state = true ∧
   result.2 = [Mkdir baseDir; AcquireLock path;
               WriteFile path (HeaderLine newHeader :: (EntryLine <$> entries state));
               ReleaseLock path]) ∧
  (messages ≠ [] → lockAcquired = false →
   flushed state = false ∧ result.2 = [Mkdir baseDir]).
Proof.
  intros Hcache Hpath Hfile Hfirst messages result state.
  pose proof (loadFrom_legacy path fs first rest Hfile Hfirst) as Hload.
  fold messages in Hload. cbv zeta in Hload.
  set (legacy := buildStateFromLegacy path newHeader uuidsFor nowIso messages) in *.
  destruct (legacy_fold messages 0%nat (newSessionState path newHeader) eq_refl)
    as (Hrtc & added & E & Hm & Hc & Hlen & Hf & Hh & Hfl).
  fold (buildStateFromLegacy path newHeader uuidsFor nowIso messages) in Hrtc, E, Hf, Hh, Hfl.
  fold legacy in Hrtc, E, Hf, Hh, Hfl. simpl in E, Hf, Hh.
  assert (result =
          (let r := if bool_decide (messages = []) then (legacy, [])
                    else (if lockAcquired then set_flushed legacy else legacy,
                          (rewriteSessionFile legacy baseDir lockAcquired).1) in
           (r.1, <[sessionKey := r.1]> states, r.2))) as Hres.
  { subst result. unfold SessionStore.ensureState. rewrite Hcache.
    destruct Hpath as [->|[Hnone ->]].
    - rewrite Hload. by destruct (bool_decide (messages = [])).
    - rewrite Hnone, Hload. by destruct (bool_decide (messages = [])). }
  assert (entries state = entries legacy ∧ byId state = byId legacy ∧
          leafId state = leafId legacy ∧ filePath state = path ∧
          header state = newHeader) as (Ee & Eb & El & Ef & Eh).
  { subst state. rewrite Hres. simpl.
    destruct (bool_decide (messages = [])), lockAcquired; simpl; by rewrite ?Hf, ?Hh. }
  split_and!.
  - subst state. rewrite Hres. done.
  - done.
  - done.
  - by rewrite Ee, E, Hm.
  - intros [Hnd Hne] Hfuel.
    assert (LinearLog legacy) as HL.
    { eapply Pushed_linear; [exact Hrtc|apply newSessionState_linear|].
      split; by rewrite <- Ee. }
    assert (load Date_parse fuel now state = load Date_parse fuel now legacy) as ->.
    { unfold load, buildSessionContext. by rewrite Ee, Eb, El. }
    rewrite load_linear; [|done|rewrite E, Hlen; done].
    rewrite E, replayPath_no_compaction by done. by rewrite Hm.
  - intros Hnil. subst state. rewrite Hres.
    rewrite bool_decide_eq_true_2 by done. done.
  - intros Hnn Hlock. subst state. rewrite Hres.
    rewrite bool_decide_eq_false_2 by done. rewrite Hlock. simpl.
    by rewrite Hf, Hh.
  - intros Hnn Hlock. subst state. rewrite Hres.
    rewrite bool_decide_eq_false_2 by done. rewrite Hlock. simpl. done.
Qed.

(** *** Clearing *)

(** X18.  After [clear], the session is gone from the cache and from both of its
    files: [ensureState] starts it as a new, empty session without file
    operation, and [get] then returns no message.  The other cached sessions
    and every file except the two of the session are untouched. *)
Theorem cleared_session_starts_empty Date_parse fuel now states sessionKey fs :
  let cleared := clear states sessionKey fs in
  let started := ensureState cleared.1 sessionKey cleared.2 in
  started.1.1 = newSessionState (getPath sessionKey) newHeader ∧
  started.2 = [] ∧
  get Date_parse fuel now started.1.2 sessionKey = Some [] ∧
  (∀ k, k ≠ sessionKey → cleared.1 !! k = states !! k) ∧
  (∀ p, p ≠ getPath sessionKey → p ≠ getLegacyPath sessionKey → cleared.2 !! p = fs !! p).
Proof.
  intros cleared started.
  assert (cleared.1 !! sessionKey = None) as Hc by apply lookup_delete_eq.
  assert (cleared.2 !! getPath sessionKey = None ∧
          cleared.2 !! getLegacyPath sessionKey = None) as [H1 H2].
  { subst cleared. unfold SessionStore.clear. simpl. case_decide as Hne.
    - split.
      + rewrite lookup_delete_ne by done. apply lookup_delete_eq.
      + apply lookup_delete_eq.
    - rewrite Hne. split; apply lookup_delete_eq. }
  assert (started = (newSessionState (getPath sessionKey) newHeader,
                     <[sessionKey := newSessionState (getPath sessionKey) newHeader]> cleared.1,
                     [])) as ->.
  { subst started. unfold SessionStore.ensureState, SessionStore.loadFrom.
    by rewrite Hc, H1, H2. }
  split_and!; try done.
  - unfold get. simpl. by rewrite lookup_insert_eq.
  - intros k Hk. subst cleared. simpl. by rewrite lookup_delete_ne.
  - intros p Hp1 Hp2. subst cleared. unfold SessionStore.clear. simpl.
    case_decide; by rewrite ?lookup_delete_ne.
Qed.

End ManagerFacts.

(** X17, witness: a legacy file with two messages and a line that is none. *)
Lemma legacy_file_is_migrated_witness :
  messagesOf
    (entries (ensureState "sessions" joinPath (λ k, k) exampleHeader legacyUuids
                (λ _, "t") true ∅ "s" {[ "sessions/s.jsonl" := legacyLines ]}).1.1)
  = [askMsg; replyMsg].
Proof.
  pose proof (legacy_file_is_migrated "sessions" joinPath (λ k, k) exampleHeader legacyUuids
                (λ _, "t") true (λ _, None) 2 0 ∅ "s"
                {[ "sessions/s.jsonl" := legacyLines ]} "sessions/s.jsonl"
                (RawLegacyMessage askMsg) [RawOther; RawLegacyMessage replyMsg]) as H.
  destruct H as (_ & _ & _ & Hm & _ & _ & Hw & _).
  - apply lookup_empty.
  - left. reflexivity.
  - reflexivity.
  - intros h. discriminate.
  - exact Hm.
Defined.


(** *** Entries deferred on a flushed session *)

Lemma deferred_calls baseDir ops : ∀ state fs,
  hasAssistant state = false →
  Forall (λ op, opIsAssistant op = false) ops →
  let sf := runStore baseDir ops (state, fs) in
  sf.2 = fs ∧ hasAssistant sf.1 = false ∧ flushed sf.1 = flushed state ∧
  filePath sf.1 = filePath state ∧ header sf.1 = header state ∧
  ∃ deferred, entries sf.1 = entries state ++ deferred ∧
              length deferred = length ops ∧
              leafId sf.1 =
                (if deferred is [] then leafId state else entry_id <$> last deferred).
Proof.
  unfold runStore.
  induction ops as [|op ops IH]; intros state fs Ha Hops; simpl.
  - split_and!; try done. exists []. by rewrite app_nil_r.
  - apply Forall_cons in Hops as [Hop Hops].
    assert (storeStep baseDir (state, fs) op = ((stepOp baseDir true state op).1.1, fs) ∧
            hasAssistant (stepOp baseDir true state op).1.1 = false) as [Hstep Ha'].
    { unfold storeStep. simpl.
      destruct op as [uuids nowIso m|uuids nowIso summary fk tokens]; simpl in *.
      - apply bool_decide_eq_false in Hop.
        unfold pushMessage, persistEntry. simpl. rewrite decide_False by done.
        rewrite Ha. simpl. done.
      - unfold pushCompaction, persistEntry. simpl. rewrite Ha. simpl. done. }
    rewrite Hstep.
    destruct (stepOp_entries baseDir true state op)
      as (e & E1 & _ & E3 & _ & Ef & Eh & _ & _ & _ & Efl).
    rewrite Ha' in Efl.
    destruct (IH _ fs Ha' Hops) as (H1 & H2 & H3 & H4 & H5 & deferred & E & Hlen & Hleaf).
    split_and!; try congruence.
    exists (e :: deferred). split_and!.
    + by rewrite E, E1, <- app_assoc.
    + simpl. by rewrite Hlen.
    + rewrite Hleaf, E3. by destruct deferred.
Qed.

Lemma foldl_insert_notin (es : list SessionEntry) : ∀ (m : gmap string SessionEntry) k,
  k ∉ (entry_id <$> es) →
  foldl (λ m e, <[entry_id e := e]> m) m es !! k = m !! k.
Proof.
  induction es as [|e es IH]; intros m k Hk; simpl; [done|].
  rewrite fmap_cons, not_elem_of_cons in Hk. destruct Hk as [Hne Hk].
  rewrite IH by done. by rewrite lookup_insert_ne.
Qed.

(** X19.  A session whose state is marked as flushed but holds no assistant
    message - one read from a file without assistant message, or migrated
    from such a legacy file - does not write what is appended before the
    first assistant message; the assistant message is then appended to the
    file as a single line.  The entries in between stay in memory only: the
    file lacks them, the parent of the new line is not in the file, and a
    state built from the file loads the assistant message alone. *)
Theorem flushed_session_loses_deferred_entries Date_parse fuel now baseDir state0 fs lines
    ops uuids nowIso message :
  flushed state0 = true → hasAssistant state0 = false →
  fs !! filePath state0 = Some lines →
  Forall (λ op, opIsAssistant op = false) ops → ops ≠ [] → role message = assistant →
  let sf := runStore baseDir (ops ++ [OpAppend uuids nowIso message]) (state0, fs) in
  ∃ deferred e,
    length deferred = length ops ∧
    entries sf.1 = entries state0 ++ deferred ++ [e] ∧
    sf.2 = <[filePath state0 := lines ++ [EntryLine e]]> fs ∧
    entry_parentId e = entry_id <$> last deferred ∧
    (DistinctIds sf.1 → (0 < fuel)%nat →
     load Date_parse fuel now
       (buildStateFromEntries (filePath state0) (header state0) (entries state0 ++ [e]))
     = Some [message]).
Proof.
  intros Hfl Ha Hfile Hops Hne Hrole sf.
  destruct (deferred_calls baseDir ops state0 fs Ha Hops)
    as (H1 & H2 & H3 & H4 & H5 & deferred & E & Hlen & Hleaf).
  subst sf. unfold runStore in *. rewrite foldl_app. simpl.
  destruct (foldl (storeStep baseDir) (state0, fs) ops) as [st fs'] eqn:Efold.
  simpl in *. subst fs'.
  assert (deferred ≠ []) as Hdne.
  { intros ->. destruct ops; [done|]. simpl in Hlen. lia. }
  set (e := MessageEntry (generateId (byId st) uuids) (leafId st) nowIso message).
  exists deferred, e.
  assert (storeStep baseDir (st, fs) (OpAppend uuids nowIso message) =
          ({| filePath := filePath st; header := header st; entries := entries st ++ [e];
              byId := <[entry_id e := e]> (byId st); leafId := Some (entry_id e);
              flushed := flushed st; hasAssistant := true |},
           <[filePath st := lines ++ [EntryLine e]]> fs)) as ->.
  { unfold storeStep. simpl. unfold pushMessage, persistEntry. simpl.
    rewrite decide_True by done. rewrite H3, Hfl. simpl. by rewrite H4, Hfile. }
  simpl. split_and!.
  - done.
  - by rewrite E, <- app_assoc.
  - by rewrite H4.
  - rewrite Hleaf. by destruct deferred.
  - intros [Hnd Hnem] Hfuel. simpl in Hnd, Hnem.
    rewrite E, <- app_assoc in Hnd, Hnem.
    destruct (last deferred) as [d|] eqn:Hlast; [|by apply last_None in Hlast].
    assert (leafId st = Some (entry_id d)) as Hp.
    { destruct deferred; [done|]. exact Hleaf. }
    assert (d ∈ deferred) as Hd.
    { apply last_Some in Hlast as [l' ->]. rewrite elem_of_app, elem_of_cons. tauto. }
    assert (entry_id d ∉ (entry_id <$> entries state0) ∧ entry_id d ≠ entry_id e ∧
            entry_id d ≠ "" ∧ entry_id e ≠ "") as (Hd1 & Hd2 & Hd3 & Hd4).
    { rewrite !fmap_app in Hnd. apply NoDup_app in Hnd as (_ & Hdisj & Hnd').
      apply NoDup_app in Hnd' as (_ & Hdisj' & _).
      assert (entry_id d ∈ entry_id <$> deferred) as Hdin by (by apply list_elem_of_fmap_2).
      split_and!.
      - intros Hin. apply (Hdisj _ Hin). rewrite elem_of_app. by left.
      - intros Heq. apply (Hdisj' _ Hdin). rewrite Heq.
        apply list_elem_of_fmap_2, elem_of_cons. by left.
      - apply Forall_app in Hnem as [_ Hnem]. apply Forall_app in Hnem as [Hnem _].
        by eapply Forall_forall in Hnem.
      - apply Forall_app in Hnem as [_ Hnem]. apply Forall_app in Hnem as [_ Hnem].
        by apply Forall_inv in Hnem. }
    unfold load, buildSessionContext, buildStateFromEntries. simpl.
    rewrite decide_False by (rewrite length_app; simpl; lia).
    rewrite !foldl_app. simpl.
    destruct (String.eqb_spec (generateId (byId st) uuids) ""); [done|]. simpl.
    rewrite lookup_insert_eq. simpl.
    destruct fuel as [|fuel]; [lia|]. simpl.
    rewrite Hp. simpl.
    destruct (String.eqb_spec (entry_id d) ""); [done|]. simpl.
    rewrite lookup_insert_ne by done.
    rewrite foldl_insert_notin, lookup_empty by done.
    by destruct fuel.
Qed.

(** X19, witness: the session file with one user message; a second user message
    is appended, then the reply. *)
Lemma flushed_session_loses_deferred_entries_witness :
  ∃ (deferred : list SessionEntry) e,
    length deferred = 1%nat ∧
    (runStore "sessions"
       [OpAppend (λ _, "cccccccc-3") "t3" thanksMsg; OpAppend (λ _, "bbbbbbbb-2") "t2" replyMsg]
       (loadedUserOnly, {[ "sessions/s.jsonl" := userOnlyLines ]})).2
    = <[ "sessions/s.jsonl" := userOnlyLines ++ [EntryLine e] ]>
        {[ "sessions/s.jsonl" := userOnlyLines ]}.
Proof.
  destruct (flushed_session_loses_deferred_entries (λ _, None) 1 0 "sessions" loadedUserOnly
              {[ "sessions/s.jsonl" := userOnlyLines ]} userOnlyLines
              [OpAppend (λ _, "cccccccc-3") "t3" thanksMsg] (λ _, "bbbbbbbb-2") "t2" replyMsg)
    as (deferred & e & Hlen & _ & Hfs & _).
  - reflexivity.
  - reflexivity.
  - reflexivity.
  - repeat constructor.
  - discriminate.
  - reflexivity.
  - exists deferred, e. split; [exact Hlen|exact Hfs].
Defined.

(** C10, the code at the failing input.  A session whose file is in the old
    format and holds one user message; a user message is appended, then an
    assistant message.  The first call writes the file although the state
    holds no assistant message (the migration in [ensureState]), and keeps
    the new user entry in memory.  The second call, the first persist after
    an assistant message appeared, does not rewrite the file: it appends the
    one line of the assistant message.  The user entry in between never
    reaches the file; the line of the assistant message names it as parent,
    so a manager that starts on the file loads the assistant message
    alone, where the session in memory holds all three messages. *)
Theorem deferred_entry_never_reaches_the_file :
  let path := "sessions/s.jsonl" in
  let eAsk := MessageEntry "aaaaaaaa" None "t1" askMsg in
  let eThanks := MessageEntry "cccccccc" (Some "aaaaaaaa") "t3" thanksMsg in
  let eReply := MessageEntry "dddddddd" (Some "cccccccc") "t4" replyMsg in
  afterThanks.1.2 =
    [Mkdir "sessions"; AcquireLock path;
     WriteFile path [HeaderLine exampleHeader; EntryLine eAsk]; ReleaseLock path] ∧
  (entries <$> afterThanks.1.1 !! "s") = Some [eAsk; eThanks] ∧
  (hasAssistant <$> afterThanks.1.1 !! "s") = Some false ∧
  (flushed <$> afterThanks.1.1 !! "s") = Some true ∧
  afterReply.1.2 =
    [AcquireLock path; Mkdir "sessions"; AppendFile path (EntryLine eReply);
     ReleaseLock path] ∧
  afterReply.2 = true ∧
  filesAfterReply !! path =
    Some [RawHeader exampleHeader; RawSessionEntry eAsk; RawSessionEntry eReply] ∧
  get (λ _, None) 10 0 afterReply.1.1 "s" = Some [askMsg; thanksMsg; replyMsg] ∧
  load (λ _, None) 10 0
    (ensureState "sessions" joinPath (λ k, k) exampleHeader legacyUuids (λ _, "t1") true
       ∅ "s" filesAfterReply).1.1 = Some [replyMsg].
Proof. vm_compute. repeat split. Qed.

End SessionStoreFacts.

(** ** The write lock and the writes of the session manager *)

Module WriteLockUse.
Import Session SessionStore WriteLock.

(** [fs.writeFile] and [fs.appendFile]: the operations that write a session
    file. *)
Definition isWrite (op : FsOp) : bool :=
  match op with
  | WriteFile _ _ | AppendFile _ _ => true
  | AcquireLock _ | ReleaseLock _ | Mkdir _ => false
  end.

(** The session files whose lock is held after some operations, [held]
    being those held before. *)
Fixpoint heldAfter (held : list string) (ops : list FsOp) : list string :=
  match ops with
  | [] => held
  | AcquireLock f :: ops => heldAfter (f :: held) ops
  | ReleaseLock f :: ops => heldAfter (filter (λ h, h ≠ f) held) ops
  | _ :: ops => heldAfter held ops
  end.

(** Whether every write among some operations goes to a file whose lock is
    held at that moment: after the [AcquireLock] of the file and before its
    [ReleaseLock]. *)
Fixpoint writesLocked (held : list string) (ops : list FsOp) : bool :=
  match ops with
  | [] => true
  | AcquireLock f :: ops => writesLocked (f :: held) ops
  | ReleaseLock f :: ops => writesLocked (filter (λ h, h ≠ f) held) ops
  | Mkdir _ :: ops => writesLocked held ops
  | WriteFile path _ :: ops | AppendFile path _ :: ops =>
      bool_decide (path ∈ held) && writesLocked held ops
  end.

End WriteLockUse.

Module WriteLockUseFacts.
Import Session SessionStore WriteLock WriteLockFacts WriteLockUse.
Local Open Scope Z_scope.

Lemma writesLocked_app held ops1 ops2 :
  writesLocked held (ops1 ++ ops2) =
  writesLocked held ops1 && writesLocked (heldAfter held ops1) ops2.
Proof.
  revert held. induction ops1 as [|op ops1 IH]; intros held; [done|].
  destruct op; simpl; rewrite ?IH; try done; by rewrite andb_assoc.
Qed.

Lemma heldAfter_app held ops1 ops2 :
  heldAfter held (ops1 ++ ops2) = heldAfter (heldAfter held ops1) ops2.
Proof.
  revert held. induction ops1 as [|op ops1 IH]; intros held; [done|].
  destruct op; simpl; by rewrite ?IH.
Qed.

(** Operations that write under the lock and give every lock back; without
    a lock they do not write. *)
Definition Disciplined (locks : bool) (ops : list FsOp) : Prop :=
  writesLocked [] ops = true ∧ heldAfter [] ops = [] ∧
  (locks = false → Forall (λ op, isWrite op = false) ops).

Lemma Disciplined_nil locks : Disciplined locks [].
Proof. done. Qed.

Lemma Disciplined_app locks ops1 ops2 :
  Disciplined locks ops1 → Disciplined locks ops2 → Disciplined locks (ops1 ++ ops2).
Proof.
  intros (W1 & H1 & N1) (W2 & H2 & N2). split_and!.
  - by rewrite writesLocked_app, W1, H1, W2.
  - by rewrite heldAfter_app, H1, H2.
  - intros Hl. apply Forall_app. split; [by apply N1|by apply N2].
Qed.

Lemma Disciplined_weaken (l1 l2 : bool) ops :
  (l2 = false → l1 = false) → Disciplined l1 ops → Disciplined l2 ops.
Proof. intros Hl (W & H & N). split_and!; [done|done|]. intros E. apply N. by apply Hl. Qed.

Lemma release_own (f : string) : filter (λ h, h ≠ f) [f] = [].
Proof. rewrite filter_cons, decide_False by (by intros []). done. Qed.

Lemma own_held (f : string) : bool_decide (f ∈ [f]) = true.
Proof. apply bool_decide_eq_true_2, elem_of_cons. by left. Qed.

Lemma persistEntry_disciplined baseDir lock state entry :
  Disciplined lock (persistEntry baseDir lock state entry).1.2.
Proof.
  unfold persistEntry.
  destruct (hasAssistant state); cbn [negb fst snd]; [|done].
  destruct lock; cbn [negb fst snd]; [|done].
  destruct (flushed state); cbn [negb fst snd app rewriteSessionFile_skipLock].
  - split_and!; [|cbn [heldAfter]; apply release_own|done].
    cbn [writesLocked]. by rewrite own_held.
  - split_and!; [|cbn [heldAfter]; apply release_own|done].
    cbn [writesLocked]. by rewrite own_held.
Qed.

Lemma rewriteSessionFile_disciplined state baseDir lock :
  Disciplined lock (rewriteSessionFile state baseDir lock).1.
Proof.
  unfold rewriteSessionFile. destruct lock; cbn [fst snd].
  - split_and!; [|cbn [heldAfter]; apply release_own|done].
    cbn [writesLocked]. by rewrite own_held.
  - split_and!; try done. intros _. by repeat constructor.
Qed.

Section Manager.
Context (baseDir : string) (path_join : string → string → string)
        (encodeURIComponent : string → string)
        (newHeader : SessionHeaderEntry) (uuidsFor : nat → nat → string)
        (nowIso : nat → string).

Lemma loadFrom_disciplined lock path fs state ops :
  loadFrom baseDir newHeader uuidsFor nowIso lock path fs = Some (state, ops) →
  Disciplined lock ops.
Proof.
  unfold loadFrom. destruct (fs !! path) as [raw|]; [|done].
  destruct (loaded_header (loadSessionFile raw)).
  { intros [= _ <-]. done. }
  destruct (loaded_legacyMessages (loadSessionFile raw)) as [messages|]; [|done].
  set (legacy := buildStateFromLegacy path newHeader uuidsFor nowIso messages).
  destruct (hasAssistant legacy || bool_decide (0 < length (entries legacy))%nat).
  - pose proof (rewriteSessionFile_disciplined legacy baseDir lock) as HD.
    destruct (rewriteSessionFile legacy baseDir lock) as [ops' returned].
    intros [= _ <-]. exact HD.
  - intros [= _ <-]. done.
Qed.

Lemma ensureState_disciplined lock states sessionKey fs :
  Disciplined lock
    (ensureState baseDir path_join encodeURIComponent newHeader uuidsFor nowIso lock
       states sessionKey fs).2.
Proof.
  unfold ensureState. destruct (states !! sessionKey); [done|].
  destruct (loadFrom _ _ _ _ _ (getPath _ _ _ _) fs) as [[state ops]|] eqn:E1.
  { simpl. by eapply loadFrom_disciplined. }
  destruct (loadFrom _ _ _ _ _ (getLegacyPath _ _ _) fs) as [[state ops]|] eqn:E2.
  { simpl. by eapply loadFrom_disciplined. }
  done.
Qed.

Lemma append_disciplined migrationLock persistLock states sessionKey uuids isoTime message fs :
  Disciplined (migrationLock || persistLock)
    (append baseDir path_join encodeURIComponent newHeader uuidsFor nowIso migrationLock
       states sessionKey uuids isoTime persistLock message fs).1.2.
Proof.
  unfold append.
  pose proof (ensureState_disciplined migrationLock states sessionKey fs) as H1.
  destruct (ensureState _ _ _ _ _ _ _ _ _ _) as [[state states'] ops].
  pose proof (persistEntry_disciplined baseDir persistLock) as H2.
  unfold pushMessage.
  match goal with |- context [persistEntry ?b ?l ?s ?e] =>
    specialize (H2 s e); destruct (persistEntry b l s e) as [[state' ops'] returned] end.
  simpl in *. apply Disciplined_app.
  - eapply Disciplined_weaken; [|exact H1]. by intros [-> _]%orb_false_iff.
  - eapply Disciplined_weaken; [|exact H2]. by intros [_ ->]%orb_false_iff.
Qed.

Lemma appendCompaction_disciplined migrationLock persistLock states sessionKey uuids isoTime
    summary firstKept tokens fs :
  Disciplined (migrationLock || persistLock)
    (appendCompaction baseDir path_join encodeURIComponent newHeader uuidsFor nowIso
       migrationLock states sessionKey uuids isoTime persistLock summary firstKept tokens fs).1.2.
Proof.
  unfold appendCompaction.
  pose proof (ensureState_disciplined migrationLock states sessionKey fs) as H1.
  destruct (ensureState _ _ _ _ _ _ _ _ _ _) as [[state states'] ops].
  pose proof (persistEntry_disciplined baseDir persistLock) as H2.
  unfold pushCompaction.
  match goal with |- context [persistEntry ?b ?l ?s ?e] =>
    specialize (H2 s e); destruct (persistEntry b l s e) as [[state' ops'] returned] end.
  simpl in *. apply Disciplined_app.
  - eapply Disciplined_weaken; [|exact H1]. by intros [-> _]%orb_false_iff.
  - eapply Disciplined_weaken; [|exact H2]. by intros [_ ->]%orb_false_iff.
Qed.

End Manager.

Section Protocol.
Context (processExists : Z → bool) (Date_parse : string → option Z)
        (toISOString : Z → string) (ownPid : Z) (path_resolve : string → string)
        (others : Z → gmap string (option LockPayload) → gmap string (option LockPayload))
        (baseDir : string) (path_join : string → string → string)
        (encodeURIComponent : string → string)
        (newHeader : SessionHeaderEntry) (uuidsFor : nat → nat → string)
        (nowIso : nat → string).

Notation acquireSessionWriteLock :=
  (acquireSessionWriteLock processExists Date_parse toISOString ownPid path_resolve others).
Notation tryOnce := (tryOnce processExists Date_parse toISOString ownPid others).
Notation append := (append baseDir path_join encodeURIComponent newHeader uuidsFor nowIso).
Notation appendCompaction :=
  (appendCompaction baseDir path_join encodeURIComponent newHeader uuidsFor nowIso).


End Protocol.



End WriteLockUseFacts.

(** ** The write lock is respected *)

Module WriteLockHeldFacts.
Import WriteLock WriteLockFacts.
Local Open Scope Z_scope.

Section Held.
Context (processExists : Z → bool) (Date_parse : string → option Z)
        (toISOString : Z → string) (ownPid : Z) (path_resolve : string → string)
        (others : Z → gmap string (option LockPayload) → gmap string (option LockPayload))
        (timeoutMs staleMs : Z).

Notation acquireLoop :=
  (acquireLoop processExists Date_parse toISOString ownPid others timeoutMs staleMs).

Lemma backoffDelay_range attempt : 0 ≤ attempt → 0 ≤ backoffDelay attempt ≤ 1000.
Proof. unfold backoffDelay. lia. Qed.

Lemma held_loop (owner : LockPayload) (created : Z) lock fuel :
  ∀ startedAt attempt passes w,
    createdAt owner ≠ "" → Date_parse (createdAt owner) = Some created →
    pid owner ≠ 0 → isAlive processExists (pid owner) = true →
    (∀ t files, files !! lock = Some (Some owner) → others t files !! lock = Some (Some owner)) →
    lockFiles w !! lock = Some (Some owner) →
    0 ≤ attempt → startedAt ≤ clock w →
    startedAt + timeoutMs - created ≤ staleMs →
    (clock w - startedAt < timeoutMs + 1000) →
    match acquireLoop fuel lock startedAt attempt passes w with
    | Acquired _ _ => False
    | TimedOut w' _ =>
        lockFiles w' !! lock = Some (Some owner) ∧
        timeoutMs ≤ clock w' - startedAt < timeoutMs + 1000
    | OutOfFuel => True
    end.
Proof.
  induction fuel as [|fuel IH];
    intros startedAt attempt passes w Hne Hc Hpid Halive Hothers Hlock Ha Hstart Hfresh Hw;
    [done|].
  cbn [WriteLock.acquireLoop]. case_decide as Ht; [|split; [done|lia]].
  unfold tryOnce. rewrite Hlock.
  assert (isStale Date_parse staleMs (clock w) (Some owner) = false) as ->.
  { unfold isStale. simpl. destruct (String.eqb_spec (createdAt owner) ""); [done|].
    simpl. rewrite Hc. apply bool_decide_eq_false. lia. }
  assert (ownerAlive processExists (Some owner) = true) as ->.
  { unfold ownerAlive. by rewrite decide_False. }
  cbn [orb negb]. pose proof (backoffDelay_range (attempt + 1) ltac:(lia)) as Hd.
  apply IH; simpl; first [done|lia|by apply Hothers].
Qed.


End Held.


End WriteLockHeldFacts.
(** ** What pruning leaves of a conversation *)

Module PruningShape.
Import Pruning.

(** A block and what pruning may make of it: the same block, or - for a
    tool result - the block with another [content]. *)
Definition SameBlock (b b' : ContentBlock) : Prop :=
  b' = b ∨ (block_type b = ty_tool_result ∧ ∃ c, b' = set_block_content b c).

(** A message and what pruning may make of it. *)
Definition SameMessage (m m' : Message) : Prop :=
  role m' = role m ∧ timestamp m' = timestamp m ∧
  match content m, content m' with
  | Text s, Text s' => s' = s
  | Blocks bs, Blocks bs' => Forall2 SameBlock bs bs'
  | _, _ => False
  end.

(** No character of the string ends a line. *)
Fixpoint oneLine (s : string) : bool :=
  match s with
  | EmptyString => true
  | String c s => negb (isLineTerminator c) && oneLine s
  end.

End PruningShape.

Module PruningShapeFacts.
Import Guard Pruning PruningShape.
Local Open Scope Z_scope.

Lemma SameBlock_refl b : SameBlock b b.
Proof. by left. Qed.

Lemma SameBlock_trans b1 b2 b3 : SameBlock b1 b2 → SameBlock b2 b3 → SameBlock b1 b3.
Proof.
  intros [->|[Ht [c ->]]] [->|[Ht' [c' ->]]].
  - by left.
  - right. split; [done|]. by exists c'.
  - right. split; [done|]. by exists c.
  - right. split; [done|]. by exists c'.
Qed.

Lemma SameBlocks_refl bs : Forall2 SameBlock bs bs.
Proof. induction bs; constructor; [apply SameBlock_refl|done]. Qed.

Lemma SameBlocks_trans bs1 : ∀ bs2 bs3,
  Forall2 SameBlock bs1 bs2 → Forall2 SameBlock bs2 bs3 → Forall2 SameBlock bs1 bs3.
Proof.
  induction bs1 as [|b bs1 IH]; intros bs2 bs3 H12 H23.
  - inversion H12; subst. inversion H23; subst. constructor.
  - inversion H12; subst. inversion H23; subst. constructor.
    + by eapply SameBlock_trans.
    + by eapply IH.
Qed.

Lemma SameMessage_refl m : SameMessage m m.
Proof.
  split_and!; try done. destruct (content m); [done|apply SameBlocks_refl].
Qed.

Lemma SameMessage_trans m1 m2 m3 : SameMessage m1 m2 → SameMessage m2 m3 → SameMessage m1 m3.
Proof.
  intros (R1 & T1 & C1) (R2 & T2 & C2). split_and!; [congruence|congruence|].
  destruct (content m1), (content m2), (content m3); try done; try congruence.
  by eapply SameBlocks_trans.
Qed.

Lemma SameMessages_refl ms : Forall2 SameMessage ms ms.
Proof. induction ms; constructor; [apply SameMessage_refl|done]. Qed.

Lemma SameMessages_trans ms1 : ∀ ms2 ms3,
  Forall2 SameMessage ms1 ms2 → Forall2 SameMessage ms2 ms3 → Forall2 SameMessage ms1 ms3.
Proof.
  induction ms1 as [|m ms1 IH]; intros ms2 ms3 H12 H23.
  - inversion H12; subst. inversion H23; subst. constructor.
  - inversion H12; subst. inversion H23; subst. constructor.
    + by eapply SameMessage_trans.
    + by eapply IH.
Qed.

Lemma SameMessage_clone m bs bs' :
  content m = Blocks bs → Forall2 SameBlock bs bs' → SameMessage m (cloneMessage m bs').
Proof. intros Hc Hbs. split_and!; try done. by rewrite Hc. Qed.

Lemma softTrimToolResultBlock_same block settings isPrunable :
  SameBlock block (softTrimToolResultBlock block settings isPrunable).1.
Proof.
  unfold softTrimToolResultBlock.
  destruct (decide (block_type block = ty_tool_result)) as [Ht|Ht].
  - rewrite bool_decide_eq_true_2 by done. simpl.
    repeat (first [case_decide | destruct (_ && _) | destruct (truthy _)]; simpl;
            try apply SameBlock_refl).
    all: right; split; [done|]; by eexists.
  - rewrite bool_decide_eq_false_2 by done. apply SameBlock_refl.
Qed.

Lemma softTrimBlocks_same blocks settings isPrunable :
  Forall2 SameBlock blocks (softTrimBlocks blocks settings isPrunable).1.
Proof.
  induction blocks as [|b bs IH]; simpl; [constructor|].
  pose proof (softTrimToolResultBlock_same b settings isPrunable) as Hb.
  destruct (softTrimToolResultBlock b settings isPrunable) as [b' t].
  destruct (softTrimBlocks bs settings isPrunable) as [bs' n]. simpl in *.
  by constructor.
Qed.

Lemma applySoftTrim_same messages settings isPrunable :
  Forall2 SameMessage messages (applySoftTrim messages settings isPrunable).1.
Proof.
  induction messages as [|m ms IH]; simpl; [constructor|].
  destruct (applySoftTrim ms settings isPrunable) as [output total]. simpl in IH.
  destruct (content m) as [s|bs] eqn:Hc; simpl.
  - constructor; [apply SameMessage_refl|done].
  - pose proof (softTrimBlocks_same bs (softTrim settings) isPrunable) as Hbs.
    destruct (softTrimBlocks bs (softTrim settings) isPrunable) as [bs' n]. simpl in *.
    constructor; [|done].
    case_decide; [by apply (SameMessage_clone m bs)|apply SameMessage_refl].
Qed.

Section Shape.
Context (est : Message → Z).

Lemma hardClearBlocks_same blocks settings isPrunable charWindow : ∀ totalChars,
  Forall2 SameBlock blocks
    (hardClearBlocks blocks settings isPrunable charWindow totalChars).1.1.
Proof.
  induction blocks as [|b bs IH]; intros totalChars; simpl; [constructor|].
  match goal with |- context [if ?c then _ else _] => destruct c eqn:Hcond end.
  - match goal with |- context [hardClearBlocks bs _ _ _ ?t] =>
      specialize (IH t); destruct (hardClearBlocks bs settings isPrunable charWindow t)
        as [[bs' t'] n] end.
    simpl in *. constructor; [|done]. right.
    apply andb_true_iff in Hcond as [Hcond _]. apply andb_true_iff in Hcond as [Hcond _].
    apply andb_true_iff in Hcond as [Hcond _]. apply andb_true_iff in Hcond as [Hcond _].
    apply bool_decide_eq_true in Hcond. split; [done|]. by eexists.
  - specialize (IH totalChars).
    destruct (hardClearBlocks bs settings isPrunable charWindow totalChars) as [[bs' t'] n].
    simpl in *. constructor; [apply SameBlock_refl|done].
Qed.

Lemma hardClearMessages_same messages settings isPrunable charWindow : ∀ totalChars,
  Forall2 SameMessage messages
    (hardClearMessages messages settings isPrunable charWindow totalChars).1.
Proof.
  induction messages as [|m ms IH]; intros totalChars; simpl; [constructor|].
  destruct (content m) as [s|bs] eqn:Hc.
  - specialize (IH totalChars).
    destruct (hardClearMessages ms settings isPrunable charWindow totalChars) as [output n].
    simpl in *. constructor; [apply SameMessage_refl|done].
  - pose proof (hardClearBlocks_same bs settings isPrunable charWindow totalChars) as Hbs.
    destruct (hardClearBlocks bs settings isPrunable charWindow totalChars) as [[bs' t'] k].
    specialize (IH t').
    destruct (hardClearMessages ms settings isPrunable charWindow t') as [output n].
    simpl in *. constructor; [|done].
    case_decide; [by apply (SameMessage_clone m bs)|apply SameMessage_refl].
Qed.

Lemma applyHardClear_same messages settings isPrunable charWindow :
  Forall2 SameMessage messages (applyHardClear est messages settings isPrunable charWindow).1.
Proof.
  unfold applyHardClear.
  destruct (negb _); [apply SameMessages_refl|].
  destruct (ratioBelow _ _ _); [apply SameMessages_refl|].
  case_decide; [apply SameMessages_refl|apply hardClearMessages_same].
Qed.

Lemma trimAndClear_same input contextWindowTokens settings :
  Forall2 SameMessage input (trimAndClear est input contextWindowTokens settings).1.1.
Proof.
  unfold trimAndClear.
  set (isPrunable := makeToolPrunablePredicate _).
  set (cw := Z.max 1 contextWindowTokens * CHARS_PER_TOKEN_ESTIMATE).
  assert (∃ current trimmed,
    (if ratioAbove (estimateMessagesChars est input) cw (softTrimRatio settings)
     then applySoftTrim input settings isPrunable else (input, 0)) = (current, trimmed) ∧
    Forall2 SameMessage input current) as (current & trimmed & -> & H1).
  { destruct (ratioAbove _ _ _).
    - pose proof (applySoftTrim_same input settings isPrunable) as H.
      destruct (applySoftTrim input settings isPrunable) as [c t]. by exists c, t.
    - exists input, 0. split; [done|apply SameMessages_refl]. }
  destruct (ratioAbove (estimateMessagesChars est current) cw (hardClearRatio settings)).
  - pose proof (applyHardClear_same current settings isPrunable cw) as H2.
    destruct (applyHardClear est current settings isPrunable cw) as [c n]. simpl in *.
    by eapply SameMessages_trans.
  - done.
Qed.

Lemma fillOlder_prefix reversedOlder : ∀ remaining kept,
  ∃ n, fillOlder est reversedOlder remaining kept = reverse (take n reversedOlder) ++ kept.
Proof.
  induction reversedOlder as [|m rest IH]; intros remaining kept; simpl.
  - by exists 0%nat.
  - case_decide.
    + by exists 0%nat.
    + destruct (IH (remaining - est m) (m :: kept)) as (n & ->).
      exists (S n). simpl. by rewrite reverse_cons, <- app_assoc.
Qed.

Lemma suffix_partition {A} (kept current : list A) :
  kept `suffix_of` current →
  take (length current - length kept) current ++ kept = current.
Proof.
  intros [pre ->]. rewrite length_app.
  replace (length pre + length kept - length kept)%nat with (length pre) by lia.
  by rewrite take_app_length.
Qed.

Lemma prune_partition input contextWindowTokens raw :
  let r := pruneContextMessages est input contextWindowTokens raw in
  droppedMessages r ++ messages r =
  (trimAndClear est input contextWindowTokens (resolvePruningSettings raw)).1.1.
Proof.
  unfold pruneContextMessages.
  destruct (trimAndClear est input contextWindowTokens (resolvePruningSettings raw))
    as [[current trimmed] cleared]. simpl.
  case_decide; [done|]. simpl.
  apply suffix_partition. case_decide.
  - unfold sliceWithinBudget.
    destruct (PruningFacts.sliceScan_suffix est (reverse current)
                (budgetOf contextWindowTokens (resolvePruningSettings raw)) 0 []) as (n & ->).
    rewrite app_nil_r. apply PruningFacts.reverse_take_suffix.
  - match goal with |- context [fillOlder est ?ro ?rem ?k] =>
      destruct (fillOlder_prefix ro rem k) as (n & ->) end.
    match goal with |- context [drop ?i current] => set (idx := i) end.
    destruct (PruningFacts.reverse_take_suffix n (take idx current)) as [pre Hpre].
    exists pre. rewrite app_assoc, <- Hpre. by rewrite take_drop.
Qed.

Lemma SameBlocks_calls bs bs' :
  Forall2 SameBlock bs bs' →
  omap toolUseOfBlock bs' = omap toolUseOfBlock bs ∧
  omap toolResultIdOfBlock bs' = omap toolResultIdOfBlock bs.
Proof.
  induction 1 as [|b b' bs bs' Hb _ [IH1 IH2]]; [done|].
  assert (toolUseOfBlock b' = toolUseOfBlock b ∧
          toolResultIdOfBlock b' = toolResultIdOfBlock b) as [E1 E2].
  { destruct Hb as [->|[Ht [c ->]]]; [done|].
    unfold toolUseOfBlock, toolResultIdOfBlock. simpl. by rewrite Ht. }
  split.
  - change (omap toolUseOfBlock (b' :: bs'))
      with (match toolUseOfBlock b' with
            | Some y => y :: omap toolUseOfBlock bs'
            | None => omap toolUseOfBlock bs'
            end).
    by rewrite E1, IH1.
  - change (omap toolResultIdOfBlock (b' :: bs'))
      with (match toolResultIdOfBlock b' with
            | Some y => y :: omap toolResultIdOfBlock bs'
            | None => omap toolResultIdOfBlock bs'
            end).
    by rewrite E2, IH2.
Qed.

Lemma SameMessage_calls m m' :
  SameMessage m m' →
  extractToolUsesFromAssistant m' = extractToolUsesFromAssistant m ∧
  extractToolResultIds m' = extractToolResultIds m.
Proof.
  intros (Hr & _ & Hc). unfold extractToolUsesFromAssistant, extractToolResultIds.
  rewrite Hr. destruct (content m) as [s|bs], (content m') as [s'|bs']; try done.
  destruct (SameBlocks_calls bs bs' Hc) as [-> ->]. done.
Qed.

(** X21.  Pruning keeps the shape of the conversation.  The dropped messages
    followed by the kept ones are the input, message for message, in the
    same order, with the same roles and timestamps; texts and all blocks
    other than tool results are untouched, a tool result differs at most in
    its [content].  So every message still carries the same tool calls and
    answers the same tool-use ids.  (Dropped messages are told from kept ones
    by object identity, the messages being distinct objects.) *)
Theorem pruning_only_rewrites_tool_results input contextWindowTokens raw :
  let r := pruneContextMessages est input contextWindowTokens raw in
  Forall2 SameMessage input (droppedMessages r ++ messages r) ∧
  Forall2 (λ m m', extractToolUsesFromAssistant m' = extractToolUsesFromAssistant m ∧
                   extractToolResultIds m' = extractToolResultIds m)
    input (droppedMessages r ++ messages r).
Proof.
  intros r. subst r. rewrite prune_partition.
  pose proof (trimAndClear_same input contextWindowTokens (resolvePruningSettings raw)) as H.
  split; [done|]. eapply Forall2_impl; [exact H|]. apply SameMessage_calls.
Qed.

End Shape.

(** X22.  Whatever the overrides, the resolved settings are in range: the three
    shares lie between 0 and 1, and the counts are not negative; without
    overrides the defaults apply. *)
Theorem resolved_settings_are_in_range raw :
  let s := resolvePruningSettings raw in
  (0 <= maxHistoryShare s <= 1)%Q ∧ (0 <= softTrimRatio s <= 1)%Q ∧
  (0 <= hardClearRatio s <= 1)%Q ∧
  0 ≤ keepLastAssistants s ∧ 0 ≤ minPrunableToolChars s ∧
  0 ≤ maxChars (softTrim s) ∧ 0 ≤ headChars (softTrim s) ∧ 0 ≤ tailChars (softTrim s) ∧
  (raw = None → s = DEFAULT_CONTEXT_PRUNING_SETTINGS).
Proof.
  assert (∀ v, (0 <= clampShare v <= 1)%Q) as Hshare.
  { intros v. unfold clampShare. split.
    - apply Q.min_glb; [done|apply Q.le_max_l].
    - apply Q.le_min_l. }
  assert (∀ v fallback, 0 ≤ fallback → 0 ≤ clampPositiveInt v fallback) as Hint.
  { intros [v|] fallback Hf; simpl; lia. }
  destruct raw as [raw|]; simpl.
  - split_and!; try apply Hshare; try (apply Hint; done). done.
  - split_and!; try done.
Qed.

Lemma regexTest_star value : regexTest "*" value = oneLine value.
Proof.
  induction value as [|c v IH]; [done|].
  change (regexTest "*" (String c v))
    with (regexTest "" (String c v) || (negb (isLineTerminator c) && regexTest "*" v)).
  by rewrite IH.
Qed.

Lemma regexTest_prefix pattern : ∀ value,
  includesStar pattern = false →
  regexTest (pattern +:+ "*") value = true ↔
  ∃ rest, value = pattern +:+ rest ∧ oneLine rest = true.
Proof.
  induction pattern as [|p pattern IH]; intros value Hstar.
  - simpl String.append. rewrite regexTest_star. split.
    + intros H. by exists value.
    + by intros (rest & -> & H).
  - simpl in Hstar. apply orb_false_iff in Hstar as [Hp Hstar].
    simpl String.append. simpl regexTest. rewrite Hp.
    destruct value as [|c v].
    + split; [done|]. by intros (rest & ? & _).
    + rewrite andb_true_iff, IH by done. split.
      * intros [Hc (rest & -> & Hrest)]. apply Ascii.eqb_eq in Hc as ->. by exists rest.
      * intros (rest & [= -> ->] & Hrest). split; [apply Ascii.eqb_refl|by exists rest].
Qed.

(** X23.  What a tool pattern matches: [*] matches every name; a pattern without
    [*] matches the equal name only; a pattern [p*], with [p] not empty and
    without [*], matches the names that start with [p] and go on within one
    line. *)
Theorem matchGlob_patterns value pattern :
  matchGlob value "*" = true ∧
  (includesStar pattern = false → matchGlob value pattern = String.eqb value pattern) ∧
  (includesStar pattern = false → pattern ≠ "" →
   (matchGlob value (pattern +:+ "*") = true ↔
    ∃ rest, value = pattern +:+ rest ∧ oneLine rest = true)).
Proof.
  split_and!.
  - done.
  - intros Hstar. unfold matchGlob. rewrite Hstar. simpl.
    destruct (String.eqb_spec pattern "*") as [->|]; [done|]. done.
  - intros Hstar Hne. unfold matchGlob.
    assert (String.eqb (pattern +:+ "*") "*" = false) as ->.
    { destruct pattern as [|c [|c' p]]; [done| |]; simpl; by destruct (Ascii.eqb c "*"). }
    assert (includesStar (pattern +:+ "*") = true) as ->.
    { clear. induction pattern as [|c p IH]; [done|]. simpl. rewrite IH. apply orb_true_r. }
    simpl. by apply regexTest_prefix.
Qed.


End PruningShapeFacts.

(** ** Compaction (src/context/pruning.ts, the part on compaction) *)

Module Compaction.
Local Open Scope Z_scope.

Definition DEFAULT_PARTS : Q := 2 # 1.

(** [a > b] on numbers. *)
Definition Qgt_bool (a b : Q) : bool := negb (Qle_bool a b).

(** [normalizeParts(parts, messageCount)], for a finite [parts]. *)
Definition normalizeParts (parts : Q) (messageCount : Z) : Z :=
  if Qle_bool parts 1 then 1
  else Z.min (Z.max 1 (Qfloor parts)) (Z.max 1 messageCount).

Section WithTokens.
(** [estimateMessageTokens] and [estimateMessagesTokens]
    (src/context/tokens.ts is not part of the sources): the token count of
    one message and of a list of messages. *)
Variable estimateMessageTokens : Message → Z.
Variable estimateMessagesTokens : list Message → Z.

(** The loop of [splitMessagesByTokenShare] and the [if] after it. *)
Fixpoint splitLoop (normalizedParts : Z) (targetTokens : Q) (messages : list Message)
    (chunks : list (list Message)) (current : list Message) (currentTokens : Z)
  : list (list Message) :=
  match messages with
  | [] => if bool_decide (0 < length current)%nat then chunks ++ [current] else chunks
  | message :: messages =>
      let messageTokens := estimateMessageTokens message in
      if bool_decide (Z.of_nat (length chunks) < normalizedParts - 1)
         && bool_decide (0 < length current)%nat
         && Qgt_bool (inject_Z (currentTokens + messageTokens)) targetTokens
      then splitLoop normalizedParts targetTokens messages (chunks ++ [current])
             [message] messageTokens
      else splitLoop normalizedParts targetTokens messages chunks
             (current ++ [message]) (currentTokens + messageTokens)
  end.

Definition splitMessagesByTokenShare (messages : list Message) (parts : Q)
  : list (list Message) :=
  if decide (length messages = 0%nat) then []
  else
    let normalizedParts := normalizeParts parts (Z.of_nat (length messages)) in
    if decide (normalizedParts ≤ 1) then [messages]
    else
      let totalTokens := estimateMessagesTokens messages in
      let targetTokens := (inject_Z totalTokens / inject_Z normalizedParts)%Q in
      splitLoop normalizedParts targetTokens messages [] [] 0.

(** The loop of [chunkMessagesByMaxTokens] and the [if] after it. *)
Fixpoint chunkLoop (maxTokens : Z) (messages : list Message)
    (chunks : list (list Message)) (current : list Message) (currentTokens : Z)
  : list (list Message) :=
  match messages with
  | [] => if bool_decide (0 < length current)%nat then chunks ++ [current] else chunks
  | message :: messages =>
      let messageTokens := estimateMessageTokens message in
      let '(chunks, current, currentTokens) :=
        if bool_decide (0 < length current)%nat
           && bool_decide (currentTokens + messageTokens > maxTokens)
        then (chunks ++ [current], [], 0)
        else (chunks, current, currentTokens) in
      let current := current ++ [message] in
      let currentTokens := currentTokens + messageTokens in
      if bool_decide (messageTokens > maxTokens)
      then chunkLoop maxTokens messages (chunks ++ [current]) [] 0
      else chunkLoop maxTokens messages chunks current currentTokens
  end.

Definition chunkMessagesByMaxTokens (messages : list Message) (maxTokens : Z)
  : list (list Message) :=
  if decide (length messages = 0%nat) then [] else chunkLoop maxTokens messages [] [] 0.

End WithTokens.

(** *** File operations *)

(** [type FileOps]: three sets of paths, in insertion order. *)
Record FileOps := {
  fo_read : list string;
  fo_written : list string;
  fo_edited : list string;
}.

Definition createFileOps : FileOps := {| fo_read := []; fo_written := []; fo_edited := [] |}.

(** [Set.prototype.add] *)
Definition setAdd (x : string) (s : list string) : list string :=
  if bool_decide (x ∈ s) then s else s ++ [x].

(** [Array.prototype.sort] without comparator orders strings by their code
    units; the sorted array does not depend on the algorithm. *)
Fixpoint insertSorted (x : string) (l : list string) : list string :=
  match l with
  | [] => [x]
  | y :: l' => if String.leb x y then x :: l else y :: insertSorted x l'
  end.

Definition sort (l : list string) : list string := foldr insertSorted [] l.

Section WithArguments.
(** [typeof args.path === "string" ? args.path : undefined] for the [input]
    of a block, which the model keeps in serialized form. *)
Variable pathOf : Json → option string.

(** The body of the loop of [extractFileOpsFromMessage]. *)
Definition extractBlock (fileOps : FileOps) (block : ContentBlock) : FileOps :=
  if negb (bool_decide (block_type block = ty_tool_use)) then fileOps
  else
    match block_input block with
    | None => fileOps
    | Some args =>
        match pathOf args with
        | None => fileOps
        | Some path =>
            if negb (truthy (Some path)) then fileOps
            else if bool_decide (block_name block = Some "read") then
              {| fo_read := setAdd path (fo_read fileOps);
                 fo_written := fo_written fileOps; fo_edited := fo_edited fileOps |}
            else if bool_decide (block_name block = Some "write") then
              {| fo_read := fo_read fileOps;
                 fo_written := setAdd path (fo_written fileOps);
                 fo_edited := fo_edited fileOps |}
            else if bool_decide (block_name block = Some "edit") then
              {| fo_read := fo_read fileOps; fo_written := fo_written fileOps;
                 fo_edited := setAdd path (fo_edited fileOps) |}
            else fileOps
        end
    end.

Definition extractFileOpsFromMessage (message : Message) (fileOps : FileOps) : FileOps :=
  match role message, content message with
  | assistant, Blocks blocks => foldl extractBlock fileOps blocks
  | _, _ => fileOps
  end.

(** The paths that the calls of the tool [name] in the messages name: the
    non-empty [path] arguments of the [tool_use] blocks of assistant
    messages, in order. *)
Definition pathOfCall (name : string) (block : ContentBlock) : option string :=
  if bool_decide (block_type block = ty_tool_use) && bool_decide (block_name block = Some name)
  then
    match block_input block with
    | Some args =>
        match pathOf args with
        | Some path => if truthy (Some path) then Some path else None
        | None => None
        end
    | None => None
    end
  else None.

Definition pathsOf (name : string) (messages : list Message) : list string :=
  messages ≫= λ message,
    match role message, content message with
    | assistant, Blocks blocks => omap (pathOfCall name) blocks
    | _, _ => []
    end.

(** The loop of [compactHistoryIfNeeded] over the dropped messages. *)
Definition extractFileOps (messages : list Message) : FileOps :=
  foldl (λ fileOps message, extractFileOpsFromMessage message fileOps) createFileOps messages.

End WithArguments.

(** [computeFileLists(fileOps)]: [readFiles] and [modifiedFiles]. *)
Definition computeFileLists (fileOps : FileOps) : list string * list string :=
  let modified := foldl (λ s x, setAdd x s) [] (fo_edited fileOps ++ fo_written fileOps) in
  let readOnly := sort (filter (λ file, file ∉ modified) (fo_read fileOps)) in
  (readOnly, sort modified).

(** The token total of a chunk: the sum of the counts of its messages. *)
Definition tokensOf (est : Message → Z) (chunk : list Message) : Z :=
  foldr (λ m total, est m + total) 0 chunk.

End Compaction.

Module CompactionFacts.
Import Compaction.
Local Open Scope Z_scope.

Section Chunks.
Context (est : Message → Z) (estAll : list Message → Z).

(** What holds of the chunks collected so far, and of the one under
    construction. *)
Definition ChunksOk (maxTokens : Z) (chunks : list (list Message)) : Prop :=
  Forall (λ chunk, chunk ≠ [] ∧
                   (tokensOf est chunk ≤ maxTokens ∨ ∃ m, chunk = [m] ∧ maxTokens < est m))
    chunks.

Lemma tokensOf_snoc chunk m : tokensOf est (chunk ++ [m]) = tokensOf est chunk + est m.
Proof.
  unfold tokensOf.
  induction chunk as [|x chunk IH]; simpl; [lia|]. rewrite IH. lia.
Qed.

Lemma chunkLoop_spec maxTokens messages : ∀ chunks current currentTokens,
  ChunksOk maxTokens chunks →
  currentTokens = tokensOf est current →
  (current ≠ [] → currentTokens ≤ maxTokens) →
  let result := chunkLoop est maxTokens messages chunks current currentTokens in
  concat result = concat chunks ++ current ++ messages ∧ ChunksOk maxTokens result.
Proof.
  induction messages as [|m messages IH]; intros chunks current currentTokens Hok Ht Hcur; simpl.
  - rewrite app_nil_r. destruct current as [|x current]; simpl.
    + by rewrite app_nil_r.
    + split.
      * rewrite concat_app. simpl. by rewrite !app_nil_r.
      * apply Forall_app. split; [done|]. apply Forall_singleton.
        split; [done|]. left. rewrite <- Ht. by apply Hcur.
  - set (flush := bool_decide (0 < length current)%nat
                  && bool_decide (currentTokens + est m > maxTokens)).
    assert (∃ chunks1 current1 tokens1,
      (if flush then (chunks ++ [current], [], 0) else (chunks, current, currentTokens))
        = (chunks1, current1, tokens1) ∧
      ChunksOk maxTokens chunks1 ∧ tokens1 = tokensOf est current1 ∧
      concat chunks1 ++ current1 = concat chunks ++ current ∧
      (current1 ≠ [] → tokens1 + est m ≤ maxTokens))
      as (chunks1 & current1 & tokens1 & -> & Hok1 & Ht1 & Hcat1 & Hcur1).
    { destruct flush eqn:Hflush.
      - exists (chunks ++ [current]), [], 0. split_and!; try done.
        + apply andb_true_iff in Hflush as [Hne _]. apply bool_decide_eq_true in Hne.
          apply Forall_app. split; [done|]. apply Forall_singleton.
          assert (current ≠ []) as Hne' by (intros ->; simpl in Hne; lia).
          split; [done|]. left. rewrite <- Ht. by apply Hcur.
        + rewrite concat_app. simpl. by rewrite !app_nil_r.
      - exists chunks, current, currentTokens. split_and!; try done.
        intros Hne. apply andb_false_iff in Hflush as [Hf|Hf].
        + apply bool_decide_eq_false in Hf. destruct current; [done|]. simpl in Hf. lia.
        + apply bool_decide_eq_false in Hf. lia. }
    destruct (bool_decide (est m > maxTokens)) eqn:Hbig.
    + apply bool_decide_eq_true in Hbig.
      destruct (IH (chunks1 ++ [current1 ++ [m]]) [] 0) as [Hcat Hres].
      * apply Forall_app. split; [done|]. apply Forall_singleton.
        split; [by destruct current1|].
        destruct current1 as [|x current1].
        -- right. exists m. split; [done|lia].
        -- left. rewrite tokensOf_snoc, <- Ht1. apply Hcur1. done.
      * done.
      * done.
      * split; [|done]. rewrite Hcat, concat_app. simpl.
        rewrite !app_nil_r, app_assoc, Hcat1, <- !app_assoc. done.
    + apply bool_decide_eq_false in Hbig.
      destruct (IH chunks1 (current1 ++ [m]) (tokens1 + est m)) as [Hcat Hres].
      * done.
      * by rewrite tokensOf_snoc, Ht1.
      * intros _. destruct current1 as [|x current1].
        -- subst tokens1. unfold tokensOf. simpl. lia.
        -- by apply Hcur1.
      * split; [|done]. rewrite Hcat, app_assoc, app_assoc, Hcat1, <- !app_assoc. done.
Qed.

(** X24.  [chunkMessagesByMaxTokens] cuts the messages into consecutive chunks:
    put one after the other, the chunks are the messages, in order; no chunk
    is empty; and a chunk either stays within [maxTokens] or consists of a
    single message that is larger than [maxTokens]. *)
Theorem chunks_cover_and_fit messages maxTokens :
  let chunks := chunkMessagesByMaxTokens est messages maxTokens in
  concat chunks = messages ∧
  Forall (λ chunk, chunk ≠ [] ∧
                   (tokensOf est chunk ≤ maxTokens ∨ ∃ m, chunk = [m] ∧ maxTokens < est m))
    chunks.
Proof.
  unfold chunkMessagesByMaxTokens. case_decide as Hlen.
  - destruct messages; [done|]. simpl in Hlen. lia.
  - destruct (chunkLoop_spec maxTokens messages [] [] 0) as [Hcat Hok]; try done.
    by apply Forall_nil.
Qed.

(** What holds of a part that was closed: it keeps within the share, or is
    a single message. *)
Definition WithinShare (target : Q) (chunk : list Message) : Prop :=
  (inject_Z (tokensOf est chunk) <= target)%Q ∨ ∃ m, chunk = [m].

Lemma splitLoop_spec parts target messages : ∀ chunks current currentTokens,
  Forall (λ c, c ≠ [] ∧ WithinShare target c) chunks →
  Z.of_nat (length chunks) ≤ parts - 1 →
  currentTokens = tokensOf est current →
  (Z.of_nat (length chunks) < parts - 1 → WithinShare target current ∨ current = []) →
  let result := splitLoop est parts target messages chunks current currentTokens in
  concat result = concat chunks ++ current ++ messages ∧
  Forall (λ c, c ≠ []) result ∧
  Z.of_nat (length result) ≤ parts ∧
  ∃ closed, (result = closed ∨ ∃ last, result = closed ++ [last]) ∧
            Forall (WithinShare target) closed.
Proof.
  induction messages as [|m messages IH]; intros chunks current currentTokens Hok Hlen Ht Hcur;
    simpl.
  - rewrite app_nil_r. destruct current as [|x current]; simpl.
    + rewrite app_nil_r. split_and!; try done.
      * eapply Forall_impl; [exact Hok|]. by intros c [? _].
      * lia.
      * exists chunks. split; [by left|]. eapply Forall_impl; [exact Hok|]. by intros c [_ ?].
    + split_and!.
      * rewrite concat_app. simpl. by rewrite !app_nil_r.
      * apply Forall_app. split; [|by apply Forall_singleton].
        eapply Forall_impl; [exact Hok|]. by intros c [? _].
      * rewrite length_app. simpl. lia.
      * exists chunks. split; [right; by eexists|].
        eapply Forall_impl; [exact Hok|]. by intros c [_ ?].
  - match goal with |- context [if ?c then _ else _] => destruct c eqn:Hclose end.
    + apply andb_true_iff in Hclose as [Hclose Hover].
      apply andb_true_iff in Hclose as [Hroom Hne].
      apply bool_decide_eq_true in Hroom, Hne.
      assert (current ≠ []) as Hne' by (intros ->; simpl in Hne; lia).
      destruct (IH (chunks ++ [current]) [m] (est m)) as (Hcat & Hall & Hl & Hcl).
      * apply Forall_app. split; [done|]. apply Forall_singleton. split; [done|].
        destruct (Hcur Hroom) as [?|?]; done.
      * rewrite length_app. simpl. lia.
      * unfold tokensOf. simpl. lia.
      * intros _. left. right. by exists m.
      * split_and!; try done. rewrite Hcat, concat_app. simpl.
        by rewrite !app_nil_r, <- !app_assoc.
    + destruct (IH chunks (current ++ [m]) (currentTokens + est m)) as (Hcat & Hall & Hl & Hcl).
      * done.
      * done.
      * by rewrite tokensOf_snoc, Ht.
      * intros Hroom. left.
        rewrite (bool_decide_eq_true_2 _ Hroom) in Hclose. simpl in Hclose.
        destruct current as [|x current]; [right; by exists m|].
        simpl in Hclose. unfold Qgt_bool in Hclose. apply negb_false_iff in Hclose.
        apply Qle_bool_iff in Hclose. left. by rewrite tokensOf_snoc, <- Ht.
      * split_and!; try done. by rewrite Hcat, <- !app_assoc.
Qed.

Lemma normalizeParts_range parts messageCount :
  1 ≤ normalizeParts parts messageCount ≤ Z.max 1 messageCount.
Proof. unfold normalizeParts. destruct (Qle_bool parts 1); lia. Qed.

(** X25.  [splitMessagesByTokenShare] cuts the messages into consecutive parts:
    put one after the other, the parts are the messages, in order; no part
    is empty; there are at most [normalizeParts parts n] of them, a number
    between 1 and the number of messages; and every part but the last keeps
    within the share [totalTokens / parts], or is a single message. *)
Theorem split_covers_in_parts messages parts :
  let chunks := splitMessagesByTokenShare est estAll messages parts in
  let n := normalizeParts parts (Z.of_nat (length messages)) in
  concat chunks = messages ∧
  Forall (λ c, c ≠ []) chunks ∧
  1 ≤ n ≤ Z.max 1 (Z.of_nat (length messages)) ∧
  Z.of_nat (length chunks) ≤ n ∧
  ∃ closed, (chunks = closed ∨ ∃ last, chunks = closed ++ [last]) ∧
            Forall (WithinShare
                      (inject_Z (estAll messages) / inject_Z n)%Q) closed.
Proof.
  intros chunks n. pose proof (normalizeParts_range parts (Z.of_nat (length messages))) as Hn.
  fold n in Hn. subst chunks. unfold splitMessagesByTokenShare. fold n.
  case_decide as Hlen.
  - destruct messages; [|simpl in Hlen; lia]. split_and!; try done; try (simpl in *; lia).
    exists []. split; [by left|done].
  - case_decide as Hone.
    + split_and!; try done; try (simpl in *; lia).
      * simpl. by rewrite app_nil_r.
      * apply Forall_singleton. by destruct messages.
      * exists []. split; [right; by exists messages|done].
    + destruct (splitLoop_spec n (inject_Z (estAll messages) / inject_Z n)%Q
                  messages [] [] 0) as (Hcat & Hall & Hl & Hcl); try done.
      * simpl. lia.
      * intros _. by right.
Qed.

End Chunks.

Section Files.
Context (pathOf : Json → option string).

Lemma setAdd_elem x s y : y ∈ setAdd x s ↔ y = x ∨ y ∈ s.
Proof.
  unfold setAdd. case_bool_decide as Hin.
  - split; [by right|]. by intros [->|?].
  - rewrite elem_of_app, list_elem_of_singleton. tauto.
Qed.

Lemma setAdd_NoDup x s : NoDup s → NoDup (setAdd x s).
Proof.
  intros Hnd. unfold setAdd. case_bool_decide as Hin; [done|].
  apply NoDup_app. split_and!; [done| |apply NoDup_singleton].
  intros y Hy ->%list_elem_of_singleton. done.
Qed.

Lemma foldl_setAdd l : ∀ s,
  NoDup s →
  NoDup (foldl (λ s x, setAdd x s) s l) ∧
  ∀ y, y ∈ foldl (λ s x, setAdd x s) s l ↔ y ∈ s ∨ y ∈ l.
Proof.
  induction l as [|x l IH]; intros s Hnd; simpl.
  - split; [done|]. intros y. rewrite elem_of_nil. tauto.
  - destruct (IH (setAdd x s) (setAdd_NoDup x s Hnd)) as [H1 H2]. split; [done|].
    intros y. rewrite H2, setAdd_elem, elem_of_cons. tauto.
Qed.

Lemma insertSorted_elem x l y : y ∈ insertSorted x l ↔ y = x ∨ y ∈ l.
Proof.
  induction l as [|z l IH]; simpl.
  - rewrite list_elem_of_singleton, elem_of_nil. tauto.
  - destruct (String.leb x z).
    + rewrite !elem_of_cons. tauto.
    + rewrite !elem_of_cons, IH. tauto.
Qed.

Lemma insertSorted_NoDup x l : x ∉ l → NoDup l → NoDup (insertSorted x l).
Proof.
  induction l as [|z l IH]; intros Hx Hnd; simpl.
  - apply NoDup_singleton.
  - destruct (String.leb x z).
    + by constructor.
    + apply NoDup_cons in Hnd as [Hz Hnd]. apply not_elem_of_cons in Hx as [Hxz Hx].
      constructor; [|by apply IH]. rewrite insertSorted_elem. intros [->|?]; done.
Qed.

Lemma insertSorted_Sorted x l :
  Sorted (λ a b, String.leb a b = true) l →
  Sorted (λ a b, String.leb a b = true) (insertSorted x l).
Proof.
  induction l as [|z l IH]; intros Hs; simpl.
  - by repeat constructor.
  - destruct (String.leb x z) eqn:Hxz.
    + constructor; [done|]. by constructor.
    + apply Sorted_inv in Hs as [Hs Hhd]. constructor; [by apply IH|].
      assert (String.leb z x = true) as Hzx.
      { destruct (String.leb_total x z) as [H|H]; [congruence|done]. }
      destruct l as [|w l]; simpl.
      * by constructor.
      * destruct (String.leb x w); constructor; [done|].
        by apply HdRel_inv in Hhd.
Qed.

Lemma sort_spec l :
  (∀ y, y ∈ sort l ↔ y ∈ l) ∧ (NoDup l → NoDup (sort l)) ∧
  Sorted (λ a b, String.leb a b = true) (sort l).
Proof.
  induction l as [|x l (IH1 & IH2 & IH3)]; simpl.
  - split_and!; [done|done|constructor].
  - split_and!.
    + intros y. rewrite insertSorted_elem, IH1, elem_of_cons. tauto.
    + intros [Hx Hnd]%NoDup_cons. apply insertSorted_NoDup; [by rewrite IH1|by apply IH2].
    + by apply insertSorted_Sorted.
Qed.

(** What the three sets hold after some messages. *)
Definition Collected (messages : list Message) (fileOps : FileOps) : Prop :=
  NoDup (fo_read fileOps) ∧ NoDup (fo_written fileOps) ∧ NoDup (fo_edited fileOps) ∧
  (∀ f, f ∈ fo_read fileOps ↔ f ∈ pathsOf pathOf "read" messages) ∧
  (∀ f, f ∈ fo_written fileOps ↔ f ∈ pathsOf pathOf "write" messages) ∧
  (∀ f, f ∈ fo_edited fileOps ↔ f ∈ pathsOf pathOf "edit" messages).

Lemma extractBlock_spec fileOps block :
  NoDup (fo_read fileOps) → NoDup (fo_written fileOps) → NoDup (fo_edited fileOps) →
  let fileOps' := extractBlock pathOf fileOps block in
  NoDup (fo_read fileOps') ∧ NoDup (fo_written fileOps') ∧ NoDup (fo_edited fileOps') ∧
  (∀ f, f ∈ fo_read fileOps' ↔ f ∈ fo_read fileOps ∨ pathOfCall pathOf "read" block = Some f) ∧
  (∀ f, f ∈ fo_written fileOps' ↔
        f ∈ fo_written fileOps ∨ pathOfCall pathOf "write" block = Some f) ∧
  (∀ f, f ∈ fo_edited fileOps' ↔
        f ∈ fo_edited fileOps ∨ pathOfCall pathOf "edit" block = Some f).
Proof.
  intros H1 H2 H3. unfold extractBlock, pathOfCall.
  destruct (bool_decide (block_type block = ty_tool_use)), (block_input block) as [args|];
    cbn [negb andb];
    try (destruct (pathOf args) as [path|]); try (destruct (truthy (Some path)));
    cbn [negb];
    repeat case_bool_decide; simplify_eq; cbn [fo_read fo_written fo_edited];
    repeat split; try done; try (by apply setAdd_NoDup);
    rewrite ?setAdd_elem; naive_solver.
Qed.

Lemma foldl_extractBlock_spec blocks : ∀ fileOps,
  NoDup (fo_read fileOps) → NoDup (fo_written fileOps) → NoDup (fo_edited fileOps) →
  let fileOps' := foldl (extractBlock pathOf) fileOps blocks in
  NoDup (fo_read fileOps') ∧ NoDup (fo_written fileOps') ∧ NoDup (fo_edited fileOps') ∧
  (∀ f, f ∈ fo_read fileOps' ↔
        f ∈ fo_read fileOps ∨ f ∈ omap (pathOfCall pathOf "read") blocks) ∧
  (∀ f, f ∈ fo_written fileOps' ↔
        f ∈ fo_written fileOps ∨ f ∈ omap (pathOfCall pathOf "write") blocks) ∧
  (∀ f, f ∈ fo_edited fileOps' ↔
        f ∈ fo_edited fileOps ∨ f ∈ omap (pathOfCall pathOf "edit") blocks).
Proof.
  induction blocks as [|b blocks IH]; intros fileOps H1 H2 H3.
  - simpl. split_and!; try done; intros f; rewrite elem_of_nil; tauto.
  - destruct (extractBlock_spec fileOps b H1 H2 H3) as (N1 & N2 & N3 & E1 & E2 & E3).
    destruct (IH _ N1 N2 N3) as (M1 & M2 & M3 & F1 & F2 & F3).
    change (foldl (extractBlock pathOf) fileOps (b :: blocks))
      with (foldl (extractBlock pathOf) (extractBlock pathOf fileOps b) blocks).
    split_and!; try done; intros f.
    + rewrite F1, E1, (list_elem_of_omap _ (b :: blocks)), (list_elem_of_omap _ blocks).
      setoid_rewrite elem_of_cons. naive_solver.
    + rewrite F2, E2, (list_elem_of_omap _ (b :: blocks)), (list_elem_of_omap _ blocks).
      setoid_rewrite elem_of_cons. naive_solver.
    + rewrite F3, E3, (list_elem_of_omap _ (b :: blocks)), (list_elem_of_omap _ blocks).
      setoid_rewrite elem_of_cons. naive_solver.
Qed.

Lemma pathsOf_snoc name messages message :
  pathsOf pathOf name (messages ++ [message]) =
  pathsOf pathOf name messages ++
  match role message, content message with
  | assistant, Blocks blocks => omap (pathOfCall pathOf name) blocks
  | _, _ => []
  end.
Proof. unfold pathsOf. rewrite bind_app. simpl. by rewrite app_nil_r. Qed.

Lemma extractFileOps_Collected messages : Collected messages (extractFileOps pathOf messages).
Proof.
  unfold extractFileOps.
  induction messages as [|m messages IH] using rev_ind.
  - simpl. split_and!; try apply NoDup_nil_2; done.
  - rewrite foldl_app. simpl. destruct IH as (N1 & N2 & N3 & E1 & E2 & E3).
    unfold Collected. rewrite !pathsOf_snoc. unfold extractFileOpsFromMessage.
    destruct (role m), (content m) as [s|blocks];
      try (split_and!; try done; intros f; rewrite app_nil_r; done).
    destruct (foldl_extractBlock_spec blocks _ N1 N2 N3) as (M1 & M2 & M3 & F1 & F2 & F3).
    split_and!; try done; intros f; rewrite elem_of_app.
    + by rewrite F1, E1.
    + by rewrite F2, E2.
    + by rewrite F3, E3.
Qed.

(** X27.  The file lists of a compaction summary.  A path is listed as modified
    when a [write] or [edit] call in the messages names it, and as read when
    a [read] call names it and no [write] or [edit] call does; so no path is
    in both lists.  Either list is sorted and shows no path twice. *)
Theorem file_lists_are_disjoint messages :
  let lists := computeFileLists (extractFileOps pathOf messages) in
  (∀ f, f ∈ lists.2 ↔
        f ∈ pathsOf pathOf "write" messages ∨ f ∈ pathsOf pathOf "edit" messages) ∧
  (∀ f, f ∈ lists.1 ↔ f ∈ pathsOf pathOf "read" messages ∧ f ∉ lists.2) ∧
  NoDup lists.1 ∧ NoDup lists.2 ∧
  Sorted (λ a b, String.leb a b = true) lists.1 ∧
  Sorted (λ a b, String.leb a b = true) lists.2.
Proof.
  intros lists. destruct (extractFileOps_Collected messages) as (N1 & N2 & N3 & E1 & E2 & E3).
  subst lists. unfold computeFileLists. simpl.
  set (fileOps := extractFileOps pathOf messages) in *.
  destruct (foldl_setAdd (fo_edited fileOps ++ fo_written fileOps) [] (NoDup_nil_2))
    as [Hnd Hel].
  set (modified := foldl (λ s x, setAdd x s) [] (fo_edited fileOps ++ fo_written fileOps)) in *.
  destruct (sort_spec modified) as (S1 & S2 & S3).
  destruct (sort_spec (filter (λ file, file ∉ modified) (fo_read fileOps))) as (R1 & R2 & R3).
  split_and!.
  - intros f. rewrite S1, Hel, elem_of_app, E2, E3, elem_of_nil. tauto.
  - intros f. rewrite R1, list_elem_of_filter, S1, E1. tauto.
  - apply R2. by apply NoDup_filter.
  - by apply S2.
  - done.
  - done.
Qed.

End Files.

End CompactionFacts.

(** ** The [.env] file (src/session-tool-result-guard.ts, the part on the
    command line) *)

Module EnvFile.
Import Pruning.

(** [content.split] at line feeds. *)
Fixpoint splitLines (content : string) : list string :=
  match content with
  | EmptyString => [EmptyString]
  | String c content' =>
      if Ascii.eqb c "010"%char then EmptyString :: splitLines content'
      else
        match splitLines content' with
        | [] => [String c EmptyString]
        | line :: lines => String c line :: lines
        end
  end.

(** [s.indexOf] of the equals sign: [None] for [-1]. *)
Fixpoint indexOfEq (s : string) : option nat :=
  match s with
  | EmptyString => None
  | String c s' => if Ascii.eqb c "="%char then Some 0%nat else S <$> indexOfEq s'
  end.

(** A double or a single quote. *)
Definition isQuote (c : Ascii.ascii) : bool :=
  Ascii.eqb c (Ascii.ascii_of_nat 34) || Ascii.eqb c (Ascii.ascii_of_nat 39).

(** The second alternative of the pattern of [replace]: a quote at the end
    is removed. *)
Fixpoint stripQuoteAtEnd (s : string) : string :=
  match s with
  | EmptyString => EmptyString
  | String c EmptyString => if isQuote c then EmptyString else s
  | String c s' => String c (stripQuoteAtEnd s')
  end.

(** The [replace] of [loadEnvFile], whose pattern matches a quote at the
    start and a quote at the end, globally: a quote at the start is removed,
    and a quote at the end of what follows it. *)
Definition stripQuotes (s : string) : string :=
  match s with
  | EmptyString => EmptyString
  | String c s' => if isQuote c then stripQuoteAtEnd s' else stripQuoteAtEnd s
  end.

(** [process.env] *)
Abbreviation Env := (gmap string string).

Section WithPrototype.
(** [key in process.env] holds for a variable that is set and also for a
    name that the object inherits ([toString], [constructor] and the like);
    [inherited] tells the inherited names. *)
Variable inherited : string → bool.

(** [key in process.env] *)
Definition inEnv (env : Env) (key : string) : bool :=
  bool_decide (is_Some (env !! key)) || inherited key.

(** The body of the loop of [loadEnvFile]. *)
Definition loadLine (env : Env) (line : string) : Env :=
  let trimmed := trim line in
  if String.eqb trimmed "" || String.prefix "#" trimmed then env
  else
    match indexOfEq trimmed with
    | None => env
    | Some eqIdx =>
        let key := trim (String.substring 0 eqIdx trimmed) in
        let value :=
          stripQuotes
            (trim (String.substring (eqIdx + 1) (String.length trimmed - (eqIdx + 1)) trimmed)) in
        if negb (String.eqb key "") && negb (inEnv env key)
        then <[key := value]> env
        else env
    end.

(** [loadEnvFile(dir)]; [content] is what [fs.readFileSync] returned, [None]
    when it threw. *)
Definition loadEnvFile (content : option string) (env : Env) : Env :=
  match content with
  | None => env
  | Some content => foldl loadLine env (splitLines content)
  end.

End WithPrototype.

(** The variable and the value that a line defines, if it defines one. *)
Definition definitionOf (line : string) : option (string * string) :=
  let trimmed := trim line in
  if String.eqb trimmed "" || String.prefix "#" trimmed then None
  else
    match indexOfEq trimmed with
    | None => None
    | Some eqIdx =>
        let key := trim (String.substring 0 eqIdx trimmed) in
        if String.eqb key "" then None
        else
          Some (key,
                stripQuotes
                  (trim (String.substring (eqIdx + 1)
                           (String.length trimmed - (eqIdx + 1)) trimmed)))
    end.

(** The value of the first line that defines [key]. *)
Definition firstDefinition (key : string) (lines : list string) : option string :=
  head (omap (λ line,
          match definitionOf line with
          | Some (k, v) => if decide (k = key) then Some v else None
          | None => None
          end) lines).

Definition exampleEnvFile : string :=
  "# keys" +:+ LF +:+ "API_KEY='from-file'" +:+ LF +:+ "MODEL = small" +:+ LF +:+
  "API_KEY=second" +:+ LF +:+ "toString=text".

(** Names that every object inherits. *)
Definition objectPrototype (key : string) : bool :=
  bool_decide (key ∈ ["constructor"; "toString"; "valueOf"; "hasOwnProperty";
                      "isPrototypeOf"; "propertyIsEnumerable"; "toLocaleString";
                      "__proto__"; "__defineGetter__"; "__defineSetter__";
                      "__lookupGetter__"; "__lookupSetter__"]).

End EnvFile.

Module EnvFileFacts.
Import Pruning EnvFile.

Section WithPrototype.
Context (inherited : string → bool).

Lemma loadLine_definition env line :
  loadLine inherited env line =
  match definitionOf line with
  | Some (k, v) =>
      if env !! k is Some _ then env else if inherited k then env else <[k := v]> env
  | None => env
  end.
Proof.
  unfold loadLine, definitionOf, inEnv.
  destruct (String.eqb (trim line) "" || String.prefix "#" (trim line)); [done|].
  destruct (indexOfEq (trim line)) as [eqIdx|]; [|done].
  destruct (String.eqb (trim (String.substring 0 eqIdx (trim line))) ""); [done|]. simpl.
  destruct (env !! trim (String.substring 0 eqIdx (trim line))) eqn:E.
  - rewrite bool_decide_eq_true_2 by (by eexists). done.
  - rewrite bool_decide_eq_false_2 by (by intros [? ?]). simpl.
    by destruct (inherited _).
Qed.

(** X28.  Loading the [.env] file never changes a variable that is already set,
    and never sets a name that [process.env] inherits; a variable that is
    neither gets the value of the first line that defines it, and stays unset
    when no line defines it.  When the file cannot be read, the environment is
    unchanged. *)
Theorem env_file_never_overrides content env key :
  loadEnvFile inherited None env = env ∧
  loadEnvFile inherited (Some content) env !! key =
    match env !! key with
    | Some v => Some v
    | None => if inherited key then None else firstDefinition key (splitLines content)
    end.
Proof.
  split; [done|]. unfold loadEnvFile.
  generalize (splitLines content) as lines. intros lines. revert env.
  induction lines as [|line lines IH]; intros env; simpl.
  - destruct (env !! key); [done|]. by destruct (inherited key).
  - rewrite IH, loadLine_definition. unfold firstDefinition. simpl.
    destruct (definitionOf line) as [[k v]|]; [|done].
    destruct (decide (k = key)) as [->|Hne].
    + destruct (env !! key) eqn:E; [by rewrite E|].
      destruct (inherited key); [by rewrite E|]. by rewrite lookup_insert_eq.
    + destruct (env !! k) eqn:E; [done|].
      destruct (inherited k); [done|]. by rewrite lookup_insert_ne.
Qed.

End WithPrototype.

(** The example file sets [API_KEY] from its first definition, leaves a
    variable that is set alone, and does not set [toString]. *)
Lemma exampleEnvFile_loaded :
  let env := loadEnvFile objectPrototype (Some exampleEnvFile) {[ "MODEL" := "large" ]} in
  env !! "API_KEY" = Some "from-file" ∧ env !! "MODEL" = Some "large" ∧
  env !! "toString" = None.
Proof. by vm_compute. Qed.

End EnvFileFacts.
